(** * Record-linkage engine of the match package: a shallow embedding

    The development follows the Go sources of the match engine
    (package [match], package [entities], package [configs]).  Go's [int]
    is a 64-bit two's-complement integer: it is represented by [Z] and
    every addition is wrapped explicitly.  Slices are lists, Go maps are
    [gmap]s, a run-time panic is [None]. *)

From Stdlib Require Import ZArith List Lia Bool QArith.
From stdpp Require Import gmap strings list fin_maps sorting.

Local Open Scope Z_scope.

(** ** Machine integers *)

Definition int_min : Z := - 2 ^ 63.
Definition int_max : Z := 2 ^ 63 - 1.

(** Two's-complement wrap-around of a mathematical integer into [int]. *)
Definition wrap (z : Z) : Z := (z + 2 ^ 63) mod 2 ^ 64 - 2 ^ 63.

(** [a + b] on Go's [int]. *)
Definition add_int (a b : Z) : Z := wrap (a + b).

(** ** [sort.Sort]

    [sort.Sort] is library code.  Its documented contract is all the
    engine may rely on: the result is a rearrangement of the input in
    which no element is [Less] than one in front of it; the order of
    elements that are not ordered by [Less] is not fixed.  [LessOrder]
    is the requirement the library puts on [Less]. *)

Definition not_after {A} (less : A → A → bool) (a b : A) : Prop :=
  less b a = false.

Record LessOrder {A} (less : A → A → bool) : Prop := {
  less_asym : ∀ a b, less a b = true → less b a = false;
  less_negtrans : ∀ a b c, less b a = false → less c b = false → less c a = false
}.

Class GoSort := {
  sort_by : ∀ {A : Type}, (A → A → bool) → list A → list A;
  sort_by_perm : ∀ (A : Type) (less : A → A → bool) (l : list A),
    sort_by less l ≡ₚ l;
  sort_by_sorted : ∀ (A : Type) (less : A → A → bool) (l : list A),
    LessOrder less → StronglySorted (not_after less) (sort_by less l)
}.

(** ** Raw records

    A record is a decoded JSON object, [map[string]interface{}].  Only
    strings and numbers are ever read by the engine; a number is a
    [float64], of which only comparisons are taken, so that it is
    represented by the rational it denotes. *)

Inductive JValue :=
| JString (s : string)
| JNumber (q : Q)
| JOther.

Abbreviation RawItem := (gmap string JValue).

(** [item[key].(string)]: the type assertion panics on a missing key or on
    a value of another type. *)
Definition getString (item : RawItem) (key : string) : option string :=
  match item !! key with
  | Some (JString s) => Some s
  | _ => None
  end.

(** [item[key].(float64)] *)
Definition getNumber (item : RawItem) (key : string) : option Q :=
  match item !! key with
  | Some (JNumber q) => Some q
  | _ => None
  end.

(** [l[i]] for an [int] index; out of range panics. *)
Definition index {A} (l : list A) (i : Z) : option A :=
  if i <? 0 then None else l !! Z.to_nat i.

Module Rules.

(** Modelled from the spec: package [rules] is not part of the sources at
    hand.  The fields are the ones the engine reads ([WeightValue],
    [SelfMatchDisabled], [Key], [IsSeed], [SplitMatch], [IndexRules]); the
    key-extraction function of an index rule (spec section 3) maps a
    record to the key it extracts, if any. *)
Record IndexRule := {
  Extract : RawItem → option string;
  WeightValue : Z;
  SelfMatchDisabled : bool
}.

Record IndexRuleType := {
  Key : Z;
  IsSeed : bool;
  SplitMatch : bool;
  TypeWeightValue : Z;
  IndexRules : list IndexRule
}.

End Rules.

Module Match.
Import Rules.

(** ** Compare results *)

(** Modelled from the spec: the declaration of [CompareResult] is not part
    of the sources at hand; the fields and their order are those of the
    positional literals [CompareResult{left, right, weight}] of
    [addResult] and [newReversedIndexCompareResultList]. *)
Record CompareResult := {
  LeftId : Z;
  RightId : Z;
  Weight : Z
}.

#[global] Instance CompareResult_eq_dec : EqDecision CompareResult.
Proof. solve_decision. Defined.

Definition setWeight (r : CompareResult) (w : Z) : CompareResult :=
  {| LeftId := LeftId r; RightId := RightId r; Weight := w |}.

(** Modelled from the spec: [areIdsEqual], [compareCompareResults] and the
    [sort.Interface] wrappers [ByLeftRight], [ByTopMatch], [ByLeft] and
    [ByRight] are not part of the sources at hand.  A candidate pairing is
    identified by its (source, target) pair (spec section 3); [ByLeftRight]
    orders by source index, then target index; [ByTopMatch] orders by
    source index, then by descending weight, so that the first entry of a
    source is a top match. *)
Definition areIdsEqual (a b : CompareResult) : bool :=
  (LeftId a =? LeftId b) && (RightId a =? RightId b).

Definition compareCompareResults (a b : CompareResult) : Z :=
  if LeftId a <? LeftId b then -1
  else if LeftId b <? LeftId a then 1
  else if RightId a <? RightId b then -1
  else if RightId b <? RightId a then 1
  else 0.

Definition ByLeftRight (a b : CompareResult) : bool :=
  if LeftId a =? LeftId b then RightId a <? RightId b
  else LeftId a <? LeftId b.

Definition ByTopMatch (a b : CompareResult) : bool :=
  if LeftId a =? LeftId b then Weight b <? Weight a
  else LeftId a <? LeftId b.

Definition ByLeft (a b : CompareResult) : bool := LeftId a <? LeftId b.
Definition ByRight (a b : CompareResult) : bool := RightId a <? RightId b.

Definition getLeftId (r : CompareResult) : Z := LeftId r.
Definition getRightId (r : CompareResult) : Z := RightId r.

(** ** Result lists ([unnamed/part_005]) *)

Section ResultList.

Record PostProcess := {
  ppRuleType : IndexRuleType;
  ppRule : IndexRule;
  LeftMap : gmap Z bool;
  RightMap : gmap Z bool;
  Done : gmap Z (gmap Z bool)
}.

Definition setDone (p : PostProcess) (d : gmap Z (gmap Z bool)) : PostProcess :=
  {| ppRuleType := ppRuleType p; ppRule := ppRule p;
     LeftMap := LeftMap p; RightMap := RightMap p; Done := d |}.

Record IndexCompareResultList := {
  RuleType : option (IndexRuleType);
  CompareResults : list CompareResult;
  PostProcessList : list PostProcess
}.

Definition setResults (i : IndexCompareResultList) (l : list CompareResult)
  : IndexCompareResultList :=
  {| RuleType := RuleType i; CompareResults := l;
     PostProcessList := PostProcessList i |}.

Definition setPost (i : IndexCompareResultList) (p : list PostProcess)
  : IndexCompareResultList :=
  {| RuleType := RuleType i; CompareResults := CompareResults i;
     PostProcessList := p |}.

(** [&IndexCompareResultList{}] *)
Definition emptyResultList : IndexCompareResultList :=
  {| RuleType := None; CompareResults := []; PostProcessList := [] |}.

Definition newIndexCompareResultList (ruleType : IndexRuleType)
  : IndexCompareResultList :=
  {| RuleType := Some ruleType; CompareResults := []; PostProcessList := [] |}.

Definition reverseResult (r : CompareResult) : CompareResult :=
  {| LeftId := RightId r; RightId := LeftId r; Weight := Weight r |}.

Definition newReversedIndexCompareResultList (sourceList : list CompareResult)
  : list CompareResult :=
  map reverseResult sourceList.

Definition addResult (i : IndexCompareResultList) (s t w : Z)
  : IndexCompareResultList :=
  setResults i (CompareResults i ++ [{| LeftId := s; RightId := t; Weight := w |}]).

(** Reading a [map[int]bool] yields [false] for an absent key. *)
Definition mapBool (m : gmap Z bool) (k : Z) : bool := default false (m !! k).

(** [addPostProcess]: the two index lists become the sets [LeftMap] and
    [RightMap], [Done] starts empty, and the entry is appended. *)
Definition addPostProcess (i : IndexCompareResultList) (ruleType : IndexRuleType)
  (rule : IndexRule) (leftList rightList : list Z) : IndexCompareResultList :=
  let postProcess :=
    {| ppRuleType := ruleType; ppRule := rule;
       LeftMap := fold_left (λ m id, <[id := true]> m) leftList ∅;
       RightMap := fold_left (λ m id, <[id := true]> m) rightList ∅;
       Done := ∅ |} in
  setPost i (PostProcessList i ++ [postProcess]).

(** One iteration of the loop of [postProcess] on [PostProcessList[idx]];
    the state is the running total, the keep flag and the entry itself
    (its [Done] map is shared with the list and updated in place). *)
Definition postProcessStep (pp : PostProcess) (st : CompareResult * bool)
  : PostProcess * (CompareResult * bool) :=
  let '(prevTotal, keepRecord) := st in
  let alreadyDone :=
    match Done pp !! LeftId prevTotal with
    | Some leftDoneMap =>
        match leftDoneMap !! RightId prevTotal with
        | Some isDone => isDone
        | None => false
        end
    | None => false
    end in
  if alreadyDone then (pp, st)
  else
    let done1 :=
      match Done pp !! LeftId prevTotal with
      | Some _ => Done pp
      | None => <[LeftId prevTotal := ∅]> (Done pp)
      end in
    let st' :=
      if mapBool (LeftMap pp) (LeftId prevTotal)
         && mapBool (RightMap pp) (RightId prevTotal)
      then (setWeight prevTotal (add_int (Weight prevTotal) (WeightValue (ppRule pp))),
            keepRecord)
      else if SplitMatch (ppRuleType pp) then (prevTotal, false)
      else (prevTotal, keepRecord) in
    let inner := default ∅ (done1 !! LeftId prevTotal) in
    let done2 := <[LeftId prevTotal := <[RightId prevTotal := true]> inner]> done1 in
    (setDone pp done2, st').

Fixpoint postProcess (ppl : list PostProcess) (st : CompareResult * bool)
  : list PostProcess * (CompareResult * bool) :=
  match ppl with
  | [] => ([], st)
  | pp :: rest =>
      let '(pp', st') := postProcessStep pp st in
      let '(rest', st'') := postProcess rest st' in
      (pp' :: rest', st'')
  end.

(** The closure [addRecord] of [sumMatchWeightValues]. *)
Definition addRecord (splitMatch : bool) (maxMatchValue : Z)
  (prevTotal : CompareResult) (ppl : list PostProcess) (summed : list CompareResult)
  : list PostProcess * list CompareResult :=
  if splitMatch && (Weight prevTotal <? maxMatchValue) then (ppl, summed)
  else
    let '(ppl', (total, keepRecord)) := postProcess ppl (prevTotal, true) in
    if keepRecord then (ppl', summed ++ [total]) else (ppl', summed).

(** The loop of [sumMatchWeightValues]: [a] is [CompareResults[aI]], the
    list holds [CompareResults[bI:]]. *)
Fixpoint sumLoop (splitMatch : bool) (maxMatchValue : Z)
  (a prevTotal : CompareResult) (rest : list CompareResult)
  (ppl : list PostProcess) (summed : list CompareResult)
  : list PostProcess * list CompareResult :=
  match rest with
  | [] => addRecord splitMatch maxMatchValue prevTotal ppl summed
  | b :: rest' =>
      if areIdsEqual a b
      then sumLoop splitMatch maxMatchValue b
             (setWeight prevTotal (add_int (Weight prevTotal) (Weight b)))
             rest' ppl summed
      else
        let '(ppl', summed') :=
          addRecord splitMatch maxMatchValue prevTotal ppl summed in
        sumLoop splitMatch maxMatchValue b b rest' ppl' summed'
  end.

Fixpoint getMaxWeightFrom (maxWeight : Z) (l : list CompareResult) : Z :=
  match l with
  | [] => maxWeight
  | result :: l' =>
      getMaxWeightFrom (if maxWeight <? Weight result then Weight result else maxWeight) l'
  end.

Definition getMaxWeight (i : IndexCompareResultList) : Z :=
  getMaxWeightFrom 0 (CompareResults i).

Definition elevateWeight (i : IndexCompareResultList) (lowerMaxWeight : Z)
  : IndexCompareResultList :=
  setResults i
    (map (λ r, setWeight r (add_int (Weight r) lowerMaxWeight)) (CompareResults i)).

Context `{GoSort}.

Definition sortResults (i : IndexCompareResultList) : IndexCompareResultList :=
  setResults i (sort_by ByLeftRight (CompareResults i)).

Definition sumMatchWeightValues (splitMatch : bool) (maxMatchValue : Z)
  (i : IndexCompareResultList) : IndexCompareResultList :=
  match CompareResults i with
  | [] | [_] => i
  | _ =>
      match sort_by ByLeftRight (CompareResults i) with
      | [] => setResults i []
      | first :: rest =>
          let '(ppl, summed) :=
            sumLoop splitMatch maxMatchValue first first rest (PostProcessList i) [] in
          setPost (setResults i summed) ppl
      end
  end.

(** [MergeRemainingWeightType] updates both result lists: the receiver and
    the list carried over from the previous tier. *)
Definition MergeRemainingWeightType (i remainingResults : IndexCompareResultList)
  : IndexCompareResultList * IndexCompareResultList :=
  let i1 := sumMatchWeightValues false 0 i in
  let lowerMaxWeight := getMaxWeight i1 in
  let remaining' := elevateWeight remainingResults lowerMaxWeight in
  let i2 := setResults i1 (CompareResults i1 ++ CompareResults remaining') in
  (sortResults i2, remaining').

(** [keepTopMatchesOnly]: the loop over the list sorted by [ByTopMatch]. *)
Fixpoint keepTopLoop (prevTop : CompareResult) (l : list CompareResult)
  : list CompareResult :=
  match l with
  | [] => []
  | result :: l' =>
      if LeftId result =? LeftId prevTop
      then if Weight result =? Weight prevTop
           then result :: keepTopLoop prevTop l'
           else keepTopLoop prevTop l'
      else result :: keepTopLoop result l'
  end.

Definition keepTopMatchesOnly (l : list CompareResult) : list CompareResult :=
  match l with
  | [] => l
  | _ =>
      match sort_by ByTopMatch l with
      | [] => []
      | first :: rest => keepTopLoop first (first :: rest)
      end
  end.

(** [reduceBothForwardAndBackward] returns the reversed list and leaves the
    doubly reduced list in the receiver. *)
Definition reduceBothForwardAndBackward (i : IndexCompareResultList)
  : IndexCompareResultList * list CompareResult :=
  let forward := keepTopMatchesOnly (CompareResults i) in
  let reverseResults := keepTopMatchesOnly (newReversedIndexCompareResultList forward) in
  (setResults i (newReversedIndexCompareResultList reverseResults), reverseResults).

(** [getUniqueMatchItems]: the loop over the list sorted by [ByLeftRight];
    [prevTotalSeen] never exceeds the length of the slice. *)
Definition extractUniqueMatch (prevResult : CompareResult) (prevTotalSeen : nat)
  : list CompareResult :=
  if (prevTotalSeen =? 1)%nat then [prevResult] else [].

Fixpoint uniqueLoop (prevResult : CompareResult) (prevTotalSeen : nat)
  (l : list CompareResult) : list CompareResult :=
  match l with
  | [] => extractUniqueMatch prevResult prevTotalSeen
  | compareResult :: l' =>
      if LeftId compareResult =? LeftId prevResult
      then uniqueLoop prevResult (S prevTotalSeen) l'
      else extractUniqueMatch prevResult prevTotalSeen ++ uniqueLoop compareResult 1 l'
  end.

Definition getUniqueMatchItems (i : IndexCompareResultList)
  : IndexCompareResultList * list CompareResult :=
  match CompareResults i with
  | [] => (i, [])
  | _ =>
      match sort_by ByLeftRight (CompareResults i) with
      | [] => (setResults i [], [])
      | first :: rest => (sortResults i, uniqueLoop first 1 rest)
      end
  end.

(** The merge walk of [trimUniqueMatches]: the entries of the current list
    that are written to [trimmedList], in order. *)
Fixpoint trimLoop (cur : list CompareResult) : list CompareResult → list CompareResult :=
  match cur with
  | [] => λ _, []
  | c :: cur' =>
      fix walk (sgl : list CompareResult) : list CompareResult :=
        match sgl with
        | [] => c :: trimLoop cur' []
        | u :: sgl' =>
            let diff := compareCompareResults c u in
            if diff <? 0 then c :: trimLoop cur' sgl
            else if diff =? 0 then trimLoop cur' sgl'
            else walk sgl'
        end
  end.

Definition zeroResult : CompareResult := {| LeftId := 0; RightId := 0; Weight := 0 |}.

(** [trimUniqueMatches] panics when [make] is given a negative length or
    when [trimmedList] is written past its end; slots never written keep
    the zero value.  Both slices are sorted in place: the sorted
    [uniqueMatchItems] is returned next to the receiver. *)
Definition trimUniqueMatches (i : IndexCompareResultList)
  (uniqueMatchItems : list CompareResult)
  : option (IndexCompareResultList * list CompareResult) :=
  if (length (CompareResults i) <? length uniqueMatchItems)%nat then None
  else
    let newLen := (length (CompareResults i) - length uniqueMatchItems)%nat in
    let cur := sort_by ByLeftRight (CompareResults i) in
    let sgl := sort_by ByLeftRight uniqueMatchItems in
    let kept := trimLoop cur sgl in
    if (newLen <? length kept)%nat then None
    else Some (setResults i (kept ++ replicate (newLen - length kept) zeroResult), sgl).

(** Modelled from the spec: [extractUniqueTopMatch] is not part of the
    sources at hand.  Section 4.4, step 6: a pair is a unique top match
    when its target is the single strictly-highest-weight candidate of its
    source and its source is the single strictly-highest-weight candidate
    of its target; the candidate pool itself is left as it is (step 8
    removes the committed pairs from it afterwards). *)
Definition outranks (r o : CompareResult) : bool :=
  areIdsEqual o r || (Weight o <? Weight r).

Definition topForSource (l : list CompareResult) (r : CompareResult) : bool :=
  forallb (λ o, if LeftId o =? LeftId r then outranks r o else true) l.

Definition topForTarget (l : list CompareResult) (r : CompareResult) : bool :=
  forallb (λ o, if RightId o =? RightId r then outranks r o else true) l.

Definition extractUniqueTopMatch (i : IndexCompareResultList) : list CompareResult :=
  List.filter
    (λ r, topForSource (CompareResults i) r && topForTarget (CompareResults i) r)
    (CompareResults i).

Definition ProcessMatches (splitMatch : bool) (maxMatchValue : Z)
  (i : IndexCompareResultList)
  : option (IndexCompareResultList * list CompareResult) :=
  match CompareResults i with
  | [] => Some (i, [])
  | _ =>
      let i1 := sumMatchWeightValues splitMatch maxMatchValue i in
      let uniqueTopMatches := extractUniqueTopMatch i1 in
      trimUniqueMatches i1 uniqueTopMatches
  end.

End ResultList.

(** ** Match processing context (the Go file bundled with [build_win_linux.sh]) *)

Record EntityType := {
  EntitiesType : string;
  From : string;
  To : string
}.

(** [CurrentRemainingMatch] is a pointer: after
    [PrepareRemainingMatch(true, true, _)] it is the address of the
    [RemainingMatch] field itself, so that later updates of that field are
    seen through it; otherwise it points to a list of its own. *)
Inductive CurrentRef :=
| CurrentNil
| CurrentIsRemaining
| CurrentOwn (l : list Z).

(** Modelled from the spec: the declaration of [MatchProcessingEnv] is not
    part of the sources at hand; the fields are the ones read and written
    by [NewMatchProcessing], [PrepareRemainingMatch] and the writers. *)
Record MatchProcessingEnv := {
  RawMatchList : list RawItem;
  ConfigType : EntityType;
  RemainingMatch : list Z;
  CurrentRemainingMatch : CurrentRef
}.

Record MatchProcessing := {
  Source : MatchProcessingEnv;
  Target : MatchProcessingEnv;
  matchedMap : gmap Z Z
}.

(** [*e.CurrentRemainingMatch]; dereferencing a nil pointer panics. *)
Definition currentRemaining (e : MatchProcessingEnv) : option (list Z) :=
  match CurrentRemainingMatch e with
  | CurrentNil => None
  | CurrentIsRemaining => Some (RemainingMatch e)
  | CurrentOwn l => Some l
  end.

Definition setRemaining (e : MatchProcessingEnv) (l : list Z) : MatchProcessingEnv :=
  {| RawMatchList := RawMatchList e; ConfigType := ConfigType e;
     RemainingMatch := l; CurrentRemainingMatch := CurrentRemainingMatch e |}.

Definition setCurrent (e : MatchProcessingEnv) (c : CurrentRef) : MatchProcessingEnv :=
  {| RawMatchList := RawMatchList e; ConfigType := ConfigType e;
     RemainingMatch := RemainingMatch e; CurrentRemainingMatch := c |}.

Definition setSource (m : MatchProcessing) (e : MatchProcessingEnv) : MatchProcessing :=
  {| Source := e; Target := Target m; matchedMap := matchedMap m |}.

Definition setTarget (m : MatchProcessing) (e : MatchProcessingEnv) : MatchProcessing :=
  {| Source := Source m; Target := e; matchedMap := matchedMap m |}.

Definition genRemainingMatchList (rawMatchList : list RawItem) : list Z :=
  map Z.of_nat (seq 0 (length rawMatchList)).

(** [RawMatchList] is an interface: its [Sort] method is that of the
    record container handed in. *)
Class RawMatchListSort := {
  rawSort : list RawItem → option (list RawItem)
}.

Definition NewMatchProcessing `{RawMatchListSort}
  (rawMatchListSource : list RawItem) (SourceType : EntityType)
  (rawMatchListTarget : list RawItem) (TargetType : EntityType)
  : option MatchProcessing :=
  sortedSource ← rawSort rawMatchListSource;
  sortedTarget ← rawSort rawMatchListTarget;
  Some {| Source := {| RawMatchList := sortedSource;
                       ConfigType := SourceType;
                       RemainingMatch := genRemainingMatchList sortedSource;
                       CurrentRemainingMatch := CurrentNil |};
          Target := {| RawMatchList := sortedTarget;
                       ConfigType := TargetType;
                       RemainingMatch := genRemainingMatchList sortedTarget;
                       CurrentRemainingMatch := CurrentNil |};
          matchedMap := ∅ |}.

(** The [Sort] method of a record container ([RawConfigsList.Sort] in
    [unnamed/part_004]): [sort.Sort] by the identifier of the records; the
    type assertion in [Less] panics on a record without identifier. *)
Definition ByRawItemId (idKey : string) (a b : RawItem) : bool :=
  String.ltb (default "" (getString a idKey)) (default "" (getString b idKey)).

Definition sortById `{GoSort} (idKey : string) : RawMatchListSort := {|
  rawSort := λ values,
    match values with
    | [] | [_] => Some values
    | _ =>
        if forallb (λ item, bool_decide (is_Some (getString item idKey))) values
        then Some (sort_by (ByRawItemId idKey) values)
        else None
    end
|}.

(** [GetEntitiesType]; the writers call it under the name [GetType]. *)
Definition isZeroEntityType (t : EntityType) : bool :=
  String.eqb (EntitiesType t) "" && String.eqb (From t) "" && String.eqb (To t) "".

Definition GetEntitiesType (e : MatchProcessing) : string :=
  if isZeroEntityType (ConfigType (Target e))
  then EntitiesType (ConfigType (Source e))
  else EntitiesType (ConfigType (Target e)).

(** Modelled from the spec: [reduceRemainingMatchList] is not part of the
    sources at hand.  Section 4.3: the matched indices, sorted, are
    subtracted from the remaining indices by a sort-and-filter walk; the
    operation fails if an index is removed that is not in "remaining". *)
Fixpoint subtractSorted (remaining ids : list Z) : option (list Z) :=
  match remaining, ids with
  | _, [] => Some remaining
  | [], _ :: _ => None
  | r :: remaining', id :: ids' =>
      if r <? id then (r ::.) <$> subtractSorted remaining' ids
      else if r =? id then subtractSorted remaining' ids'
      else None
  end.

Definition reduceRemainingMatchList (e : MatchProcessingEnv)
  (uniqueMatch : list CompareResult) (getId : CompareResult → Z)
  : option MatchProcessingEnv :=
  setRemaining e <$> subtractSorted (RemainingMatch e) (map getId uniqueMatch).

(** Modelled from the spec: [genSeededMatch] and [genUnSeededMatch] are not
    part of the sources at hand.  Section 4.3: "keep seeded" restricts the
    remaining indices to those appearing in the supplied result list,
    "keep unseeded" restricts them to the complement. *)
Definition genSeededMatch (e : MatchProcessingEnv)
  (results : list CompareResult) (getId : CompareResult → Z) : MatchProcessingEnv :=
  setCurrent e
    (CurrentOwn (List.filter (λ x, bool_decide (x ∈ map getId results)) (RemainingMatch e))).

Definition genUnSeededMatch (e : MatchProcessingEnv)
  (results : list CompareResult) (getId : CompareResult → Z) : MatchProcessingEnv :=
  setCurrent e
    (CurrentOwn (List.filter (λ x, negb (bool_decide (x ∈ map getId results))) (RemainingMatch e))).

(** ** Index rules ([pkg/match/index_rules.go]) *)

Definition ByWeightTypeValue (a b : IndexRuleType) : bool :=
  TypeWeightValue b <? TypeWeightValue a.

Record IndexRuleMapGenerator := {
  SelfMatch : bool;
  baseRuleList : list IndexRuleType
}.

Definition NewIndexRuleMapGenerator (selfMatch : bool) (ruleList : list IndexRuleType)
  : IndexRuleMapGenerator :=
  {| SelfMatch := selfMatch; baseRuleList := ruleList |}.

(** The body of the loop of [genActiveList] for the tier at position [idx]. *)
Definition activeRuleType (selfMatch : bool) (idx : Z) (confType : IndexRuleType)
  : IndexRuleType :=
  {| Key := idx;
     IsSeed := IsSeed confType;
     SplitMatch := SplitMatch confType;
     TypeWeightValue := TypeWeightValue confType;
     IndexRules :=
       List.filter (λ conf, negb (SelfMatchDisabled conf && selfMatch))
         (IndexRules confType) |}.

Fixpoint genActiveListFrom (selfMatch : bool) (idx : Z) (l : list IndexRuleType)
  : list IndexRuleType :=
  match l with
  | [] => []
  | confType :: l' =>
      let ruleType := activeRuleType selfMatch idx confType in
      if (1 <=? length (IndexRules ruleType))%nat
      then ruleType :: genActiveListFrom selfMatch (idx + 1) l'
      else genActiveListFrom selfMatch (idx + 1) l'
  end.

Definition genActiveList (i : IndexRuleMapGenerator) : list IndexRuleType :=
  genActiveListFrom (SelfMatch i) 0 (baseRuleList i).

(** [keepMatches]; the flag next to the map records whether the error
    "Should never find multiple exact matches for an entity" was logged. *)
Definition keepMatch (st : gmap Z Z * bool) (result : CompareResult) : gmap Z Z * bool :=
  let '(matchedEntities, logged) := st in
  let found := bool_decide (is_Some (matchedEntities !! LeftId result)) in
  (<[LeftId result := RightId result]> matchedEntities, logged || found).

Definition keepMatches (matchedEntities : gmap Z Z * bool)
  (uniqueMatch : list CompareResult) : gmap Z Z * bool :=
  fold_left keepMatch uniqueMatch matchedEntities.

(** The helpers of [runIndexRule] that build and walk the sorted indexes
    are not part of the sources at hand; they are taken as parameters.
    [compareIndexes] receives the result list by pointer and answers
    whether the rule needs post-processing. *)
Class IndexCompare := {
  IndexEntry : Type;
  genSortedItemsIndex : IndexRule → MatchProcessingEnv → list IndexEntry;
  compareIndexes : IndexCompareResultList → list IndexEntry → list IndexEntry →
                   IndexRule → IndexRuleType → IndexCompareResultList * bool
}.

(** Modelled from the spec: [genSortedItemsIndex] and [compareIndexes] are
    not part of the sources at hand.  Section 4.4, steps 1 and 2: the
    index of a rule lists the current remaining records that have a key,
    sorted by that key; every source and target entry with equal keys
    yields a compare result with the weight of the rule.  Nothing is said
    of post-processing: none is asked for. *)
Definition specIndexEntries (indexRule : IndexRule) (e : MatchProcessingEnv)
  : list (string * Z) :=
  omap (λ i, item ← index (RawMatchList e) i;
             key ← Extract indexRule item;
             Some (key, i))
       (default [] (currentRemaining e)).

Definition specCompareIndexes (resultList : IndexCompareResultList)
  (indexSource indexTarget : list (string * Z)) (indexRule : IndexRule)
  (indexRuleType : IndexRuleType) : IndexCompareResultList * bool :=
  (fold_left
     (λ acc st, addResult acc st.1 st.2 (WeightValue indexRule))
     (flat_map
        (λ s, omap (λ t, if String.eqb s.1 t.1 then Some (s.2, t.2) else None)
                indexTarget)
        indexSource)
     resultList,
   false).

Definition specIndexCompare `{GoSort} : IndexCompare := {|
  IndexEntry := string * Z;
  genSortedItemsIndex := λ indexRule e,
    sort_by (λ a b, String.ltb a.1 b.1) (specIndexEntries indexRule e);
  compareIndexes := specCompareIndexes
|}.

Section Engine.
Context `{GoSort} `{IndexCompare}.

Definition genSortedActiveList (i : IndexRuleMapGenerator) : list IndexRuleType :=
  sort_by ByWeightTypeValue (genActiveList i).

Definition adjustremainingMatch (e : MatchProcessing) (uniqueMatch : list CompareResult)
  : option (MatchProcessing * list CompareResult) :=
  let byLeft := sort_by ByLeft uniqueMatch in
  source ← reduceRemainingMatchList (Source e) byLeft getLeftId;
  let byRight := sort_by ByRight byLeft in
  target ← reduceRemainingMatchList (Target e) byRight getRightId;
  Some (setTarget (setSource e source) target, byRight).

(** [PrepareRemainingMatch] sorts the result list it is given in place. *)
Definition PrepareRemainingMatch (keepSeeded keepUnseeded : bool)
  (e : MatchProcessing) (resultList : IndexCompareResultList)
  : MatchProcessing * IndexCompareResultList :=
  if keepSeeded && keepUnseeded then
    (setTarget (setSource e (setCurrent (Source e) CurrentIsRemaining))
       (setCurrent (Target e) CurrentIsRemaining),
     resultList)
  else if keepSeeded then
    let byLeft := sort_by ByLeft (CompareResults resultList) in
    let source := genSeededMatch (Source e) byLeft getLeftId in
    let byRight := sort_by ByRight byLeft in
    let target := genSeededMatch (Target e) byRight getRightId in
    (setTarget (setSource e source) target, setResults resultList byRight)
  else if keepUnseeded then
    let byLeft := sort_by ByLeft (CompareResults resultList) in
    let source := genUnSeededMatch (Source e) byLeft getLeftId in
    let byRight := sort_by ByRight byLeft in
    let target := genUnSeededMatch (Target e) byRight getRightId in
    (setTarget (setSource e source) target, setResults resultList byRight)
  else (e, resultList).

Definition runIndexRule (indexRule : IndexRule) (indexRuleType : IndexRuleType)
  (e : MatchProcessing) (resultList : IndexCompareResultList)
  : IndexCompareResultList * bool :=
  let sortedIndexSource := genSortedItemsIndex indexRule (Source e) in
  let sortedIndexTarget := genSortedItemsIndex indexRule (Target e) in
  let '(resultList', needsPostProcessing) :=
    compareIndexes resultList sortedIndexSource sortedIndexTarget indexRule indexRuleType in
  let countsTowardsMax :=
    if needsPostProcessing then false
    else if (0 <? length sortedIndexSource)%nat || (0 <? length sortedIndexTarget)%nat
    then true else false in
  (resultList', countsTowardsMax).

(** The inner loop of [RunIndexRuleAll] over the rules of one tier. *)
Fixpoint runRules (rules : list IndexRule) (indexRuleType : IndexRuleType)
  (e : MatchProcessing) (resultList : IndexCompareResultList) (maxMatchValue : Z)
  : IndexCompareResultList * Z :=
  match rules with
  | [] => (resultList, maxMatchValue)
  | indexRule :: rules' =>
      let '(resultList', countsTowardsMax) :=
        runIndexRule indexRule indexRuleType e resultList in
      runRules rules' indexRuleType e resultList'
        (if countsTowardsMax then add_int maxMatchValue (WeightValue indexRule)
         else maxMatchValue)
  end.

(** The state carried round the outer loop of [RunIndexRuleAll]. *)
Record RunState := {
  processing : MatchProcessing;
  remainingResults : IndexCompareResultList;
  matchedEntities : gmap Z Z * bool
}.

(** One pass of the outer loop of [RunIndexRuleAll]. *)
Definition runTier (indexRuleType : IndexRuleType) (st : RunState) : option RunState :=
  let resultList := newIndexCompareResultList indexRuleType in
  let '(e1, remaining1) :=
    PrepareRemainingMatch true (IsSeed indexRuleType) (processing st) (remainingResults st) in
  let '(resultList1, maxMatchValue) :=
    runRules (IndexRules indexRuleType) indexRuleType e1 resultList 0 in
  let '(resultList2, _) := MergeRemainingWeightType resultList1 remaining1 in
  '(resultList3, uniqueMatchEntities) ←
    ProcessMatches (SplitMatch indexRuleType) maxMatchValue resultList2;
  '(e2, uniqueMatchEntities') ← adjustremainingMatch e1 uniqueMatchEntities;
  Some {| processing := e2;
          remainingResults := resultList3;
          matchedEntities := keepMatches (matchedEntities st) uniqueMatchEntities' |}.

Fixpoint runTiers (ruleTypes : list IndexRuleType) (st : RunState) : option RunState :=
  match ruleTypes with
  | [] => Some st
  | indexRuleType :: ruleTypes' =>
      st' ← runTier indexRuleType st;
      runTiers ruleTypes' st'
  end.

(** [RunIndexRuleAll] returns the leftover result list and the matched
    map; the final state holds them next to the processing context, which
    is updated in place, and the record of the errors logged. *)
Definition initialRunState (e : MatchProcessing) : RunState :=
  {| processing := e; remainingResults := emptyResultList;
     matchedEntities := (∅, false) |}.

Definition RunIndexRuleAll (i : IndexRuleMapGenerator) (e : MatchProcessing)
  : option RunState :=
  runTiers (genSortedActiveList i) (initialRunState e).

End Engine.

End Match.

(** ** The result list without post-processing
       ([pkg/match/index_compare_rule_list.go])

    This file declares the same result list without [RuleType] and
    [PostProcessList]; its functions are those of [unnamed/part_005] word
    for word, except for [sumMatchWeightValues], whose [addRecord] has no
    post-processing step. *)
Module Plain.
Import Match.

Definition addRecord (splitMatch : bool) (maxMatchValue : Z)
  (prevTotal : CompareResult) (summedMatchResults : list CompareResult)
  : list CompareResult :=
  let keepRecord := if splitMatch && (Weight prevTotal <? maxMatchValue) then false else true in
  if keepRecord then summedMatchResults ++ [prevTotal] else summedMatchResults.

Fixpoint sumLoop (splitMatch : bool) (maxMatchValue : Z)
  (a prevTotal : CompareResult) (rest : list CompareResult)
  (summedMatchResults : list CompareResult) : list CompareResult :=
  match rest with
  | [] => addRecord splitMatch maxMatchValue prevTotal summedMatchResults
  | b :: rest' =>
      if areIdsEqual a b
      then sumLoop splitMatch maxMatchValue b
             (setWeight prevTotal (add_int (Weight prevTotal) (Weight b)))
             rest' summedMatchResults
      else sumLoop splitMatch maxMatchValue b b rest'
             (addRecord splitMatch maxMatchValue prevTotal summedMatchResults)
  end.

Definition sumMatchWeightValues `{GoSort} (splitMatch : bool) (maxMatchValue : Z)
  (compareResults : list CompareResult) : list CompareResult :=
  match compareResults with
  | [] | [_] => compareResults
  | _ =>
      match sort_by ByLeftRight compareResults with
      | [] => []
      | first :: rest => sumLoop splitMatch maxMatchValue first first rest []
      end
  end.

End Plain.

(** ** Ranging over a Go map

    A [for ... range] loop over a map visits every entry once, in an order
    that the language leaves open and that may differ from one loop to the
    next: the order is given by an oracle indexed by the loop. *)
Class MapRange := {
  range_of : ∀ {K : Type} `{Countable K} {V : Type}, nat → gmap K V → list (K * V);
  range_of_perm : ∀ (K : Type) `{Countable K} (V : Type) (site : nat) (m : gmap K V),
    range_of site m ≡ₚ map_to_list m
}.

Module Entities.
Import Rules Match.

(** ** Output assembly for entities ([pkg/match/entities/match_entities_writer.go]) *)

Record ExtractionInfo := {
  InfoFrom : string;
  InfoTo : string
}.

Record MatchKey := {
  KeySource : ExtractionInfo;
  KeyTarget : ExtractionInfo
}.

Record MatchOutputType := {
  Type_ : string;
  MatchKey_ : MatchKey;
  Matches : gmap string string;
  MultiMatched : gmap string (list string);
  UnMatched : list string
}.

(** [MatchOutputType{}] *)
Definition emptyOutput : MatchOutputType :=
  {| Type_ := "";
     MatchKey_ := {| KeySource := {| InfoFrom := ""; InfoTo := "" |};
                     KeyTarget := {| InfoFrom := ""; InfoTo := "" |} |};
     Matches := ∅; MultiMatched := ∅; UnMatched := [] |}.

Definition entityId (items : list RawItem) (i : Z) : option string :=
  item ← index items i; getString item "entityId".

Definition firstSeenTms (items : list RawItem) (i : Z) : option Q :=
  item ← index items i; getNumber item "firstSeenTms".

(** [printMultiMatchedSample] only logs, but it indexes both record lists
    for the first ten results. *)
Definition printMultiMatchedSample (results : list CompareResult) (e : MatchProcessing)
  : option unit :=
  mapM (λ result,
          _ ← index (RawMatchList (Source e)) (LeftId result);
          _ ← index (RawMatchList (Target e)) (RightId result);
          Some tt)
       (take 10 results) ≫= λ _, Some tt.

(** The loop over [j] of the closure [addMatchingMultiMatched]: the state
    is [bestFirstSeen], [matchedByFirstSeen] and the prefix of
    [multiMatchedMatches] filled so far. *)
Fixpoint firstSeenLoop (e : MatchProcessing) (entityIdSource : string)
  (group : list CompareResult)
  (st : Q * gmap string string * list string)
  : option (Q * gmap string string * list string) :=
  match group with
  | [] => Some st
  | compareResult :: group' =>
      let '(bestFirstSeen, matchedByFirstSeen, multiMatchedMatches) := st in
      let targetId := RightId compareResult in
      entityIdTarget ← entityId (RawMatchList (Target e)) targetId;
      firstSeen ← firstSeenTms (RawMatchList (Target e)) targetId;
      let st' :=
        if Qlt_le_dec bestFirstSeen firstSeen
        then (firstSeen, <[entityIdSource := entityIdTarget]> matchedByFirstSeen,
              multiMatchedMatches ++ [entityIdTarget])
        else (bestFirstSeen, matchedByFirstSeen, multiMatchedMatches ++ [entityIdTarget]) in
      firstSeenLoop e entityIdSource group' st'
  end.

(** The closure [addMatchingMultiMatched]; [group] is
    [CompareResults[firstIdx : firstIdx+matchCount]]. *)
Definition addMatchingMultiMatched (e : MatchProcessing) (prevMatches : MatchOutputType)
  (currentId : Z) (group : list CompareResult)
  (st : gmap string (list string) * gmap string string)
  : option (gmap string (list string) * gmap string string) :=
  let '(multiMatched, matchedByFirstSeen) := st in
  entityIdSource ← entityId (RawMatchList (Source e)) currentId;
  match Matches prevMatches !! entityIdSource with
  | Some _ => Some st
  | None =>
      '(_, matchedByFirstSeen', multiMatchedMatches) ←
        firstSeenLoop e entityIdSource group (0%Q, matchedByFirstSeen, []);
      Some (<[entityIdSource := multiMatchedMatches]> multiMatched, matchedByFirstSeen')
  end.

(** The loop over [i] of [genMultiMatchedMap], followed by the call for the
    last group. *)
Fixpoint groupLoop (e : MatchProcessing) (prevMatches : MatchOutputType)
  (currentId : Z) (group rest : list CompareResult)
  (st : gmap string (list string) * gmap string string)
  : option (gmap string (list string) * gmap string string) :=
  match rest with
  | [] => addMatchingMultiMatched e prevMatches currentId group st
  | result :: rest' =>
      if LeftId result =? currentId
      then groupLoop e prevMatches currentId (group ++ [result]) rest' st
      else
        st' ← addMatchingMultiMatched e prevMatches currentId group st;
        groupLoop e prevMatches (LeftId result) [result] rest' st'
  end.

(** The first loop over [matchedByFirstSeen]. *)
Definition blockStep (st : gmap string string * gmap string bool)
  (entry : string * string) : gmap string string * gmap string bool :=
  let '(reverseMatches, blockedSource) := st in
  let '(entityIdSource, entityIdTarget) := entry in
  match reverseMatches !! entityIdTarget with
  | Some entityIdSourceReverse =>
      (reverseMatches,
       <[entityIdSource := true]> (<[entityIdSourceReverse := true]> blockedSource))
  | None => (<[entityIdTarget := entityIdSource]> reverseMatches, blockedSource)
  end.

(** The second loop over [matchedByFirstSeen]. *)
Definition finalStep (blockedSource : gmap string bool)
  (final : gmap string string) (entry : string * string) : gmap string string :=
  let '(entityIdSource, entityIdTarget) := entry in
  match blockedSource !! entityIdSource with
  | Some true => final
  | _ => <[entityIdSource := entityIdTarget]> final
  end.

Section Writer.
Context `{GoSort} `{MapRange}.

(** The candidate chosen per source before the blocking pass. *)
Definition genMatchedByFirstSeen (results : list CompareResult) (e : MatchProcessing)
  (prevMatches : MatchOutputType)
  : option (gmap string (list string) * gmap string string) :=
  _ ← printMultiMatchedSample results e;
  match results with
  | [] => Some (∅, ∅)
  | first :: rest => groupLoop e prevMatches (LeftId first) [first] rest (∅, ∅)
  end.

Definition blockConflicts (matchedByFirstSeen : gmap string string) : gmap string string :=
  let '(_, blockedSource) :=
    fold_left blockStep (range_of 0%nat matchedByFirstSeen) (∅, ∅) in
  fold_left (finalStep blockedSource) (range_of 1%nat matchedByFirstSeen) ∅.

Definition genMultiMatchedMap (results : list CompareResult) (e : MatchProcessing)
  (prevMatches : MatchOutputType)
  : option (gmap string (list string) * gmap string string) :=
  '(multiMatched, matchedByFirstSeen) ← genMatchedByFirstSeen results e prevMatches;
  match results with
  | [] => Some (multiMatched, matchedByFirstSeen)
  | _ => Some (multiMatched, blockConflicts matchedByFirstSeen)
  end.

(** The closure [isAlreadyMatched] together with the assignment that
    follows it in each of the three loops; the state is
    [matchOutput.Matches] and [reverseMatches]. *)
Definition isAlreadyMatched (st : gmap string string * gmap string string)
  (entityIdSource entityIdTarget : string)
  : bool * (gmap string string * gmap string string) :=
  let '(matches, reverseMatches) := st in
  match matches !! entityIdSource with
  | Some _ => (true, st)
  | None =>
      match reverseMatches !! entityIdTarget with
      | Some _ => (true, st)
      | None => (false, (matches, <[entityIdTarget := entityIdSource]> reverseMatches))
      end
  end.

Definition assign (st : gmap string string * gmap string string)
  (entry : string * string) : gmap string string * gmap string string :=
  let '(entityIdSource, entityIdTarget) := entry in
  let '(already, (matches, reverseMatches)) :=
    isAlreadyMatched st entityIdSource entityIdTarget in
  if already then (matches, reverseMatches)
  else (<[entityIdSource := entityIdTarget]> matches, reverseMatches).

(** The loop over the current perfect matches: the record lists are
    indexed before [isAlreadyMatched] is asked. *)
Fixpoint assignCurrent (e : MatchProcessing) (entries : list (Z * Z))
  (st : gmap string string * gmap string string)
  : option (gmap string string * gmap string string) :=
  match entries with
  | [] => Some st
  | (sourceI, targetI) :: entries' =>
      entityIdSource ← entityId (RawMatchList (Source e)) sourceI;
      entityIdTarget ← entityId (RawMatchList (Target e)) targetI;
      assignCurrent e entries' (assign st (entityIdSource, entityIdTarget))
  end.

(** The loop that fills [UnMatched]. *)
Fixpoint unmatchedLoop (e : MatchProcessing) (prevMatches : MatchOutputType)
  (remaining : list Z) (unMatched : list string) : option (list string) :=
  match remaining with
  | [] => Some unMatched
  | sourceI :: remaining' =>
      entityIdSource ← entityId (RawMatchList (Source e)) sourceI;
      match Matches prevMatches !! entityIdSource with
      | Some _ => unmatchedLoop e prevMatches remaining' unMatched
      | None => unmatchedLoop e prevMatches remaining' (unMatched ++ [entityIdSource])
      end
  end.

(** The three precedence steps of [genOutputPayload], in order. *)
Definition genMatches (e : MatchProcessing) (matchedEntities : gmap Z Z)
  (prevMatches : MatchOutputType) (matchedByFirstSeen : gmap string string)
  : option (gmap string string * gmap string string) :=
  st1 ← assignCurrent e (range_of 2%nat matchedEntities) (∅, ∅);
  let st2 := fold_left assign (range_of 3%nat (Matches prevMatches)) st1 in
  Some (fold_left assign (range_of 4%nat matchedByFirstSeen) st2).

Definition genOutputPayload (e : MatchProcessing) (remaining : IndexCompareResultList)
  (matchedEntities : gmap Z Z) (prevMatches : MatchOutputType)
  : option MatchOutputType :=
  '(multiMatchedMap, matchedByFirstSeen) ←
    genMultiMatchedMap (CompareResults remaining) e prevMatches;
  let '(e', _) := PrepareRemainingMatch false true e remaining in
  '(matches, _) ← genMatches e' matchedEntities prevMatches matchedByFirstSeen;
  current ← currentRemaining (Source e');
  unMatched ← unmatchedLoop e' prevMatches current [];
  Some {| Type_ := GetEntitiesType e';
          MatchKey_ :=
            {| KeySource := {| InfoFrom := From (ConfigType (Source e'));
                               InfoTo := To (ConfigType (Source e')) |};
               KeyTarget := {| InfoFrom := From (ConfigType (Target e'));
                               InfoTo := To (ConfigType (Target e')) |} |};
          Matches := matches;
          MultiMatched := multiMatchedMap;
          UnMatched := unMatched |}.

End Writer.

(** ** Reading the previous run ([readMatchesPrev]) *)

(** An [error] value carries its message. *)
Definition error := string.

(** The file system, path and JSON functions are library code; they are
    taken as parameters. *)
Class FileEnv := {
  Fs : Type;
  Clean : string → string;
  Join : string → string → string;
  Sanitize : string → string;
  Exists : Fs → string → bool * option error;
  ReadFile : Fs → string → list Byte.byte * option error;
  Unmarshal : list Byte.byte → MatchOutputType + error
}.

Record MatchParameters := {
  PrevResultDir : string;
  OutputDir : string
}.

Section Reader.
Context `{FileEnv}.

Definition readMatchesPrev (fs : Fs) (matchParameters : MatchParameters)
  (entitiesType : string) : MatchOutputType * option error :=
  if String.eqb (PrevResultDir matchParameters) "" then (emptyOutput, None)
  else
    let sanitizedPrevResultDir := Clean (PrevResultDir matchParameters) in
    match snd (Exists fs sanitizedPrevResultDir) with
    | Some _ => (emptyOutput, None)
    | None =>
        let sanitizedType := Sanitize entitiesType in
        let fullMatchPathPrev :=
          Join sanitizedPrevResultDir (sanitizedType +:+ ".json") in
        let '(data, err) := ReadFile fs fullMatchPathPrev in
        match err with
        | Some _ => (emptyOutput, None)
        | None =>
            if (length data =? 0)%nat
            then (emptyOutput, Some ("file `" +:+ fullMatchPathPrev +:+ "` is empty"))
            else
              match Unmarshal data with
              | inr err => (emptyOutput, Some err)
              | inl prevResult => (prevResult, None)
              end
        end
    end.

End Reader.

End Entities.

(** ** Output assembly for configs ([unnamed/part_003])

    The key under which a record holds its identifier, [rules.ConfigIdKey],
    is a constant of package [rules], which is not part of the sources at
    hand: it is a parameter. *)
Module Configs.
Import Rules Match.

Record ExtractionInfo := {
  InfoFrom : string;
  InfoTo : string
}.

Record MatchKey := {
  KeySource : ExtractionInfo;
  KeyTarget : ExtractionInfo
}.

Record MatchOutputType := {
  Type_ : string;
  MatchKey_ : MatchKey;
  Matches : gmap string string;
  MultiMatched : gmap string (list string);
  UnMatched : list string
}.

Section Writer.
Variable ConfigIdKey : string.

(** [values[i].(map[string]interface{})[rules.ConfigIdKey].(string)] *)
Definition configId (items : list RawItem) (i : Z) : option string :=
  item ← index items i; getString item ConfigIdKey.

(** The closure [addMatchingMultiMatched]; [group] is
    [CompareResults[firstIdx : firstIdx+matchCount]]. *)
Definition addMatchingMultiMatched (e : MatchProcessing) (currentId : Z)
  (group : list CompareResult) (multiMatched : gmap string (list string))
  : option (gmap string (list string)) :=
  multiMatchedMatches ←
    mapM (λ compareResult, configId (RawMatchList (Target e)) (RightId compareResult))
         group;
  sourceId ← configId (RawMatchList (Source e)) currentId;
  Some (<[sourceId := multiMatchedMatches]> multiMatched).

(** The loop over [i] of [genMultiMatchedMap], followed by the call for the
    last group. *)
Fixpoint groupLoop (e : MatchProcessing) (currentId : Z)
  (group rest : list CompareResult) (multiMatched : gmap string (list string))
  : option (gmap string (list string)) :=
  match rest with
  | [] => addMatchingMultiMatched e currentId group multiMatched
  | result :: rest' =>
      if LeftId result =? currentId
      then groupLoop e currentId (group ++ [result]) rest' multiMatched
      else
        multiMatched' ← addMatchingMultiMatched e currentId group multiMatched;
        groupLoop e (LeftId result) [result] rest' multiMatched'
  end.

Definition genMultiMatchedMap (results : list CompareResult) (e : MatchProcessing)
  : option (gmap string (list string)) :=
  match results with
  | [] => Some ∅
  | first :: rest => groupLoop e (LeftId first) [first] rest ∅
  end.

(** [printMultiMatchedSample] only logs, but it indexes both record lists
    for the first ten results. *)
Definition printMultiMatchedSample (results : list CompareResult) (e : MatchProcessing)
  : option unit :=
  mapM (λ result,
          _ ← index (RawMatchList (Source e)) (LeftId result);
          _ ← index (RawMatchList (Target e)) (RightId result);
          Some tt)
       (take 10 results) ≫= λ _, Some tt.

Definition getMultiMatched (results : list CompareResult) (e : MatchProcessing)
  : option (gmap string (list string)) :=
  _ ← printMultiMatchedSample results e;
  genMultiMatchedMap results e.

(** The loop of [genOutputPayload] over the matched configs. *)
Fixpoint matchesLoop (e : MatchProcessing) (entries : list (Z * Z))
  (matches : gmap string string) : option (gmap string string) :=
  match entries with
  | [] => Some matches
  | (sourceI, targetI) :: entries' =>
      sourceId ← configId (RawMatchList (Source e)) sourceI;
      targetId ← configId (RawMatchList (Target e)) targetI;
      matchesLoop e entries' (<[sourceId := targetId]> matches)
  end.

Context `{GoSort} `{MapRange}.

Definition genOutputPayload (e : MatchProcessing) (remaining : IndexCompareResultList)
  (matchedConfigs : gmap Z Z) : option MatchOutputType :=
  multiMatchedMap ← getMultiMatched (CompareResults remaining) e;
  let '(e', _) := PrepareRemainingMatch false true e remaining in
  current ← currentRemaining (Source e');
  matches ← matchesLoop e' (range_of 5%nat matchedConfigs) ∅;
  unMatched ← mapM (configId (RawMatchList (Source e'))) current;
  Some {| Type_ := GetEntitiesType e';
          MatchKey_ :=
            {| KeySource := {| InfoFrom := ""; InfoTo := "" |};
               KeyTarget := {| InfoFrom := ""; InfoTo := "" |} |};
          Matches := matches;
          MultiMatched := multiMatchedMap;
          UnMatched := unMatched |}.

End Writer.

End Configs.

(** ** Files of match results
       ([pkg/match/entities/match_entities_loader.go], [writeMatches])

    Listing a directory, creating one, writing a file and encoding JSON are
    library code: they are parameters next to those of [FileEnv].  The file
    system is a value that the writing functions return updated. *)
Module Persist.
Import Entities.

Class FileWriteEnv `{FileEnv} := {
  (* the entries of a directory: name and [IsDir] *)
  ReadDir : Fs → string → list (string * bool) + error;
  MkdirAll : Fs → string → Fs * option error;
  WriteFile : Fs → string → list Byte.byte → Fs * option error;
  Marshal : MatchOutputType → list Byte.byte + error
}.

Section Files.
Context `{FileWriteEnv}.

(** The loop of [LoadMatches] over the entries of the directory. *)
Fixpoint loadLoop (fs : Fs) (dir : string) (filesInFolder : list (string * bool))
  (matchOutputPerType : gmap string MatchOutputType)
  : gmap string MatchOutputType + error :=
  match filesInFolder with
  | [] => inl matchOutputPerType
  | (filename, isDir) :: files' =>
      if isDir then loadLoop fs dir files' matchOutputPerType
      else
        let '(data, err) := ReadFile fs (Join dir filename) in
        match err with
        | Some err => inr err
        | None =>
            match Unmarshal data with
            | inr err => inr err
            | inl matchOutputType =>
                loadLoop fs dir files'
                  (<[Type_ matchOutputType := matchOutputType]> matchOutputPerType)
            end
        end
  end.

(** [LoadMatches]; the directory is [matchParameters.EntitiesMatchDir]. *)
Definition LoadMatches (fs : Fs) (EntitiesMatchDir : string)
  : gmap string MatchOutputType + error :=
  match ReadDir fs EntitiesMatchDir with
  | inr err => inr err
  | inl filesInFolder => loadLoop fs EntitiesMatchDir filesInFolder ∅
  end.

(** [writeMatches] of package [entities]. *)
Definition writeMatches (fs : Fs) (matchParameters : MatchParameters)
  (entitiesType : string) (output : MatchOutputType) : Fs * option error :=
  let sanitizedOutputDir := Clean (OutputDir matchParameters) in
  let '(fs1, err) :=
    if String.eqb sanitizedOutputDir "." then (fs, None)
    else MkdirAll fs sanitizedOutputDir in
  match err with
  | Some err => (fs1, Some err)
  | None =>
      match Marshal output with
      | inr err => (fs1, Some err)
      | inl outputAsJson =>
          let sanitizedType := Sanitize entitiesType in
          let fullMatchPath := Join sanitizedOutputDir (sanitizedType +:+ ".json") in
          WriteFile fs1 fullMatchPath outputAsJson
      end
  end.

End Files.

End Persist.

(** ** Resolved entities of a deployment ([pkg/deploy/entitymap.go])

    The types [coordinate.Coordinate], [parameter.ResolvedEntity] and
    [api.APIs] are declared in packages that are not part of the sources at
    hand.  They are parameters: a coordinate is a comparable value with a
    [Type], a resolved entity has a [Skip] flag and an [EntityName], and of
    the APIs only the [ID]s are read. *)
Module Deploy.

Section EntityMap.
Context {Coordinate : Type} `{Countable Coordinate}.
Context {ResolvedEntity : Type}.
Variable CoordinateType : Coordinate → string.
Variable Skip : ResolvedEntity → bool.
Variable EntityName : ResolvedEntity → string.

Record entityMap := {
  resolvedEntities : gmap Coordinate ResolvedEntity;
  knownEntityNames : gmap string (gset string)
}.

(** [newEntityMap]; [apis] holds the [ID] of every API ranged over. *)
Definition newEntityMap (apis : list string) : entityMap :=
  {| resolvedEntities := ∅;
     knownEntityNames := fold_left (λ known id, <[id := ∅]> known) apis ∅ |}.

Definition put (r : entityMap) (coordinate : Coordinate)
  (resolvedEntity : ResolvedEntity) : entityMap :=
  let resolved := <[coordinate := resolvedEntity]> (resolvedEntities r) in
  if Skip resolvedEntity || String.eqb (EntityName resolvedEntity) ""
  then {| resolvedEntities := resolved; knownEntityNames := knownEntityNames r |}
  else
    let known :=
      match knownEntityNames r !! CoordinateType coordinate with
      | Some _ => knownEntityNames r
      | None => <[CoordinateType coordinate := ∅]> (knownEntityNames r)
      end in
    {| resolvedEntities := resolved;
       knownEntityNames :=
         <[CoordinateType coordinate :=
             {[EntityName resolvedEntity]}
             ∪ default ∅ (known !! CoordinateType coordinate)]> known |}.

Definition get (r : entityMap) : gmap Coordinate ResolvedEntity :=
  resolvedEntities r.

(** Reading a missing inner map yields "not found". *)
Definition contains (r : entityMap) (entityType entityName : string) : bool :=
  bool_decide (entityName ∈ default ∅ (knownEntityNames r !! entityType)).

End EntityMap.

End Deploy.

(** * Vocabulary of the properties and sample data *)

Import Rules Match Entities.

(** ** Implementations of the contract of [sort.Sort] *)

Definition not_after_dec {A} (less : A → A → bool) : RelDecision (not_after less) :=
  λ a b, decide (less b a = false).

(** An implementation of the contract: the merge sort of stdpp.  It does
    not keep the order of elements that [Less] does not order. *)
Definition merge_sort_by {A} (less : A → A → bool) (l : list A) : list A :=
  @merge_sort A (not_after less) (not_after_dec less) l.

Definition mergeSort : GoSort.
Proof.
  refine {| sort_by := @merge_sort_by |}.
  - intros A less l. apply merge_sort_Permutation.
  - intros A less l [Hasym Htrans]. unfold merge_sort_by.
    apply @StronglySorted_merge_sort.
    + intros a b c Hab Hbc. unfold not_after in *. eauto.
    + intros a b. unfold not_after.
      destruct (less b a) eqn:E; [right; auto | left; reflexivity].
Defined.

(** ** [sort.Sort] as the library has it

    Go's library is not part of the sources at hand.  The functions below
    follow the pattern-defeating quicksort that package [sort] has had
    since release 1.19 (file [zsortinterface.go]), over the three methods
    of [sort.Interface].  Loops that are not bounded by a counter take a
    bound [fuel] that they do not reach.  The shuffle [breakPatterns], and
    [heapSort], which is reached only after it, are not modelled: a run
    that arrives at either ends with [None]. *)
Module GoLibrary.

Section Pdqsort.
Local Open Scope nat_scope.
Context {Slice : Type}.
Variable Len : Slice → nat.
Variable Less : Slice → nat → nat → bool.
Variable Swap : Slice → nat → nat → Slice.

(** The inner loop of [insertionSort]:
    [for j := i; j > a && data.Less(j, j-1); j--]. *)
Fixpoint insertDown (a j : nat) (data : Slice) : Slice :=
  match j with
  | 0 => data
  | S j' =>
      if (a <? j) && Less data j j' then insertDown a j' (Swap data j j') else data
  end.

Definition insertionSort (data : Slice) (a b : nat) : Slice :=
  fold_left (λ data i, insertDown a i data) (seq (a + 1) (b - (a + 1))) data.

Inductive sortedHint := unknownHint | increasingHint | decreasingHint.

Definition order2 (data : Slice) (a b swaps : nat) : nat * nat * nat :=
  if Less data b a then (b, a, S swaps) else (a, b, swaps).

Definition median (data : Slice) (a b c swaps : nat) : nat * nat :=
  let '(a, b, swaps) := order2 data a b swaps in
  let '(b, c, swaps) := order2 data b c swaps in
  let '(a, b, swaps) := order2 data a b swaps in
  (b, swaps).

Definition medianAdjacent (data : Slice) (a swaps : nat) : nat * nat :=
  median data (a - 1) a (a + 1) swaps.

Definition choosePivot (data : Slice) (a b : nat) : nat * sortedHint :=
  let l := b - a in
  let i := a + l / 4 * 1 in
  let j := a + l / 4 * 2 in
  let k := a + l / 4 * 3 in
  let '(j, swaps) :=
    if 8 <=? l then
      let '(i, j, k, swaps) :=
        if 50 <=? l then
          let '(i, swaps) := medianAdjacent data i 0 in
          let '(j, swaps) := medianAdjacent data j swaps in
          let '(k, swaps) := medianAdjacent data k swaps in
          (i, j, k, swaps)
        else (i, j, k, 0) in
      median data i j k swaps
    else (j, 0) in
  match swaps with
  | 0 => (j, increasingHint)
  | 12 => (j, decreasingHint)
  | _ => (j, unknownHint)
  end.

(** The loop of [reverseRange]; it runs at most [b - a] times. *)
Fixpoint reverseLoop (fuel i j : nat) (data : Slice) : Slice :=
  match fuel with
  | 0 => data
  | S fuel' =>
      if i <? j then reverseLoop fuel' (i + 1) (j - 1) (Swap data i j) else data
  end.

Definition reverseRange (data : Slice) (a b : nat) : Slice :=
  reverseLoop (b - a) a (b - 1) data.

(** [for i < b && !data.Less(i, i-1) { i++ }] *)
Fixpoint skipOrdered (fuel : nat) (data : Slice) (i b : nat) : nat :=
  match fuel with
  | 0 => i
  | S fuel' =>
      if (i <? b) && negb (Less data i (i - 1)) then skipOrdered fuel' data (i + 1) b
      else i
  end.

(** [for j := i - 1; j >= 1; j-- { if !data.Less(j, j-1) { break }; data.Swap(j, j-1) }] *)
Fixpoint shiftLeft (j : nat) (data : Slice) : Slice :=
  match j with
  | 0 => data
  | S j' => if Less data j j' then shiftLeft j' (Swap data j j') else data
  end.

(** [for j := i + 1; j < b; j++ { if !data.Less(j, j-1) { break }; data.Swap(j, j-1) }] *)
Fixpoint shiftRight (fuel j b : nat) (data : Slice) : Slice :=
  match fuel with
  | 0 => data
  | S fuel' =>
      if (j <? b) && Less data j (j - 1)
      then shiftRight fuel' (j + 1) b (Swap data j (j - 1))
      else data
  end.

(** The loop of [partialInsertionSort] over its [maxSteps] steps. *)
Fixpoint partialSteps (steps : nat) (data : Slice) (a b i : nat) : Slice * bool :=
  match steps with
  | 0 => (data, false)
  | S steps' =>
      let i := skipOrdered (b - i) data i b in
      if i =? b then (data, true)
      else if b - a <? 50 then (data, false)
      else
        let data := Swap data i (i - 1) in
        let data := if 2 <=? i - a then shiftLeft (i - 1) data else data in
        let data := if 2 <=? b - i then shiftRight (b - i) (i + 1) b data else data in
        partialSteps steps' data a b i
  end.

Definition partialInsertionSort (data : Slice) (a b : nat) : Slice * bool :=
  partialSteps 5 data a b (a + 1).

(** [for i <= j && cond(i) { i++ }] and [for i <= j && cond(j) { j-- }] *)
Fixpoint scanUp (fuel : nat) (cond : nat → bool) (i j : nat) : nat :=
  match fuel with
  | 0 => i
  | S fuel' => if (i <=? j) && cond i then scanUp fuel' cond (i + 1) j else i
  end.

Fixpoint scanDown (fuel : nat) (cond : nat → bool) (i j : nat) : nat :=
  match fuel with
  | 0 => j
  | S fuel' => if (i <=? j) && cond j then scanDown fuel' cond i (j - 1) else j
  end.

(** The endless loop of [partition]; the result is the slice and [j]. *)
Fixpoint partitionLoop (fuel : nat) (data : Slice) (a b i j : nat) : Slice * nat :=
  match fuel with
  | 0 => (data, j)
  | S fuel' =>
      let i := scanUp (b - a) (λ i, Less data i a) i j in
      let j := scanDown (b - a) (λ j, negb (Less data j a)) i j in
      if j <? i then (data, j)
      else partitionLoop fuel' (Swap data i j) a b (i + 1) (j - 1)
  end.

Definition partition (data : Slice) (a b pivot : nat) : Slice * nat * bool :=
  let data := Swap data a pivot in
  let i := a + 1 in
  let j := b - 1 in
  let i := scanUp (b - a) (λ i, Less data i a) i j in
  let j := scanDown (b - a) (λ j, negb (Less data j a)) i j in
  if j <? i then (Swap data j a, j, true)
  else
    let data := Swap data i j in
    let '(data, j) := partitionLoop (b - a) data a b (i + 1) (j - 1) in
    (Swap data j a, j, false).

(** The loop of [partitionEqual]; the result is the slice and [i]. *)
Fixpoint partitionEqualLoop (fuel : nat) (data : Slice) (a b i j : nat) : Slice * nat :=
  match fuel with
  | 0 => (data, i)
  | S fuel' =>
      let i := scanUp (b - a) (λ i, negb (Less data a i)) i j in
      let j := scanDown (b - a) (λ j, Less data a j) i j in
      if j <? i then (data, i)
      else partitionEqualLoop fuel' (Swap data i j) a b (i + 1) (j - 1)
  end.

Definition partitionEqual (data : Slice) (a b pivot : nat) : Slice * nat :=
  let data := Swap data a pivot in
  partitionEqualLoop (b - a) data a b (a + 1) (b - 1).

Definition isIncreasing (hint : sortedHint) : bool :=
  match hint with increasingHint => true | _ => false end.

(** [pdqsort]: [fuel] bounds the number of partitions of a slice, which is
    less than its length.  The recursive call starts with fresh flags,
    the loop goes on with the flags just set. *)
Fixpoint pdqsort (fuel : nat) (data : Slice) (a b limit : nat)
  (wasBalanced wasPartitioned : bool) : option Slice :=
  match fuel with
  | 0 => None
  | S fuel' =>
      let length := b - a in
      if length <=? 12 then Some (insertionSort data a b)
      else if limit =? 0 then None
      else if negb wasBalanced then None
      else
        let '(pivot, hint) := choosePivot data a b in
        let '(data, pivot, hint) :=
          match hint with
          | decreasingHint =>
              (reverseRange data a b, (b - 1) - (pivot - a), increasingHint)
          | _ => (data, pivot, hint)
          end in
        let '(data, sorted) :=
          if wasBalanced && wasPartitioned && isIncreasing hint
          then partialInsertionSort data a b else (data, false) in
        if sorted then Some data
        else if (0 <? a) && negb (Less data (a - 1) pivot) then
          let '(data, mid) := partitionEqual data a b pivot in
          pdqsort fuel' data mid b limit wasBalanced wasPartitioned
        else
          let '(data, mid, alreadyPartitioned) := partition data a b pivot in
          let leftLen := mid - a in
          let rightLen := b - mid in
          let balanceThreshold := length / 8 in
          if leftLen <? rightLen then
            data ← pdqsort fuel' data a mid limit true true;
            pdqsort fuel' data (mid + 1) b limit (balanceThreshold <=? leftLen)
              alreadyPartitioned
          else
            data ← pdqsort fuel' data (mid + 1) b limit true true;
            pdqsort fuel' data a mid limit (balanceThreshold <=? rightLen)
              alreadyPartitioned
  end.

(** [sort.Sort]; [bits.Len(uint(n))] is [log2 n + 1]. *)
Definition Sort (data : Slice) : option Slice :=
  let n := Len data in
  if n <=? 1 then Some data
  else pdqsort n data 0 n (S (Nat.log2 n)) true true.

End Pdqsort.

(** A slice of elements of [A] that is a rearrangement of [l]. *)
Definition sliceOf {A} (l : list A) : Type := { data : list A | data ≡ₚ l }.

Definition lenSlice {A} {l : list A} (data : sliceOf l) : nat := length (`data).

Definition lessSlice {A} (less : A → A → bool) {l : list A} (data : sliceOf l)
  (i j : nat) : bool :=
  match `data !! i, `data !! j with
  | Some x, Some y => less x y
  | _, _ => false
  end.

Definition swapList {A} (data : list A) (i j : nat) : list A :=
  match data !! i, data !! j with
  | Some x, Some y => <[i := y]> (<[j := x]> data)
  | _, _ => data
  end.

Definition swapSlice {A} {l : list A} (data : sliceOf l) (i j : nat) : sliceOf l.
Proof.
  refine (exist _ (swapList (`data) i j) _).
  destruct data as [data Hdata]. cbn [proj1_sig]. rewrite <- Hdata.
  unfold swapList.
  destruct (data !! i) as [x|] eqn:Ei; [|reflexivity].
  destruct (data !! j) as [y|] eqn:Ej; [|reflexivity].
  apply Permutation_inj. split; [by rewrite !length_insert|].
  exists (λ k, if decide (k = i) then j else if decide (k = j) then i else k).
  split.
  - intros k1 k2. repeat case_decide; congruence.
  - intros k. apply lookup_lt_Some in Ei as Hi. apply lookup_lt_Some in Ej as Hj.
    destruct (decide (k = i)) as [-> | Hki].
    + rewrite list_lookup_insert_eq by (by rewrite length_insert). by rewrite Ej.
    + rewrite list_lookup_insert_ne by congruence.
      destruct (decide (k = j)) as [-> | Hkj].
      * rewrite list_lookup_insert_eq by exact Hj. by rewrite Ei.
      * by rewrite list_lookup_insert_ne by congruence.
Defined.

End GoLibrary.

(** No element is [Less] than one in front of it. *)
Fixpoint sortedb {A} (less : A → A → bool) (l : list A) : bool :=
  match l with
  | [] => true
  | x :: l' => forallb (λ y, negb (less y x)) l' && sortedb less l'
  end.

(** The result of the library's run on the slice; where the run is not
    modelled, or for a [Less] for which it would not leave the slice
    sorted, the merge sort stands in. *)
Definition go_sort_by {A} (less : A → A → bool) (l : list A) : list A :=
  match GoLibrary.Sort GoLibrary.lenSlice (GoLibrary.lessSlice less) GoLibrary.swapSlice
          (exist _ l (Permutation_refl l) : GoLibrary.sliceOf l) with
  | Some data => if sortedb less (`data) then `data else merge_sort_by less l
  | None => merge_sort_by less l
  end.

Definition goSort : GoSort.
Proof.
  refine {| sort_by := @go_sort_by |}.
  - intros A less l. unfold go_sort_by.
    destruct (GoLibrary.Sort _ _ _ _) as [[data Hdata]|];
      [|apply (sort_by_perm (GoSort := mergeSort))].
    cbn [proj1_sig]. destruct (sortedb less data); [exact Hdata|].
    apply (sort_by_perm (GoSort := mergeSort)).
  - intros A less l Horder. unfold go_sort_by.
    destruct (GoLibrary.Sort _ _ _ _) as [[data Hdata]|];
      [|apply (sort_by_sorted (GoSort := mergeSort)), Horder].
    cbn [proj1_sig]. destruct (sortedb less data) eqn:Es;
      [|apply (sort_by_sorted (GoSort := mergeSort)), Horder].
    clear Hdata. induction data as [|x data IH]; [constructor|].
    cbn [sortedb] in Es. apply andb_true_iff in Es as [Hx Hrest].
    constructor; [exact (IH Hrest)|].
    apply Forall_forall. intros y Hy. rewrite forallb_forall in Hx.
    apply negb_true_iff. apply Hx. by apply list_elem_of_In.
Defined.

(** ** Keys and weights of compare results *)

Definition ids (r : CompareResult) : Z * Z := (LeftId r, RightId r).

(** Strict order of the (source, target) keys. *)
Definition klt (a b : CompareResult) : Prop :=
  LeftId a < LeftId b ∨ (LeftId a = LeftId b ∧ RightId a < RightId b).

(** Among all candidates pairing the source of [r], the target of [r] has
    the strictly highest weight: no other target reaches it. *)
Definition strictTopOfSource (cands : list CompareResult) (r : CompareResult) : Prop :=
  ∀ o, o ∈ cands → LeftId o = LeftId r → RightId o ≠ RightId r → Weight o < Weight r.

(** Among all candidates pairing the target of [r], the source of [r] has
    the strictly highest weight. *)
Definition strictTopOfTarget (cands : list CompareResult) (r : CompareResult) : Prop :=
  ∀ o, o ∈ cands → RightId o = RightId r → LeftId o ≠ LeftId r → Weight o < Weight r.

(** The sum of the weights of the entries of [l] that pair the same source
    and target as [x], as a mathematical integer, and as the [int] the
    summation arrives at. *)
Fixpoint pairSum (l : list CompareResult) (x : CompareResult) : Z :=
  match l with
  | [] => 0
  | y :: l' => (if areIdsEqual x y then Weight y else 0) + pairSum l' x
  end.

Definition pairTotal (l : list CompareResult) (x : CompareResult) : Z :=
  wrap (pairSum l x).

Definition validWeight (r : CompareResult) : Prop := int_min ≤ Weight r ≤ int_max.

Definition mkResult (s t w : Z) : CompareResult :=
  {| LeftId := s; RightId := t; Weight := w |}.

Definition mkList (l : list CompareResult) : IndexCompareResultList :=
  {| RuleType := None; CompareResults := l; PostProcessList := [] |}.

(** Two rules of weight 5 in a split-match tier, max match value 10: pair
    (1,1) met both rules, pair (0,0) only one. *)
Definition splitTierSample : IndexCompareResultList :=
  mkList [mkResult 0 0 5; mkResult 1 1 5; mkResult 1 1 5].

Definition sampleTier : IndexCompareResultList :=
  mkList [mkResult 0 0 10; mkResult 0 1 4].

Definition sampleCarried : IndexCompareResultList :=
  mkList [mkResult 2 2 3].

Definition sampleRule : IndexRule :=
  {| Extract := λ item, getString item "key"; WeightValue := 10;
     SelfMatchDisabled := false |}.

Definition sampleRuleType (isSeed splitMatch : bool) (weight : Z) : IndexRuleType :=
  {| Key := 0; IsSeed := isSeed; SplitMatch := splitMatch;
     TypeWeightValue := weight; IndexRules := [sampleRule] |}.

(** Two configured tiers of equal tier weight. *)
Definition equalWeightTiers : IndexRuleMapGenerator :=
  NewIndexRuleMapGenerator false
    [sampleRuleType true false 100; sampleRuleType false false 100].

(** Thirteen configured tiers: twelve of tier weight 100, then one of tier
    weight 200. *)
Definition thirteenTiers : IndexRuleMapGenerator :=
  NewIndexRuleMapGenerator false
    (replicate 12 (sampleRuleType true false 100) ++ [sampleRuleType true false 200]).

Definition oneToOne (m : gmap Z Z) : Prop :=
  ∀ s1 s2 t, m !! s1 = Some t → m !! s2 = Some t → s1 = s2.

(** The invariant of the loop of [RunIndexRuleAll]: the remaining indices
    of both sides are strictly increasing, no committed index is among
    them, nothing was committed twice and the committed pairs are
    one-to-one. *)
Definition runInvariant (st : RunState) : Prop :=
  StronglySorted Z.lt (RemainingMatch (Source (processing st)))
  ∧ StronglySorted Z.lt (RemainingMatch (Target (processing st)))
  ∧ snd (matchedEntities st) = false
  ∧ (∀ s t, fst (matchedEntities st) !! s = Some t →
            ¬ s ∈ RemainingMatch (Source (processing st))
            ∧ ¬ t ∈ RemainingMatch (Target (processing st)))
  ∧ oneToOne (fst (matchedEntities st)).

(** ** Sample data *)

(** An entity record with an id, a key and a first-seen timestamp. *)
Definition mkEntity (id key : string) (firstSeen : Z) : RawItem :=
  <["entityId" := JString id]>
    (<["key" := JString key]>
       (<["firstSeenTms" := JNumber (inject_Z firstSeen)]> ∅)).

Definition sampleType : EntityType :=
  {| EntitiesType := "HOST"; From := ""; To := "" |}.

(** A sample run: sources A and C, targets B, D and E; A and B share the
    key X; C, D and E share the key Y; E was first seen after D. *)
Definition sampleSource : list RawItem :=
  [mkEntity "C" "Y" 60; mkEntity "A" "X" 50].
Definition sampleTarget : list RawItem :=
  [mkEntity "B" "X" 70; mkEntity "E" "Y" 200; mkEntity "D" "Y" 100].

Definition sampleGenerator : IndexRuleMapGenerator :=
  NewIndexRuleMapGenerator false [sampleRuleType true false 100].

Definition sampleContext : MatchProcessing :=
  {| Source := {| RawMatchList := [mkEntity "A" "X" 50; mkEntity "C" "Y" 60];
                  ConfigType := sampleType;
                  RemainingMatch := [0; 1];
                  CurrentRemainingMatch := CurrentNil |};
     Target := {| RawMatchList := [mkEntity "B" "X" 70; mkEntity "D" "Y" 100;
                                   mkEntity "E" "Y" 200];
                  ConfigType := sampleType;
                  RemainingMatch := [0; 1; 2];
                  CurrentRemainingMatch := CurrentNil |};
     matchedMap := ∅ |}.

Definition sampleRun : option RunState :=
  RunIndexRuleAll (H := mergeSort) (H0 := specIndexCompare (H := mergeSort))
    sampleGenerator sampleContext.

Definition sampleFinal : RunState :=
  default (initialRunState sampleContext) sampleRun.




(** A rule that compares the records by one of their fields. *)
Definition fieldRule (field : string) (weight : Z) : IndexRule :=
  {| Extract := λ item, getString item field; WeightValue := weight;
     SelfMatchDisabled := false |}.

Definition mkNamed (id key name : string) : RawItem :=
  <["name" := JString name]> (mkEntity id key 1).


Definition twiceFirstTier : IndexRuleType :=
  {| Key := 0; IsSeed := true; SplitMatch := false; TypeWeightValue := 100;
     IndexRules := [fieldRule "key" 5; fieldRule "name" 5] |}.







(** No two records have the same id. *)
Definition distinctIds (idOf : Z → option string) : Prop :=
  ∀ i j id, idOf i = Some id → idOf j = Some id → i = j.

(** What a run leaves to the output assembly: the committed pairs are
    one-to-one, and every source record is either committed or still
    remaining, never both. *)
Definition sourcesAccounted (e : MatchProcessing) (matched : gmap Z Z) : Prop :=
  oneToOne matched
  ∧ (∀ i, is_Some (index (RawMatchList (Source e)) i) →
          is_Some (matched !! i) ∨ i ∈ RemainingMatch (Source e))
  ∧ (∀ i, is_Some (matched !! i) → ¬ i ∈ RemainingMatch (Source e)).

(** Sources S0 and S1, targets T0 and T1: S0, T0 and T1 share the key K,
    S0 and T0 also share the name N, S1 shares nothing.  One tier compares
    keys and names: it commits S0 to T0 and leaves the pair of S0 and T1
    as a candidate. *)
Definition leftoverSource : list RawItem := [mkNamed "S0" "K" "N"; mkEntity "S1" "L" 1].
Definition leftoverTarget : list RawItem := [mkNamed "T0" "K" "N"; mkEntity "T1" "K" 1].

Definition leftoverGenerator : IndexRuleMapGenerator :=
  NewIndexRuleMapGenerator false [twiceFirstTier].

Definition leftoverContext : MatchProcessing :=
  {| Source := {| RawMatchList := leftoverSource; ConfigType := sampleType;
                  RemainingMatch := [0; 1]; CurrentRemainingMatch := CurrentNil |};
     Target := {| RawMatchList := leftoverTarget; ConfigType := sampleType;
                  RemainingMatch := [0; 1]; CurrentRemainingMatch := CurrentNil |};
     matchedMap := ∅ |}.

Definition leftoverFinal : RunState :=
  default (initialRunState leftoverContext)
    (RunIndexRuleAll (H := goSort) (H0 := specIndexCompare (H := goSort))
       leftoverGenerator leftoverContext).

Definition leftoverOutput : MatchOutputType :=
  {| Type_ := "HOST"; MatchKey_ := MatchKey_ emptyOutput;
     Matches := {[ "S0" := "T0" ]};
     MultiMatched := {[ "S0" := ["T1"] ]};
     UnMatched := ["S1"] |}.

Definition leftoverConfigs : Configs.MatchOutputType :=
  {| Configs.Type_ := "HOST";
     Configs.MatchKey_ :=
       {| Configs.KeySource := {| Configs.InfoFrom := ""; Configs.InfoTo := "" |};
          Configs.KeyTarget := {| Configs.InfoFrom := ""; Configs.InfoTo := "" |} |};
     Configs.Matches := {[ "S0" := "T0" ]};
     Configs.MultiMatched := {[ "S0" := ["T1"] ]};
     Configs.UnMatched := ["S1"] |}.

(** An in-memory file system; paths are joined with a slash; the decoder
    accepts the empty object and rejects everything else. *)
Definition bytesOf (s : string) : list Byte.byte := String.list_byte_of_string s.

Definition memoryEnv : FileEnv := {|
  Fs := gmap string (list Byte.byte);
  Clean := λ path, path;
  Join := λ dir file, dir +:+ "/" +:+ file;
  Sanitize := λ name, name;
  Exists := λ fs path, (true, None);
  ReadFile := λ fs path,
    match fs !! path with
    | Some data => (data, None)
    | None => ([], Some "file does not exist")
    end;
  Unmarshal := λ data,
    if String.eqb (String.string_of_list_byte data) "{}" then inl emptyOutput
    else inr "invalid character looking for beginning of value"
|}.

Definition brokenPrevFs : gmap string (list Byte.byte) :=
  {[ "prev/HOST.json" := bytesOf "x" ]}.

Definition prevParameters : MatchParameters :=
  {| PrevResultDir := "prev"; OutputDir := "out" |}.

(** [reverseMatches] is the inverse of [Matches]. *)
Definition inverseOf (st : gmap string string * gmap string string) : Prop :=
  ∀ s t, st.1 !! s = Some t ↔ st.2 !! t = Some s.

(** Ranging over a map in the order of its list of entries. *)
Definition listRange : MapRange := {|
  range_of := λ K _ _ V site m, map_to_list m;
  range_of_perm := λ K _ _ V site m, reflexivity (map_to_list m)
|}.

(** The state after a run in which source C was committed to target B and
    source A found no candidate, and a previous run that had matched A to
    that same B. *)
Definition claimedContext : MatchProcessing :=
  {| Source := {| RawMatchList := [mkEntity "A" "W" 50; mkEntity "C" "X" 60];
                  ConfigType := sampleType;
                  RemainingMatch := [0];
                  CurrentRemainingMatch := CurrentIsRemaining |};
     Target := {| RawMatchList := [mkEntity "B" "X" 70];
                  ConfigType := sampleType;
                  RemainingMatch := [];
                  CurrentRemainingMatch := CurrentIsRemaining |};
     matchedMap := ∅ |}.

Definition claimedPrev : MatchOutputType :=
  {| Type_ := "HOST"; MatchKey_ := MatchKey_ emptyOutput;
     Matches := {[ "A" := "B" ]}; MultiMatched := ∅; UnMatched := [] |}.

Definition claimedOutput : MatchOutputType :=
  {| Type_ := "HOST"; MatchKey_ := MatchKey_ emptyOutput;
     Matches := {[ "C" := "B" ]}; MultiMatched := ∅; UnMatched := [] |}.

(** The state of the first loop over [matchedByFirstSeen] after the
    entries [p]: every target seen has a source recorded for it, and a
    source is blocked exactly when another source of [p] picked the same
    target. *)
Definition blockInvariant (p : list (string * string))
  (st : gmap string string * gmap string bool) : Prop :=
  (∀ t s0, st.1 !! t = Some s0 → (s0, t) ∈ p)
  ∧ (∀ s t, (s, t) ∈ p → is_Some (st.1 !! t))
  ∧ (∀ s b, st.2 !! s = Some b →
            b = true ∧ ∃ t s', (s, t) ∈ p ∧ (s', t) ∈ p ∧ s ≠ s')
  ∧ (∀ s s' t, (s, t) ∈ p → (s', t) ∈ p → s ≠ s' → st.2 !! s = Some true).

(** [t] is the id of a candidate of [group] whose first-seen timestamp is
    positive and not exceeded by any candidate of the group. *)
Definition mostRecent (e : MatchProcessing) (group : list CompareResult) (t : string)
  : Prop :=
  ∃ c q, c ∈ group
    ∧ entityId (RawMatchList (Target e)) (RightId c) = Some t
    ∧ firstSeenTms (RawMatchList (Target e)) (RightId c) = Some q
    ∧ (0 < q)%Q
    ∧ ∀ c' q', c' ∈ group →
               firstSeenTms (RawMatchList (Target e)) (RightId c') = Some q' →
               (q' <= q)%Q.

(** The candidates of the source index [z]. *)
Definition candidatesOf (z : Z) (results : list CompareResult) : list CompareResult :=
  List.filter (λ c, LeftId c =? z) results.

Definition leLeft (a b : CompareResult) : Prop := LeftId a ≤ LeftId b.

(** [t] is the id of the first candidate of [group], in the order of the
    list, whose first-seen timestamp is positive and the highest of the
    group: every candidate before it is strictly older, none after it is
    more recent. *)
Definition firstMostRecent (e : MatchProcessing) (group : list CompareResult) (t : string)
  : Prop :=
  ∃ pre c post q,
    group = pre ++ c :: post
    ∧ entityId (RawMatchList (Target e)) (RightId c) = Some t
    ∧ firstSeenTms (RawMatchList (Target e)) (RightId c) = Some q
    ∧ (0 < q)%Q
    ∧ (∀ c' q', c' ∈ pre →
                firstSeenTms (RawMatchList (Target e)) (RightId c') = Some q' →
                (q' < q)%Q)
    ∧ (∀ c' q', c' ∈ post →
                firstSeenTms (RawMatchList (Target e)) (RightId c') = Some q' →
                (q' <= q)%Q).

(** A candidate of the group has a positive first-seen timestamp. *)
Definition seenCandidate (e : MatchProcessing) (group : list CompareResult) : Prop :=
  ∃ c q, c ∈ group
    ∧ firstSeenTms (RawMatchList (Target e)) (RightId c) = Some q ∧ (0 < q)%Q.

Definition noSeenCandidate (e : MatchProcessing) (group : list CompareResult) : Prop :=
  ∀ c q, c ∈ group →
         firstSeenTms (RawMatchList (Target e)) (RightId c) = Some q → (q <= 0)%Q.

(** Sources S1 and S2 both have the candidates T1 and T2, of which T2 was
    seen last; source S3 has the candidates T3 and T4. *)
Definition conflictContext : MatchProcessing :=
  {| Source := {| RawMatchList :=
                    [mkEntity "S1" "K" 1; mkEntity "S2" "K" 1; mkEntity "S3" "L" 1];
                  ConfigType := sampleType;
                  RemainingMatch := [0; 1; 2];
                  CurrentRemainingMatch := CurrentIsRemaining |};
     Target := {| RawMatchList :=
                    [mkEntity "T1" "K" 100; mkEntity "T2" "K" 200;
                     mkEntity "T3" "L" 300; mkEntity "T4" "L" 50];
                  ConfigType := sampleType;
                  RemainingMatch := [0; 1; 2; 3];
                  CurrentRemainingMatch := CurrentIsRemaining |};
     matchedMap := ∅ |}.

Definition conflictResults : list CompareResult :=
  [mkResult 0 0 10; mkResult 0 1 10; mkResult 1 0 10; mkResult 1 1 10;
   mkResult 2 2 10; mkResult 2 3 10].

Definition conflictMulti : gmap string (list string) :=
  {[ "S1" := ["T1"; "T2"]; "S2" := ["T1"; "T2"]; "S3" := ["T3"; "T4"] ]}.

(** The picks by first seen for these results: S1 and S2 both pick T2. *)
Definition conflictPicks : gmap string string :=
  {[ "S1" := "T2"; "S2" := "T2"; "S3" := "T3" ]}.

(** The output for the sample run of the engine, with a previous run that
    had matched Z to B and Y to Q. *)
Definition samplePrev : MatchOutputType :=
  {| Type_ := "HOST"; MatchKey_ := MatchKey_ emptyOutput;
     Matches := {[ "Z" := "B"; "Y" := "Q" ]}; MultiMatched := ∅; UnMatched := [] |}.

Definition sampleOutput : MatchOutputType :=
  {| Type_ := "HOST"; MatchKey_ := MatchKey_ emptyOutput;
     Matches := {[ "A" := "B"; "Y" := "Q"; "C" := "E" ]};
     MultiMatched := {[ "C" := ["D"; "E"] ]};
     UnMatched := [] |}.

(** The output for the sample run of the engine without previous data:
    source C is promoted by first seen. *)
Definition promotedOutput : MatchOutputType :=
  {| Type_ := "HOST"; MatchKey_ := MatchKey_ emptyOutput;
     Matches := {[ "A" := "B"; "C" := "E" ]};
     MultiMatched := {[ "C" := ["D"; "E"] ]};
     UnMatched := [] |}.

(** ** The reduction passes *)

(** The order of [ByTopMatch]: by source index, then by descending weight. *)
Definition tle (a b : CompareResult) : Prop :=
  LeftId a < LeftId b ∨ (LeftId a = LeftId b ∧ Weight b ≤ Weight a).

(** No candidate of the source of [x] is heavier than [x]. *)
Definition heaviestOfSource (l : list CompareResult) (x : CompareResult) : Prop :=
  ∀ o, o ∈ l → LeftId o = LeftId x → Weight o ≤ Weight x.

(** Source 1 pairs target 1 with weight 5; source 2 pairs target 1 with
    weight 10 and target 2 with weight 20. *)
Definition cascadeSample : IndexCompareResultList :=
  mkList [mkResult 1 1 5; mkResult 2 1 10; mkResult 2 2 20].

(** The config ids of the targets of a group of results. *)
Definition configTargetIds (ConfigIdKey : string) (e : MatchProcessing)
  (group : list CompareResult) : option (list string) :=
  mapM (λ c, Configs.configId ConfigIdKey (RawMatchList (Target e)) (RightId c)) group.

(** Writing into the in-memory file system; the encoder only knows the
    empty output. *)
Definition memoryWriteEnv : Persist.FileWriteEnv (H := memoryEnv) := {|
  Persist.ReadDir := λ fs dir, inl [("HOST.json", false); ("cache", true)];
  Persist.MkdirAll := λ fs dir, (fs, None);
  Persist.WriteFile := λ fs path data, (<[path := data]> fs, None);
  Persist.Marshal := λ output, inl (bytesOf "{}")
|}.

Definition outParameters : MatchParameters :=
  {| PrevResultDir := ""; OutputDir := "out" |}.

Definition nextParameters : MatchParameters :=
  {| PrevResultDir := "out"; OutputDir := "next" |}.

(** The entity ids of the targets of a group of results. *)
Definition entityTargetIds (e : MatchProcessing) (group : list CompareResult)
  : option (list string) :=
  mapM (λ c, entityId (RawMatchList (Target e)) (RightId c)) group.

(** * Properties *)

(** ** Sorting *)

Lemma merge_sort_by_sorted {A} (less : A → A → bool) (l : list A) :
  LessOrder less → StronglySorted (not_after less) (merge_sort_by less l).
Proof. apply (sort_by_sorted (GoSort := mergeSort)). Qed.

Lemma ByLeftRight_order : LessOrder ByLeftRight.
Proof.
  split; unfold ByLeftRight; intros; repeat case_match; lia.
Qed.

Lemma ByTopMatch_order : LessOrder ByTopMatch.
Proof.
  split; unfold ByTopMatch; intros; repeat case_match; lia.
Qed.



Lemma ByWeightTypeValue_order : LessOrder ByWeightTypeValue.
Proof. split; unfold ByWeightTypeValue; intros; lia. Qed.

(** ** Machine integers *)

Lemma wrap_small (z : Z) : int_min ≤ z ≤ int_max → wrap z = z.
Proof.
  unfold wrap, int_min, int_max. intros Hz.
  rewrite Z.mod_small; lia.
Qed.

Lemma wrap_range (z : Z) : int_min ≤ wrap z ≤ int_max.
Proof.
  unfold wrap, int_min, int_max.
  pose proof (Z.mod_pos_bound (z + 2 ^ 63) (2 ^ 64)). lia.
Qed.

Lemma wrap_add_l (a b : Z) : wrap (wrap a + b) = wrap (a + b).
Proof.
  unfold wrap.
  replace ((a + 2 ^ 63) mod 2 ^ 64 - 2 ^ 63 + b + 2 ^ 63)
    with ((a + 2 ^ 63) mod 2 ^ 64 + b) by lia.
  rewrite Zplus_mod_idemp_l. f_equal. f_equal. lia.
Qed.

(** ** Merging the results carried over from the previous tier *)

Lemma getMaxWeightFrom_ge (l : list CompareResult) (m : Z) :
  m ≤ getMaxWeightFrom m l ∧ ∀ r, r ∈ l → Weight r ≤ getMaxWeightFrom m l.
Proof.
  revert m. induction l as [|x l IH]; intros m; simpl.
  - split; [lia | intros r Hr; inversion Hr].
  - destruct (IH (if m <? Weight x then Weight x else m)) as [Hm Hl].
    split.
    + destruct (m <? Weight x) eqn:E; lia.
    + intros r Hr. apply elem_of_cons in Hr as [Heq | Hr]; [subst r|auto].
      destruct (m <? Weight x) eqn:E; lia.
Qed.

Lemma getMaxWeight_ge (i : IndexCompareResultList) :
  0 ≤ getMaxWeight i ∧ ∀ r, r ∈ CompareResults i → Weight r ≤ getMaxWeight i.
Proof. apply getMaxWeightFrom_ge. Qed.

Section MergeFacts.
Context `{GoSort}.

(** C5. [MergeRemainingWeightType] adds to the weight of every result
    carried over from the previous tier the maximum weight found among the
    summed results of the current tier, and merges the two lists; when the
    carried-over weights are positive (and the sums stay within [int]),
    every carried-over result ends up strictly heavier than every result of
    the current tier. *)
Theorem merge_elevates_carried_over (i remaining : IndexCompareResultList) :
  let summed := sumMatchWeightValues false 0 i in
  let lowerMaxWeight := getMaxWeight summed in
  (∀ r, r ∈ CompareResults remaining →
        0 < Weight r ∧ Weight r + lowerMaxWeight ≤ int_max) →
  CompareResults (snd (MergeRemainingWeightType i remaining))
    = map (λ r, setWeight r (Weight r + lowerMaxWeight)) (CompareResults remaining)
  ∧ CompareResults (fst (MergeRemainingWeightType i remaining))
    ≡ₚ CompareResults summed
        ++ CompareResults (snd (MergeRemainingWeightType i remaining))
  ∧ ∀ c r, c ∈ CompareResults summed →
           r ∈ CompareResults (snd (MergeRemainingWeightType i remaining)) →
           Weight c < Weight r.
Proof.
  intros summed lowerMaxWeight Hpos.
  destruct (getMaxWeight_ge summed) as [Hm0 Hmax].
  fold lowerMaxWeight in Hm0, Hmax.
  assert (Helev : CompareResults (snd (MergeRemainingWeightType i remaining))
    = map (λ r, setWeight r (Weight r + lowerMaxWeight)) (CompareResults remaining)).
  { unfold MergeRemainingWeightType; simpl.
    apply map_ext_in. intros r Hr. apply list_elem_of_In in Hr.
    destruct (Hpos r Hr) as [H0 H1].
    unfold add_int. fold summed. fold lowerMaxWeight.
    rewrite wrap_small; [reflexivity | unfold int_min; lia]. }
  split; [exact Helev|]. split.
  - unfold MergeRemainingWeightType; simpl. apply sort_by_perm.
  - intros c r Hc Hr. rewrite Helev in Hr.
    apply list_elem_of_In, in_map_iff in Hr as (r0 & <- & Hr0).
    apply list_elem_of_In in Hr0.
    destruct (Hpos r0 Hr0) as [H0 H1]. specialize (Hmax c Hc). simpl. lia.
Qed.

End MergeFacts.

(** ** Keys of compare results *)

Lemma ids_eq (a b : CompareResult) :
  ids a = ids b ↔ LeftId a = LeftId b ∧ RightId a = RightId b.
Proof. unfold ids. split; [intros [= -> ->]; auto | intros [-> ->]; auto]. Qed.

Lemma areIdsEqual_true (a b : CompareResult) : areIdsEqual a b = true ↔ ids a = ids b.
Proof. rewrite ids_eq. unfold areIdsEqual. rewrite andb_true_iff. lia. Qed.

Lemma areIdsEqual_false (a b : CompareResult) : areIdsEqual a b = false ↔ ids a ≠ ids b.
Proof.
  rewrite <- areIdsEqual_true. destruct (areIdsEqual a b); split; congruence.
Qed.

Lemma ByLeftRight_true (a b : CompareResult) : ByLeftRight a b = true ↔ klt a b.
Proof. unfold ByLeftRight, klt. case_match; lia. Qed.

Lemma not_after_ByLeftRight (a b : CompareResult) :
  not_after ByLeftRight a b ↔ klt a b ∨ ids a = ids b.
Proof.
  unfold not_after. rewrite ids_eq. unfold ByLeftRight, klt. case_match; lia.
Qed.

Lemma compareCompareResults_lt (a b : CompareResult) :
  compareCompareResults a b < 0 ↔ klt a b.
Proof. unfold compareCompareResults, klt. repeat case_match; lia. Qed.

Lemma compareCompareResults_eq (a b : CompareResult) :
  compareCompareResults a b = 0 ↔ ids a = ids b.
Proof. rewrite ids_eq. unfold compareCompareResults. repeat case_match; lia. Qed.

Lemma klt_trans (a b c : CompareResult) : klt a b → klt b c → klt a c.
Proof. unfold klt. lia. Qed.

Lemma klt_ids_l (a a' b : CompareResult) : ids a = ids a' → klt a b → klt a' b.
Proof. rewrite ids_eq. unfold klt. lia. Qed.

Lemma klt_ids_r (a b b' : CompareResult) : ids b = ids b' → klt a b → klt a b'.
Proof. rewrite ids_eq. unfold klt. lia. Qed.

Lemma klt_irrefl (a b : CompareResult) : klt a b → ids a ≠ ids b.
Proof. rewrite ids_eq. unfold klt. lia. Qed.

Lemma klt_irrefl_sym (a b : CompareResult) : klt a b → ids b ≠ ids a.
Proof. rewrite ids_eq. unfold klt. lia. Qed.

#[local] Instance klt_transitive : Transitive klt.
Proof. intros a b c. apply klt_trans. Qed.

(** A list sorted by [ByLeftRight] whose keys are pairwise different is
    strictly sorted. *)
Lemma strictly_sorted_of_sorted (l : list CompareResult) :
  StronglySorted (not_after ByLeftRight) l → NoDup (map ids l) →
  StronglySorted klt l.
Proof.
  induction 1 as [|x l Hs IH Hall]; intros Hnd; [constructor|].
  simpl in Hnd. apply NoDup_cons in Hnd as [Hx Hnd].
  constructor; [auto|].
  rewrite Forall_forall in *. intros y Hy.
  specialize (Hall y Hy). apply not_after_ByLeftRight in Hall as [Hlt|Heq]; [exact Hlt|].
  exfalso. apply Hx. rewrite Heq. apply list_elem_of_fmap. exists y. auto.
Qed.

Lemma strictly_sorted_NoDup (l : list CompareResult) :
  StronglySorted klt l → NoDup (map ids l).
Proof.
  induction 1 as [|x l Hs IH Hall]; simpl; [constructor|].
  apply NoDup_cons. split; [|exact IH].
  intros Hin. apply list_elem_of_fmap in Hin as (y & Heq & Hy).
  rewrite Forall_forall in Hall. apply (klt_irrefl x y); auto.
Qed.

Lemma NoDup_ids_inj (l : list CompareResult) (a b : CompareResult) :
  NoDup (map ids l) → a ∈ l → b ∈ l → ids a = ids b → a = b.
Proof.
  induction l as [|x l IH]; simpl; intros Hnd Ha Hb Heq; [inversion Ha|].
  apply NoDup_cons in Hnd as [Hx Hnd].
  apply elem_of_cons in Ha as [-> | Ha]; apply elem_of_cons in Hb as [-> | Hb]; auto.
  - exfalso. apply Hx. rewrite Heq. apply list_elem_of_fmap. eauto.
  - exfalso. apply Hx. rewrite <- Heq. apply list_elem_of_fmap. eauto.
Qed.

Section SortFacts.
Context `{GoSort}.

Lemma sort_strictly_sorted (l : list CompareResult) :
  NoDup (map ids l) → StronglySorted klt (sort_by ByLeftRight l).
Proof.
  intros Hnd. apply strictly_sorted_of_sorted.
  - apply sort_by_sorted, ByLeftRight_order.
  - assert (Hp : map ids (sort_by ByLeftRight l) ≡ₚ map ids l)
      by (apply fmap_Permutation, sort_by_perm).
    rewrite Hp. exact Hnd.
Qed.

Lemma elem_of_sort_by {A} (less : A → A → bool) (l : list A) (x : A) :
  x ∈ sort_by less l ↔ x ∈ l.
Proof. rewrite (sort_by_perm A less l). reflexivity. Qed.

End SortFacts.

(** ** Summing the weights of equal pairs *)

Lemma postProcessStep_ids (pp : PostProcess) (r : CompareResult) (k : bool) :
  ids (fst (snd (postProcessStep pp (r, k)))) = ids r.
Proof.
  unfold postProcessStep. repeat case_match; simpl; reflexivity.
Qed.

Lemma postProcess_ids (ppl : list PostProcess) (r : CompareResult) (k : bool) :
  ids (fst (snd (postProcess ppl (r, k)))) = ids r.
Proof.
  revert r k. induction ppl as [|pp ppl IH]; intros r k; [reflexivity|].
  pose proof (postProcessStep_ids pp r k) as H1.
  cbn [postProcess].
  destruct (postProcessStep pp (r, k)) as [pp' [r' k']] eqn:E1.
  pose proof (IH r' k') as H2.
  destruct (postProcess ppl (r', k')) as [rest' [r'' k'']] eqn:E2.
  simpl in *. congruence.
Qed.

Lemma postProcess_nil (st : CompareResult * bool) : postProcess [] st = ([], st).
Proof. reflexivity. Qed.

(** What [addRecord] appends: nothing, or one record with the ids of the
    running total, and only if the running total passes the split-match
    gate. *)
Lemma addRecord_spec (splitMatch : bool) (maxMatchValue : Z) (prevTotal : CompareResult)
  (ppl : list PostProcess) (summed : list CompareResult) :
  ∃ new, snd (addRecord splitMatch maxMatchValue prevTotal ppl summed) = summed ++ new
    ∧ (new = [] ∨ ∃ r, new = [r] ∧ ids r = ids prevTotal
                       ∧ (splitMatch = true → maxMatchValue ≤ Weight prevTotal)).
Proof.
  unfold addRecord.
  destruct (splitMatch && (Weight prevTotal <? maxMatchValue)) eqn:Egate.
  - exists []. rewrite app_nil_r. auto.
  - destruct (postProcess ppl (prevTotal, true)) as [ppl' [total keep]] eqn:E.
    pose proof (postProcess_ids ppl prevTotal true) as Hids. rewrite E in Hids.
    simpl in Hids.
    destruct keep; simpl.
    + exists [total]. split; [reflexivity|]. right. exists total.
      split; [reflexivity|]. split; [exact Hids|].
      intros ->. simpl in Egate. lia.
    + exists []. rewrite app_nil_r. auto.
Qed.

Lemma sorted_head_le (a : CompareResult) (rest : list CompareResult) (x : CompareResult) :
  StronglySorted (not_after ByLeftRight) (a :: rest) → x ∈ rest →
  klt a x ∨ ids a = ids x.
Proof.
  intros Hs Hx. apply StronglySorted_inv in Hs as [_ Hall].
  rewrite Forall_forall in Hall. apply not_after_ByLeftRight. auto.
Qed.

(** The records appended by [sumLoop] have strictly increasing keys, none
    of them below the key of the current group. *)
Lemma sumLoop_sorted (splitMatch : bool) (maxMatchValue : Z) (rest : list CompareResult) :
  ∀ (a prevTotal : CompareResult) ppl summed,
  ids prevTotal = ids a →
  StronglySorted (not_after ByLeftRight) (a :: rest) →
  ∃ new, snd (sumLoop splitMatch maxMatchValue a prevTotal rest ppl summed) = summed ++ new
    ∧ StronglySorted klt new
    ∧ Forall (λ r, klt a r ∨ ids a = ids r) new.
Proof.
  induction rest as [|b rest IH]; intros a prevTotal ppl summed Hids Hs; simpl.
  - destruct (addRecord_spec splitMatch maxMatchValue prevTotal ppl summed)
      as (new & Hnew & [-> | (r & -> & Hr & _)]).
    + exists []. split; [exact Hnew|]. split; constructor.
    + exists [r]. split; [exact Hnew|].
      split; [repeat constructor|]. constructor; [|constructor]. right. congruence.
  - assert (Hs' : StronglySorted (not_after ByLeftRight) (b :: rest))
      by (apply StronglySorted_inv in Hs; tauto).
    assert (Hab : klt a b ∨ ids a = ids b)
      by (apply (sorted_head_le a (b :: rest)); [auto | left]).
    destruct (areIdsEqual a b) eqn:Eab.
    + apply areIdsEqual_true in Eab.
      destruct (IH b (setWeight prevTotal (add_int (Weight prevTotal) (Weight b)))
                  ppl summed) as (new & Hnew & Hsorted & Hge); [|auto|].
      { rewrite <- Eab, <- Hids. reflexivity. }
      exists new. split; [exact Hnew|]. split; [exact Hsorted|].
      eapply Forall_impl; [exact Hge|]. simpl. intros r [Hr|Hr].
      * left. eapply klt_ids_l; [symmetry; exact Eab | exact Hr].
      * right. congruence.
    + apply areIdsEqual_false in Eab. destruct Hab as [Hab|Hab]; [|contradiction].
      destruct (addRecord_spec splitMatch maxMatchValue prevTotal ppl summed)
        as (new0 & Hnew0 & Hcase).
      destruct (addRecord splitMatch maxMatchValue prevTotal ppl summed)
        as [ppl' summed'] eqn:Eadd. simpl in Hnew0. subst summed'.
      destruct (IH b b ppl' (summed ++ new0)) as (new1 & Hnew1 & Hsorted & Hge);
        [reflexivity | auto |].
      exists (new0 ++ new1). rewrite Hnew1, app_assoc. split; [reflexivity|].
      assert (Hge' : Forall (λ r, klt a r) new1).
      { eapply Forall_impl; [exact Hge|]. simpl. intros r [Hr|Hr].
        - eapply klt_trans; eauto.
        - eapply klt_ids_r; eauto. }
      destruct Hcase as [-> | (r & -> & Hr & _)]; simpl.
      * split; [exact Hsorted|]. eapply Forall_impl; [exact Hge'|]. simpl. auto.
      * split.
        -- constructor; [exact Hsorted|].
           eapply Forall_impl; [exact Hge'|]. simpl. intros y Hy.
           eapply klt_ids_l; [|exact Hy]. congruence.
        -- constructor; [right; congruence|].
           eapply Forall_impl; [exact Hge'|]. simpl. auto.
Qed.

Section SumFacts.
Context `{GoSort}.

(** After [sumMatchWeightValues] no two results have the same pair of ids,
    and the results are in [ByLeftRight] order. *)
Lemma sumMatchWeightValues_sorted (splitMatch : bool) (maxMatchValue : Z)
  (i : IndexCompareResultList) :
  StronglySorted klt (CompareResults (sumMatchWeightValues splitMatch maxMatchValue i)).
Proof.
  unfold sumMatchWeightValues.
  destruct (CompareResults i) as [|x [|y l]] eqn:El.
  - rewrite El. constructor.
  - rewrite El. repeat constructor.
  - pose proof (sort_by_sorted _ ByLeftRight (x :: y :: l) ByLeftRight_order) as Hs.
    destruct (sort_by ByLeftRight (x :: y :: l)) as [|first rest] eqn:Es.
    + simpl. constructor.
    + destruct (sumLoop_sorted splitMatch maxMatchValue rest first first
                  (PostProcessList i) []) as (new & Hnew & Hsorted & _);
        [reflexivity | exact Hs |].
      destruct (sumLoop splitMatch maxMatchValue first first rest (PostProcessList i) [])
        as [ppl summed] eqn:Eloop.
      simpl in *. subst summed. exact Hsorted.
Qed.

End SumFacts.

(** ** Trimming the unique matches *)

Lemma trimLoop_nil_r (cur : list CompareResult) : trimLoop cur [] = cur.
Proof. induction cur as [|c cur IH]; simpl; [reflexivity | by rewrite IH]. Qed.

Lemma trimLoop_cons (c : CompareResult) (cur : list CompareResult)
  (u : CompareResult) (sgl : list CompareResult) :
  trimLoop (c :: cur) (u :: sgl) =
    if compareCompareResults c u <? 0 then c :: trimLoop cur (u :: sgl)
    else if compareCompareResults c u =? 0 then trimLoop cur sgl
    else trimLoop (c :: cur) sgl.
Proof. reflexivity. Qed.

Lemma compare_cases (c u : CompareResult) :
  (compareCompareResults c u < 0 ∧ klt c u)
  ∨ (compareCompareResults c u = 0 ∧ ids c = ids u)
  ∨ (0 < compareCompareResults c u ∧ klt u c).
Proof.
  unfold compareCompareResults, klt. rewrite ids_eq. repeat case_match; lia.
Qed.

Lemma sorted_klt_head (c : CompareResult) (l : list CompareResult) (x : CompareResult) :
  StronglySorted klt (c :: l) → x ∈ l → klt c x.
Proof.
  intros Hs Hx. apply StronglySorted_inv in Hs as [_ Hall].
  rewrite Forall_forall in Hall. auto.
Qed.

Lemma sorted_klt_tail (c : CompareResult) (l : list CompareResult) :
  StronglySorted klt (c :: l) → StronglySorted klt l.
Proof. intros Hs. apply StronglySorted_inv in Hs. tauto. Qed.

(** On strictly sorted lists the walk keeps exactly the entries of the
    current list whose ids do not occur among the unique matches. *)
Lemma trimLoop_elem_of (cur : list CompareResult) :
  ∀ sgl, StronglySorted klt cur → StronglySorted klt sgl →
  ∀ x, x ∈ trimLoop cur sgl ↔ x ∈ cur ∧ ∀ u, u ∈ sgl → ids u ≠ ids x.
Proof.
  induction cur as [|c cur IHc]; intros sgl Hc Hs x.
  - simpl. split; [intros Hx; inversion Hx | intros [Hx _]; inversion Hx].
  - induction sgl as [|u sgl IHs].
    + rewrite trimLoop_nil_r. split; [intros Hx; split; [auto|] | tauto].
      intros u Hu. inversion Hu.
    + rewrite trimLoop_cons.
      pose proof (sorted_klt_tail _ _ Hc) as Hc'.
      pose proof (sorted_klt_tail _ _ Hs) as Hs'.
      destruct (compare_cases c u) as [[Hd Hk] | [[Hd Hk] | [Hd Hk]]].
      * replace (compareCompareResults c u <? 0) with true by lia.
        rewrite elem_of_cons, (IHc (u :: sgl) Hc' Hs x), elem_of_cons.
        split.
        -- intros [-> | [Hx Hu]]; [|auto].
           split; [auto|]. intros u' Hu'. apply klt_irrefl_sym.
           apply elem_of_cons in Hu' as [-> | Hu']; [exact Hk|].
           eapply klt_trans; [exact Hk|]. eapply sorted_klt_head; eauto.
        -- intros [[-> | Hx] Hu]; auto.
      * replace (compareCompareResults c u <? 0) with false by lia.
        replace (compareCompareResults c u =? 0) with true by lia.
        rewrite (IHc sgl Hc' Hs' x), elem_of_cons.
        split.
        -- intros [Hx Hu]. split; [auto|].
           intros u' Hu'. apply elem_of_cons in Hu' as [-> | Hu']; [|auto].
           rewrite <- Hk. apply klt_irrefl. eapply sorted_klt_head; eauto.
        -- intros [[-> | Hx] Hu].
           ++ exfalso. apply (Hu u); [left | congruence].
           ++ split; [auto|]. intros u' Hu'. apply Hu. by right.
      * replace (compareCompareResults c u <? 0) with false by lia.
        replace (compareCompareResults c u =? 0) with false by lia.
        rewrite (IHs Hs'). split.
        -- intros [Hx Hu]. split; [auto|].
           intros u' Hu'. apply elem_of_cons in Hu' as [-> | Hu']; [|auto].
           apply klt_irrefl.
           apply elem_of_cons in Hx as [-> | Hx]; [exact Hk|].
           eapply klt_trans; [exact Hk|]. eapply sorted_klt_head; eauto.
        -- intros [Hx Hu]. split; [auto|]. intros u' Hu'. apply Hu. by right.
Qed.

(** When every unique match is found in the current list, the walk writes
    exactly [len(current) - len(unique)] entries. *)
Lemma trimLoop_length (cur : list CompareResult) :
  ∀ sgl, StronglySorted klt cur → StronglySorted klt sgl →
  (∀ u, u ∈ sgl → ∃ c, c ∈ cur ∧ ids c = ids u) →
  (length (trimLoop cur sgl) + length sgl = length cur)%nat.
Proof.
  induction cur as [|c cur IHc]; intros sgl Hc Hs Hsub.
  - destruct sgl as [|u sgl]; [reflexivity|].
    destruct (Hsub u) as (c & Hin & _); [left | inversion Hin].
  - induction sgl as [|u sgl IHs].
    + rewrite trimLoop_nil_r. simpl. lia.
    + rewrite trimLoop_cons.
      pose proof (sorted_klt_tail _ _ Hc) as Hc'.
      pose proof (sorted_klt_tail _ _ Hs) as Hs'.
      destruct (compare_cases c u) as [[Hd Hk] | [[Hd Hk] | [Hd Hk]]].
      * replace (compareCompareResults c u <? 0) with true by lia.
        simpl. rewrite <- (IHc (u :: sgl) Hc' Hs); [simpl; lia|].
        intros u' Hu'. destruct (Hsub u' Hu') as (c' & Hin & Heq).
        apply elem_of_cons in Hin as [-> | Hin]; [|eauto].
        exfalso. apply (klt_irrefl c u'); [|exact Heq].
        apply elem_of_cons in Hu' as [-> | Hu']; [exact Hk|].
        eapply klt_trans; [exact Hk|]. eapply sorted_klt_head; eauto.
      * replace (compareCompareResults c u <? 0) with false by lia.
        replace (compareCompareResults c u =? 0) with true by lia.
        simpl. rewrite <- (IHc sgl Hc' Hs'); [lia|].
        intros u' Hu'. destruct (Hsub u') as (c' & Hin & Heq); [by right|].
        apply elem_of_cons in Hin as [-> | Hin]; [|eauto].
        exfalso. apply (klt_irrefl u u'); [eapply sorted_klt_head; eauto | congruence].
      * exfalso. destruct (Hsub u) as (c' & Hin & Heq); [left|].
        apply (klt_irrefl u c'); [|congruence].
        apply elem_of_cons in Hin as [-> | Hin]; [exact Hk|].
        eapply klt_trans; [exact Hk|]. eapply sorted_klt_head; eauto.
Qed.

(** ** Unique top matches *)

Lemma topForSource_true (l : list CompareResult) (r : CompareResult) :
  topForSource l r = true ↔ strictTopOfSource l r.
Proof.
  unfold topForSource, strictTopOfSource. rewrite forallb_forall. split.
  - intros Hall o Ho HL HR. apply list_elem_of_In in Ho.
    specialize (Hall o Ho). unfold outranks, areIdsEqual in Hall.
    replace (LeftId o =? LeftId r) with true in Hall by lia.
    replace (RightId o =? RightId r) with false in Hall by lia.
    simpl in Hall. lia.
  - intros Hall o Ho. apply list_elem_of_In in Ho.
    destruct (LeftId o =? LeftId r) eqn:EL; [|reflexivity].
    unfold outranks, areIdsEqual. rewrite EL. simpl.
    destruct (RightId o =? RightId r) eqn:ER; [reflexivity|].
    simpl. specialize (Hall o Ho). lia.
Qed.

Lemma topForTarget_true (l : list CompareResult) (r : CompareResult) :
  topForTarget l r = true ↔ strictTopOfTarget l r.
Proof.
  unfold topForTarget, strictTopOfTarget. rewrite forallb_forall. split.
  - intros Hall o Ho HR HL. apply list_elem_of_In in Ho.
    specialize (Hall o Ho). unfold outranks, areIdsEqual in Hall.
    replace (RightId o =? RightId r) with true in Hall by lia.
    replace (LeftId o =? LeftId r) with false in Hall by lia.
    simpl in Hall. lia.
  - intros Hall o Ho. apply list_elem_of_In in Ho.
    destruct (RightId o =? RightId r) eqn:ER; [|reflexivity].
    unfold outranks, areIdsEqual. rewrite ER.
    destruct (LeftId o =? LeftId r) eqn:EL; [reflexivity|].
    simpl. specialize (Hall o Ho). lia.
Qed.

Lemma extractUniqueTopMatch_elem_of (i : IndexCompareResultList) (r : CompareResult) :
  r ∈ extractUniqueTopMatch i ↔
  r ∈ CompareResults i ∧ strictTopOfSource (CompareResults i) r
                       ∧ strictTopOfTarget (CompareResults i) r.
Proof.
  unfold extractUniqueTopMatch.
  rewrite list_elem_of_In, filter_In, andb_true_iff, <- list_elem_of_In.
  rewrite topForSource_true, topForTarget_true. reflexivity.
Qed.

Lemma StronglySorted_filter {A} (R : A → A → Prop) (P : A → bool) (l : list A) :
  StronglySorted R l → StronglySorted R (List.filter P l).
Proof.
  induction 1 as [|x l Hs IH Hall]; simpl; [constructor|].
  destruct (P x); [|exact IH].
  constructor; [exact IH|].
  rewrite Forall_forall in *. intros y Hy.
  apply list_elem_of_In, filter_In in Hy as [Hy _]. apply Hall, list_elem_of_In, Hy.
Qed.

Lemma StronglySorted_weaken {A} (R R' : A → A → Prop) (l : list A) :
  (∀ a b, R a b → R' a b) → StronglySorted R l → StronglySorted R' l.
Proof.
  intros HR. induction 1 as [|x l Hs IH Hall]; constructor; [exact IH|].
  eapply Forall_impl; [exact Hall|]. simpl. auto.
Qed.

Lemma filter_length_le {A} (P : A → bool) (l : list A) :
  (length (List.filter P l) ≤ length l)%nat.
Proof. induction l as [|x l IH]; simpl; [lia|]. destruct (P x); simpl; lia. Qed.

Section ProcessFacts.
Context `{GoSort}.

(** What [trimUniqueMatches] does when the current list has no two
    entries with the same ids and the unique matches are taken from it. *)
Lemma trimUniqueMatches_spec (i : IndexCompareResultList) (P : CompareResult → bool) :
  StronglySorted klt (CompareResults i) →
  ∃ i' unique,
    trimUniqueMatches i (List.filter P (CompareResults i)) = Some (i', unique)
    ∧ (∀ r, r ∈ unique ↔ r ∈ CompareResults i ∧ P r = true)
    ∧ (∀ r, r ∈ CompareResults i' ↔ r ∈ CompareResults i ∧ P r = false).
Proof.
  intros Hs. unfold trimUniqueMatches.
  set (cands := CompareResults i) in *.
  set (uniq := List.filter P cands).
  pose proof (filter_length_le P cands) as Hlen. fold uniq in Hlen.
  rewrite (proj2 (Nat.ltb_ge (length cands) (length uniq))) by exact Hlen.
  pose proof (strictly_sorted_NoDup cands Hs) as Hnd.
  assert (Hsu : StronglySorted klt uniq) by (apply StronglySorted_filter, Hs).
  pose proof (sort_strictly_sorted cands Hnd) as Hcur.
  pose proof (sort_strictly_sorted uniq (strictly_sorted_NoDup uniq Hsu)) as Hsgl.
  assert (Huniq : ∀ r, r ∈ uniq ↔ r ∈ cands ∧ P r = true).
  { intros r. unfold uniq. rewrite list_elem_of_In, filter_In, <- list_elem_of_In.
    reflexivity. }
  assert (Hfound : ∀ u, u ∈ sort_by ByLeftRight uniq →
                        ∃ c, c ∈ sort_by ByLeftRight cands ∧ ids c = ids u).
  { intros u Hu. exists u. split; [|reflexivity].
    apply elem_of_sort_by. apply elem_of_sort_by in Hu. apply Huniq in Hu. tauto. }
  pose proof (trimLoop_length _ _ Hcur Hsgl Hfound) as Hkept.
  rewrite !(Permutation_length (sort_by_perm _ ByLeftRight _)) in Hkept.
  set (kept := trimLoop (sort_by ByLeftRight cands) (sort_by ByLeftRight uniq)) in *.
  rewrite (proj2 (Nat.ltb_ge (length cands - length uniq) (length kept))) by lia.
  replace (length cands - length uniq - length kept)%nat with 0%nat by lia.
  eexists _, _. split; [reflexivity|]. simpl. rewrite app_nil_r. split.
  - intros r. rewrite elem_of_sort_by. apply Huniq.
  - intros r. unfold kept. rewrite (trimLoop_elem_of _ _ Hcur Hsgl).
    rewrite elem_of_sort_by. split.
    + intros [Hr Hno]. split; [exact Hr|].
      destruct (P r) eqn:EP; [|reflexivity].
      exfalso. apply (Hno r); [|reflexivity].
      apply elem_of_sort_by, Huniq. auto.
    + intros [Hr HP]. split; [exact Hr|].
      intros u Hu Heq. apply elem_of_sort_by, Huniq in Hu as [Hu HPu].
      assert (u = r) by (eapply NoDup_ids_inj; eauto). subst u. congruence.
Qed.

(** What [ProcessMatches] returns and what it leaves in the list, in terms
    of the test applied by [extractUniqueTopMatch]. *)
Lemma ProcessMatches_spec (splitMatch : bool) (maxMatchValue : Z)
  (i : IndexCompareResultList) :
  let cands := CompareResults (sumMatchWeightValues splitMatch maxMatchValue i) in
  ∃ i' unique,
    ProcessMatches splitMatch maxMatchValue i = Some (i', unique)
    ∧ (∀ r, r ∈ unique ↔
            r ∈ cands ∧ topForSource cands r && topForTarget cands r = true)
    ∧ (∀ r, r ∈ CompareResults i' ↔
            r ∈ cands ∧ topForSource cands r && topForTarget cands r = false).
Proof.
  intros cands. unfold ProcessMatches.
  destruct (CompareResults i) as [|x l] eqn:El.
  - assert (Hc : cands = []).
    { unfold cands, sumMatchWeightValues. rewrite El. exact El. }
    exists i, []. rewrite Hc, El. split; [reflexivity|].
    split; intros r; (split; [intros Hr; inversion Hr | intros [Hr _]; inversion Hr]).
  - pose proof (sumMatchWeightValues_sorted splitMatch maxMatchValue i) as Hs.
    exact (trimUniqueMatches_spec (sumMatchWeightValues splitMatch maxMatchValue i)
             (λ r, topForSource cands r && topForTarget cands r) Hs).
Qed.


End ProcessFacts.

(** ** The split-match gate *)

Lemma pairSum_ids (l : list CompareResult) (x x' : CompareResult) :
  ids x = ids x' → pairSum l x = pairSum l x'.
Proof.
  intros Heq. induction l as [|y l IH]; simpl; [reflexivity|].
  rewrite IH. f_equal.
  destruct (areIdsEqual x y) eqn:E1, (areIdsEqual x' y) eqn:E2; try reflexivity.
  - apply areIdsEqual_true in E1. apply areIdsEqual_false in E2. congruence.
  - apply areIdsEqual_true in E2. apply areIdsEqual_false in E1. congruence.
Qed.

Lemma pairSum_perm (l l' : list CompareResult) (x : CompareResult) :
  l ≡ₚ l' → pairSum l x = pairSum l' x.
Proof. induction 1; simpl; lia. Qed.

Lemma pairSum_absent (l : list CompareResult) (x : CompareResult) :
  (∀ y, y ∈ l → ids x ≠ ids y) → pairSum l x = 0.
Proof.
  induction l as [|y l IH]; intros Hno; simpl; [reflexivity|].
  rewrite IH by (intros z Hz; apply Hno; by right).
  replace (areIdsEqual x y) with false; [reflexivity|].
  symmetry. apply areIdsEqual_false, Hno. left.
Qed.

(** With the split-match flag set, every record appended by [sumLoop]
    stands for a pair whose summed weight is not below the max match
    value. *)
Lemma sumLoop_gate (maxMatchValue : Z) (rest : list CompareResult) :
  ∀ (a prevTotal : CompareResult) ppl summed (W : Z),
  ids prevTotal = ids a → Weight prevTotal = wrap W →
  StronglySorted (not_after ByLeftRight) (a :: rest) →
  Forall validWeight rest →
  ∃ new, snd (sumLoop true maxMatchValue a prevTotal rest ppl summed) = summed ++ new
    ∧ ∀ r, r ∈ new →
        ∃ x, x ∈ a :: rest ∧ ids r = ids x
             ∧ maxMatchValue ≤ wrap ((if areIdsEqual x a then W else 0) + pairSum rest x).
Proof.
  induction rest as [|b rest IH]; intros a prevTotal ppl summed W Hids HW Hs Hvalid.
  - cbn [sumLoop].
    destruct (addRecord_spec true maxMatchValue prevTotal ppl summed)
      as (new & Hnew & [-> | (r & -> & Hr & Hgate)]).
    + exists []. split; [exact Hnew|]. intros r Hr. inversion Hr.
    + exists [r]. split; [exact Hnew|]. intros r' Hr'.
      apply list_elem_of_singleton in Hr'. subst r'.
      exists a. split; [left|]. split; [congruence|].
      replace (areIdsEqual a a) with true
        by (symmetry; apply areIdsEqual_true; reflexivity).
      simpl. rewrite Z.add_0_r, <- HW. auto.
  - assert (Hs' : StronglySorted (not_after ByLeftRight) (b :: rest))
      by (apply StronglySorted_inv in Hs; tauto).
    assert (Hab : klt a b ∨ ids a = ids b)
      by (apply (sorted_head_le a (b :: rest)); [auto | left]).
    apply Forall_cons in Hvalid as [Hvb Hvalid].
    cbn [sumLoop].
    destruct (areIdsEqual a b) eqn:Eab.
    + apply areIdsEqual_true in Eab.
      destruct (IH b (setWeight prevTotal (add_int (Weight prevTotal) (Weight b)))
                  ppl summed (W + Weight b)) as (new & Hnew & Hgate); auto.
      { rewrite <- Eab, <- Hids. reflexivity. }
      { simpl. unfold add_int. rewrite HW. apply wrap_add_l. }
      exists new. split; [exact Hnew|]. intros r Hr.
      destruct (Hgate r Hr) as (x & Hx & Hrx & Hmax).
      exists x. split; [by right|]. split; [exact Hrx|].
      cbn [pairSum].
      replace (areIdsEqual x a) with (areIdsEqual x b).
      * destruct (areIdsEqual x b); [|exact Hmax].
        replace (W + (Weight b + pairSum rest x))
          with (W + Weight b + pairSum rest x) by lia. exact Hmax.
      * destruct (areIdsEqual x b) eqn:E1, (areIdsEqual x a) eqn:E2; try reflexivity.
        -- apply areIdsEqual_true in E1. apply areIdsEqual_false in E2. congruence.
        -- apply areIdsEqual_true in E2. apply areIdsEqual_false in E1. congruence.
    + apply areIdsEqual_false in Eab. destruct Hab as [Hab|Hab]; [|contradiction].
      assert (Hlater : ∀ y, y ∈ b :: rest → klt a y).
      { intros y Hy. apply elem_of_cons in Hy as [-> | Hy]; [exact Hab|].
        destruct (sorted_head_le b rest y Hs' Hy) as [Hby | Hby].
        - eapply klt_trans; eauto.
        - eapply klt_ids_r; eauto. }
      destruct (addRecord_spec true maxMatchValue prevTotal ppl summed)
        as (new0 & Hnew0 & Hcase).
      destruct (addRecord true maxMatchValue prevTotal ppl summed)
        as [ppl' summed'] eqn:Eadd. simpl in Hnew0. subst summed'.
      destruct (IH b b ppl' (summed ++ new0) (Weight b)) as (new1 & Hnew1 & Hgate);
        auto.
      { symmetry. apply wrap_small, Hvb. }
      exists (new0 ++ new1). rewrite Hnew1, app_assoc. split; [reflexivity|].
      intros r Hr. apply elem_of_app in Hr as [Hr | Hr].
      * destruct Hcase as [-> | (r0 & -> & Hr0 & Hg)]; [inversion Hr|].
        apply list_elem_of_singleton in Hr. subst r.
        exists a. split; [left|]. split; [congruence|].
        replace (areIdsEqual a a) with true
          by (symmetry; apply areIdsEqual_true; reflexivity).
        rewrite pairSum_absent.
        -- rewrite Z.add_0_r, <- HW. auto.
        -- intros y Hy. apply klt_irrefl. auto.
      * destruct (Hgate r Hr) as (x & Hx & Hrx & Hmax).
        exists x. split; [by right|]. split; [exact Hrx|].
        replace (areIdsEqual x a) with false.
        -- cbn [pairSum]. destruct (areIdsEqual x b); simpl in *; exact Hmax.
        -- symmetry. apply areIdsEqual_false, klt_irrefl_sym. auto.
Qed.

Section SplitFacts.
Context `{GoSort}.

Lemma sumMatchWeightValues_gate (maxMatchValue : Z) (i : IndexCompareResultList) :
  (2 ≤ length (CompareResults i))%nat →
  Forall validWeight (CompareResults i) →
  ∀ r, r ∈ CompareResults (sumMatchWeightValues true maxMatchValue i) →
  ∃ x, x ∈ CompareResults i ∧ ids r = ids x
       ∧ maxMatchValue ≤ pairTotal (CompareResults i) x.
Proof.
  intros Hlen Hvalid r. unfold sumMatchWeightValues.
  destruct (CompareResults i) as [|x0 [|y0 l]] eqn:El; simpl in Hlen; try lia.
  pose proof (sort_by_sorted _ ByLeftRight (x0 :: y0 :: l) ByLeftRight_order) as Hs.
  pose proof (sort_by_perm _ ByLeftRight (x0 :: y0 :: l)) as Hp.
  destruct (sort_by ByLeftRight (x0 :: y0 :: l)) as [|first rest] eqn:Es.
  { simpl. intros Hr. inversion Hr. }
  assert (Hv : Forall validWeight (first :: rest)) by (rewrite Hp; exact Hvalid).
  apply Forall_cons in Hv as [Hvf Hvr].
  destruct (sumLoop_gate maxMatchValue rest first first (PostProcessList i) []
              (Weight first)) as (new & Hnew & Hgate); auto.
  { symmetry. apply wrap_small, Hvf. }
  destruct (sumLoop true maxMatchValue first first rest (PostProcessList i) [])
    as [ppl summed] eqn:Eloop.
  simpl in *. subst summed. intros Hr.
  destruct (Hgate r Hr) as (x & Hx & Hrx & Hmax).
  exists x. split; [rewrite <- Hp; exact Hx|]. split; [exact Hrx|].
  unfold pairTotal. rewrite <- (pairSum_perm _ _ x Hp). simpl.
  destruct (areIdsEqual x first); exact Hmax.
Qed.

(** C4, as the code has it.  In a split-match tier whose list holds at
    least two entries, a candidate pair whose summed weight is below the
    max match value is dropped by the summation: it is not returned as a
    unique match, and it is not in the list that is carried over to the
    next tier either. *)
Theorem split_match_drops_partial_pairs (maxMatchValue : Z)
  (i i' : IndexCompareResultList) (unique : list CompareResult) (x : CompareResult) :
  (2 ≤ length (CompareResults i))%nat →
  Forall validWeight (CompareResults i) →
  x ∈ CompareResults i →
  pairTotal (CompareResults i) x < maxMatchValue →
  ProcessMatches true maxMatchValue i = Some (i', unique) →
  ∀ r, r ∈ unique ∨ r ∈ CompareResults i' → ids r ≠ ids x.
Proof.
  intros Hlen Hvalid Hx Hlow Hrun r Hr Heq.
  destruct (ProcessMatches_spec true maxMatchValue i)
    as (i1 & u1 & Hrun1 & Hu & Hrest).
  rewrite Hrun in Hrun1. injection Hrun1 as <- <-.
  assert (Hcand : r ∈ CompareResults (sumMatchWeightValues true maxMatchValue i)).
  { destruct Hr as [Hr | Hr]; [apply Hu in Hr | apply Hrest in Hr]; tauto. }
  destruct (sumMatchWeightValues_gate maxMatchValue i Hlen Hvalid r Hcand)
    as (x' & Hx' & Hrx' & Hmax).
  unfold pairTotal in *.
  rewrite (pairSum_ids _ x' x) in Hmax by congruence. lia.
Qed.

End SplitFacts.

Lemma split_match_witness :
  (2 ≤ length (CompareResults splitTierSample))%nat
  ∧ Forall validWeight (CompareResults splitTierSample)
  ∧ mkResult 0 0 5 ∈ CompareResults splitTierSample
  ∧ pairTotal (CompareResults splitTierSample) (mkResult 0 0 5) < 10
  ∧ ProcessMatches (H := mergeSort) true 10 splitTierSample
    = Some (mkList [], [mkResult 1 1 10])
  ∧ ids (mkResult 1 1 10) ≠ ids (mkResult 0 0 5).
Proof.
  assert (H1 : (2 ≤ length (CompareResults splitTierSample))%nat) by (simpl; lia).
  assert (H2 : Forall validWeight (CompareResults splitTierSample))
    by (repeat constructor; unfold validWeight, int_min, int_max; simpl; lia).
  assert (H3 : mkResult 0 0 5 ∈ CompareResults splitTierSample) by left.
  assert (H4 : pairTotal (CompareResults splitTierSample) (mkResult 0 0 5) < 10)
    by (vm_compute; reflexivity).
  assert (H5 : ProcessMatches (H := mergeSort) true 10 splitTierSample
               = Some (mkList [], [mkResult 1 1 10])) by (vm_compute; reflexivity).
  repeat split; try assumption.
  apply (split_match_drops_partial_pairs (H := mergeSort) 10
           splitTierSample (mkList []) [mkResult 1 1 10] (mkResult 0 0 5)
           H1 H2 H3 H4 H5).
  left. left.
Defined.

(** C4, as stated, fails twice.  The pair (0,0) of [splitTierSample] is
    below the max match value (its summed weight is 5, the max match value
    10): it is not returned, but it is not carried forward either, the list
    left behind being empty.  And when such a pair is the only entry of the
    list, [ProcessMatches] does return it as a unique match. *)
Lemma split_match_counterexample :
  mkResult 0 0 5 ∈ CompareResults splitTierSample
  ∧ pairTotal (CompareResults splitTierSample) (mkResult 0 0 5) = 5
  ∧ ProcessMatches (H := mergeSort) true 10 splitTierSample
    = Some (mkList [], [mkResult 1 1 10])
  ∧ pairTotal [mkResult 0 0 5] (mkResult 0 0 5) = 5
  ∧ ProcessMatches (H := mergeSort) true 10 (mkList [mkResult 0 0 5])
    = Some (mkList [], [mkResult 0 0 5]).
Proof.
  split; [left|]. repeat split; vm_compute; reflexivity.
Qed.

Lemma merge_elevates_witness :
  (∀ r, r ∈ CompareResults sampleCarried →
        0 < Weight r
        ∧ Weight r + getMaxWeight (sumMatchWeightValues (H := mergeSort) false 0 sampleTier)
          ≤ int_max)
  ∧ CompareResults (snd (MergeRemainingWeightType (H := mergeSort) sampleTier sampleCarried))
    = [mkResult 2 2 13]
  ∧ ∀ c r, c ∈ CompareResults (sumMatchWeightValues (H := mergeSort) false 0 sampleTier) →
           r ∈ CompareResults
                 (snd (MergeRemainingWeightType (H := mergeSort) sampleTier sampleCarried)) →
           Weight c < Weight r.
Proof.
  assert (Hpos : ∀ r, r ∈ CompareResults sampleCarried →
        0 < Weight r
        ∧ Weight r + getMaxWeight (sumMatchWeightValues (H := mergeSort) false 0 sampleTier)
          ≤ int_max).
  { intros r Hr. apply list_elem_of_singleton in Hr. subst r.
    vm_compute. split; [reflexivity | discriminate]. }
  split; [exact Hpos|].
  destruct (merge_elevates_carried_over (H := mergeSort) sampleTier sampleCarried Hpos)
    as (Helev & _ & Hgt).
  split; [vm_compute; reflexivity | exact Hgt].
Defined.

(** ** The active tier list *)

Section ActiveList.
Context `{GoSort}.

(** C6, as the code has it.  [genSortedActiveList] rearranges the active
    tiers of [genActiveList] into descending order of tier weight. *)
Theorem genSortedActiveList_descending (i : IndexRuleMapGenerator) :
  genSortedActiveList i ≡ₚ genActiveList i
  ∧ StronglySorted (λ a b, TypeWeightValue b ≤ TypeWeightValue a)
      (genSortedActiveList i).
Proof.
  unfold genSortedActiveList. split; [apply sort_by_perm|].
  pose proof (sort_by_sorted _ ByWeightTypeValue (genActiveList i)
                ByWeightTypeValue_order) as Hs.
  eapply StronglySorted_weaken; [|exact Hs].
  intros a b. unfold not_after, ByWeightTypeValue. lia.
Qed.

End ActiveList.

(** The tiers of the active list carry their position in the configured
    list as [Key], in increasing order. *)
Lemma genActiveListFrom_keys (selfMatch : bool) (l : list IndexRuleType) (idx : Z) :
  StronglySorted Z.lt (map Key (genActiveListFrom selfMatch idx l))
  ∧ Forall (λ k, idx ≤ k) (map Key (genActiveListFrom selfMatch idx l)).
Proof.
  revert idx. induction l as [|c l IH]; intros idx; simpl.
  - split; constructor.
  - destruct (IH (idx + 1)) as [Hs Hge].
    assert (Hge' : Forall (λ k, idx < k) (map Key (genActiveListFrom selfMatch (idx + 1) l))).
    { eapply Forall_impl; [exact Hge|]. simpl. intros; lia. }
    case_match; simpl.
    + split; [constructor; auto|].
      constructor; [lia|]. eapply Forall_impl; [exact Hge'|]. simpl. intros; lia.
    + split; [exact Hs|]. eapply Forall_impl; [exact Hge'|]. simpl. intros; lia.
Qed.

(** C6, as stated, fails.  Of thirteen configured tiers the first twelve
    have tier weight 100 and the last has 200.  [sort.Sort] takes the tier
    at position 6 as pivot and swaps it to the front, then moves the tier
    of weight 200 in front of it: tier 6 ends up before tiers 0 and 1,
    which have its weight and were configured before it. *)
Lemma genSortedActiveList_counterexample :
  map Key (genActiveList thirteenTiers) = [0; 1; 2; 3; 4; 5; 6; 7; 8; 9; 10; 11; 12]
  ∧ map TypeWeightValue (genActiveList thirteenTiers)
    = [100; 100; 100; 100; 100; 100; 100; 100; 100; 100; 100; 100; 200]
  ∧ proj1_sig <$> GoLibrary.Sort GoLibrary.lenSlice (GoLibrary.lessSlice ByWeightTypeValue)
              GoLibrary.swapSlice
              (exist _ (genActiveList thirteenTiers)
                 (Permutation_refl (genActiveList thirteenTiers)))
    = Some (genSortedActiveList (H := goSort) thirteenTiers)
  ∧ map Key (genSortedActiveList (H := goSort) thirteenTiers)
    = [12; 6; 2; 3; 4; 5; 0; 7; 8; 9; 10; 11; 1]
  ∧ map TypeWeightValue (genSortedActiveList (H := goSort) thirteenTiers)
    = [200; 100; 100; 100; 100; 100; 100; 100; 100; 100; 100; 100; 100].
Proof. repeat split; vm_compute; reflexivity. Qed.

(** Two tiers are sorted by insertion, which leaves tiers of equal weight
    in their configured order. *)
Lemma two_equal_tiers_keep_order :
  map Key (genSortedActiveList (H := goSort) equalWeightTiers) = [0; 1].
Proof. vm_compute. reflexivity. Qed.

(** ** The committed matches are one-to-one *)

Lemma genRemainingMatchList_sorted (l : list RawItem) :
  StronglySorted Z.lt (genRemainingMatchList l).
Proof.
  unfold genRemainingMatchList. generalize 0%nat.
  induction (length l) as [|n IH]; intros start; simpl; [constructor|].
  constructor; [apply IH|].
  apply Forall_forall. intros x Hx.
  apply list_elem_of_In, in_map_iff in Hx as (k & <- & Hk).
  apply in_seq in Hk. lia.
Qed.

Lemma sorted_lt_head (r : Z) (l : list Z) (x : Z) :
  StronglySorted Z.lt (r :: l) → x ∈ l → r < x.
Proof.
  intros Hs Hx. apply StronglySorted_inv in Hs as [_ Hall].
  rewrite Forall_forall in Hall. auto.
Qed.

(** Subtracting from strictly increasing remaining indices succeeds only
    if the indices to remove are pairwise different and all present, and
    then removes exactly them. *)
Lemma subtractSorted_spec (remaining : list Z) :
  ∀ ids remaining',
  StronglySorted Z.lt remaining →
  subtractSorted remaining ids = Some remaining' →
  StronglySorted Z.lt remaining'
  ∧ NoDup ids
  ∧ (∀ x, x ∈ ids → x ∈ remaining)
  ∧ (∀ x, x ∈ remaining' ↔ x ∈ remaining ∧ ¬ x ∈ ids).
Proof.
  induction remaining as [|r remaining IH]; intros ids remaining' Hs Hsub.
  - destruct ids as [|id ids]; simpl in Hsub; [|discriminate].
    injection Hsub as <-. split; [constructor|]. split; [constructor|].
    split; [intros x Hx; inversion Hx|].
    intros x. split; [intros Hx; inversion Hx | intros [Hx _]; exact Hx].
  - destruct ids as [|id ids].
    + simpl in Hsub. injection Hsub as <-. split; [exact Hs|].
      split; [constructor|]. split; [intros x Hx; inversion Hx|].
      intros x. split; [intros Hx; split; [exact Hx | intros Hn; inversion Hn] | tauto].
    + pose proof (StronglySorted_inv Hs) as [Hs' Hall].
      cbn [subtractSorted] in Hsub.
      destruct (r <? id) eqn:Elt; [|destruct (r =? id) eqn:Eeq; [|discriminate]].
      * destruct (subtractSorted remaining (id :: ids)) as [q|] eqn:Eq;
          [|discriminate].
        simpl in Hsub. injection Hsub as <-.
        destruct (IH (id :: ids) q Hs' Eq) as (Hq & Hnd & Hin & Hiff).
        assert (Hr : ¬ r ∈ id :: ids).
        { intros Hr. apply Hin in Hr. pose proof (sorted_lt_head r remaining r Hs Hr). lia. }
        split.
        { constructor; [exact Hq|]. apply Forall_forall. intros x Hx.
          apply Hiff in Hx as [Hx _]. eapply sorted_lt_head; eauto. }
        split; [exact Hnd|]. split.
        { intros x Hx. right. auto. }
        intros x. rewrite !elem_of_cons, Hiff. split.
        -- intros [-> | [Hx Hn]].
           ++ split; [by left|]. rewrite <- elem_of_cons. exact Hr.
           ++ split; [by right|]. rewrite <- elem_of_cons. exact Hn.
        -- intros [[-> | Hx] Hn]; [by left|]. right. split; [exact Hx|].
           rewrite elem_of_cons. exact Hn.
      * assert (r = id) by lia. subst id.
        destruct (IH ids remaining' Hs' Hsub) as (Hq & Hnd & Hin & Hiff).
        assert (Hr : ¬ r ∈ ids).
        { intros Hr. apply Hin in Hr. pose proof (sorted_lt_head r remaining r Hs Hr). lia. }
        split; [exact Hq|]. split; [apply NoDup_cons; auto|]. split.
        { intros x Hx. apply elem_of_cons in Hx as [-> | Hx]; [left | right; auto]. }
        intros x. rewrite Hiff, !elem_of_cons. split.
        -- intros [Hx Hn]. split; [by right|]. intros [-> | Hx']; [|auto].
           pose proof (sorted_lt_head r remaining r Hs Hx). lia.
        -- intros [[-> | Hx] Hn]; [exfalso; apply Hn; by left|].
           split; [exact Hx|]. intros Hx'. apply Hn. by right.
Qed.

(** Committing pairs with fresh, pairwise different sources and targets
    never finds a source already committed and keeps the map one-to-one. *)
Lemma keepMatches_spec (uniqueMatch : list CompareResult) :
  ∀ m : gmap Z Z,
  NoDup (map LeftId uniqueMatch) → NoDup (map RightId uniqueMatch) →
  (∀ r, r ∈ uniqueMatch → m !! LeftId r = None) →
  (∀ r s, r ∈ uniqueMatch → m !! s ≠ Some (RightId r)) →
  oneToOne m →
  snd (keepMatches (m, false) uniqueMatch) = false
  ∧ oneToOne (fst (keepMatches (m, false) uniqueMatch))
  ∧ ∀ s t, fst (keepMatches (m, false) uniqueMatch) !! s = Some t ↔
           m !! s = Some t ∨ ∃ r, r ∈ uniqueMatch ∧ s = LeftId r ∧ t = RightId r.
Proof.
  induction uniqueMatch as [|u l IH]; intros m HndL HndR HfreshL HfreshR Hinj.
  - simpl. split; [reflexivity|]. split; [exact Hinj|].
    intros s t. split; [auto|]. intros [Hm | (r & Hr & _)]; [exact Hm | inversion Hr].
  - simpl in HndL, HndR.
    apply NoDup_cons in HndL as [HuL HndL]. apply NoDup_cons in HndR as [HuR HndR].
    unfold keepMatches. cbn [fold_left keepMatch].
    rewrite (HfreshL u) by left.
    replace (bool_decide (is_Some (@None Z))) with false
      by (symmetry; apply bool_decide_eq_false; intros [? ?]; discriminate).
    simpl. fold (keepMatches (<[LeftId u := RightId u]> m, false) l).
    destruct (IH (<[LeftId u := RightId u]> m)) as (Hflag & Hinj' & Hiff); auto.
    + intros r Hr. rewrite lookup_insert_ne; [apply HfreshL; by right|].
      intros Heq. apply HuL. rewrite Heq. apply list_elem_of_fmap. eauto.
    + intros r s Hr. destruct (decide (LeftId u = s)) as [<- | Hne].
      * rewrite lookup_insert_eq. intros [= Heq]. apply HuR. rewrite Heq.
        apply list_elem_of_fmap. eauto.
      * rewrite lookup_insert_ne by exact Hne. apply HfreshR. by right.
    + intros s1 s2 t.
      destruct (decide (LeftId u = s1)) as [<- | Hne1];
        destruct (decide (LeftId u = s2)) as [<- | Hne2]; auto.
      * rewrite lookup_insert_eq, lookup_insert_ne by exact Hne2.
        intros [= <-] H2. exfalso. apply (HfreshR u s2); [left | exact H2].
      * rewrite lookup_insert_eq, lookup_insert_ne by exact Hne1.
        intros H1 [= <-]. exfalso. apply (HfreshR u s1); [left | exact H1].
      * rewrite !lookup_insert_ne by assumption. apply Hinj.
    + split; [exact Hflag|]. split; [exact Hinj'|].
      intros s t. rewrite Hiff. split.
      * intros [Hm | (r & Hr & -> & ->)].
        -- destruct (decide (LeftId u = s)) as [<- | Hne].
           ++ rewrite lookup_insert_eq in Hm. injection Hm as <-.
              right. exists u. split; [left | auto].
           ++ rewrite lookup_insert_ne in Hm by exact Hne. by left.
        -- right. exists r. split; [by right | auto].
      * intros [Hm | (r & Hr & -> & ->)].
        -- left. rewrite lookup_insert_ne; [exact Hm|].
           intros <-. rewrite (HfreshL u) in Hm by left. discriminate.
        -- apply elem_of_cons in Hr as [-> | Hr].
           ++ left. apply lookup_insert_eq.
           ++ right. eauto.
Qed.


Section RunFacts.
Context `{GoSort} `{IndexCompare}.

Lemma PrepareRemainingMatch_remaining (keepSeeded keepUnseeded : bool)
  (e : MatchProcessing) (resultList : IndexCompareResultList) :
  RemainingMatch (Source (fst (PrepareRemainingMatch keepSeeded keepUnseeded e resultList)))
    = RemainingMatch (Source e)
  ∧ RemainingMatch (Target (fst (PrepareRemainingMatch keepSeeded keepUnseeded e resultList)))
    = RemainingMatch (Target e).
Proof.
  unfold PrepareRemainingMatch.
  destruct keepSeeded, keepUnseeded; simpl; auto.
Qed.

Lemma PrepareRemainingMatch_raw (keepSeeded keepUnseeded : bool)
  (e : MatchProcessing) (resultList : IndexCompareResultList) :
  RawMatchList (Source (fst (PrepareRemainingMatch keepSeeded keepUnseeded e resultList)))
    = RawMatchList (Source e)
  ∧ RawMatchList (Target (fst (PrepareRemainingMatch keepSeeded keepUnseeded e resultList)))
    = RawMatchList (Target e).
Proof.
  unfold PrepareRemainingMatch.
  destruct keepSeeded, keepUnseeded; simpl; auto.
Qed.

Lemma adjustremainingMatch_spec (e e' : MatchProcessing)
  (uniqueMatch uniqueMatch' : list CompareResult) :
  adjustremainingMatch e uniqueMatch = Some (e', uniqueMatch') →
  uniqueMatch' ≡ₚ uniqueMatch
  ∧ (∃ ids, ids ≡ₚ map LeftId uniqueMatch
       ∧ subtractSorted (RemainingMatch (Source e)) ids = Some (RemainingMatch (Source e')))
  ∧ subtractSorted (RemainingMatch (Target e)) (map RightId uniqueMatch')
    = Some (RemainingMatch (Target e')).
Proof.
  unfold adjustremainingMatch, reduceRemainingMatchList. intros Hrun.
  destruct (subtractSorted (RemainingMatch (Source e))
              (map getLeftId (sort_by ByLeft uniqueMatch))) as [rs|] eqn:Es;
    simpl in Hrun; [|discriminate].
  destruct (subtractSorted (RemainingMatch (Target e))
              (map getRightId (sort_by ByRight (sort_by ByLeft uniqueMatch))))
    as [rt|] eqn:Et; simpl in Hrun; [|discriminate].
  injection Hrun as <- <-. simpl. split; [|split].
  - rewrite !sort_by_perm. reflexivity.
  - eexists. split; [|exact Es]. apply fmap_Permutation, sort_by_perm.
  - exact Et.
Qed.

Lemma runTier_invariant (indexRuleType : IndexRuleType) (st st' : RunState) :
  runInvariant st → runTier indexRuleType st = Some st' → runInvariant st'.
Proof.
  intros (HsS & HsT & Hflag & Hout & Hinj). unfold runTier.
  pose proof (PrepareRemainingMatch_remaining true (IsSeed indexRuleType)
                (processing st) (remainingResults st)) as [HpS HpT].
  destruct (PrepareRemainingMatch true (IsSeed indexRuleType)
              (processing st) (remainingResults st)) as [e1 remaining1].
  simpl in HpS, HpT.
  destruct (runRules (IndexRules indexRuleType) indexRuleType e1
              (newIndexCompareResultList indexRuleType) 0) as [resultList1 maxMatchValue].
  destruct (MergeRemainingWeightType resultList1 remaining1) as [resultList2 rem2].
  destruct (ProcessMatches (SplitMatch indexRuleType) maxMatchValue resultList2)
    as [[resultList3 unique]|]; simpl; [|discriminate].
  destruct (adjustremainingMatch e1 unique) as [[e2 unique']|] eqn:Eadj;
    simpl; [|discriminate].
  intros [= <-]. unfold runInvariant. simpl.
  destruct (adjustremainingMatch_spec _ _ _ _ Eadj) as (Hperm & (idsL & HpL & HsubS) & HsubT).
  rewrite HpS in HsubS. rewrite HpT in HsubT.
  destruct (subtractSorted_spec _ _ _ HsS HsubS) as (HsS' & HndL & HinL & HiffL).
  destruct (subtractSorted_spec _ _ _ HsT HsubT) as (HsT' & HndR & HinR & HiffR).
  assert (HpL' : map LeftId unique' ≡ₚ idsL).
  { rewrite HpL. apply fmap_Permutation, Hperm. }
  destruct (matchedEntities st) as [m flag] eqn:Em. simpl in *. subst flag.
  destruct (keepMatches_spec unique' m) as (Hflag' & Hinj' & Hiff); auto.
  - rewrite HpL'. exact HndL.
  - intros r Hr. destruct (m !! LeftId r) as [t|] eqn:Elook; [|reflexivity].
    exfalso. destruct (Hout _ _ Elook) as [Hno _]. apply Hno, HinL.
    rewrite <- HpL'. apply list_elem_of_fmap. eauto.
  - intros r s Hr Hlook. destruct (Hout _ _ Hlook) as [_ Hno]. apply Hno, HinR.
    apply list_elem_of_fmap. eauto.
  - split; [exact HsS'|]. split; [exact HsT'|]. split; [exact Hflag'|].
    split; [|exact Hinj'].
    intros s t Hlook. apply Hiff in Hlook as [Hold | (r & Hr & -> & ->)].
    + destruct (Hout _ _ Hold) as [HnoS HnoT].
      rewrite HiffL, HiffR. tauto.
    + rewrite HiffL, HiffR. split; intros [_ Hn]; apply Hn.
      * rewrite <- HpL'. apply list_elem_of_fmap. eauto.
      * apply list_elem_of_fmap. eauto.
Qed.

Lemma runTiers_invariant (ruleTypes : list IndexRuleType) :
  ∀ st st', runInvariant st → runTiers ruleTypes st = Some st' → runInvariant st'.
Proof.
  induction ruleTypes as [|rt l IH]; intros st st' Hinv Hrun; simpl in Hrun.
  - injection Hrun as <-. exact Hinv.
  - destruct (runTier rt st) as [st1|] eqn:E1; simpl in Hrun; [|discriminate].
    eapply IH; [|exact Hrun]. eapply runTier_invariant; eauto.
Qed.

Lemma initial_invariant (e : MatchProcessing) :
  StronglySorted Z.lt (RemainingMatch (Source e)) →
  StronglySorted Z.lt (RemainingMatch (Target e)) →
  runInvariant (initialRunState e).
Proof.
  intros HS HT. unfold runInvariant, initialRunState. simpl.
  split; [exact HS|]. split; [exact HT|].
  split; [reflexivity|]. split.
  - intros s t Hlook. rewrite lookup_empty in Hlook. discriminate.
  - intros s1 s2 t Hlook. rewrite lookup_empty in Hlook. discriminate.
Qed.






Context `{RawMatchListSort}.

Lemma NewMatchProcessing_sorted (source : list RawItem) (sourceType : EntityType)
  (target : list RawItem) (targetType : EntityType) (e : MatchProcessing) :
  NewMatchProcessing source sourceType target targetType = Some e →
  StronglySorted Z.lt (RemainingMatch (Source e))
  ∧ StronglySorted Z.lt (RemainingMatch (Target e)).
Proof.
  unfold NewMatchProcessing. intros Hnew.
  destruct (rawSort source) as [ss|]; simpl in Hnew; [|discriminate].
  destruct (rawSort target) as [st|]; simpl in Hnew; [|discriminate].
  injection Hnew as <-. simpl. split; apply genRemainingMatchList_sorted.
Qed.


End RunFacts.

Lemma sampleRun_result :
  sampleRun = Some sampleFinal
  ∧ map_to_list (fst (matchedEntities sampleFinal)) = [(0, 0)]
  ∧ CompareResults (remainingResults sampleFinal) = [mkResult 1 1 10; mkResult 1 2 10]
  ∧ RemainingMatch (Source (processing sampleFinal)) = [1]
  ∧ RemainingMatch (Target (processing sampleFinal)) = [1; 2].
Proof. repeat split; vm_compute; reflexivity. Qed.



(** ** Reading the previous run *)

Ltac absurd_some :=
  match goal with
  | Hs : is_Some None |- _ => destruct Hs as [? Hs]; discriminate Hs
  end.

Ltac reader_cases :=
  repeat split; simpl; intros; simpl in *;
  repeat match goal with
         | Hc : _ ∧ _ |- _ => destruct Hc
         | Hc : _ ∨ _ |- _ => destruct Hc
         | Hc : ∃ _, _ |- _ => destruct Hc
         end;
  try reflexivity; try congruence; try absurd_some;
  try (eexists; reflexivity);
  try (left; reflexivity);
  try (right; eexists; reflexivity).

Section ReaderFacts.
Context `{FileEnv}.

(** C9, as the code has it.  [readMatchesPrev] answers "no previous data"
    and no error when the directory is not configured, when it cannot be
    checked or when the file cannot be read; it answers an error, with
    empty data, exactly when the file was read and either holds no byte or
    cannot be decoded. *)
Theorem readMatchesPrev_outcome (fs : Fs) (p : MatchParameters) (entitiesType : string) :
  let dir := Clean (PrevResultDir p) in
  let path := Join dir (Sanitize entitiesType +:+ ".json") in
  let r := readMatchesPrev fs p entitiesType in
  (PrevResultDir p = "" → r = (emptyOutput, None))
  ∧ (is_Some (snd (Exists fs dir)) → r = (emptyOutput, None))
  ∧ (is_Some (snd (ReadFile fs path)) → r = (emptyOutput, None))
  ∧ (is_Some (snd r) ↔
       PrevResultDir p ≠ "" ∧ snd (Exists fs dir) = None
       ∧ snd (ReadFile fs path) = None
       ∧ (fst (ReadFile fs path) = []
          ∨ ∃ err, Unmarshal (fst (ReadFile fs path)) = inr err))
  ∧ (is_Some (snd r) → fst r = emptyOutput).
Proof.
  intros dir path r. unfold r, readMatchesPrev. fold dir. fold path.
  destruct (String.eqb_spec (PrevResultDir p) "") as [Hdir | Hdir];
    [solve [reader_cases]|].
  destruct (Exists fs dir) as [ex [e1|]] eqn:Eex; simpl; [solve [reader_cases]|].
  destruct (ReadFile fs path) as [data [e2|]] eqn:Erd; simpl; [solve [reader_cases]|].
  destruct data as [|b data]; simpl; [solve [reader_cases]|].
  destruct (Unmarshal (b :: data)) as [prev | err] eqn:Eun; simpl; solve [reader_cases].
Qed.

End ReaderFacts.

(** C9, as stated, fails: a previous-result file that is read successfully
    and holds one byte that is not JSON yields an error, although the file
    is not empty. *)
Lemma readMatchesPrev_counterexample :
  ReadFile (FileEnv := memoryEnv) brokenPrevFs "prev/HOST.json" = (bytesOf "x", None)
  ∧ length (bytesOf "x") = 1%nat
  ∧ readMatchesPrev (H := memoryEnv) brokenPrevFs prevParameters "HOST"
    = (emptyOutput, Some "invalid character looking for beginning of value").
Proof. repeat split; vm_compute; reflexivity. Qed.

(** ** Precedence in the assembly of [Matches] *)

Lemma assign_inverse (st : gmap string string * gmap string string)
  (entry : string * string) :
  inverseOf st → inverseOf (assign st entry).
Proof.
  destruct st as [m rev], entry as [s t]. unfold inverseOf, assign, isAlreadyMatched.
  simpl. intros Hinv.
  destruct (m !! s) as [t0|] eqn:Em; [exact Hinv|].
  destruct (rev !! t) as [s0|] eqn:Er; [exact Hinv|].
  simpl. intros s' t'.
  destruct (decide (s = s')) as [<- | Hs]; destruct (decide (t = t')) as [<- | Ht].
  - rewrite !lookup_insert_eq. split; reflexivity.
  - rewrite lookup_insert_eq, lookup_insert_ne by exact Ht. split.
    + intros [= <-]. contradiction.
    + intros Hr. apply Hinv in Hr. simpl in Hr. congruence.
  - rewrite lookup_insert_eq, lookup_insert_ne by exact Hs. split.
    + intros Hm. apply Hinv in Hm. simpl in Hm. congruence.
    + intros [= <-]. contradiction.
  - rewrite !lookup_insert_ne by assumption. apply Hinv.
Qed.

Lemma assign_mono (st : gmap string string * gmap string string)
  (entry : string * string) :
  st.1 ⊆ (assign st entry).1 ∧ st.2 ⊆ (assign st entry).2.
Proof.
  destruct st as [m rev], entry as [s t]. unfold assign, isAlreadyMatched. simpl.
  destruct (m !! s) as [t0|] eqn:Em; [split; reflexivity|].
  destruct (rev !! t) as [s0|] eqn:Er; [split; reflexivity|].
  simpl. split; apply insert_subseteq; assumption.
Qed.

(** An entry is taken only if its source is not assigned and its target is
    not claimed yet. *)
Lemma assign_takes (st : gmap string string * gmap string string) (s t : string) :
  (assign st (s, t)).1 !! s = Some t ↔
  st.1 !! s = Some t ∨ (st.1 !! s = None ∧ st.2 !! t = None).
Proof.
  destruct st as [m rev]. unfold assign, isAlreadyMatched. simpl.
  destruct (m !! s) as [t0|] eqn:Em.
  - simpl. rewrite Em. split; [auto | intros [Hm | [Hm _]]; congruence].
  - destruct (rev !! t) as [s0|] eqn:Er; simpl.
    + rewrite Em. split; [discriminate | intros [Hm | [_ Hr]]; congruence].
    + rewrite lookup_insert_eq. split; auto.
Qed.

Lemma fold_assign_inverse (l : list (string * string)) :
  ∀ st, inverseOf st → inverseOf (fold_left assign l st).
Proof.
  induction l as [|x l IH]; intros st Hinv; simpl; [exact Hinv|].
  apply IH, assign_inverse, Hinv.
Qed.

Lemma fold_assign_mono (l : list (string * string)) :
  ∀ st, st.1 ⊆ (fold_left assign l st).1 ∧ st.2 ⊆ (fold_left assign l st).2.
Proof.
  induction l as [|x l IH]; intros st; simpl; [split; reflexivity|].
  destruct (assign_mono st x) as [Ha Hb]. destruct (IH (assign st x)) as [Hc Hd].
  split; etrans; eauto.
Qed.

Lemma assignCurrent_inverse (e : MatchProcessing) (l : list (Z * Z)) :
  ∀ st st', inverseOf st → assignCurrent e l st = Some st' → inverseOf st'.
Proof.
  induction l as [|[sI tI] l IH]; intros st st' Hinv Hrun; simpl in Hrun.
  - injection Hrun as <-. exact Hinv.
  - destruct (entityId (RawMatchList (Source e)) sI) as [s|]; simpl in Hrun;
      [|discriminate].
    destruct (entityId (RawMatchList (Target e)) tI) as [t|]; simpl in Hrun;
      [|discriminate].
    exact (IH _ _ (assign_inverse st (s, t) Hinv) Hrun).
Qed.

Lemma inverseOf_injective (st : gmap string string * gmap string string) :
  inverseOf st → ∀ s1 s2 t, st.1 !! s1 = Some t → st.1 !! s2 = Some t → s1 = s2.
Proof.
  intros Hinv s1 s2 t Ha Hb. apply Hinv in Ha, Hb. congruence.
Qed.

Lemma inverseOf_empty : inverseOf (∅, ∅).
Proof. intros s t. simpl. rewrite !lookup_empty. split; discriminate. Qed.

#[local] Arguments PrepareRemainingMatch : simpl never.
#[local] Arguments assign : simpl never.

Section PrecedenceFacts.
Context `{GoSort} `{MapRange}.

(** C7. The three steps that fill [Matches] run in order: the current
    unique matches, the matches of the previous run, the picks by first
    seen.  Each step only adds to what the steps before it assigned and
    claimed: an assigned source keeps its target, a claimed target keeps
    its source ([reverseMatches] stays the inverse of [Matches]), and the
    final [Matches] is injective. *)
Theorem genOutputPayload_precedence (e : MatchProcessing)
  (remaining : IndexCompareResultList) (matched : gmap Z Z)
  (prevMatches out : MatchOutputType) :
  genOutputPayload e remaining matched prevMatches = Some out →
  ∃ multiMatched matchedByFirstSeen st1 st2 st3,
    genMultiMatchedMap (CompareResults remaining) e prevMatches
      = Some (multiMatched, matchedByFirstSeen)
    ∧ assignCurrent (fst (PrepareRemainingMatch false true e remaining))
        (range_of 2%nat matched) (∅, ∅) = Some st1
    ∧ st2 = fold_left assign (range_of 3%nat (Matches prevMatches)) st1
    ∧ st3 = fold_left assign (range_of 4%nat matchedByFirstSeen) st2
    ∧ Matches out = st3.1
    ∧ st1.1 ⊆ st2.1 ∧ st2.1 ⊆ st3.1
    ∧ st1.2 ⊆ st2.2 ∧ st2.2 ⊆ st3.2
    ∧ (∀ s t, Matches out !! s = Some t ↔ st3.2 !! t = Some s)
    ∧ (∀ s1 s2 t, Matches out !! s1 = Some t → Matches out !! s2 = Some t → s1 = s2).
Proof.
  unfold genOutputPayload. intros Hrun.
  destruct (genMultiMatchedMap (CompareResults remaining) e prevMatches)
    as [[multi mfs]|] eqn:Emulti; [|discriminate].
  cbn [mbind option_bind] in Hrun.
  destruct (PrepareRemainingMatch false true e remaining) as [e' rem'] eqn:Eprep.
  unfold genMatches in Hrun.
  destruct (assignCurrent e' (range_of 2%nat matched) (∅, ∅)) as [st1|] eqn:E1;
    [|discriminate].
  cbn [mbind option_bind fst] in Hrun.
  set (st2 := fold_left assign (range_of 3%nat (Matches prevMatches)) st1) in *.
  set (st3 := fold_left assign (range_of 4%nat mfs) st2) in *.
  destruct st3 as [m rev] eqn:E3.
  destruct (currentRemaining (Source e')) as [current|]; [|discriminate].
  cbn [mbind option_bind] in Hrun.
  destruct (unmatchedLoop e' prevMatches current []) as [unMatched|];
    [|discriminate].
  cbn [mbind option_bind] in Hrun.
  injection Hrun as <-. simpl.
  assert (Hinv1 : inverseOf st1)
    by (eapply assignCurrent_inverse; [apply inverseOf_empty | exact E1]).
  assert (Hinv2 : inverseOf st2) by (apply fold_assign_inverse, Hinv1).
  assert (Hinv3 : inverseOf (m, rev)) by (rewrite <- E3; apply fold_assign_inverse, Hinv2).
  destruct (fold_assign_mono (range_of 3%nat (Matches prevMatches)) st1) as [Ha Hb].
  destruct (fold_assign_mono (range_of 4%nat mfs) st2) as [Hc Hd].
  fold st2 in Ha, Hb. fold st3 in Hc, Hd. rewrite E3 in Hc, Hd.
  exists multi, mfs, st1, st2, (m, rev).
  split; [reflexivity|]. split; [exact E1|]. split; [reflexivity|].
  split; [symmetry; exact E3|]. split; [reflexivity|].
  split; [exact Ha|]. split; [exact Hc|]. split; [exact Hb|]. split; [exact Hd|].
  split; [exact Hinv3|]. apply (inverseOf_injective (m, rev) Hinv3).
Qed.

End PrecedenceFacts.

(** ** Multi-matched and unmatched sources *)

Lemma firstSeenLoop_some (e : MatchProcessing) (src : string) (group : list CompareResult) :
  ∀ st st', firstSeenLoop e src group st = Some st' →
  ∀ r, r ∈ group → is_Some (entityId (RawMatchList (Target e)) (RightId r)).
Proof.
  induction group as [|c group IH]; intros st st' Hrun r Hr; [inversion Hr|].
  cbn [firstSeenLoop] in Hrun. destruct st as [[best mfs] ids].
  destruct (entityId (RawMatchList (Target e)) (RightId c)) as [t|] eqn:Et;
    [|discriminate].
  cbn [mbind option_bind] in Hrun.
  destruct (firstSeenTms (RawMatchList (Target e)) (RightId c)) as [fs|];
    [|discriminate].
  cbn [mbind option_bind] in Hrun.
  apply elem_of_cons in Hr as [-> | Hr]; [rewrite Et; eauto|].
  eapply IH; eauto.
Qed.

(** The keys of [multiMatched] after one call of the closure. *)
Lemma addMatchingMultiMatched_keys (e : MatchProcessing) (prev : MatchOutputType)
  (currentId : Z) (group : list CompareResult)
  (mm mm' : gmap string (list string)) (mfs mfs' : gmap string string) :
  addMatchingMultiMatched e prev currentId group (mm, mfs) = Some (mm', mfs') →
  ∃ src, entityId (RawMatchList (Source e)) currentId = Some src
    ∧ ∀ id, is_Some (mm' !! id) ↔
            is_Some (mm !! id) ∨ (id = src ∧ Matches prev !! src = None).
Proof.
  unfold addMatchingMultiMatched. intros Hrun.
  destruct (entityId (RawMatchList (Source e)) currentId) as [src|]; [|discriminate].
  cbn [mbind option_bind] in Hrun. exists src. split; [reflexivity|].
  destruct (Matches prev !! src) as [t|] eqn:Eprev.
  - injection Hrun as <- <-. intros id. split; [auto|].
    intros [Hm | [_ Hn]]; [exact Hm | discriminate].
  - destruct (firstSeenLoop e src group (0%Q, mfs, [])) as [[[best mfs1] ids1]|];
      [|discriminate].
    cbn [mbind option_bind] in Hrun. injection Hrun as <- <-.
    intros id. destruct (decide (src = id)) as [<- | Hne].
    + rewrite lookup_insert_eq. split; [auto | eauto].
    + rewrite lookup_insert_ne by exact Hne. split; [auto|].
      intros [Hm | [Heq _]]; [exact Hm | congruence].
Qed.

Lemma groupLoop_keys (e : MatchProcessing) (prev : MatchOutputType)
  (rest : list CompareResult) :
  ∀ currentId group mm mfs mm' mfs',
  groupLoop e prev currentId group rest (mm, mfs) = Some (mm', mfs') →
  (∀ z, z = currentId ∨ z ∈ map LeftId rest →
        is_Some (entityId (RawMatchList (Source e)) z))
  ∧ ∀ id, is_Some (mm' !! id) ↔
      is_Some (mm !! id)
      ∨ (Matches prev !! id = None
         ∧ ∃ z, (z = currentId ∨ z ∈ map LeftId rest)
                ∧ entityId (RawMatchList (Source e)) z = Some id).
Proof.
  induction rest as [|r rest IH]; intros currentId group mm mfs mm' mfs' Hrun;
    cbn [groupLoop] in Hrun.
  - destruct (addMatchingMultiMatched_keys _ _ _ _ _ _ _ _ Hrun) as (src & Hsrc & Hkeys).
    split.
    + intros z [-> | Hz]; [rewrite Hsrc; eauto | inversion Hz].
    + intros id. rewrite Hkeys. split.
      * intros [Hm | [-> Hp]]; [by left|]. right. split; [exact Hp|].
        exists currentId. auto.
      * intros [Hm | (Hp & z & [-> | Hz] & Hid)]; [by left | | inversion Hz].
        right. split; congruence.
  - destruct (LeftId r =? currentId) eqn:Eid.
    + apply Z.eqb_eq in Eid.
      destruct (IH _ _ _ _ _ _ Hrun) as [Hdef Hkeys]. split.
      * intros z [-> | Hz]; [apply Hdef; by left|].
        simpl in Hz. apply elem_of_cons in Hz as [-> | Hz];
          [rewrite Eid; apply Hdef; by left | apply Hdef; by right].
      * intros id. rewrite Hkeys. split.
        -- intros [Hm | (Hp & z & Hz & Hid)]; [by left|]. right. split; [exact Hp|].
           exists z. split; [|exact Hid]. destruct Hz as [-> | Hz]; [by left|].
           right. simpl. by right.
        -- intros [Hm | (Hp & z & Hz & Hid)]; [by left|]. right. split; [exact Hp|].
           exists z. split; [|exact Hid]. destruct Hz as [-> | Hz]; [by left|].
           simpl in Hz. apply elem_of_cons in Hz as [-> | Hz]; [left; exact Eid | by right].
    + destruct (addMatchingMultiMatched e prev currentId group (mm, mfs))
        as [[mm1 mfs1]|] eqn:Eadd; [|discriminate].
      cbn [mbind option_bind] in Hrun.
      destruct (addMatchingMultiMatched_keys _ _ _ _ _ _ _ _ Eadd) as (src & Hsrc & Hk1).
      destruct (IH _ _ _ _ _ _ Hrun) as [Hdef Hkeys]. split.
      * intros z [-> | Hz]; [rewrite Hsrc; eauto|].
        simpl in Hz. apply elem_of_cons in Hz as [-> | Hz];
          [apply Hdef; by left | apply Hdef; by right].
      * intros id. rewrite Hkeys, Hk1. split.
        -- intros [[Hm | [-> Hp]] | (Hp & z & Hz & Hid)].
           ++ by left.
           ++ right. split; [exact Hp|]. exists currentId. auto.
           ++ right. split; [exact Hp|]. exists z. split; [|exact Hid].
              right. simpl. destruct Hz as [-> | Hz]; [left | by right].
        -- intros [Hm | (Hp & z & [-> | Hz] & Hid)].
           ++ left. by left.
           ++ left. right. split; congruence.
           ++ right. split; [exact Hp|]. exists z. split; [|exact Hid].
              simpl in Hz. apply elem_of_cons in Hz as [-> | Hz]; [by left | by right].
Qed.

(** What [unmatchedLoop] appends: the ids of the indices it is given that
    are not keys of the previous run's matches. *)
Lemma unmatchedLoop_spec (e : MatchProcessing) (prev : MatchOutputType)
  (remaining : list Z) :
  ∀ acc out, unmatchedLoop e prev remaining acc = Some out →
  ∀ id, id ∈ out ↔
        id ∈ acc ∨ (Matches prev !! id = None
                    ∧ ∃ i, i ∈ remaining ∧ entityId (RawMatchList (Source e)) i = Some id).
Proof.
  induction remaining as [|i remaining IH]; intros acc out Hrun id;
    cbn [unmatchedLoop] in Hrun.
  - injection Hrun as <-. split; [auto|].
    intros [Hacc | (_ & i & Hi & _)]; [exact Hacc | inversion Hi].
  - destruct (entityId (RawMatchList (Source e)) i) as [src|] eqn:Esrc; [|discriminate].
    cbn [mbind option_bind] in Hrun.
    destruct (Matches prev !! src) as [t|] eqn:Eprev.
    + rewrite (IH _ _ Hrun id). split.
      * intros [Hacc | (Hp & j & Hj & Hid)]; [by left|]. right. split; [exact Hp|].
        exists j. split; [by right | exact Hid].
      * intros [Hacc | (Hp & j & Hj & Hid)]; [by left|].
        apply elem_of_cons in Hj as [-> | Hj]; [congruence|].
        right. split; [exact Hp|]. eauto.
    + rewrite (IH _ _ Hrun id), elem_of_app, list_elem_of_singleton. split.
      * intros [[Hacc | ->] | (Hp & j & Hj & Hid)]; [by left | |].
        -- right. split; [exact Eprev|]. exists i. split; [left | exact Esrc].
        -- right. split; [exact Hp|]. exists j. split; [by right | exact Hid].
      * intros [Hacc | (Hp & j & Hj & Hid)]; [left; by left|].
        apply elem_of_cons in Hj as [-> | Hj]; [left; right; congruence|].
        right. split; [exact Hp|]. eauto.
Qed.

Section OutputFacts.
Context `{GoSort} `{MapRange}.

Lemma genMultiMatchedMap_keys (results : list CompareResult) (e : MatchProcessing)
  (prev : MatchOutputType) (mm : gmap string (list string)) (mfs : gmap string string) :
  genMultiMatchedMap results e prev = Some (mm, mfs) →
  ∀ id, is_Some (mm !! id) ↔
        Matches prev !! id = None
        ∧ ∃ z, z ∈ map LeftId results ∧ entityId (RawMatchList (Source e)) z = Some id.
Proof.
  unfold genMultiMatchedMap, genMatchedByFirstSeen. intros Hrun id.
  destruct (printMultiMatchedSample results e); [|discriminate].
  cbn [mbind option_bind] in Hrun.
  destruct results as [|first rest].
  - cbn [mbind option_bind] in Hrun. injection Hrun as <- <-.
    rewrite lookup_empty. split.
    + intros [? ?]; discriminate.
    + intros (_ & z & Hz & _). inversion Hz.
  - destruct (groupLoop e prev (LeftId first) [first] rest (∅, ∅))
      as [[mm1 mfs1]|] eqn:Eloop; [|discriminate].
    cbn [mbind option_bind] in Hrun. injection Hrun as <- <-.
    destruct (groupLoop_keys _ _ _ _ _ _ _ _ _ Eloop) as [_ Hkeys].
    rewrite Hkeys, lookup_empty. simpl. split.
    + intros [[? ?] | (Hp & z & Hz & Hid)]; [discriminate|].
      split; [exact Hp|]. exists z. split; [|exact Hid].
      destruct Hz as [-> | Hz]; [left | by right].
    + intros (Hp & z & Hz & Hid). right. split; [exact Hp|]. exists z.
      split; [|exact Hid]. apply elem_of_cons in Hz as [-> | Hz]; auto.
Qed.

(** The keys of [MultiMatched] and the members of [UnMatched]. *)
Lemma genOutputPayload_sets (e : MatchProcessing) (remaining : IndexCompareResultList)
  (matched : gmap Z Z) (prev out : MatchOutputType) :
  genOutputPayload e remaining matched prev = Some out →
  (∀ id, is_Some (MultiMatched out !! id) ↔
         Matches prev !! id = None
         ∧ ∃ z, z ∈ map LeftId (CompareResults remaining)
                ∧ entityId (RawMatchList (Source e)) z = Some id)
  ∧ (∀ id, id ∈ UnMatched out ↔
           Matches prev !! id = None
           ∧ ∃ i, i ∈ RemainingMatch (Source e)
                  ∧ ¬ i ∈ map LeftId (CompareResults remaining)
                  ∧ entityId (RawMatchList (Source e)) i = Some id).
Proof.
  unfold genOutputPayload. intros Hrun.
  destruct (genMultiMatchedMap (CompareResults remaining) e prev)
    as [[multi mfs]|] eqn:Emulti; [|discriminate].
  cbn [mbind option_bind] in Hrun.
  unfold PrepareRemainingMatch in Hrun. cbn [andb] in Hrun.
  set (e' := setTarget _ _) in Hrun. cbv zeta in Hrun.
  destruct (genMatches e' matched prev mfs) as [[m rev]|]; [|discriminate].
  cbn [mbind option_bind] in Hrun.
  assert (Hcur : currentRemaining (Source e') =
    Some (List.filter
            (λ x, negb (bool_decide
                          (x ∈ map getLeftId (sort_by ByLeft (CompareResults remaining)))))
            (RemainingMatch (Source e)))) by reflexivity.
  rewrite Hcur in Hrun. cbn [mbind option_bind] in Hrun.
  destruct (unmatchedLoop e' prev _ []) as [unMatched|] eqn:Eun; [|discriminate].
  cbn [mbind option_bind] in Hrun. injection Hrun as <-. cbn [MultiMatched UnMatched].
  split; [exact (genMultiMatchedMap_keys _ _ _ _ _ Emulti)|].
  intros id. rewrite (unmatchedLoop_spec _ _ _ _ _ Eun id).
  assert (Hraw : RawMatchList (Source e') = RawMatchList (Source e)) by reflexivity.
  rewrite Hraw. split.
  - intros [Hnil | (Hp & i & Hi & Hid)]; [inversion Hnil|].
    split; [exact Hp|]. exists i.
    apply list_elem_of_In, filter_In in Hi as [Hi Hf].
    apply negb_true_iff, bool_decide_eq_false in Hf.
    split; [apply list_elem_of_In, Hi|]. split; [|exact Hid].
    intros Hin. apply Hf. unfold getLeftId.
    rewrite (fmap_Permutation LeftId _ _ (sort_by_perm _ ByLeft _)). exact Hin.
  - intros (Hp & i & Hi & Hno & Hid). right. split; [exact Hp|]. exists i.
    split; [|exact Hid]. apply list_elem_of_In, filter_In.
    split; [apply list_elem_of_In, Hi|].
    apply negb_true_iff, bool_decide_eq_false. intros Hin. apply Hno.
    unfold getLeftId in Hin.
    rewrite (fmap_Permutation LeftId _ _ (sort_by_perm _ ByLeft _)) in Hin. exact Hin.
Qed.

(** The part of C10 that holds of every run: a key of the previous run's
    [Matches] is neither a key of [MultiMatched] nor a member of
    [UnMatched]. *)
Lemma previous_keys_excluded (e : MatchProcessing) (remaining : IndexCompareResultList)
  (matched : gmap Z Z) (prev out : MatchOutputType) (id : string) :
  genOutputPayload e remaining matched prev = Some out →
  is_Some (Matches prev !! id) →
  MultiMatched out !! id = None ∧ ¬ id ∈ UnMatched out.
Proof.
  intros Hrun [t Ht].
  destruct (genOutputPayload_sets _ _ _ _ _ Hrun) as [Hmulti Hun]. split.
  - destruct (MultiMatched out !! id) eqn:Em; [|reflexivity].
    exfalso. assert (Hs : is_Some (MultiMatched out !! id)) by (rewrite Em; eauto).
    apply Hmulti in Hs as [Hp _]. congruence.
  - rewrite Hun. intros [Hp _]. congruence.
Qed.

End OutputFacts.

(** ** Sample runs of the output assembly *)

Section SmallInputs.
Context `{GoSort} `{MapRange}.

Lemma sort_by_nil {A} (less : A → A → bool) : sort_by less [] = [].
Proof. apply Permutation_nil_r, sort_by_perm. Qed.

Lemma range_of_empty {K} `{Countable K} {V} (site : nat) :
  range_of site (∅ : gmap K V) = [].
Proof.
  apply Permutation_nil_r. rewrite <- (map_to_list_empty (M := gmap K)).
  apply range_of_perm.
Qed.

Lemma range_of_singleton {K} `{Countable K} {V} (site : nat) (k : K) (v : V) :
  range_of site ({[k := v]} : gmap K V) = [(k, v)].
Proof.
  apply Permutation_singleton_r. rewrite <- (map_to_list_singleton (M := gmap K)).
  apply range_of_perm.
Qed.

End SmallInputs.

Section ClaimedTarget.
Context `{GoSort} `{MapRange}.

Lemma claimed_target_run :
  genOutputPayload claimedContext emptyResultList {[ 1 := 0 ]} claimedPrev
  = Some claimedOutput.
Proof.
  assert (Hmulti : genMultiMatchedMap [] claimedContext claimedPrev = Some (∅, ∅))
    by reflexivity.
  unfold genOutputPayload. cbn [CompareResults emptyResultList].
  rewrite Hmulti. cbn [mbind option_bind].
  unfold PrepareRemainingMatch, genMatches.
  cbn [CompareResults emptyResultList andb].
  rewrite !sort_by_nil.
  rewrite (range_of_singleton 2%nat 1 0).
  cbn [Matches claimedPrev].
  rewrite (range_of_singleton 3%nat "A" "B").
  rewrite (range_of_empty 4%nat).
  vm_compute. reflexivity.
Qed.

End ClaimedTarget.

(** ** Promotion by first seen *)

Lemma blockStep_invariant (p : list (string * string)) (s t : string)
  (st : gmap string string * gmap string bool) :
  ¬ s ∈ map fst p →
  blockInvariant p st → blockInvariant (p ++ [(s, t)]) (blockStep st (s, t)).
Proof.
  destruct st as [rev blocked]. intros Hfresh (I1 & I2 & I3 & I4).
  assert (Hnew : ∀ t', ¬ (s, t') ∈ p).
  { intros t' Hin. apply Hfresh. apply list_elem_of_fmap. exists (s, t'). auto. }
  unfold blockStep. simpl in *.
  destruct (rev !! t) as [s0|] eqn:Erev; unfold blockInvariant; simpl.
  - assert (Hs0 : (s0, t) ∈ p) by (apply I1; exact Erev).
    assert (Hne : s0 ≠ s) by (intros ->; exact (Hnew t Hs0)).
    split; [|split; [|split]].
    + intros t' s1 Hr. apply elem_of_app. left. auto.
    + intros s1 t1 Hin. apply elem_of_app in Hin as [Hin | Hin]; [eauto|].
      apply list_elem_of_singleton in Hin. injection Hin as -> ->. rewrite Erev. eauto.
    + intros s1 b Hb.
      destruct (decide (s = s1)) as [<- | Hs1].
      * rewrite lookup_insert_eq in Hb. injection Hb as <-. split; [reflexivity|].
        exists t, s0. rewrite !elem_of_app, !list_elem_of_singleton. auto.
      * rewrite lookup_insert_ne in Hb by exact Hs1.
        destruct (decide (s0 = s1)) as [<- | Hs01].
        -- rewrite lookup_insert_eq in Hb. injection Hb as <-. split; [reflexivity|].
           exists t, s. rewrite !elem_of_app, !list_elem_of_singleton. auto.
        -- rewrite lookup_insert_ne in Hb by exact Hs01.
           destruct (I3 _ _ Hb) as (-> & t1 & s' & Ha & Hb' & Hc).
           split; [reflexivity|]. exists t1, s'. rewrite !elem_of_app. auto.
    + intros s1 s2 t1 Ha Hb Hne12.
      assert (Hkeep : ∀ x, blocked !! x = Some true →
                <[s := true]> (<[s0 := true]> blocked) !! x = Some true).
      { intros x Hx. destruct (decide (s = x)) as [<- | ?];
          [apply lookup_insert_eq | rewrite lookup_insert_ne by assumption].
        destruct (decide (s0 = x)) as [<- | ?];
          [apply lookup_insert_eq | rewrite lookup_insert_ne by assumption]. exact Hx. }
      apply elem_of_app in Ha as [Ha | Ha]; apply elem_of_app in Hb as [Hb | Hb].
      * apply Hkeep. eauto.
      * apply list_elem_of_singleton in Hb. injection Hb as -> ->.
        destruct (decide (s0 = s1)) as [<- | Hs01].
        -- rewrite lookup_insert_ne by (intros Heq; apply Hne; congruence).
           apply lookup_insert_eq.
        -- apply Hkeep. apply (I4 s1 s0 t); auto.
      * apply list_elem_of_singleton in Ha. injection Ha as -> ->.
        apply lookup_insert_eq.
      * apply list_elem_of_singleton in Ha. apply list_elem_of_singleton in Hb.
        congruence.
  - split; [|split; [|split]].
    + intros t' s1. destruct (decide (t = t')) as [<- | Ht].
      * rewrite lookup_insert_eq. intros [= <-]. apply elem_of_app. right. left.
      * rewrite lookup_insert_ne by exact Ht. intros Hr. apply elem_of_app. left. auto.
    + intros s1 t1 Hin. destruct (decide (t = t1)) as [<- | Ht].
      * rewrite lookup_insert_eq. eauto.
      * rewrite lookup_insert_ne by exact Ht.
        apply elem_of_app in Hin as [Hin | Hin]; [eauto|].
        apply list_elem_of_singleton in Hin. congruence.
    + intros s1 b Hb. destruct (I3 _ _ Hb) as (-> & t1 & s' & Ha & Hb' & Hc).
      split; [reflexivity|]. exists t1, s'. rewrite !elem_of_app. auto.
    + intros s1 s2 t1 Ha Hb Hne12.
      apply elem_of_app in Ha as [Ha | Ha]; apply elem_of_app in Hb as [Hb | Hb].
      * eauto.
      * apply list_elem_of_singleton in Hb. injection Hb as -> ->.
        destruct (I2 _ _ Ha) as [x Hx]. congruence.
      * apply list_elem_of_singleton in Ha. injection Ha as -> ->.
        destruct (I2 _ _ Hb) as [x Hx]. congruence.
      * apply list_elem_of_singleton in Ha. apply list_elem_of_singleton in Hb.
        congruence.
Qed.

Lemma fold_blockStep_invariant (l : list (string * string)) :
  ∀ p st, NoDup (map fst (p ++ l)) → blockInvariant p st →
  blockInvariant (p ++ l) (fold_left blockStep l st).
Proof.
  induction l as [|[s t] l IH]; intros p st Hnd Hinv; simpl.
  - rewrite app_nil_r. exact Hinv.
  - replace (p ++ (s, t) :: l) with ((p ++ [(s, t)]) ++ l) in *
      by (rewrite <- app_assoc; reflexivity).
    apply IH; [exact Hnd|].
    apply blockStep_invariant; [|exact Hinv].
    rewrite !map_app in Hnd. apply NoDup_app in Hnd as [Hnd _].
    apply NoDup_app in Hnd as (_ & Hdisj & _).
    intros Hin. apply (Hdisj s Hin). simpl. left.
Qed.

(** The second loop keeps the entries whose source is not blocked. *)
Lemma fold_finalStep_spec (blocked : gmap string bool) (l : list (string * string)) :
  ∀ acc, NoDup (map fst l) → (∀ s, s ∈ map fst l → acc !! s = None) →
  ∀ s t, fold_left (finalStep blocked) l acc !! s = Some t ↔
         acc !! s = Some t ∨ ((s, t) ∈ l ∧ blocked !! s ≠ Some true).
Proof.
  induction l as [|[s0 t0] l IH]; intros acc Hnd Hfresh s t; cbn [fold_left].
  - split; [auto|]. intros [Hacc | [Hin _]]; [exact Hacc | inversion Hin].
  - simpl in Hnd, Hfresh. apply NoDup_cons in Hnd as [Hs0 Hnd].
    assert (Hacc0 : acc !! s0 = None) by (apply Hfresh; left).
    assert (Hblocked : blocked !! s0 = Some true ∨ blocked !! s0 ≠ Some true).
    { destruct (blocked !! s0) as [[|]|]; auto; right; discriminate. }
    destruct Hblocked as [Hb | Hb].
    + replace (finalStep blocked acc (s0, t0)) with acc
        by (unfold finalStep; rewrite Hb; reflexivity).
      rewrite (IH acc Hnd); [|intros x Hx; apply Hfresh; by right].
      rewrite elem_of_cons. split.
      * intros [Hacc | [Hin Hok]]; auto.
      * intros [Hacc | [[Heq | Hin] Hok]]; auto.
        injection Heq as -> ->. contradiction.
    + replace (finalStep blocked acc (s0, t0)) with (<[s0 := t0]> acc)
        by (unfold finalStep; destruct (blocked !! s0) as [[|]|]; congruence).
      rewrite (IH (<[s0 := t0]> acc) Hnd).
      * rewrite elem_of_cons. destruct (decide (s0 = s)) as [<- | Hne].
        -- rewrite lookup_insert_eq, Hacc0. split.
           ++ intros [[= <-] | [Hin Hok]]; [right; auto | right; auto].
           ++ intros [Habs | [[[= <-] | Hin] Hok]]; [discriminate | by left | right; auto].
        -- rewrite lookup_insert_ne by exact Hne. split.
           ++ intros [Hacc | [Hin Hok]]; auto.
           ++ intros [Hacc | [[Heq | Hin] Hok]]; auto.
              injection Heq as -> ->. contradiction.
      * intros x Hx. rewrite lookup_insert_ne; [apply Hfresh; by right|].
        intros ->. contradiction.
Qed.

Section BlockFacts.
Context `{MapRange}.

Lemma range_of_elem_of (site : nat) (m : gmap string string) (s t : string) :
  (s, t) ∈ range_of site m ↔ m !! s = Some t.
Proof. rewrite (range_of_perm _ _ site m). apply elem_of_map_to_list. Qed.

Lemma range_of_NoDup (site : nat) (m : gmap string string) :
  NoDup (map fst (range_of site m)).
Proof.
  assert (Hp : map fst (range_of site m) ≡ₚ map fst (map_to_list m))
    by (apply fmap_Permutation, range_of_perm).
  rewrite Hp. apply NoDup_fst_map_to_list.
Qed.

(** After the blocking pass a source keeps its pick exactly when no other
    source picked the same target. *)
Lemma blockConflicts_spec (mfs : gmap string string) (s t : string) :
  blockConflicts mfs !! s = Some t ↔
  mfs !! s = Some t ∧ ∀ s', s' ≠ s → mfs !! s' ≠ Some t.
Proof.
  unfold blockConflicts.
  pose proof (fold_blockStep_invariant (range_of 0%nat mfs) [] (∅, ∅)) as Hinv.
  simpl in Hinv.
  destruct (fold_left blockStep (range_of 0%nat mfs) (∅, ∅)) as [rev blocked].
  destruct Hinv as (_ & _ & I3 & I4).
  { apply range_of_NoDup. }
  { unfold blockInvariant. simpl. repeat split.
    - intros ? ? Hl. rewrite lookup_empty in Hl. discriminate.
    - intros ? ? Hin. inversion Hin.
    - rewrite lookup_empty in H0. discriminate.
    - rewrite lookup_empty in H0. discriminate.
    - intros ? ? ? Hin. inversion Hin. }
  simpl in I3, I4.
  rewrite (fold_finalStep_spec blocked (range_of 1%nat mfs) ∅ (range_of_NoDup 1 mfs));
    [|intros; apply lookup_empty].
  rewrite lookup_empty, range_of_elem_of. split.
  - intros [Habs | [Hm Hok]]; [discriminate|]. split; [exact Hm|].
    intros s' Hne Hm'. apply Hok. apply (I4 s s' t); auto.
    + apply range_of_elem_of, Hm.
    + apply range_of_elem_of, Hm'.
  - intros [Hm Hno]. right. split; [exact Hm|]. intros Hb.
    destruct (I3 _ _ Hb) as (_ & t1 & s' & Ha & Hb' & Hne).
    apply range_of_elem_of in Ha, Hb'.
    assert (t1 = t) by congruence. subst t1. apply (Hno s'); auto.
Qed.

End BlockFacts.

Lemma firstSeenLoop_spec (e : MatchProcessing) (src : string) (group : list CompareResult) :
  ∀ best mfs ids best' mfs' ids',
  firstSeenLoop e src group (best, mfs, ids) = Some (best', mfs', ids') →
  (best <= best')%Q
  ∧ (∀ c' q', c' ∈ group →
              firstSeenTms (RawMatchList (Target e)) (RightId c') = Some q' →
              (q' <= best')%Q)
  ∧ ((mfs' = mfs ∧ best' = best)
     ∨ ∃ c t, c ∈ group
         ∧ entityId (RawMatchList (Target e)) (RightId c) = Some t
         ∧ firstSeenTms (RawMatchList (Target e)) (RightId c) = Some best'
         ∧ (best < best')%Q
         ∧ mfs' = <[src := t]> mfs).
Proof.
  induction group as [|c group IH]; intros best mfs ids best' mfs' ids' Hrun;
    cbn [firstSeenLoop] in Hrun.
  - injection Hrun as <- <- <-. split; [apply Qle_refl|].
    split; [intros c' q' Hc'; inversion Hc' | left; auto].
  - destruct (entityId (RawMatchList (Target e)) (RightId c)) as [t|] eqn:Et;
      [|discriminate].
    cbn [mbind option_bind] in Hrun.
    destruct (firstSeenTms (RawMatchList (Target e)) (RightId c)) as [fs|] eqn:Efs;
      [|discriminate].
    cbn [mbind option_bind] in Hrun.
    destruct (Qlt_le_dec best fs) as [Hlt | Hle].
    + destruct (IH _ _ _ _ _ _ Hrun) as (Hb & Hall & Hcase).
      split; [eapply Qle_trans; [apply Qlt_le_weak, Hlt | exact Hb]|].
      split.
      * intros c' q' Hc' Hq'. apply elem_of_cons in Hc' as [-> | Hc']; [|eauto].
        rewrite Efs in Hq'. injection Hq' as <-. exact Hb.
      * right. destruct Hcase as [[-> ->] | (c2 & t2 & Hc2 & Ht2 & Hf2 & Hlt2 & ->)].
        -- exists c, t. split; [left|]. auto.
        -- exists c2, t2. split; [by right|]. split; [exact Ht2|].
           split; [exact Hf2|]. split; [eapply Qlt_trans; eauto|].
           apply insert_insert_eq.
    + destruct (IH _ _ _ _ _ _ Hrun) as (Hb & Hall & Hcase).
      split; [exact Hb|]. split.
      * intros c' q' Hc' Hq'. apply elem_of_cons in Hc' as [-> | Hc']; [|eauto].
        rewrite Efs in Hq'. injection Hq' as <-. eapply Qle_trans; eauto.
      * destruct Hcase as [[-> ->] | (c2 & t2 & Hc2 & Ht2 & Hf2 & Hlt2 & ->)];
          [left; auto|].
        right. exists c2, t2. split; [by right|]. auto.
Qed.

(** The pick of the loop is the first of the most recent candidates. *)
Lemma firstSeenLoop_first_of_most_recent (e : MatchProcessing) (src : string)
  (group : list CompareResult) :
  ∀ best mfs ids best' mfs' ids',
  firstSeenLoop e src group (best, mfs, ids) = Some (best', mfs', ids') →
  (best' = best ∧ mfs' = mfs
   ∧ ∀ c' q', c' ∈ group →
              firstSeenTms (RawMatchList (Target e)) (RightId c') = Some q' →
              (q' <= best)%Q)
  ∨ ∃ pre c post t,
      group = pre ++ c :: post
      ∧ entityId (RawMatchList (Target e)) (RightId c) = Some t
      ∧ firstSeenTms (RawMatchList (Target e)) (RightId c) = Some best'
      ∧ (best < best')%Q
      ∧ mfs' = <[src := t]> mfs
      ∧ (∀ c' q', c' ∈ pre →
                  firstSeenTms (RawMatchList (Target e)) (RightId c') = Some q' →
                  (q' < best')%Q)
      ∧ (∀ c' q', c' ∈ post →
                  firstSeenTms (RawMatchList (Target e)) (RightId c') = Some q' →
                  (q' <= best')%Q).
Proof.
  induction group as [|c group IH]; intros best mfs ids best' mfs' ids' Hrun;
    cbn [firstSeenLoop] in Hrun.
  - injection Hrun as <- <- <-. left. split; [reflexivity|]. split; [reflexivity|].
    intros c' q' Hc'. inversion Hc'.
  - destruct (entityId (RawMatchList (Target e)) (RightId c)) as [t|] eqn:Et;
      [|discriminate].
    cbn [mbind option_bind] in Hrun.
    destruct (firstSeenTms (RawMatchList (Target e)) (RightId c)) as [fs|] eqn:Efs;
      [|discriminate].
    cbn [mbind option_bind] in Hrun.
    destruct (Qlt_le_dec best fs) as [Hlt | Hle].
    + destruct (IH _ _ _ _ _ _ Hrun)
        as [(-> & -> & Hall) | (pre & c2 & post & t2 & -> & Ht2 & Hf2 & Hlt2 & -> & Hpre & Hpost)].
      * right. exists [], c, group, t. split; [reflexivity|].
        split; [exact Et|]. split; [exact Efs|]. split; [exact Hlt|].
        split; [reflexivity|]. split; [intros c' q' Hc'; inversion Hc' | exact Hall].
      * right. exists (c :: pre), c2, post, t2. split; [reflexivity|].
        split; [exact Ht2|]. split; [exact Hf2|].
        split; [eapply Qlt_trans; eauto|]. split; [apply insert_insert_eq|].
        split; [|exact Hpost].
        intros c' q' Hc' Hq'. apply elem_of_cons in Hc' as [-> | Hc']; [|eauto].
        rewrite Efs in Hq'. injection Hq' as <-. exact Hlt2.
    + destruct (IH _ _ _ _ _ _ Hrun)
        as [(-> & -> & Hall) | (pre & c2 & post & t2 & -> & Ht2 & Hf2 & Hlt2 & -> & Hpre & Hpost)].
      * left. split; [reflexivity|]. split; [reflexivity|].
        intros c' q' Hc' Hq'. apply elem_of_cons in Hc' as [-> | Hc']; [|eauto].
        rewrite Efs in Hq'. injection Hq' as <-. exact Hle.
      * right. exists (c :: pre), c2, post, t2. split; [reflexivity|].
        split; [exact Ht2|]. split; [exact Hf2|]. split; [exact Hlt2|].
        split; [reflexivity|]. split; [|exact Hpost].
        intros c' q' Hc' Hq'. apply elem_of_cons in Hc' as [-> | Hc']; [|eauto].
        rewrite Efs in Hq'. injection Hq' as <-. eapply Qle_lt_trans; eauto.
Qed.

Lemma addMatchingMultiMatched_picks (e : MatchProcessing) (prev : MatchOutputType)
  (currentId : Z) (group : list CompareResult)
  (mm mm' : gmap string (list string)) (mfs mfs' : gmap string string) :
  addMatchingMultiMatched e prev currentId group (mm, mfs) = Some (mm', mfs') →
  ∀ s t, mfs' !! s = Some t →
         mfs !! s = Some t
         ∨ (entityId (RawMatchList (Source e)) currentId = Some s ∧ mostRecent e group t).
Proof.
  unfold addMatchingMultiMatched. intros Hrun s t Hpick.
  destruct (entityId (RawMatchList (Source e)) currentId) as [src|]; [|discriminate].
  cbn [mbind option_bind] in Hrun.
  destruct (Matches prev !! src); [injection Hrun as <- <-; by left|].
  destruct (firstSeenLoop e src group (0%Q, mfs, [])) as [[[best mfs1] ids1]|] eqn:Eloop;
    [|discriminate].
  cbn [mbind option_bind] in Hrun. injection Hrun as <- <-.
  destruct (firstSeenLoop_spec _ _ _ _ _ _ _ _ _ Eloop)
    as (_ & Hall & [[-> _] | (c & t' & Hc & Ht' & Hf & Hlt & ->)]); [by left|].
  destruct (decide (src = s)) as [<- | Hne].
  - rewrite lookup_insert_eq in Hpick. injection Hpick as <-.
    right. split; [reflexivity|]. exists c, best. auto.
  - rewrite lookup_insert_ne in Hpick by exact Hne. by left.
Qed.

Lemma candidatesOf_app (z : Z) (l1 l2 : list CompareResult) :
  candidatesOf z (l1 ++ l2) = candidatesOf z l1 ++ candidatesOf z l2.
Proof. unfold candidatesOf. apply List.filter_app. Qed.

Lemma candidatesOf_all (z : Z) (l : list CompareResult) :
  Forall (λ c, LeftId c = z) l → candidatesOf z l = l.
Proof.
  unfold candidatesOf. induction 1 as [|c l Hc Hl IH]; simpl; [reflexivity|].
  replace (LeftId c =? z) with true by lia. by rewrite IH.
Qed.

Lemma candidatesOf_none (z : Z) (l : list CompareResult) :
  Forall (λ c, LeftId c ≠ z) l → candidatesOf z l = [].
Proof.
  unfold candidatesOf. induction 1 as [|c l Hc Hl IH]; simpl; [reflexivity|].
  replace (LeftId c =? z) with false by lia. exact IH.
Qed.

(** On a list in which the entries of a source are adjacent, the pick of
    a source is a most recent one among all its candidates. *)
Lemma groupLoop_picks (e : MatchProcessing) (prev : MatchOutputType)
  (rest : list CompareResult) :
  ∀ currentId group mm mfs mm' mfs',
  Forall (λ c, LeftId c = currentId) group →
  Forall (λ c, currentId ≤ LeftId c) rest →
  StronglySorted leLeft rest →
  groupLoop e prev currentId group rest (mm, mfs) = Some (mm', mfs') →
  ∀ s t, mfs' !! s = Some t →
         mfs !! s = Some t
         ∨ ∃ z, (z = currentId ∨ z ∈ map LeftId rest)
                ∧ entityId (RawMatchList (Source e)) z = Some s
                ∧ mostRecent e (candidatesOf z (group ++ rest)) t.
Proof.
  induction rest as [|r rest IH];
    intros currentId group mm mfs mm' mfs' Hgroup Hge Hsorted Hrun s t Hpick;
    cbn [groupLoop] in Hrun.
  - destruct (addMatchingMultiMatched_picks _ _ _ _ _ _ _ _ Hrun s t Hpick)
      as [Hold | [Hsrc Hrecent]]; [by left|].
    right. exists currentId. split; [by left|]. split; [exact Hsrc|].
    rewrite app_nil_r, candidatesOf_all by exact Hgroup. exact Hrecent.
  - apply Forall_cons in Hge as [Hr Hge].
    apply StronglySorted_inv in Hsorted as [Hsorted Hall].
    destruct (LeftId r =? currentId) eqn:Eid.
    + apply Z.eqb_eq in Eid.
      destruct (IH currentId (group ++ [r]) mm mfs mm' mfs') with (s := s) (t := t)
        as [Hold | (z & Hz & Hsrc & Hrecent)]; auto.
      { apply Forall_app. split; [exact Hgroup|]. constructor; [exact Eid | constructor]. }
      right. exists z. split.
      * destruct Hz as [-> | Hz]; [by left|]. right. simpl. by right.
      * split; [exact Hsrc|]. rewrite <- app_assoc in Hrecent. exact Hrecent.
    + apply Z.eqb_neq in Eid.
      destruct (addMatchingMultiMatched e prev currentId group (mm, mfs))
        as [[mm1 mfs1]|] eqn:Eadd; [|discriminate].
      cbn [mbind option_bind] in Hrun.
      assert (Hlater : Forall (λ c, LeftId r ≤ LeftId c) rest).
      { eapply Forall_impl; [exact Hall|]. simpl. auto. }
      destruct (IH (LeftId r) [r] mm1 mfs1 mm' mfs') with (s := s) (t := t)
        as [Hold | (z & Hz & Hsrc & Hrecent)]; auto.
      * destruct (addMatchingMultiMatched_picks _ _ _ _ _ _ _ _ Eadd s t Hold)
          as [Hold' | [Hsrc Hrecent]]; [by left|].
        right. exists currentId. split; [by left|]. split; [exact Hsrc|].
        rewrite candidatesOf_app, (candidatesOf_all _ group Hgroup).
        rewrite (candidatesOf_none currentId (r :: rest)), app_nil_r; [exact Hrecent|].
        constructor; [exact Eid|].
        eapply Forall_impl; [exact Hlater|]. simpl. intros. lia.
      * right. exists z. split; [right; simpl; destruct Hz as [-> | Hz]; [left | by right]|].
        split; [exact Hsrc|].
        rewrite candidatesOf_app, (candidatesOf_none z group); [exact Hrecent|].
        assert (Hzr : LeftId r ≤ z).
        { destruct Hz as [-> | Hz]; [lia|].
          apply list_elem_of_fmap in Hz as (c & -> & Hc).
          rewrite Forall_forall in Hlater. auto. }
        eapply Forall_impl; [exact Hgroup|]. simpl. intros. lia.
Qed.

Lemma firstMostRecent_mostRecent (e : MatchProcessing) (group : list CompareResult)
  (t : string) :
  firstMostRecent e group t → mostRecent e group t.
Proof.
  intros (pre & c & post & q & -> & Ht & Hq & Hpos & Hpre & Hpost).
  exists c, q. split; [apply elem_of_app; right; left|].
  split; [exact Ht|]. split; [exact Hq|]. split; [exact Hpos|].
  intros c' q' Hc' Hq'. apply elem_of_app in Hc' as [Hc' | Hc'].
  - apply Qlt_le_weak. eauto.
  - apply elem_of_cons in Hc' as [-> | Hc']; [|eauto].
    rewrite Hq in Hq'. injection Hq' as <-. apply Qle_refl.
Qed.

(** A call of the closure for another source leaves the pick of [s] as it
    is. *)
Lemma addMatchingMultiMatched_frame (e : MatchProcessing) (prev : MatchOutputType)
  (currentId : Z) (group : list CompareResult)
  (mm mm' : gmap string (list string)) (mfs mfs' : gmap string string) (s : string) :
  addMatchingMultiMatched e prev currentId group (mm, mfs) = Some (mm', mfs') →
  entityId (RawMatchList (Source e)) currentId ≠ Some s →
  mfs' !! s = mfs !! s.
Proof.
  unfold addMatchingMultiMatched. intros Hrun Hne.
  destruct (entityId (RawMatchList (Source e)) currentId) as [src|]; [|discriminate].
  cbn [mbind option_bind] in Hrun.
  destruct (Matches prev !! src); [injection Hrun as <- <-; reflexivity|].
  destruct (firstSeenLoop e src group (0%Q, mfs, [])) as [[[best mfs1] ids1]|] eqn:Eloop;
    [|discriminate].
  cbn [mbind option_bind] in Hrun. injection Hrun as <- <-.
  destruct (firstSeenLoop_spec _ _ _ _ _ _ _ _ _ Eloop)
    as (_ & _ & [[-> _] | (c & t' & _ & _ & _ & _ & ->)]); [reflexivity|].
  apply lookup_insert_ne. congruence.
Qed.

(** A call of the closure for a source that is not a key of the previous
    run's matches: it picks the first of the most recent candidates when
    one of them has a positive timestamp, and nothing otherwise. *)
Lemma addMatchingMultiMatched_selects (e : MatchProcessing) (prev : MatchOutputType)
  (currentId : Z) (group : list CompareResult)
  (mm mm' : gmap string (list string)) (mfs mfs' : gmap string string) (s : string) :
  addMatchingMultiMatched e prev currentId group (mm, mfs) = Some (mm', mfs') →
  entityId (RawMatchList (Source e)) currentId = Some s →
  Matches prev !! s = None →
  (seenCandidate e group → ∃ t, mfs' !! s = Some t ∧ firstMostRecent e group t)
  ∧ (noSeenCandidate e group → mfs' !! s = mfs !! s).
Proof.
  unfold addMatchingMultiMatched. intros Hrun Hsrc Hprev.
  rewrite Hsrc in Hrun. cbn [mbind option_bind] in Hrun. rewrite Hprev in Hrun.
  destruct (firstSeenLoop e s group (0%Q, mfs, [])) as [[[best mfs1] ids1]|] eqn:Eloop;
    [|discriminate].
  cbn [mbind option_bind] in Hrun. injection Hrun as <- <-.
  destruct (firstSeenLoop_first_of_most_recent _ _ _ _ _ _ _ _ _ Eloop)
    as [(-> & -> & Hall) | (pre & c & post & t & Hg & Ht & Hf & Hlt & -> & Hpre & Hpost)].
  - split; [|reflexivity].
    intros (c & q & Hc & Hq & Hpos). exfalso.
    apply (Qlt_irrefl 0). eapply Qlt_le_trans; [exact Hpos|]. eauto.
  - split.
    + intros _. exists t. split; [apply lookup_insert_eq|].
      exists pre, c, post, best. auto 10.
    + intros Hnone. exfalso. apply (Qlt_irrefl 0).
      eapply Qlt_le_trans; [exact Hlt|]. apply (Hnone c best); [|exact Hf].
      rewrite Hg. apply elem_of_app. right. left.
Qed.

Lemma groupLoop_frame (e : MatchProcessing) (prev : MatchOutputType)
  (rest : list CompareResult) (s : string) :
  ∀ currentId group mm mfs mm' mfs',
  groupLoop e prev currentId group rest (mm, mfs) = Some (mm', mfs') →
  (∀ z, z = currentId ∨ z ∈ map LeftId rest →
        entityId (RawMatchList (Source e)) z ≠ Some s) →
  mfs' !! s = mfs !! s.
Proof.
  induction rest as [|r rest IH]; intros currentId group mm mfs mm' mfs' Hrun Hne;
    cbn [groupLoop] in Hrun.
  - eapply addMatchingMultiMatched_frame; [exact Hrun|]. apply Hne. by left.
  - destruct (LeftId r =? currentId) eqn:Eid.
    + eapply IH; [exact Hrun|]. intros z [-> | Hz]; apply Hne; [by left|].
      right. cbn [map]. by right.
    + destruct (addMatchingMultiMatched e prev currentId group (mm, mfs))
        as [[mm1 mfs1]|] eqn:Eadd; [|discriminate].
      cbn [mbind option_bind] in Hrun.
      rewrite (IH _ _ _ _ _ _ Hrun).
      * eapply addMatchingMultiMatched_frame; [exact Eadd|]. apply Hne. by left.
      * intros z Hz. apply Hne. right. cbn [map].
        destruct Hz as [-> | Hz]; [left | by right].
Qed.

(** On a list in which the entries of a source are adjacent, a source
    whose id no other source of the list has, and which is not a key of
    the previous run's matches, gets as pick the first of its most recent
    candidates, and no pick when none of them has a positive timestamp. *)
Lemma groupLoop_selects (e : MatchProcessing) (prev : MatchOutputType)
  (rest : list CompareResult) :
  ∀ currentId group mm mfs mm' mfs',
  Forall (λ c, LeftId c = currentId) group →
  Forall (λ c, currentId ≤ LeftId c) rest →
  StronglySorted leLeft rest →
  groupLoop e prev currentId group rest (mm, mfs) = Some (mm', mfs') →
  ∀ z s, (z = currentId ∨ z ∈ map LeftId rest) →
    entityId (RawMatchList (Source e)) z = Some s →
    Matches prev !! s = None →
    (∀ z', (z' = currentId ∨ z' ∈ map LeftId rest) →
           entityId (RawMatchList (Source e)) z' = Some s → z' = z) →
    (seenCandidate e (candidatesOf z (group ++ rest)) →
       ∃ t, mfs' !! s = Some t ∧ firstMostRecent e (candidatesOf z (group ++ rest)) t)
    ∧ (noSeenCandidate e (candidatesOf z (group ++ rest)) → mfs' !! s = mfs !! s).
Proof.
  induction rest as [|r rest IH];
    intros currentId group mm mfs mm' mfs' Hgroup Hge Hsorted Hrun z s Hz Hs Hprev Huniq;
    cbn [groupLoop] in Hrun.
  - destruct Hz as [-> | Hz]; [|inversion Hz].
    rewrite app_nil_r, candidatesOf_all by exact Hgroup.
    eapply addMatchingMultiMatched_selects; eauto.
  - apply Forall_cons in Hge as [Hr Hge].
    apply StronglySorted_inv in Hsorted as [Hsorted Hall].
    destruct (LeftId r =? currentId) eqn:Eid.
    + apply Z.eqb_eq in Eid.
      replace (group ++ r :: rest) with ((group ++ [r]) ++ rest)
        by (rewrite <- app_assoc; reflexivity).
      assert (Hgroup' : Forall (λ c, LeftId c = currentId) (group ++ [r])).
      { apply Forall_app. split; [exact Hgroup|]. constructor; [exact Eid | constructor]. }
      assert (Hz' : z = currentId ∨ z ∈ map LeftId rest).
      { destruct Hz as [-> | Hz]; [by left|].
        cbn [map] in Hz. apply elem_of_cons in Hz as [-> | Hz]; [left; exact Eid | by right]. }
      apply (IH currentId (group ++ [r]) mm mfs mm' mfs' Hgroup' Hge Hsorted Hrun z s Hz' Hs Hprev).
      intros z' Hz''. apply Huniq. destruct Hz'' as [-> | Hz'']; [by left|].
      right. cbn [map]. by right.
    + apply Z.eqb_neq in Eid.
      destruct (addMatchingMultiMatched e prev currentId group (mm, mfs))
        as [[mm1 mfs1]|] eqn:Eadd; [|discriminate].
      cbn [mbind option_bind] in Hrun.
      assert (Hlater : Forall (λ c, LeftId r ≤ LeftId c) rest).
      { eapply Forall_impl; [exact Hall|]. simpl. auto. }
      assert (Hafter : ∀ z', z' = LeftId r ∨ z' ∈ map LeftId rest → currentId < z').
      { intros z' [-> | Hz']; [lia|].
        apply list_elem_of_fmap in Hz' as (c & -> & Hc).
        rewrite Forall_forall in Hlater. specialize (Hlater c Hc). lia. }
      destruct (decide (z = currentId)) as [-> | Hzc].
      * assert (Hcand : candidatesOf currentId (group ++ r :: rest) = group).
        { rewrite candidatesOf_app, (candidatesOf_all _ group Hgroup).
          rewrite (candidatesOf_none currentId (r :: rest)), app_nil_r; [reflexivity|].
          constructor; [exact Eid|].
          eapply Forall_impl; [exact Hlater|]. simpl. intros. lia. }
        rewrite Hcand.
        assert (Hkeep : mfs' !! s = mfs1 !! s).
        { eapply groupLoop_frame; [exact Hrun|]. intros z' Hz' Hid.
          assert (z' = currentId).
          { apply Huniq; [|exact Hid]. right. cbn [map].
            destruct Hz' as [-> | Hz']; [left | by right]. }
          specialize (Hafter z' Hz'). lia. }
        rewrite Hkeep. eapply addMatchingMultiMatched_selects; eauto.
      * assert (Hz' : z = LeftId r ∨ z ∈ map LeftId rest).
        { destruct Hz as [-> | Hz]; [contradiction|].
          cbn [map] in Hz. apply elem_of_cons in Hz as [-> | Hz]; [by left | by right]. }
        assert (Hcand : candidatesOf z (group ++ r :: rest) = candidatesOf z ([r] ++ rest)).
        { rewrite candidatesOf_app, (candidatesOf_none z group); [reflexivity|].
          eapply Forall_impl; [exact Hgroup|]. simpl. intros. congruence. }
        rewrite Hcand.
        assert (Hframe : mfs1 !! s = mfs !! s).
        { eapply addMatchingMultiMatched_frame; [exact Eadd|]. intros Hid.
          apply Hzc. symmetry. apply Huniq; [by left | exact Hid]. }
        rewrite <- Hframe.
        assert (Hone : Forall (λ c, LeftId c = LeftId r) [r]) by (repeat constructor).
        apply (IH (LeftId r) [r] mm1 mfs1 mm' mfs' Hone Hlater Hsorted Hrun z s Hz' Hs Hprev).
        intros z'' Hz''. apply Huniq. right. cbn [map].
        destruct Hz'' as [-> | Hz'']; [left | by right].
Qed.

Section PromotionFacts.
Context `{MapRange}.

(** C8.  On a result list ordered by source index, a multi-matched
    source whose id no other source of the list has and which is not a key
    of the previous run's matches is given a pick as soon as one of its
    candidates has a positive first-seen timestamp: the first, in the order
    of the list, of its candidates with the most recent timestamp; without
    such a candidate it is given none.  Every pick is a most recent
    candidate of its source.  A pick is promoted to the first-seen match
    map exactly when no other source picked the same target: when two
    different sources picked the same target, neither of them is in that
    map. *)
Theorem first_seen_promotion (results : list CompareResult) (e : MatchProcessing)
  (prev : MatchOutputType) (multiMatched : gmap string (list string))
  (final : gmap string string) :
  StronglySorted leLeft results →
  genMultiMatchedMap results e prev = Some (multiMatched, final) →
  ∃ picks,
    genMatchedByFirstSeen results e prev = Some (multiMatched, picks)
    ∧ (∀ z s, z ∈ map LeftId results →
              entityId (RawMatchList (Source e)) z = Some s →
              Matches prev !! s = None →
              (∀ z', z' ∈ map LeftId results →
                     entityId (RawMatchList (Source e)) z' = Some s → z' = z) →
              (seenCandidate e (candidatesOf z results) →
                 ∃ t, picks !! s = Some t
                      ∧ firstMostRecent e (candidatesOf z results) t)
              ∧ (noSeenCandidate e (candidatesOf z results) → picks !! s = None))
    ∧ (∀ s t, picks !! s = Some t →
              ∃ z, z ∈ map LeftId results
                   ∧ entityId (RawMatchList (Source e)) z = Some s
                   ∧ mostRecent e (candidatesOf z results) t)
    ∧ (∀ s t, final !! s = Some t ↔
              picks !! s = Some t ∧ ∀ s', s' ≠ s → picks !! s' ≠ Some t)
    ∧ (∀ s1 s2 t, s1 ≠ s2 → picks !! s1 = Some t → picks !! s2 = Some t →
                  final !! s1 = None ∧ final !! s2 = None).
Proof.
  intros Hsorted Hrun. unfold genMultiMatchedMap in Hrun.
  destruct (genMatchedByFirstSeen results e prev) as [[mm picks]|] eqn:Epicks;
    [|discriminate].
  cbn [mbind option_bind] in Hrun.
  assert (Hpick : ∀ z s, z ∈ map LeftId results →
              entityId (RawMatchList (Source e)) z = Some s →
              Matches prev !! s = None →
              (∀ z', z' ∈ map LeftId results →
                     entityId (RawMatchList (Source e)) z' = Some s → z' = z) →
              (seenCandidate e (candidatesOf z results) →
                 ∃ t, picks !! s = Some t
                      ∧ firstMostRecent e (candidatesOf z results) t)
              ∧ (noSeenCandidate e (candidatesOf z results) → picks !! s = None)).
  { unfold genMatchedByFirstSeen in Epicks.
    destruct (printMultiMatchedSample results e); [|discriminate].
    cbn [mbind option_bind] in Epicks.
    destruct results as [|first rest]; [intros z s Hz; inversion Hz|].
    apply StronglySorted_inv in Hsorted as [Hs Hall].
    intros z s Hz Hid Hprev Huniq.
    assert (Hz' : z = LeftId first ∨ z ∈ map LeftId rest).
    { cbn [map] in Hz. apply elem_of_cons in Hz as [-> | Hz]; [by left | by right]. }
    assert (Hone : Forall (λ c, LeftId c = LeftId first) [first])
      by (repeat constructor).
    destruct (groupLoop_selects e prev rest (LeftId first) [first] ∅ ∅ mm picks
                Hone Hall Hs Epicks z s Hz' Hid Hprev) as [Hsel Hnone].
    - intros z' Hz''. apply Huniq. cbn [map].
      destruct Hz'' as [-> | Hz'']; [left | by right].
    - split; [exact Hsel|]. intros Hno. rewrite (Hnone Hno). apply lookup_empty. }
  assert (Hsel : ∀ s t, picks !! s = Some t →
              ∃ z, z ∈ map LeftId results
                   ∧ entityId (RawMatchList (Source e)) z = Some s
                   ∧ mostRecent e (candidatesOf z results) t).
  { unfold genMatchedByFirstSeen in Epicks.
    destruct (printMultiMatchedSample results e); [|discriminate].
    cbn [mbind option_bind] in Epicks.
    destruct results as [|first rest].
    - injection Epicks as <- <-. intros s t Hl. rewrite lookup_empty in Hl. discriminate.
    - apply StronglySorted_inv in Hsorted as [Hs Hall].
      intros s t Hpk.
      destruct (groupLoop_picks e prev rest (LeftId first) [first] ∅ ∅ mm picks)
        with (s := s) (t := t) as [Hold | (z & Hz & Hsrc & Hrecent)]; auto.
      + rewrite lookup_empty in Hold. discriminate.
      + exists z. split; [|auto]. simpl.
        destruct Hz as [-> | Hz]; [left | by right]. }
  assert (Hmm : mm = multiMatched)
    by (destruct results; injection Hrun; auto).
  subst mm.
  assert (Hfinal : ∀ s t, final !! s = Some t ↔
              picks !! s = Some t ∧ ∀ s', s' ≠ s → picks !! s' ≠ Some t).
  { destruct results as [|first rest].
    - injection Hrun as <-.
      unfold genMatchedByFirstSeen in Epicks.
      destruct (printMultiMatchedSample [] e); [|discriminate].
      cbn [mbind option_bind] in Epicks. injection Epicks as _ <-.
      intros s t. rewrite lookup_empty. split; [discriminate | intros [Habs _]; discriminate].
    - injection Hrun as <-. intros s t. apply blockConflicts_spec. }
  exists picks. split; [reflexivity|]. split; [exact Hpick|].
  split; [exact Hsel|]. split; [exact Hfinal|].
  intros s1 s2 t Hne Ha Hb.
  assert (Hnone : ∀ s s', s ≠ s' → picks !! s = Some t → picks !! s' = Some t →
                          final !! s = None).
  { intros s s' Hd Hs Hs'. destruct (final !! s) as [t'|] eqn:Ef; [|reflexivity].
    exfalso. apply Hfinal in Ef as [Hp Hno].
    assert (t' = t) by congruence. subst t'. apply (Hno s'); auto. }
  split; [apply (Hnone s1 s2) | apply (Hnone s2 s1)]; auto.
Qed.

End PromotionFacts.

Ltac sorted_by_left :=
  repeat (constructor; try (unfold leLeft; simpl; lia)).

Lemma first_seen_promotion_witness :
  StronglySorted leLeft conflictResults
  ∧ genMultiMatchedMap (H0 := listRange) conflictResults conflictContext emptyOutput
    = Some (conflictMulti, {[ "S3" := "T3" ]})
  ∧ genMatchedByFirstSeen conflictResults conflictContext emptyOutput
    = Some (conflictMulti, conflictPicks)
  ∧ ∃ picks,
      genMatchedByFirstSeen conflictResults conflictContext emptyOutput
        = Some (conflictMulti, picks)
      ∧ (∀ z s, z ∈ map LeftId conflictResults →
                entityId (RawMatchList (Source conflictContext)) z = Some s →
                Matches emptyOutput !! s = None →
                (∀ z', z' ∈ map LeftId conflictResults →
                       entityId (RawMatchList (Source conflictContext)) z' = Some s →
                       z' = z) →
                (seenCandidate conflictContext (candidatesOf z conflictResults) →
                   ∃ t, picks !! s = Some t
                        ∧ firstMostRecent conflictContext
                            (candidatesOf z conflictResults) t)
                ∧ (noSeenCandidate conflictContext (candidatesOf z conflictResults) →
                   picks !! s = None))
      ∧ (∀ s t, picks !! s = Some t →
                ∃ z, z ∈ map LeftId conflictResults
                     ∧ entityId (RawMatchList (Source conflictContext)) z = Some s
                     ∧ mostRecent conflictContext (candidatesOf z conflictResults) t)
      ∧ (∀ s t, ({[ "S3" := "T3" ]} : gmap string string) !! s = Some t ↔
                picks !! s = Some t ∧ ∀ s', s' ≠ s → picks !! s' ≠ Some t)
      ∧ (∀ s1 s2 t, s1 ≠ s2 → picks !! s1 = Some t → picks !! s2 = Some t →
                    ({[ "S3" := "T3" ]} : gmap string string) !! s1 = None
                    ∧ ({[ "S3" := "T3" ]} : gmap string string) !! s2 = None).
Proof.
  assert (Hsorted : StronglySorted leLeft conflictResults) by sorted_by_left.
  assert (Hrun : genMultiMatchedMap (H0 := listRange) conflictResults conflictContext
                   emptyOutput = Some (conflictMulti, {[ "S3" := "T3" ]}))
    by (vm_compute; reflexivity).
  split; [exact Hsorted|]. split; [exact Hrun|].
  split; [vm_compute; reflexivity|].
  exact (first_seen_promotion (H := listRange) conflictResults conflictContext
           emptyOutput conflictMulti {[ "S3" := "T3" ]} Hsorted Hrun).
Defined.

Lemma sampleOutput_run :
  genOutputPayload (H := mergeSort) (H0 := listRange)
    (processing sampleFinal) (remainingResults sampleFinal)
    (fst (matchedEntities sampleFinal)) samplePrev
  = Some sampleOutput.
Proof. vm_compute. reflexivity. Qed.

Lemma genOutputPayload_precedence_witness :
  genOutputPayload (H := mergeSort) (H0 := listRange)
    (processing sampleFinal) (remainingResults sampleFinal)
    (fst (matchedEntities sampleFinal)) samplePrev
  = Some sampleOutput
  ∧ Matches sampleOutput !! "Z" = None
  ∧ ∀ s1 s2 t, Matches sampleOutput !! s1 = Some t →
               Matches sampleOutput !! s2 = Some t → s1 = s2.
Proof.
  assert (Hrun : genOutputPayload (H := mergeSort) (H0 := listRange)
    (processing sampleFinal) (remainingResults sampleFinal)
    (fst (matchedEntities sampleFinal)) samplePrev = Some sampleOutput)
    by (vm_compute; reflexivity).
  split; [exact Hrun|]. split; [vm_compute; reflexivity|].
  destruct (genOutputPayload_precedence (H := mergeSort) (H0 := listRange)
              _ _ _ _ _ Hrun)
    as (multi & picks & st1 & st2 & st3 & _ & _ & _ & _ & _ & _ & _ & _ & _ & _ & Hinj).
  exact Hinj.
Defined.

Lemma promotedOutput_run :
  genOutputPayload (H := mergeSort) (H0 := listRange)
    (processing sampleFinal) (remainingResults sampleFinal)
    (fst (matchedEntities sampleFinal)) emptyOutput
  = Some promotedOutput.
Proof. vm_compute. reflexivity. Qed.

(** C3, as stated, fails in both directions.  In the sample run source C,
    promoted by first seen, is a key of [Matches] and a key of
    [MultiMatched].  In the run of [claimedContext] source A, whose match of
    the previous run lost its target to C, is in none of the three sets. *)
Lemma three_sets_counterexample :
  genOutputPayload (H := mergeSort) (H0 := listRange)
    (processing sampleFinal) (remainingResults sampleFinal)
    (fst (matchedEntities sampleFinal)) emptyOutput
  = Some promotedOutput
  ∧ entityId (RawMatchList (Source (processing sampleFinal))) 1 = Some "C"
  ∧ Matches promotedOutput !! "C" = Some "E"
  ∧ MultiMatched promotedOutput !! "C" = Some ["D"; "E"]
  ∧ genOutputPayload (H := mergeSort) (H0 := listRange)
      claimedContext emptyResultList {[ 1 := 0 ]} claimedPrev
    = Some claimedOutput
  ∧ entityId (RawMatchList (Source claimedContext)) 0 = Some "A"
  ∧ Matches claimedOutput !! "A" = None
  ∧ MultiMatched claimedOutput !! "A" = None
  ∧ UnMatched claimedOutput = [].
Proof. repeat split; vm_compute; reflexivity. Qed.

Section PreviousKeys.
Context `{GoSort} `{MapRange}.

(** C10. A source id that is a key of the previous run's [Matches] is
    never listed in [UnMatched] and never a key of [MultiMatched], also when
    its previous match is not taken over into [Matches]: in the run of
    [claimedContext] the previous target B of source A is claimed by
    source C, and A is in none of the three output sets. *)
Theorem previous_keys_never_listed :
  (∀ (e : MatchProcessing) (remaining : IndexCompareResultList) (matched : gmap Z Z)
     (prev out : MatchOutputType) (id : string),
     genOutputPayload e remaining matched prev = Some out →
     is_Some (Matches prev !! id) →
     MultiMatched out !! id = None ∧ ¬ id ∈ UnMatched out)
  ∧ (genOutputPayload claimedContext emptyResultList {[ 1 := 0 ]} claimedPrev
     = Some claimedOutput
     ∧ entityId (RawMatchList (Source claimedContext)) 0 = Some "A"
     ∧ Matches claimedPrev !! "A" = Some "B"
     ∧ Matches claimedOutput !! "A" = None
     ∧ MultiMatched claimedOutput !! "A" = None
     ∧ ¬ "A" ∈ UnMatched claimedOutput).
Proof.
  split.
  - intros e remaining matched prev out id. apply previous_keys_excluded.
  - split; [apply claimed_target_run|].
    repeat split; try (vm_compute; reflexivity).
    intros Hin. inversion Hin.
Qed.

End PreviousKeys.

(** ** The two versions of [sumMatchWeightValues] *)

Lemma addRecord_plain (splitMatch : bool) (maxMatchValue : Z)
  (prevTotal : CompareResult) (summed : list CompareResult) :
  addRecord splitMatch maxMatchValue prevTotal [] summed
  = ([], Plain.addRecord splitMatch maxMatchValue prevTotal summed).
Proof.
  unfold addRecord, Plain.addRecord.
  destruct (splitMatch && (Weight prevTotal <? maxMatchValue)); reflexivity.
Qed.

Lemma sumLoop_plain (splitMatch : bool) (maxMatchValue : Z) (rest : list CompareResult) :
  ∀ a prevTotal summed,
  sumLoop splitMatch maxMatchValue a prevTotal rest [] summed
  = ([], Plain.sumLoop splitMatch maxMatchValue a prevTotal rest summed).
Proof.
  induction rest as [|b rest IH]; intros a prevTotal summed;
    cbn [sumLoop Plain.sumLoop].
  - apply addRecord_plain.
  - destruct (areIdsEqual a b); [apply IH|].
    rewrite addRecord_plain. apply IH.
Qed.

(** Without pending post-processing the summation of [unnamed/part_005] is
    that of [pkg/match/index_compare_rule_list.go]. *)
Lemma sumMatchWeightValues_plain `{GoSort} (splitMatch : bool) (maxMatchValue : Z)
  (i : IndexCompareResultList) :
  PostProcessList i = [] →
  CompareResults (sumMatchWeightValues splitMatch maxMatchValue i)
  = Plain.sumMatchWeightValues splitMatch maxMatchValue (CompareResults i).
Proof.
  intros Hpp. unfold sumMatchWeightValues, Plain.sumMatchWeightValues.
  destruct (CompareResults i) as [|x [|y l]] eqn:El; try (rewrite El; reflexivity).
  destruct (sort_by ByLeftRight (x :: y :: l)) as [|first rest]; [reflexivity|].
  rewrite Hpp, sumLoop_plain. reflexivity.
Qed.

(** ** The reduction passes of the result list *)

Lemma not_after_ByTopMatch (a b : CompareResult) : not_after ByTopMatch a b ↔ tle a b.
Proof. unfold not_after, ByTopMatch, tle. case_match; lia. Qed.

Lemma keepTopLoop_spec (l : list CompareResult) :
  ∀ prevTop, StronglySorted tle l → Forall (tle prevTop) l →
  ∀ x, x ∈ keepTopLoop prevTop l ↔
       x ∈ l ∧ ∀ o, o ∈ prevTop :: l → LeftId o = LeftId x → Weight o ≤ Weight x.
Proof.
  induction l as [|r l IH]; intros prevTop Hs Hge x; cbn [keepTopLoop].
  - split; [intros Hx; inversion Hx | intros [Hx _]; inversion Hx].
  - apply StronglySorted_inv in Hs as [Hs Hall].
    apply Forall_cons in Hge as [Hpr Hge].
    rewrite Forall_forall in Hall, Hge.
    destruct (LeftId r =? LeftId prevTop) eqn:EL.
    + apply Z.eqb_eq in EL. destruct (Weight r =? Weight prevTop) eqn:EW.
      * apply Z.eqb_eq in EW.
        rewrite elem_of_cons, (IH prevTop Hs) by (apply Forall_forall; exact Hge).
        rewrite elem_of_cons. split.
        -- intros [-> | [Hx Hc]].
           ++ split; [by left|]. intros o Ho HL.
              apply elem_of_cons in Ho as [-> | Ho]; [lia|].
              apply elem_of_cons in Ho as [-> | Ho]; [lia|].
              specialize (Hall o Ho). unfold tle in Hall. lia.
           ++ split; [by right|]. intros o Ho HL.
              apply elem_of_cons in Ho as [-> | Ho]; [apply Hc; [left | exact HL]|].
              apply elem_of_cons in Ho as [-> | Ho]; [|apply Hc; [by right | exact HL]].
              assert (Weight prevTop ≤ Weight x) by (apply Hc; [left | lia]). lia.
        -- intros [[-> | Hx] Hc]; [by left|]. right. split; [exact Hx|].
           intros o Ho. apply Hc. apply elem_of_cons in Ho as [-> | Ho];
             [left | right; by right].
      * apply Z.eqb_neq in EW.
        rewrite (IH prevTop Hs) by (apply Forall_forall; exact Hge).
        rewrite elem_of_cons. split.
        -- intros [Hx Hc]. split; [by right|]. intros o Ho HL.
           apply elem_of_cons in Ho as [-> | Ho]; [apply Hc; [left | exact HL]|].
           apply elem_of_cons in Ho as [-> | Ho]; [|apply Hc; [by right | exact HL]].
           assert (Weight prevTop ≤ Weight x) by (apply Hc; [left | lia]).
           unfold tle in Hpr. lia.
        -- intros [[-> | Hx] Hc].
           ++ exfalso. assert (Weight prevTop ≤ Weight r) by (apply Hc; [left | lia]).
              unfold tle in Hpr. lia.
           ++ split; [exact Hx|]. intros o Ho. apply Hc.
              apply elem_of_cons in Ho as [-> | Ho]; [left | right; by right].
    + apply Z.eqb_neq in EL.
      rewrite elem_of_cons, (IH r Hs) by (apply Forall_forall; exact Hall).
      rewrite elem_of_cons. split.
      * intros [-> | [Hx Hc]].
        -- split; [by left|]. intros o Ho HL.
           apply elem_of_cons in Ho as [-> | Ho]; [lia|].
           apply elem_of_cons in Ho as [-> | Ho]; [lia|].
           specialize (Hall o Ho). unfold tle in Hall. lia.
        -- split; [by right|]. intros o Ho HL.
           apply elem_of_cons in Ho as [-> | Ho]; [|apply Hc; [exact Ho | exact HL]].
           specialize (Hall x Hx). unfold tle in Hall, Hpr. lia.
      * intros [[-> | Hx] Hc]; [by left|]. right. split; [exact Hx|].
        intros o Ho. apply Hc. by right.
Qed.

Lemma keepTopLoop_sublist (l : list CompareResult) :
  ∀ prevTop, keepTopLoop prevTop l `sublist_of` l.
Proof.
  induction l as [|r l IH]; intros prevTop; cbn [keepTopLoop]; [constructor|].
  repeat case_match; try (apply sublist_skip, IH); apply sublist_cons, IH.
Qed.

Section ReductionFacts.
Context `{GoSort}.

(** [keepTopMatchesOnly] keeps, for every source, the candidates that no
    other candidate of that source outweighs. *)
Lemma keepTopMatchesOnly_spec (l : list CompareResult) (x : CompareResult) :
  x ∈ keepTopMatchesOnly l ↔ x ∈ l ∧ heaviestOfSource l x.
Proof.
  unfold keepTopMatchesOnly, heaviestOfSource.
  destruct l as [|a l]; [split; [intros Hx; inversion Hx | intros [Hx _]; inversion Hx]|].
  pose proof (sort_by_sorted _ ByTopMatch (a :: l) ByTopMatch_order) as Hs.
  pose proof (sort_by_perm _ ByTopMatch (a :: l)) as Hp.
  destruct (sort_by ByTopMatch (a :: l)) as [|first rest] eqn:Es.
  { apply Permutation_nil_l in Hp. discriminate. }
  assert (Hs' : StronglySorted tle (first :: rest)).
  { eapply StronglySorted_weaken; [|exact Hs]. intros u v. apply not_after_ByTopMatch. }
  assert (Hge : Forall (tle first) (first :: rest)).
  { constructor; [unfold tle; lia|]. apply StronglySorted_inv in Hs'. tauto. }
  rewrite (keepTopLoop_spec _ first Hs' Hge x), Hp. split.
  - intros [Hx Hc]. split; [exact Hx|]. intros o Ho. apply Hc. right. rewrite Hp. exact Ho.
  - intros [Hx Hc]. split; [exact Hx|]. intros o Ho. apply Hc.
    apply elem_of_cons in Ho as [-> | Ho]; [rewrite <- Hp; left | rewrite <- Hp; exact Ho].
Qed.

Lemma keepTopMatchesOnly_NoDup (l : list CompareResult) :
  NoDup l → NoDup (keepTopMatchesOnly l).
Proof.
  intros Hnd. unfold keepTopMatchesOnly. destruct l as [|a l]; [constructor|].
  pose proof (sort_by_perm _ ByTopMatch (a :: l)) as Hp.
  destruct (sort_by ByTopMatch (a :: l)) as [|first rest] eqn:Es; [constructor|].
  eapply sublist_NoDup; [|apply keepTopLoop_sublist]. rewrite Hp. exact Hnd.
Qed.

End ReductionFacts.

Lemma candidatesOf_Permutation (z : Z) (l1 l2 : list CompareResult) :
  l1 ≡ₚ l2 → candidatesOf z l1 ≡ₚ candidatesOf z l2.
Proof.
  unfold candidatesOf.
  induction 1 as [|x l1 l2 Hp IH|x y l|l1 l2 l3 Hp1 IH1 Hp2 IH2]; simpl.
  - reflexivity.
  - destruct (LeftId x =? z); [by constructor | exact IH].
  - destruct (LeftId x =? z), (LeftId y =? z); try reflexivity. apply perm_swap.
  - by etrans.
Qed.

Lemma candidatesOf_elem_of (z : Z) (l : list CompareResult) (x : CompareResult) :
  x ∈ candidatesOf z l ↔ x ∈ l ∧ LeftId x = z.
Proof.
  unfold candidatesOf. rewrite !list_elem_of_In, filter_In, Z.eqb_eq. reflexivity.
Qed.

Lemma candidatesOf_single (l : list CompareResult) (r : CompareResult) :
  NoDup l → r ∈ l → (∀ o, o ∈ l → LeftId o = LeftId r → o = r) →
  candidatesOf (LeftId r) l = [r].
Proof.
  induction l as [|x l IH]; intros Hnd Hr Hall; [inversion Hr|].
  apply NoDup_cons in Hnd as [Hx Hnd].
  change (x :: l) with ([x] ++ l). rewrite candidatesOf_app.
  destruct (decide (LeftId x = LeftId r)) as [HL | HL].
  - assert (x = r) as -> by (apply Hall; [left | exact HL]).
    rewrite (candidatesOf_all _ [r]) by (constructor; [reflexivity | constructor]).
    rewrite candidatesOf_none; [reflexivity|].
    apply Forall_forall. intros o Ho Heq. apply Hx.
    assert (o = r) as <- by (apply Hall; [by right | exact Heq]). exact Ho.
  - rewrite (candidatesOf_none _ [x]) by (constructor; [exact HL | constructor]).
    apply elem_of_cons in Hr as [-> | Hr]; [congruence|].
    apply IH; [exact Hnd | exact Hr |]. intros o Ho. apply Hall. by right.
Qed.

Lemma uniqueLoop_spec (l : list CompareResult) :
  ∀ prev seen, (1 ≤ seen)%nat → StronglySorted leLeft l →
  Forall (λ c, LeftId prev ≤ LeftId c) l →
  ∀ x, x ∈ uniqueLoop prev seen l ↔
       (x = prev ∧ seen = 1%nat ∧ candidatesOf (LeftId prev) l = [])
       ∨ (x ∈ l ∧ LeftId x ≠ LeftId prev ∧ candidatesOf (LeftId x) l = [x]).
Proof.
  assert (Hextract : ∀ prev seen x,
             x ∈ extractUniqueMatch prev seen ↔ x = prev ∧ seen = 1%nat).
  { intros prev seen x. unfold extractUniqueMatch.
    destruct (seen =? 1)%nat eqn:E.
    - apply Nat.eqb_eq in E. rewrite list_elem_of_singleton. tauto.
    - apply Nat.eqb_neq in E. split; [intros Hx; inversion Hx | tauto]. }
  induction l as [|c l IH]; intros prev seen Hseen Hs Hge x; cbn [uniqueLoop].
  - rewrite Hextract. split.
    + intros [-> ->]. left. auto.
    + intros [(-> & -> & _) | (Hx & _)]; [auto | inversion Hx].
  - apply StronglySorted_inv in Hs as [Hs Hall].
    apply Forall_cons in Hge as [Hpc Hge].
    change (c :: l) with ([c] ++ l). rewrite !candidatesOf_app.
    destruct (LeftId c =? LeftId prev) eqn:EL.
    + apply Z.eqb_eq in EL.
      rewrite (IH prev (S seen)) by (try lia; assumption).
      rewrite (candidatesOf_all (LeftId prev) [c])
        by (constructor; [exact EL | constructor]).
      split.
      * intros [(_ & Hone & _) | (Hx & HL & Hc)]; [lia|]. right.
        split; [by right|]. split; [exact HL|].
        rewrite (candidatesOf_none _ [c]) by (constructor; [lia | constructor]).
        exact Hc.
      * intros [(_ & _ & Hc) | (Hx & HL & Hc)]; [discriminate|]. right.
        apply elem_of_cons in Hx as [-> | Hx]; [lia|].
        split; [exact Hx|]. split; [exact HL|].
        rewrite (candidatesOf_none _ [c]) in Hc by (constructor; [lia | constructor]).
        exact Hc.
    + apply Z.eqb_neq in EL.
      rewrite elem_of_app, Hextract, (IH c 1%nat) by (try lia; assumption).
      rewrite (candidatesOf_none (LeftId prev) [c])
        by (constructor; [exact EL | constructor]).
      assert (Hnone : candidatesOf (LeftId prev) l = []).
      { apply candidatesOf_none. rewrite Forall_forall in Hall |- *.
        intros o Ho. specialize (Hall o Ho). unfold leLeft in Hall. lia. }
      split.
      * intros [[-> ->] | [(-> & _ & Hc) | (Hx & HL & Hc)]].
        -- left. auto.
        -- right. split; [by left|]. split; [exact EL|].
           rewrite (candidatesOf_all _ [c]) by (constructor; [reflexivity | constructor]).
           by rewrite Hc.
        -- right. split; [by right|]. rewrite Forall_forall in Hall.
           specialize (Hall x Hx). unfold leLeft in Hall. split; [lia|].
           rewrite (candidatesOf_none _ [c]) by (constructor; [lia | constructor]).
           exact Hc.
      * intros [(-> & -> & _) | (Hx & HL & Hc)]; [left; auto|]. right.
        destruct (decide (LeftId x = LeftId c)) as [Hxc | Hxc].
        -- rewrite Hxc in Hc.
           rewrite (candidatesOf_all _ [c]) in Hc
             by (constructor; [reflexivity | constructor]).
           injection Hc as -> Hc. left. auto.
        -- rewrite (candidatesOf_none _ [c]) in Hc by (constructor; [lia | constructor]).
           apply elem_of_cons in Hx as [-> | Hx]; [congruence|]. right. auto.
Qed.

Section UniqueFacts.
Context `{GoSort}.

(** [getUniqueMatchItems] returns the entries that are the only candidate
    of their source. *)
Lemma getUniqueMatchItems_spec (i : IndexCompareResultList) (x : CompareResult) :
  x ∈ snd (getUniqueMatchItems i) ↔ candidatesOf (LeftId x) (CompareResults i) = [x].
Proof.
  unfold getUniqueMatchItems.
  destruct (CompareResults i) as [|a l] eqn:El.
  { simpl. split; [intros Hx; inversion Hx | discriminate]. }
  pose proof (sort_by_sorted _ ByLeftRight (a :: l) ByLeftRight_order) as Hs.
  pose proof (sort_by_perm _ ByLeftRight (a :: l)) as Hp.
  destruct (sort_by ByLeftRight (a :: l)) as [|first rest] eqn:Es.
  { apply Permutation_nil_l in Hp. discriminate. }
  assert (Hs' : StronglySorted leLeft (first :: rest)).
  { eapply StronglySorted_weaken; [|exact Hs]. intros u v Huv.
    apply not_after_ByLeftRight in Huv. unfold leLeft.
    destruct Huv as [Hk | Hk]; [unfold klt in Hk; lia | apply ids_eq in Hk; lia]. }
  apply StronglySorted_inv in Hs' as [Hs' Hall].
  cbn [snd].
  rewrite (uniqueLoop_spec rest first 1%nat) by (try lia; assumption).
  assert (Hsame : candidatesOf (LeftId x) (a :: l) = [x]
                  ↔ candidatesOf (LeftId x) (first :: rest) = [x]).
  { pose proof (candidatesOf_Permutation (LeftId x) _ _ Hp) as Hc. split; intros Heq.
    - rewrite Heq in Hc. by apply Permutation_singleton_r in Hc.
    - rewrite Heq in Hc. symmetry in Hc. by apply Permutation_singleton_r in Hc. }
  rewrite Hsame. change (first :: rest) with ([first] ++ rest).
  rewrite candidatesOf_app. split.
  - intros [(-> & _ & Hc) | (Hx & HL & Hc)].
    + rewrite (candidatesOf_all _ [first]) by (constructor; [reflexivity | constructor]).
      by rewrite Hc.
    + rewrite (candidatesOf_none _ [first]) by (constructor; [lia | constructor]).
      exact Hc.
  - intros Hc. destruct (decide (LeftId x = LeftId first)) as [Hxf | Hxf].
    + rewrite Hxf in Hc.
      rewrite (candidatesOf_all _ [first]) in Hc
        by (constructor; [reflexivity | constructor]).
      injection Hc as -> Hc. left. auto.
    + rewrite (candidatesOf_none _ [first]) in Hc by (constructor; [lia | constructor]).
      cbn [app] in Hc. right. split; [|auto].
      assert (Hx : x ∈ candidatesOf (LeftId x) rest) by (rewrite Hc; left).
      apply candidatesOf_elem_of in Hx. tauto.
Qed.

End UniqueFacts.

Lemma reverseResult_involutive (r : CompareResult) : reverseResult (reverseResult r) = r.
Proof. by destruct r. Qed.

Lemma reverseResult_elem_of (l : list CompareResult) (o : CompareResult) :
  o ∈ map reverseResult l ↔ reverseResult o ∈ l.
Proof.
  rewrite list_elem_of_fmap. split.
  - intros (y & -> & Hy). by rewrite reverseResult_involutive.
  - intros Ho. exists (reverseResult o). by rewrite reverseResult_involutive.
Qed.

Lemma reverseResult_NoDup (l : list CompareResult) :
  NoDup l → NoDup (map reverseResult l).
Proof.
  assert (Hinj : Inj (=) (=) reverseResult).
  { intros a b Hab.
    by rewrite <- (reverseResult_involutive a), Hab, reverseResult_involutive. }
  apply (NoDup_fmap_2 reverseResult).
Qed.

Section ReductionUnique.
Context `{GoSort}.

(** A pair that is the strict top of its source and of its target comes
    through both passes of [reduceBothForwardAndBackward], and is then the
    only candidate left of its source in the reduced list and of its target
    in the reversed list: [getUniqueMatchItems] returns it from both. *)
Lemma mutual_top_survives_reduction (i : IndexCompareResultList) (r : CompareResult) :
  NoDup (map ids (CompareResults i)) →
  r ∈ CompareResults i →
  strictTopOfSource (CompareResults i) r →
  strictTopOfTarget (CompareResults i) r →
  r ∈ snd (getUniqueMatchItems (fst (reduceBothForwardAndBackward i)))
  ∧ reverseResult r
      ∈ snd (getUniqueMatchItems (setResults i (snd (reduceBothForwardAndBackward i)))).
Proof.
  intros Hids Hr Hsrc Htgt.
  assert (Hnd : NoDup (CompareResults i)) by exact (NoDup_fmap_1 ids _ Hids).
  unfold reduceBothForwardAndBackward, newReversedIndexCompareResultList.
  cbn [fst snd]. rewrite !getUniqueMatchItems_spec.
  destruct i as [rt l pp]. cbn [setResults CompareResults] in *.
  set (forward := keepTopMatchesOnly l).
  set (rev := keepTopMatchesOnly (map reverseResult forward)).
  assert (Hfwd : ∀ o, o ∈ forward → o ∈ l ∧ heaviestOfSource l o)
    by (intros o; apply keepTopMatchesOnly_spec).
  assert (Hrev : ∀ o, o ∈ rev →
            reverseResult o ∈ forward ∧ heaviestOfSource (map reverseResult forward) o).
  { intros o Ho. apply keepTopMatchesOnly_spec in Ho as [Ho Hh].
    split; [by apply reverseResult_elem_of | exact Hh]. }
  assert (Hsame : ∀ o, o ∈ l → ids o = ids r → o = r)
    by (intros o Ho; apply (NoDup_ids_inj l); assumption).
  assert (F1 : r ∈ forward).
  { apply keepTopMatchesOnly_spec. split; [exact Hr|]. intros o Ho HL.
    destruct (decide (RightId o = RightId r)) as [HR | HR].
    - rewrite (Hsame o Ho) by (apply ids_eq; auto). lia.
    - specialize (Hsrc o Ho HL HR). lia. }
  assert (F2 : reverseResult r ∈ rev).
  { apply keepTopMatchesOnly_spec. split.
    - apply reverseResult_elem_of. by rewrite reverseResult_involutive.
    - intros o Ho HL. apply reverseResult_elem_of, Hfwd in Ho as [Ho _].
      destruct o as [ol or ow]. cbn in *.
      destruct (decide (or = LeftId r)) as [HR | HR].
      + pose proof (Hsame _ Ho) as Heq. cbn in Heq.
        rewrite <- Heq by (unfold ids; cbn; congruence). cbn. lia.
      + specialize (Htgt _ Ho). cbn in Htgt. specialize (Htgt HL HR). lia. }
  assert (NDf : NoDup forward) by (apply keepTopMatchesOnly_NoDup, Hnd).
  assert (NDr : NoDup rev) by (apply keepTopMatchesOnly_NoDup, reverseResult_NoDup, NDf).
  split.
  - apply candidatesOf_single.
    + apply reverseResult_NoDup, NDr.
    + apply reverseResult_elem_of, F2.
    + intros o Ho HL. apply reverseResult_elem_of, Hrev in Ho as [Ho _].
      rewrite reverseResult_involutive in Ho. apply Hfwd in Ho as [Ho Hh].
      apply (Hsame o Ho), ids_eq. split; [exact HL|].
      destruct (decide (RightId o = RightId r)) as [HR | HR]; [exact HR|].
      specialize (Hsrc o Ho HL HR). specialize (Hh r Hr (eq_sym HL)). lia.
  - change (RightId r) with (LeftId (reverseResult r)).
    apply candidatesOf_single; [exact NDr | exact F2 |].
    intros o Ho HL. apply Hrev in Ho as [Ho Hh].
    assert (Hw : Weight (reverseResult r) ≤ Weight o).
    { apply Hh; [|by rewrite HL]. apply reverseResult_elem_of.
      by rewrite reverseResult_involutive. }
    apply Hfwd in Ho as [Ho _].
    rewrite <- (reverseResult_involutive o). f_equal.
    apply (Hsame _ Ho), ids_eq. destruct o as [ol or ow]. cbn in *.
    split; [|exact HL].
    destruct (decide (or = LeftId r)) as [HR | HR]; [exact HR|].
    specialize (Htgt _ Ho). cbn in Htgt. specialize (Htgt HL HR). lia.
Qed.

End ReductionUnique.

(** The passes run one after the other on the same list: the second pass
    sees only what the first one kept.  On [cascadeSample] the pair (2, 1)
    is dropped with source 2's lighter candidates, after which (1, 1) is
    the only candidate left of target 1, although source 2 pairs target 1
    with a higher weight in the list the passes started from. *)
Example reduction_cascade :
  CompareResults (fst (reduceBothForwardAndBackward (H := mergeSort) cascadeSample))
    = [mkResult 1 1 5; mkResult 2 2 20]
  ∧ snd (reduceBothForwardAndBackward (H := mergeSort) cascadeSample)
    = [mkResult 1 1 5; mkResult 2 2 20]
  ∧ topForTarget (CompareResults cascadeSample) (mkResult 1 1 5) = false.
Proof. by vm_compute. Qed.

(** * Further properties of the code *)

(** ** The reduction passes ([keepTopMatchesOnly], [getUniqueMatchItems]) *)

Lemma heaviest_exists (l : list CompareResult) :
  ∀ x, x ∈ l →
  ∃ y, y ∈ l ∧ LeftId y = LeftId x ∧ Weight x ≤ Weight y ∧ heaviestOfSource l y.
Proof.
  unfold heaviestOfSource.
  induction l as [|a l IH]; intros x Hx; [inversion Hx|].
  assert (Hcase : (∃ z, z ∈ l ∧ LeftId z = LeftId x) ∨ ∀ z, z ∈ l → LeftId z ≠ LeftId x).
  { clear. induction l as [|b l IH].
    - right. intros z Hz. inversion Hz.
    - destruct (decide (LeftId b = LeftId x)) as [Hb | Hb].
      + left. exists b. split; [left | exact Hb].
      + destruct IH as [(z & Hz & HL) | Hno].
        * left. exists z. split; [by right | exact HL].
        * right. intros z Hz. apply elem_of_cons in Hz as [-> | Hz]; auto. }
  destruct Hcase as [(z & Hz & HLz) | Hno].
  - destruct (IH z Hz) as (y & Hy & HLy & Hwy & Hbest).
    destruct (decide (LeftId a = LeftId x ∧ Weight y < Weight a)) as [[Ha Hw] | Hna].
    + exists a. split; [left|]. split; [exact Ha|]. split.
      * apply elem_of_cons in Hx as [-> | Hx]; [lia|].
        assert (Weight x ≤ Weight y) by (apply Hbest; [exact Hx | lia]). lia.
      * intros o Ho HL. apply elem_of_cons in Ho as [-> | Ho]; [lia|].
        assert (Weight o ≤ Weight y) by (apply Hbest; [exact Ho | lia]). lia.
    + exists y. split; [by right|]. split; [lia|]. split.
      * apply elem_of_cons in Hx as [-> | Hx]; [lia|]. apply Hbest; [exact Hx | lia].
      * intros o Ho HL. apply elem_of_cons in Ho as [-> | Ho]; [lia|].
        apply Hbest; [exact Ho | exact HL].
  - apply elem_of_cons in Hx as [-> | Hx]; [|by apply Hno in Hx].
    exists a. split; [left|]. split; [reflexivity|]. split; [lia|].
    intros o Ho HL. apply elem_of_cons in Ho as [-> | Ho]; [lia|]. by apply Hno in Ho.
Qed.

Section ReductionPasses.
Context `{GoSort}.

Lemma keepTopMatchesOnly_submseteq (l : list CompareResult) :
  keepTopMatchesOnly l ⊆+ l.
Proof.
  unfold keepTopMatchesOnly. destruct l as [|a l]; [reflexivity|].
  pose proof (sort_by_perm _ ByTopMatch (a :: l)) as Hp.
  destruct (sort_by ByTopMatch (a :: l)) as [|first rest] eqn:Es.
  - apply submseteq_nil_l.
  - rewrite <- Hp. apply sublist_submseteq, keepTopLoop_sublist.
Qed.

(** X1 ([keepTopMatchesOnly]).  With [ByTopMatch] ordering by source index
    and then by descending weight, an entry is kept exactly when no entry
    of the same source in the list is heavier, so that all entries tied at
    the top weight of a source stay; nothing is added or duplicated. *)
Theorem keepTopMatchesOnly_keeps_heaviest (l : list CompareResult) :
  keepTopMatchesOnly l ⊆+ l
  ∧ ∀ x, x ∈ keepTopMatchesOnly l ↔ x ∈ l ∧ heaviestOfSource l x.
Proof.
  split; [apply keepTopMatchesOnly_submseteq | apply keepTopMatchesOnly_spec].
Qed.

(** X2 ([keepTopMatchesOnly]).  No source loses all its candidates: for
    every entry of the list, an entry of the same source that is at least
    as heavy is kept. *)
Theorem keepTopMatchesOnly_keeps_every_source (l : list CompareResult) :
  Forall (λ x, ∃ y, y ∈ keepTopMatchesOnly l ∧ LeftId y = LeftId x
                    ∧ Weight x ≤ Weight y) l.
Proof.
  apply Forall_forall. intros x Hx.
  destruct (heaviest_exists l x Hx) as (y & Hy & HL & Hw & Hbest).
  exists y. split; [|auto]. apply keepTopMatchesOnly_spec. auto.
Qed.

(** X3 ([reduceBothForwardAndBackward]).  The list left in the receiver is
    the mirror image of the reversed list that is returned.  An entry is
    left exactly when it is a heaviest entry of its source in the list the
    call started from and no such heaviest-of-its-source entry with the
    same target is heavier: the backward pass compares only what the
    forward pass kept. *)
Theorem reduceBothForwardAndBackward_result (i : IndexCompareResultList) :
  CompareResults (fst (reduceBothForwardAndBackward i))
    = map reverseResult (snd (reduceBothForwardAndBackward i))
  ∧ ∀ x, x ∈ CompareResults (fst (reduceBothForwardAndBackward i)) ↔
         x ∈ CompareResults i ∧ heaviestOfSource (CompareResults i) x
         ∧ ∀ o, o ∈ CompareResults i → heaviestOfSource (CompareResults i) o →
                RightId o = RightId x → Weight o ≤ Weight x.
Proof.
  unfold reduceBothForwardAndBackward, newReversedIndexCompareResultList.
  cbn [fst snd setResults CompareResults]. split; [reflexivity|].
  intros x. rewrite reverseResult_elem_of, keepTopMatchesOnly_spec.
  rewrite reverseResult_elem_of, reverseResult_involutive, keepTopMatchesOnly_spec.
  unfold heaviestOfSource. split.
  - intros [[Hx Hsrc] Htgt]. split; [exact Hx|]. split; [exact Hsrc|].
    intros o Ho Hbest HR.
    apply (Htgt (reverseResult o)); [|exact HR].
    apply reverseResult_elem_of. rewrite reverseResult_involutive.
    apply keepTopMatchesOnly_spec. split; [exact Ho | exact Hbest].
  - intros (Hx & Hsrc & Htgt). split; [split; [exact Hx | exact Hsrc]|].
    intros o Ho HL. apply reverseResult_elem_of, keepTopMatchesOnly_spec in Ho as [Ho Hbest].
    apply (Htgt (reverseResult o) Ho Hbest). exact HL.
Qed.

(** X4 ([reduceBothForwardAndBackward], [getUniqueMatchItems]).  In a list
    without two entries for the same pair, a pair that is the strict top of
    its source and the strict top of its target comes through both passes,
    and [getUniqueMatchItems] then returns it from the reduced list and its
    mirror image from the reversed list. *)
Theorem mutual_top_is_unique_both_ways (i : IndexCompareResultList) (r : CompareResult) :
  NoDup (map ids (CompareResults i)) →
  r ∈ CompareResults i →
  strictTopOfSource (CompareResults i) r →
  strictTopOfTarget (CompareResults i) r →
  r ∈ snd (getUniqueMatchItems (fst (reduceBothForwardAndBackward i)))
  ∧ reverseResult r
      ∈ snd (getUniqueMatchItems (setResults i (snd (reduceBothForwardAndBackward i)))).
Proof. apply mutual_top_survives_reduction. Qed.

(** X5 ([getUniqueMatchItems]).  With [ByLeftRight] ordering by source
    index first, the entries returned are exactly those that are the only
    entry of their source in the list; the list itself is left rearranged,
    with nothing added or removed. *)
Theorem getUniqueMatchItems_single_candidates (i : IndexCompareResultList) :
  CompareResults (fst (getUniqueMatchItems i)) ≡ₚ CompareResults i
  ∧ ∀ x, x ∈ snd (getUniqueMatchItems i) ↔
         candidatesOf (LeftId x) (CompareResults i) = [x].
Proof.
  split; [|intros x; apply getUniqueMatchItems_spec].
  unfold getUniqueMatchItems, sortResults.
  destruct (CompareResults i) as [|a l] eqn:El; [cbn [fst]; by rewrite El|].
  pose proof (sort_by_perm _ ByLeftRight (a :: l)) as Hp.
  destruct (sort_by ByLeftRight (a :: l)) as [|first rest] eqn:Es; exact Hp.
Qed.

End ReductionPasses.

Lemma mutual_top_is_unique_both_ways_witness :
  NoDup (map ids (CompareResults cascadeSample))
  ∧ mkResult 2 2 20 ∈ CompareResults cascadeSample
  ∧ mkResult 2 2 20
      ∈ snd (getUniqueMatchItems (H := mergeSort)
               (fst (reduceBothForwardAndBackward (H := mergeSort) cascadeSample)))
  ∧ reverseResult (mkResult 2 2 20)
      ∈ snd (getUniqueMatchItems (H := mergeSort)
               (setResults cascadeSample
                  (snd (reduceBothForwardAndBackward (H := mergeSort) cascadeSample)))).
Proof.
  assert (Hnd : NoDup (map ids (CompareResults cascadeSample))).
  { apply (bool_decide_unpack _). vm_compute. exact I. }
  assert (Hin : mkResult 2 2 20 ∈ CompareResults cascadeSample).
  { apply (bool_decide_unpack _). vm_compute. exact I. }
  split; [exact Hnd|]. split; [exact Hin|].
  apply (mutual_top_is_unique_both_ways (H := mergeSort) cascadeSample (mkResult 2 2 20) Hnd Hin).
  - intros o Ho HL HR. cbn in Ho.
    repeat (apply elem_of_cons in Ho as [-> | Ho]); cbn in *; try lia. inversion Ho.
  - intros o Ho HR HL. cbn in Ho.
    repeat (apply elem_of_cons in Ho as [-> | Ho]); cbn in *; try lia. inversion Ho.
Defined.

(** ** Trimming the unique matches ([trimUniqueMatches]) *)

Lemma trimLoop_sublist (cur : list CompareResult) :
  ∀ sgl, trimLoop cur sgl `sublist_of` cur.
Proof.
  induction cur as [|c cur IHc]; intros sgl; [destruct sgl; constructor|].
  induction sgl as [|u sgl IHs]; [by rewrite trimLoop_nil_r|].
  rewrite trimLoop_cons. repeat case_match.
  - apply sublist_skip, IHc || apply sublist_cons, IHc.
  - apply sublist_cons, IHc || apply sublist_skip, IHc.
  - exact IHs.
Qed.

Lemma trimLoop_length_ge (cur : list CompareResult) :
  ∀ sgl, (length cur - length sgl ≤ length (trimLoop cur sgl))%nat.
Proof.
  induction cur as [|c cur IHc]; intros sgl; [simpl; lia|].
  induction sgl as [|u sgl IHs]; [rewrite trimLoop_nil_r; lia|].
  rewrite trimLoop_cons. repeat case_match.
  - specialize (IHc (u :: sgl)). simpl in *. lia.
  - specialize (IHc sgl). simpl in *. lia.
  - simpl in *. lia.
Qed.

(** X6 ([trimUniqueMatches]).  Whenever the call returns (it panics when
    [trimmedList] is too short for the entries that stay), the trimmed list
    has exactly [len(i.CompareResults) - len(uniqueMatchItems)] entries,
    all of them entries of the list before: no slot of [trimmedList] is
    left at its zero value, so the error "Did not trim properly" is never
    logged.  The unique items are returned rearranged. *)
Theorem trimUniqueMatches_never_pads `{GoSort} (i i' : IndexCompareResultList)
  (uniqueMatchItems sorted : list CompareResult) :
  trimUniqueMatches i uniqueMatchItems = Some (i', sorted) →
  (length uniqueMatchItems ≤ length (CompareResults i))%nat
  ∧ length (CompareResults i')
      = (length (CompareResults i) - length uniqueMatchItems)%nat
  ∧ CompareResults i' ⊆+ CompareResults i
  ∧ sorted ≡ₚ uniqueMatchItems.
Proof.
  unfold trimUniqueMatches.
  destruct (length (CompareResults i) <? length uniqueMatchItems)%nat eqn:Elen;
    [discriminate|].
  apply Nat.ltb_ge in Elen.
  set (cur := sort_by ByLeftRight (CompareResults i)).
  set (sgl := sort_by ByLeftRight uniqueMatchItems).
  destruct (length (CompareResults i) - length uniqueMatchItems
            <? length (trimLoop cur sgl))%nat eqn:Efit; [discriminate|].
  apply Nat.ltb_ge in Efit. intros [= <- <-].
  pose proof (trimLoop_length_ge cur sgl) as Hge.
  assert (Hcur : length cur = length (CompareResults i))
    by (unfold cur; by rewrite sort_by_perm).
  assert (Hsgl : length sgl = length uniqueMatchItems)
    by (unfold sgl; by rewrite sort_by_perm).
  rewrite Hcur, Hsgl in Hge.
  replace (length (CompareResults i) - length uniqueMatchItems
           - length (trimLoop cur sgl))%nat with 0%nat by lia.
  cbn [setResults CompareResults replicate]. rewrite app_nil_r.
  split; [exact Elen|]. split; [lia|]. split.
  - rewrite <- (sort_by_perm _ ByLeftRight (CompareResults i)).
    apply sublist_submseteq, trimLoop_sublist.
  - apply sort_by_perm.
Qed.

Lemma trimUniqueMatches_never_pads_witness :
  trimUniqueMatches (H := mergeSort) cascadeSample [mkResult 2 2 20]
    = Some (mkList [mkResult 1 1 5; mkResult 2 1 10], [mkResult 2 2 20])
  ∧ length [mkResult 1 1 5; mkResult 2 1 10] = 2%nat.
Proof.
  assert (Hrun : trimUniqueMatches (H := mergeSort) cascadeSample [mkResult 2 2 20]
                 = Some (mkList [mkResult 1 1 5; mkResult 2 1 10], [mkResult 2 2 20]))
    by (vm_compute; reflexivity).
  split; [exact Hrun|].
  exact (proj1 (proj2 (trimUniqueMatches_never_pads (H := mergeSort) _ _ _ _ Hrun))).
Defined.

(** ** Summing the weights of a pair ([sumMatchWeightValues]) *)

Lemma result_eq (r p : CompareResult) : ids r = ids p → Weight r = Weight p → r = p.
Proof. destruct r, p. unfold ids. simpl. intros [= -> ->] ->. reflexivity. Qed.

Lemma areIdsEqual_congr (r a b : CompareResult) :
  ids a = ids b → areIdsEqual r a = areIdsEqual r b.
Proof.
  intros Hab. destruct (areIdsEqual r a) eqn:E1, (areIdsEqual r b) eqn:E2; try reflexivity.
  - apply areIdsEqual_true in E1. apply areIdsEqual_false in E2. congruence.
  - apply areIdsEqual_true in E2. apply areIdsEqual_false in E1. congruence.
Qed.

Lemma plain_addRecord_app (splitMatch : bool) (maxMatchValue : Z)
  (prevTotal : CompareResult) (summed : list CompareResult) :
  Plain.addRecord splitMatch maxMatchValue prevTotal summed
    = summed ++ (if splitMatch && (Weight prevTotal <? maxMatchValue) then []
                 else [prevTotal]).
Proof.
  unfold Plain.addRecord.
  destruct (splitMatch && (Weight prevTotal <? maxMatchValue));
    [by rewrite app_nil_r | reflexivity].
Qed.

Lemma plain_sumLoop_exact (splitMatch : bool) (maxMatchValue : Z)
  (rest : list CompareResult) :
  ∀ (a prevTotal : CompareResult) summed (W : Z),
  ids prevTotal = ids a → Weight prevTotal = wrap W →
  StronglySorted (not_after ByLeftRight) (a :: rest) →
  Forall validWeight rest →
  ∃ new, Plain.sumLoop splitMatch maxMatchValue a prevTotal rest summed = summed ++ new
    ∧ ∀ r, r ∈ new ↔
        (∃ x, x ∈ a :: rest ∧ ids r = ids x)
        ∧ Weight r = wrap ((if areIdsEqual r a then W else 0) + pairSum rest r)
        ∧ (splitMatch = true → maxMatchValue ≤ Weight r).
Proof.
  induction rest as [|b rest IH]; intros a prevTotal summed W Hids HW Hs Hvalid.
  - cbn [Plain.sumLoop]. rewrite plain_addRecord_app.
    eexists. split; [reflexivity|]. intros r. cbn [pairSum].
    destruct (splitMatch && (Weight prevTotal <? maxMatchValue)) eqn:Egate.
    + apply andb_true_iff in Egate as [-> Hlow]. apply Z.ltb_lt in Hlow.
      split; [intros Hr; inversion Hr|].
      intros ((x & Hx & Hrx) & Hw & Hg). exfalso.
      apply list_elem_of_singleton in Hx. subst x.
      replace (areIdsEqual r a) with true in Hw
        by (symmetry; apply areIdsEqual_true; exact Hrx).
      rewrite Z.add_0_r in Hw. specialize (Hg eq_refl). lia.
    + rewrite list_elem_of_singleton. split.
      * intros ->. split; [exists a; split; [left | exact Hids]|].
        replace (areIdsEqual prevTotal a) with true
          by (symmetry; apply areIdsEqual_true; exact Hids).
        rewrite Z.add_0_r. split; [exact HW|].
        intros ->. simpl in Egate. lia.
      * intros ((x & Hx & Hrx) & Hw & _).
        apply list_elem_of_singleton in Hx. subst x.
        replace (areIdsEqual r a) with true in Hw
          by (symmetry; apply areIdsEqual_true; exact Hrx).
        rewrite Z.add_0_r in Hw. apply result_eq; congruence.
  - assert (Hs' : StronglySorted (not_after ByLeftRight) (b :: rest))
      by (apply StronglySorted_inv in Hs; tauto).
    assert (Hab : klt a b ∨ ids a = ids b)
      by (apply (sorted_head_le a (b :: rest)); [auto | left]).
    apply Forall_cons in Hvalid as [Hvb Hvalid].
    cbn [Plain.sumLoop].
    destruct (areIdsEqual a b) eqn:Eab.
    + apply areIdsEqual_true in Eab.
      destruct (IH b (setWeight prevTotal (add_int (Weight prevTotal) (Weight b)))
                  summed (W + Weight b)) as (new & Hnew & Hspec); auto.
      { rewrite <- Eab, <- Hids. reflexivity. }
      { simpl. unfold add_int. rewrite HW. apply wrap_add_l. }
      exists new. split; [exact Hnew|]. intros r. rewrite (Hspec r).
      cbn [pairSum]. rewrite (areIdsEqual_congr r a b Eab).
      assert (Hex : (∃ x, x ∈ b :: rest ∧ ids r = ids x)
                    ↔ (∃ x, x ∈ a :: b :: rest ∧ ids r = ids x)).
      { split; intros (x & Hx & Hrx).
        - exists x. split; [by right | exact Hrx].
        - apply elem_of_cons in Hx as [-> | Hx].
          + exists b. split; [left | congruence].
          + exists x. split; [exact Hx | exact Hrx]. }
      rewrite Hex.
      destruct (areIdsEqual r b).
      * replace (W + (Weight b + pairSum rest r))
          with (W + Weight b + pairSum rest r) by lia. reflexivity.
      * reflexivity.
    + apply areIdsEqual_false in Eab. destruct Hab as [Hab|Hab]; [|contradiction].
      assert (Hlater : ∀ y, y ∈ b :: rest → klt a y).
      { intros y Hy. apply elem_of_cons in Hy as [-> | Hy]; [exact Hab|].
        destruct (sorted_head_le b rest y Hs' Hy) as [Hby | Hby].
        - eapply klt_trans; eauto.
        - eapply klt_ids_r; eauto. }
      rewrite plain_addRecord_app.
      set (new0 := if splitMatch && (Weight prevTotal <? maxMatchValue)
                   then [] else [prevTotal]).
      destruct (IH b b (summed ++ new0) (Weight b)) as (new1 & Hnew1 & Hspec); auto.
      { symmetry. apply wrap_small, Hvb. }
      exists (new0 ++ new1). rewrite Hnew1, app_assoc. split; [reflexivity|].
      intros r. rewrite elem_of_app, (Hspec r). cbn [pairSum].
      destruct (areIdsEqual r a) eqn:Era.
      * apply areIdsEqual_true in Era.
        assert (Hnot : ¬ ∃ x, x ∈ b :: rest ∧ ids r = ids x).
        { intros (x & Hx & Hrx). apply (klt_irrefl a x); [auto | congruence]. }
        assert (Hzero : (if areIdsEqual r b then Weight b else 0) + pairSum rest r
                        = pairSum (b :: rest) r) by reflexivity.
        rewrite Hzero, (pairSum_absent (b :: rest) r), Z.add_0_r
          by (intros y Hy; rewrite Era; apply klt_irrefl; auto).
        unfold new0.
        destruct (splitMatch && (Weight prevTotal <? maxMatchValue)) eqn:Egate.
        -- apply andb_true_iff in Egate as [-> Hlow]. apply Z.ltb_lt in Hlow.
           split.
           ++ intros [Hr | [Hex _]]; [inversion Hr | contradiction].
           ++ intros (_ & Hw & Hg). specialize (Hg eq_refl). lia.
        -- rewrite list_elem_of_singleton. split.
           ++ intros [-> | [Hex _]]; [|contradiction].
              split; [exists a; split; [left | exact Hids]|].
              split; [exact HW|]. intros ->. simpl in Egate. lia.
           ++ intros (_ & Hw & _). left. apply result_eq; congruence.
      * apply areIdsEqual_false in Era.
        assert (Hr0 : ¬ r ∈ new0).
        { unfold new0. destruct (splitMatch && (Weight prevTotal <? maxMatchValue)).
          - intros Hr. inversion Hr.
          - rewrite list_elem_of_singleton. intros ->. congruence. }
        assert (Hex : (∃ x, x ∈ b :: rest ∧ ids r = ids x)
                      ↔ (∃ x, x ∈ a :: b :: rest ∧ ids r = ids x)).
        { split; intros (x & Hx & Hrx).
          - exists x. split; [by right | exact Hrx].
          - apply elem_of_cons in Hx as [-> | Hx]; [contradiction|].
            exists x. split; [exact Hx | exact Hrx]. }
        rewrite <- Hex, Z.add_0_l. tauto.
Qed.

Section SumTotals.
Context `{GoSort}.

(** X7 ([sumMatchWeightValues] of [index_compare_rule_list.go]).  With
    [ByLeftRight] ordering by source and then target index and
    [areIdsEqual] comparing both indices: for a list of at least two
    entries, the result holds one entry per (source, target) pair of the
    list, in [ByLeftRight] order, and its weight is the sum, on [int], of
    the weights of the entries of that pair; with the split-match flag the
    pairs whose sum is below [maxMatchValue] are left out. *)
Theorem sumMatchWeightValues_totals (splitMatch : bool) (maxMatchValue : Z)
  (l : list CompareResult) :
  (2 ≤ length l)%nat →
  Forall validWeight l →
  StronglySorted klt (Plain.sumMatchWeightValues splitMatch maxMatchValue l)
  ∧ ∀ r, r ∈ Plain.sumMatchWeightValues splitMatch maxMatchValue l ↔
         (∃ x, x ∈ l ∧ ids r = ids x)
         ∧ Weight r = pairTotal l r
         ∧ (splitMatch = true → maxMatchValue ≤ Weight r).
Proof.
  intros Hlen Hvalid. split.
  - rewrite <- (sumMatchWeightValues_plain splitMatch maxMatchValue (mkList l))
      by reflexivity.
    apply sumMatchWeightValues_sorted.
  - intros r. unfold Plain.sumMatchWeightValues.
    destruct l as [|x0 [|y0 l]]; simpl in Hlen; try lia.
    pose proof (sort_by_sorted _ ByLeftRight (x0 :: y0 :: l) ByLeftRight_order) as Hs.
    pose proof (sort_by_perm _ ByLeftRight (x0 :: y0 :: l)) as Hp.
    destruct (sort_by ByLeftRight (x0 :: y0 :: l)) as [|first rest] eqn:Es.
    { apply Permutation_nil_l in Hp. discriminate. }
    assert (Hv : Forall validWeight (first :: rest)) by (rewrite Hp; exact Hvalid).
    apply Forall_cons in Hv as [Hvf Hvr].
    destruct (plain_sumLoop_exact splitMatch maxMatchValue rest first first []
                (Weight first)) as (new & Hnew & Hspec); auto.
    { symmetry. apply wrap_small, Hvf. }
    rewrite Hnew. cbn [app]. rewrite (Hspec r).
    unfold pairTotal. rewrite <- (pairSum_perm _ _ r Hp). cbn [pairSum].
    assert (Hex : (∃ x, x ∈ first :: rest ∧ ids r = ids x)
                  ↔ (∃ x, x ∈ x0 :: y0 :: l ∧ ids r = ids x)).
    { split; intros (x & Hx & Hrx); exists x; (split; [|exact Hrx]).
      - by rewrite <- Hp.
      - by rewrite Hp. }
    rewrite Hex. reflexivity.
Qed.

(** X8 (the two versions of [sumMatchWeightValues]).  On a result list
    without post-processing entries, [sumMatchWeightValues] of
    [unnamed/part_005] computes the list that [sumMatchWeightValues] of
    [index_compare_rule_list.go] computes, whatever the sort makes of
    entries it does not order. *)
Theorem sumMatchWeightValues_versions_agree (splitMatch : bool) (maxMatchValue : Z)
  (ruleType : option IndexRuleType) (l : list CompareResult) :
  CompareResults
    (sumMatchWeightValues splitMatch maxMatchValue
       {| RuleType := ruleType; CompareResults := l; PostProcessList := [] |})
    = Plain.sumMatchWeightValues splitMatch maxMatchValue l
  ∧ PostProcessList
      (sumMatchWeightValues splitMatch maxMatchValue
         {| RuleType := ruleType; CompareResults := l; PostProcessList := [] |}) = [].
Proof.
  split; [by apply sumMatchWeightValues_plain|].
  unfold sumMatchWeightValues. cbn [CompareResults PostProcessList].
  destruct l as [|x [|y l]]; try reflexivity.
  destruct (sort_by ByLeftRight (x :: y :: l)) as [|first rest]; [reflexivity|].
  rewrite sumLoop_plain. reflexivity.
Qed.

End SumTotals.

Lemma sumMatchWeightValues_totals_witness :
  (2 ≤ length (CompareResults splitTierSample))%nat
  ∧ Forall validWeight (CompareResults splitTierSample)
  ∧ Plain.sumMatchWeightValues (H := mergeSort) true 10 (CompareResults splitTierSample)
    = [mkResult 1 1 10]
  ∧ StronglySorted klt
      (Plain.sumMatchWeightValues (H := mergeSort) true 10 (CompareResults splitTierSample)).
Proof.
  assert (Hlen : (2 ≤ length (CompareResults splitTierSample))%nat) by (simpl; lia).
  assert (Hvalid : Forall validWeight (CompareResults splitTierSample)).
  { repeat constructor; vm_compute; discriminate. }
  split; [exact Hlen|]. split; [exact Hvalid|]. split; [vm_compute; reflexivity|].
  exact (proj1 (sumMatchWeightValues_totals (H := mergeSort) true 10
                  (CompareResults splitTierSample) Hlen Hvalid)).
Defined.

(** ** Post-processing ([addPostProcess], [postProcess]) *)

Lemma mapBool_fold (l : list Z) :
  ∀ (m : gmap Z bool) (k : Z),
  mapBool (fold_left (λ m id, <[id := true]> m) l m) k
    = bool_decide (k ∈ l) || mapBool m k.
Proof.
  induction l as [|x l IH]; intros m k; cbn [fold_left].
  - rewrite bool_decide_eq_false_2; [reflexivity | intros Hk; inversion Hk].
  - rewrite IH. unfold mapBool.
    destruct (decide (k = x)) as [-> | Hne].
    + rewrite lookup_insert_eq. cbn.
      rewrite (bool_decide_eq_true_2 (x ∈ x :: l)) by left.
      by rewrite orb_true_r.
    + rewrite lookup_insert_ne by congruence.
      destruct (bool_decide (k ∈ l)) eqn:E.
      * apply bool_decide_eq_true_1 in E.
        rewrite bool_decide_eq_true_2 by (by right). reflexivity.
      * apply bool_decide_eq_false_1 in E.
        rewrite bool_decide_eq_false_2; [reflexivity|].
        intros Hk. apply elem_of_cons in Hk as [? | ?]; contradiction.
Qed.

Lemma postProcessStep_done (pp : PostProcess) (p : CompareResult) (k : bool) :
  ∀ p2 k2, ids p2 = ids p →
  postProcessStep (fst (postProcessStep pp (p, k))) (p2, k2)
    = (fst (postProcessStep pp (p, k)), (p2, k2)).
Proof.
  intros p2 k2 Hids. apply ids_eq in Hids as [HL HR].
  assert (Hdone : ∃ m, Done (fst (postProcessStep pp (p, k))) !! LeftId p = Some m
                       ∧ m !! RightId p = Some true).
  { unfold postProcessStep.
    destruct (Done pp !! LeftId p) as [m|] eqn:Em.
    - destruct (m !! RightId p) as [[|]|] eqn:Er; cbn [fst setDone Done].
      + exists m. auto.
      + rewrite lookup_insert_eq. eexists. split; [reflexivity|].
        by rewrite lookup_insert_eq.
      + rewrite lookup_insert_eq. eexists. split; [reflexivity|].
        by rewrite lookup_insert_eq.
    - cbn [fst setDone Done]. rewrite lookup_insert_eq. eexists.
      split; [reflexivity|]. by rewrite lookup_insert_eq. }
  destruct Hdone as (m & Hm & Hr).
  unfold postProcessStep at 1. rewrite HL, HR, Hm, Hr. reflexivity.
Qed.

(** X9 ([postProcess]).  A pair goes through post-processing once per
    result list: after [postProcess] has been called for a pair, a later
    call for the same pair, whatever its weight then is, changes neither
    the weight nor the [Done] maps and answers that the record is to be
    kept. *)
Theorem postProcess_applies_once (ppl : list PostProcess) (prevTotal : CompareResult)
  (w : Z) :
  postProcess (fst (postProcess ppl (prevTotal, true))) (setWeight prevTotal w, true)
    = (fst (postProcess ppl (prevTotal, true)), (setWeight prevTotal w, true)).
Proof.
  assert (Hgen : ∀ ppl p k p2 k2, ids p2 = ids p →
            postProcess (fst (postProcess ppl (p, k))) (p2, k2)
              = (fst (postProcess ppl (p, k)), (p2, k2))).
  { clear. induction ppl as [|pp ppl IH]; intros p k p2 k2 Hids; [reflexivity|].
    cbn [postProcess].
    pose proof (postProcessStep_done pp p k p2 k2 Hids) as Hstep.
    pose proof (postProcessStep_ids pp p k) as Hids1.
    destruct (postProcessStep pp (p, k)) as [pp' [p1 k1]] eqn:E1.
    cbn [fst snd] in *.
    pose proof (IH p1 k1 p2 k2 ltac:(congruence)) as Hrest.
    destruct (postProcess ppl (p1, k1)) as [rest' [p3 k3]] eqn:E2.
    cbn [fst snd postProcess] in *. rewrite Hstep, Hrest. reflexivity. }
  apply Hgen. reflexivity.
Qed.

(** X10 ([addPostProcess], [postProcess]).  A post-processing entry added
    to a fresh result list adds the weight of its rule to a pair exactly
    when the source index is in its left list and the target index in its
    right list; any other pair keeps its weight and is dropped exactly
    when the entry's tier is a split-match tier. *)
Theorem addPostProcess_then_postProcess (tier ruleType : IndexRuleType) (rule : IndexRule)
  (leftList rightList : list Z) (prevTotal : CompareResult) :
  snd (postProcess
         (PostProcessList
            (addPostProcess (newIndexCompareResultList tier) ruleType rule
               leftList rightList))
         (prevTotal, true))
    = if bool_decide (LeftId prevTotal ∈ leftList)
         && bool_decide (RightId prevTotal ∈ rightList)
      then (setWeight prevTotal (add_int (Weight prevTotal) (WeightValue rule)), true)
      else (prevTotal, negb (SplitMatch ruleType)).
Proof.
  unfold addPostProcess, newIndexCompareResultList.
  cbn [setPost PostProcessList app postProcess].
  unfold postProcessStep.
  cbn [Done LeftMap RightMap ppRuleType ppRule]. rewrite lookup_empty.
  rewrite !mapBool_fold. unfold mapBool at 1 2. rewrite !lookup_empty. cbn [default].
  rewrite !orb_false_r.
  destruct (bool_decide (LeftId prevTotal ∈ leftList)
            && bool_decide (RightId prevTotal ∈ rightList)); cbn [snd].
  - reflexivity.
  - destruct (SplitMatch ruleType); reflexivity.
Qed.

(** ** The maximum weight ([getMaxWeight]) *)

Lemma getMaxWeightFrom_attained (l : list CompareResult) (m : Z) :
  getMaxWeightFrom m l = m ∨ ∃ r, r ∈ l ∧ Weight r = getMaxWeightFrom m l.
Proof.
  revert m. induction l as [|x l IH]; intros m; simpl; [by left|].
  destruct (IH (if m <? Weight x then Weight x else m)) as [Heq | (r & Hr & Heq)].
  - destruct (m <? Weight x) eqn:E.
    + right. exists x. split; [left | congruence].
    + left. exact Heq.
  - right. exists r. split; [by right | exact Heq].
Qed.

(** X11 ([getMaxWeight]).  The result is never negative and no weight of
    the list exceeds it; it is 0 or the weight of an entry, so that it is 0
    for an empty list and for a list without positive weight. *)
Theorem getMaxWeight_bounds (i : IndexCompareResultList) :
  0 ≤ getMaxWeight i
  ∧ Forall (λ r, Weight r ≤ getMaxWeight i) (CompareResults i)
  ∧ (getMaxWeight i = 0 ∨ ∃ r, r ∈ CompareResults i ∧ Weight r = getMaxWeight i).
Proof.
  unfold getMaxWeight.
  destruct (getMaxWeightFrom_ge (CompareResults i) 0) as [Hm Hall].
  split; [exact Hm|]. split; [apply Forall_forall; exact Hall|].
  apply getMaxWeightFrom_attained.
Qed.

(** ** The active tiers ([genActiveList]) *)

Lemma genActiveListFrom_elem_of (selfMatch : bool) (l : list IndexRuleType) :
  ∀ (idx : Z) (t : IndexRuleType),
  t ∈ genActiveListFrom selfMatch idx l ↔
  ∃ (n : nat) conf, l !! n = Some conf
    ∧ t = activeRuleType selfMatch (idx + Z.of_nat n) conf
    ∧ IndexRules t ≠ [].
Proof.
  induction l as [|c l IH]; intros idx t; cbn [genActiveListFrom].
  - split; [intros Ht; inversion Ht | intros (n & conf & Hn & _); discriminate].
  - assert (Hshift : (∃ (n : nat) conf, l !! n = Some conf
                        ∧ t = activeRuleType selfMatch (idx + 1 + Z.of_nat n) conf
                        ∧ IndexRules t ≠ [])
                     ↔ ∃ (n : nat) conf, (c :: l) !! S n = Some conf
                        ∧ t = activeRuleType selfMatch (idx + Z.of_nat (S n)) conf
                        ∧ IndexRules t ≠ []).
    { split; intros (n & conf & Hn & Ht & Hne); exists n, conf;
        (split; [exact Hn|]); (split; [|exact Hne]); rewrite Ht; f_equal; lia. }
    assert (Hhead : activeRuleType selfMatch (idx + Z.of_nat 0) c
                    = activeRuleType selfMatch idx c) by (f_equal; lia).
    destruct (1 <=? length (IndexRules (activeRuleType selfMatch idx c)))%nat eqn:E.
    + apply Nat.leb_le in E. rewrite elem_of_cons, IH, Hshift. split.
      * intros [-> | (n & conf & H1)].
        -- exists 0%nat, c. split; [reflexivity|]. split; [by rewrite Hhead|].
           intros Hnil. rewrite Hnil in E. simpl in E. lia.
        -- exists (S n), conf. exact H1.
      * intros ([|n] & conf & Hn & Ht & Hne).
        -- left. injection Hn as <-. by rewrite Ht, Hhead.
        -- right. exists n, conf. auto.
    + apply Nat.leb_gt in E. rewrite IH, Hshift. split.
      * intros (n & conf & H1). exists (S n), conf. exact H1.
      * intros ([|n] & conf & Hn & Ht & Hne).
        -- exfalso. injection Hn as <-. rewrite Ht, Hhead in Hne.
           destruct (IndexRules (activeRuleType selfMatch idx c)); [auto | simpl in E; lia].
        -- exists n, conf. auto.
Qed.

(** X12 ([genActiveList]).  The active tiers come in configuration order,
    each with its position in the configured list as [Key].  A tier is
    active exactly when one of its rules is left once the rules disabled
    for self-matching are taken out (only in a self-match run); its seed
    flag, split-match flag and weight are those configured, and its rules
    are the configured ones that are left, in order. *)
Theorem genActiveList_tiers (g : IndexRuleMapGenerator) :
  StronglySorted Z.lt (map Key (genActiveList g))
  ∧ ∀ t, t ∈ genActiveList g ↔
      ∃ conf, index (baseRuleList g) (Key t) = Some conf
        ∧ IsSeed t = IsSeed conf
        ∧ SplitMatch t = SplitMatch conf
        ∧ TypeWeightValue t = TypeWeightValue conf
        ∧ IndexRules t
          = List.filter (λ rule, negb (SelfMatchDisabled rule && SelfMatch g))
              (IndexRules conf)
        ∧ IndexRules t ≠ [].
Proof.
  split; [apply genActiveListFrom_keys|].
  intros t. unfold genActiveList. rewrite genActiveListFrom_elem_of. split.
  - intros (n & conf & Hn & Ht & Hne). exists conf.
    assert (HK : Key t = Z.of_nat n) by (rewrite Ht; cbn; lia).
    split.
    + unfold index. rewrite HK.
      rewrite (proj2 (Z.ltb_ge _ _)) by lia. by rewrite Nat2Z.id.
    + rewrite Ht in *. cbn in *. auto.
  - intros (conf & Hidx & H1 & H2 & H3 & H4 & Hne).
    unfold index in Hidx. destruct (Key t <? 0) eqn:E; [discriminate|].
    apply Z.ltb_ge in E. exists (Z.to_nat (Key t)), conf.
    split; [exact Hidx|]. split; [|exact Hne].
    destruct t as [k sd sp w rs]. unfold activeRuleType. cbn in *.
    subst. f_equal. lia.
Qed.

(** ** Committing the unique matches ([keepMatches]) *)

Lemma keepMatches_logged (uniqueMatch : list CompareResult) :
  ∀ (m : gmap Z Z) (logged : bool),
  snd (keepMatches (m, logged) uniqueMatch) = false ↔
  logged = false ∧ NoDup (map LeftId uniqueMatch)
  ∧ ∀ r, r ∈ uniqueMatch → m !! LeftId r = None.
Proof.
  unfold keepMatches.
  induction uniqueMatch as [|u l IH]; intros m logged; cbn [fold_left map].
  - cbn. split.
    + intros ->. split; [reflexivity|]. split; [constructor|]. intros r Hr. inversion Hr.
    + tauto.
  - unfold keepMatch at 2. rewrite IH, NoDup_cons, orb_false_iff.
    rewrite bool_decide_eq_false, <- eq_None_not_Some.
    split.
    + intros ((Hlog & Hu) & Hnd & Hfresh). split; [exact Hlog|].
      split; [split; [|exact Hnd]|].
      * intros Hin. apply list_elem_of_fmap in Hin as (r & HL & Hr).
        specialize (Hfresh r Hr). rewrite <- HL, lookup_insert_eq in Hfresh. discriminate.
      * intros r Hr. apply elem_of_cons in Hr as [-> | Hr]; [exact Hu|].
        specialize (Hfresh r Hr).
        destruct (decide (LeftId u = LeftId r)) as [Heq | Hne].
        -- rewrite Heq, lookup_insert_eq in Hfresh. discriminate.
        -- by rewrite lookup_insert_ne in Hfresh.
    + intros (Hlog & [Hu Hnd] & Hfresh). split; [split; [exact Hlog|]|].
      * apply Hfresh. left.
      * split; [exact Hnd|]. intros r Hr.
        rewrite lookup_insert_ne; [apply Hfresh; by right|].
        intros Heq. apply Hu. rewrite Heq. apply list_elem_of_fmap. eauto.
Qed.

Lemma keepMatches_lookup (uniqueMatch : list CompareResult) :
  ∀ (m : gmap Z Z) (logged : bool) (s : Z),
  fst (keepMatches (m, logged) uniqueMatch) !! s
    = match last (candidatesOf s uniqueMatch) with
      | Some r => Some (RightId r)
      | None => m !! s
      end.
Proof.
  unfold keepMatches.
  induction uniqueMatch as [|u l IH]; intros m logged s; cbn [fold_left]; [reflexivity|].
  unfold keepMatch at 2. rewrite IH.
  change (u :: l) with ([u] ++ l). rewrite candidatesOf_app.
  destruct (decide (LeftId u = s)) as [Heq | Hne].
  - rewrite (candidatesOf_all s [u]) by (constructor; [exact Heq | constructor]).
    cbn [app]. destruct (candidatesOf s l) as [|c cs] eqn:Ec.
    + cbn. by rewrite Heq, lookup_insert_eq.
    + change (last (u :: c :: cs)) with (last (c :: cs)).
      destruct (last (c :: cs)) eqn:El; [reflexivity|].
      apply last_None in El. discriminate.
  - rewrite (candidatesOf_none s [u]) by (constructor; [exact Hne | constructor]).
    cbn [app]. destruct (last (candidatesOf s l)); [reflexivity|].
    by rewrite lookup_insert_ne.
Qed.

(** X13 ([keepMatches]).  The map returned holds, for a source index of
    the unique matches, the target of its last entry in the list, and is
    unchanged elsewhere; the error "Should never find multiple exact
    matches for an entity" is logged exactly when a source index of the
    list is already a key of the map or occurs twice in the list. *)
Theorem keepMatches_last_wins (m : gmap Z Z) (uniqueMatch : list CompareResult) :
  (snd (keepMatches (m, false) uniqueMatch) = false ↔
   NoDup (map LeftId uniqueMatch) ∧ ∀ r, r ∈ uniqueMatch → m !! LeftId r = None)
  ∧ ∀ s, fst (keepMatches (m, false) uniqueMatch) !! s
         = match last (candidatesOf s uniqueMatch) with
           | Some r => Some (RightId r)
           | None => m !! s
           end.
Proof.
  split; [|apply keepMatches_lookup].
  rewrite keepMatches_logged. tauto.
Qed.

(** ** Setting up the processing context ([NewMatchProcessing]) *)

Lemma genRemainingMatchList_elem_of (l : list RawItem) (i : Z) :
  i ∈ genRemainingMatchList l ↔ is_Some (index l i).
Proof.
  unfold genRemainingMatchList, index. rewrite list_elem_of_fmap. split.
  - intros (n & -> & Hn). apply elem_of_seq in Hn.
    rewrite (proj2 (Z.ltb_ge _ _)) by lia. rewrite Nat2Z.id.
    apply lookup_lt_is_Some. lia.
  - destruct (i <? 0) eqn:E; [intros [x Hx]; discriminate|].
    apply Z.ltb_ge in E. intros Hi. apply lookup_lt_is_Some in Hi.
    exists (Z.to_nat i). split; [lia|]. apply elem_of_seq. lia.
Qed.

(** X14 ([NewMatchProcessing], [genRemainingMatchList]).  Called with
    entity types (so that its type assertions hold), the call panics only
    if sorting one of the record lists does.  Otherwise the remaining
    indices of either side are, in increasing order, exactly the valid
    indices of that side's sorted record list, nothing is matched yet, and
    [CurrentRemainingMatch] is still nil on both sides, so that
    dereferencing it before [PrepareRemainingMatch] panics. *)
Theorem NewMatchProcessing_remaining `{RawMatchListSort}
  (rawMatchListSource : list RawItem) (SourceType : EntityType)
  (rawMatchListTarget : list RawItem) (TargetType : EntityType) :
  match NewMatchProcessing rawMatchListSource SourceType rawMatchListTarget TargetType with
  | None => rawSort rawMatchListSource = None ∨ rawSort rawMatchListTarget = None
  | Some e =>
      rawSort rawMatchListSource = Some (RawMatchList (Source e))
      ∧ rawSort rawMatchListTarget = Some (RawMatchList (Target e))
      ∧ StronglySorted Z.lt (RemainingMatch (Source e))
      ∧ StronglySorted Z.lt (RemainingMatch (Target e))
      ∧ (∀ i, i ∈ RemainingMatch (Source e) ↔ is_Some (index (RawMatchList (Source e)) i))
      ∧ (∀ i, i ∈ RemainingMatch (Target e) ↔ is_Some (index (RawMatchList (Target e)) i))
      ∧ matchedMap e = ∅
      ∧ currentRemaining (Source e) = None
      ∧ currentRemaining (Target e) = None
  end.
Proof.
  unfold NewMatchProcessing.
  destruct (rawSort rawMatchListSource) as [sortedSource|]; cbn; [|by left].
  destruct (rawSort rawMatchListTarget) as [sortedTarget|]; cbn; [|by right].
  repeat split; try apply genRemainingMatchList_sorted;
    try apply genRemainingMatchList_elem_of.
Qed.

(** ** The current matches in the output ([genOutputPayload]) *)

Lemma assign_fresh (st : gmap string string * gmap string string) (s t : string) :
  st.1 !! s = None → st.2 !! t = None →
  assign st (s, t) = (<[s := t]> st.1, <[t := s]> st.2).
Proof.
  destruct st as [m rev]. unfold assign, isAlreadyMatched. simpl.
  intros -> ->. reflexivity.
Qed.

Lemma assignCurrent_mono (e : MatchProcessing) (l : list (Z * Z)) :
  ∀ st st', assignCurrent e l st = Some st' → st.1 ⊆ st'.1 ∧ st.2 ⊆ st'.2.
Proof.
  induction l as [|[sI tI] l IH]; intros st st' Hrun; simpl in Hrun.
  - injection Hrun as <-. split; reflexivity.
  - destruct (entityId (RawMatchList (Source e)) sI) as [s|]; simpl in Hrun;
      [|discriminate].
    destruct (entityId (RawMatchList (Target e)) tI) as [t|]; simpl in Hrun;
      [|discriminate].
    destruct (IH _ _ Hrun) as [Ha Hb]. destruct (assign_mono st (s, t)) as [Hc Hd].
    split; etrans; eauto.
Qed.

Lemma assignCurrent_takes_all (e : MatchProcessing) (entries : list (Z * Z)) :
  ∀ st st',
  assignCurrent e entries st = Some st' →
  NoDup (map fst entries) →
  (∀ s1 t1 s2 t2, (s1, t1) ∈ entries → (s2, t2) ∈ entries → s1 ≠ s2 →
     entityId (RawMatchList (Source e)) s1 ≠ entityId (RawMatchList (Source e)) s2
     ∧ entityId (RawMatchList (Target e)) t1 ≠ entityId (RawMatchList (Target e)) t2) →
  (∀ s1 t1 a b, (s1, t1) ∈ entries →
     entityId (RawMatchList (Source e)) s1 = Some a →
     entityId (RawMatchList (Target e)) t1 = Some b →
     st.1 !! a = None ∧ st.2 !! b = None) →
  ∀ s t, (s, t) ∈ entries →
  ∃ a b, entityId (RawMatchList (Source e)) s = Some a
         ∧ entityId (RawMatchList (Target e)) t = Some b
         ∧ st'.1 !! a = Some b.
Proof.
  induction entries as [|[s0 t0] l IH]; intros st st' Hrun Hnd Hdist Hfresh s t Hin;
    [inversion Hin|].
  simpl in Hrun.
  destruct (entityId (RawMatchList (Source e)) s0) as [a0|] eqn:Ea; simpl in Hrun;
    [|discriminate].
  destruct (entityId (RawMatchList (Target e)) t0) as [b0|] eqn:Eb; simpl in Hrun;
    [|discriminate].
  destruct (Hfresh s0 t0 a0 b0) as [Hfa Hfb]; [left | exact Ea | exact Eb |].
  rewrite (assign_fresh st a0 b0 Hfa Hfb) in Hrun.
  cbn [map] in Hnd. apply NoDup_cons in Hnd as [Hs0 Hnd].
  apply elem_of_cons in Hin as [[= -> ->] | Hin].
  - exists a0, b0. split; [exact Ea|]. split; [exact Eb|].
    destruct (assignCurrent_mono e l _ _ Hrun) as [Hsub _].
    eapply lookup_weaken; [|exact Hsub]. cbn. apply lookup_insert_eq.
  - apply (IH _ _ Hrun Hnd); [| |exact Hin].
    + intros s1 t1 s2 t2 H1 H2. apply Hdist; by right.
    + intros s1 t1 a b H1 Ha1 Hb1.
      assert (Hne : s1 ≠ s0).
      { intros ->. apply Hs0. apply list_elem_of_fmap. exists (s0, t1). auto. }
      destruct (Hdist s1 t1 s0 t0) as [HdS HdT]; [by right | left | exact Hne |].
      destruct (Hfresh s1 t1 a b) as [Hfa1 Hfb1]; [by right | exact Ha1 | exact Hb1 |].
      cbn. rewrite !lookup_insert_ne by congruence. auto.
Qed.

Section CurrentMatches.
Context `{GoSort} `{MapRange}.

Lemma range_of_lookup {K} `{Countable K} {V} (site : nat) (m : gmap K V) (k : K) (v : V) :
  (k, v) ∈ range_of site m ↔ m !! k = Some v.
Proof. rewrite (range_of_perm _ _ site m). apply elem_of_map_to_list. Qed.

Lemma range_of_keys_NoDup {K} `{Countable K} {V} (site : nat) (m : gmap K V) :
  NoDup (map fst (range_of site m)).
Proof.
  assert (Hp : map fst (range_of site m) ≡ₚ map fst (map_to_list m))
    by (apply fmap_Permutation, range_of_perm).
  rewrite Hp. apply NoDup_fst_map_to_list.
Qed.

(** X15 ([genOutputPayload] of package [entities]).  When different
    matched source indices have different entity ids and their targets
    have different entity ids too, every unique match of the current run
    is in [Matches] of the output, under the entity ids of its source and
    target: neither the matches of the previous run nor the picks by
    first seen replace or block it, whatever the order in which the maps
    are ranged over. *)
Theorem current_matches_always_kept (e : MatchProcessing)
  (remaining : IndexCompareResultList) (matched : gmap Z Z)
  (prevMatches out : MatchOutputType) :
  genOutputPayload e remaining matched prevMatches = Some out →
  (∀ s1 t1 s2 t2, matched !! s1 = Some t1 → matched !! s2 = Some t2 → s1 ≠ s2 →
     entityId (RawMatchList (Source e)) s1 ≠ entityId (RawMatchList (Source e)) s2
     ∧ entityId (RawMatchList (Target e)) t1 ≠ entityId (RawMatchList (Target e)) t2) →
  ∀ s t, matched !! s = Some t →
  ∃ a b, entityId (RawMatchList (Source e)) s = Some a
         ∧ entityId (RawMatchList (Target e)) t = Some b
         ∧ Matches out !! a = Some b.
Proof.
  unfold genOutputPayload. intros Hrun Hdist s t Hst.
  destruct (genMultiMatchedMap (CompareResults remaining) e prevMatches)
    as [[multi mfs]|] eqn:Emulti; [|discriminate].
  cbn [mbind option_bind] in Hrun.
  destruct (PrepareRemainingMatch_raw false true e remaining) as [HrawS HrawT].
  destruct (PrepareRemainingMatch false true e remaining) as [e' rem'] eqn:Eprep.
  cbn [fst] in HrawS, HrawT.
  unfold genMatches in Hrun.
  destruct (assignCurrent e' (range_of 2%nat matched) (∅, ∅)) as [st1|] eqn:E1;
    [|discriminate].
  cbn [mbind option_bind fst] in Hrun.
  set (st2 := fold_left assign (range_of 3%nat (Matches prevMatches)) st1) in *.
  set (st3 := fold_left assign (range_of 4%nat mfs) st2) in *.
  destruct st3 as [m rev] eqn:E3.
  destruct (currentRemaining (Source e')) as [current|]; [|discriminate].
  cbn [mbind option_bind] in Hrun.
  destruct (unmatchedLoop e' prevMatches current []) as [unMatched|];
    [|discriminate].
  cbn [mbind option_bind] in Hrun.
  injection Hrun as <-. cbn [Matches].
  destruct (assignCurrent_takes_all e' (range_of 2%nat matched) (∅, ∅) st1 E1)
    with (s := s) (t := t) as (a & b & Ha & Hb & Hab).
  - apply range_of_keys_NoDup.
  - intros s1 t1 s2 t2 H1 H2 Hne. rewrite HrawS, HrawT.
    apply (Hdist s1 t1 s2 t2); [by apply (range_of_lookup 2) | by apply (range_of_lookup 2) | exact Hne].
  - intros. cbn. rewrite !lookup_empty. auto.
  - by apply range_of_lookup.
  - rewrite HrawS in Ha. rewrite HrawT in Hb.
    exists a, b. split; [exact Ha|]. split; [exact Hb|].
    destruct (fold_assign_mono (range_of 3%nat (Matches prevMatches)) st1) as [H12 _].
    destruct (fold_assign_mono (range_of 4%nat mfs) st2) as [H23 _].
    fold st2 in H12. fold st3 in H23. rewrite E3 in H23. cbn [fst] in H23.
    eapply lookup_weaken; [|exact H23]. eapply lookup_weaken; [|exact H12]. exact Hab.
Qed.

End CurrentMatches.

Lemma current_matches_always_kept_witness :
  ∃ out,
    genOutputPayload (H := mergeSort) (H0 := listRange)
      conflictContext emptyResultList {[ 0 := 0; 2 := 2 ]} emptyOutput = Some out
    ∧ Matches out !! "S1" = Some "T1"
    ∧ Matches out !! "S3" = Some "T3".
Proof.
  destruct (genOutputPayload (H := mergeSort) (H0 := listRange)
              conflictContext emptyResultList {[ 0 := 0; 2 := 2 ]} emptyOutput)
    as [out|] eqn:Hrun; [|vm_compute in Hrun; discriminate].
  exists out. split; [reflexivity|].
  assert (Hdist : ∀ s1 t1 s2 t2,
            ({[ 0 := 0; 2 := 2 ]} : gmap Z Z) !! s1 = Some t1 →
            ({[ 0 := 0; 2 := 2 ]} : gmap Z Z) !! s2 = Some t2 → s1 ≠ s2 →
            entityId (RawMatchList (Source conflictContext)) s1
              ≠ entityId (RawMatchList (Source conflictContext)) s2
            ∧ entityId (RawMatchList (Target conflictContext)) t1
              ≠ entityId (RawMatchList (Target conflictContext)) t2).
  { intros s1 t1 s2 t2 H1 H2 Hne.
    apply lookup_insert_Some in H1 as [[<- <-] | [_ H1]];
      [|apply lookup_singleton_Some in H1 as [<- <-]];
      (apply lookup_insert_Some in H2 as [[<- <-] | [_ H2]];
         [|apply lookup_singleton_Some in H2 as [<- <-]]);
      try contradiction; split; vm_compute; discriminate. }
  split.
  - destruct (current_matches_always_kept (H := mergeSort) (H0 := listRange)
                _ _ _ _ _ Hrun Hdist 0 0) as (a & b & Ha & Hb & Hab);
      [reflexivity|].
    vm_compute in Ha, Hb. injection Ha as <-. injection Hb as <-. exact Hab.
  - destruct (current_matches_always_kept (H := mergeSort) (H0 := listRange)
                _ _ _ _ _ Hrun Hdist 2 2) as (a & b & Ha & Hb & Hab);
      [reflexivity|].
    vm_compute in Ha, Hb. injection Ha as <-. injection Hb as <-. exact Hab.
Defined.

(** ** Output assembly for configs ([unnamed/part_003]) *)

Section ConfigsWriter.
Variable ConfigIdKey : string.

Lemma configs_addMatchingMultiMatched_spec (e : MatchProcessing) (currentId : Z)
  (group : list CompareResult) (mm mm' : gmap string (list string)) :
  Configs.addMatchingMultiMatched ConfigIdKey e currentId group mm = Some mm' →
  ∃ sid l, Configs.configId ConfigIdKey (RawMatchList (Source e)) currentId = Some sid
           ∧ configTargetIds ConfigIdKey e group = Some l
           ∧ mm' = <[sid := l]> mm.
Proof.
  unfold Configs.addMatchingMultiMatched, configTargetIds. intros Hrun.
  destruct (mapM _ group) as [l|]; [|discriminate].
  cbn [mbind option_bind] in Hrun.
  destruct (Configs.configId ConfigIdKey (RawMatchList (Source e)) currentId) as [sid|]; [|discriminate].
  cbn [mbind option_bind] in Hrun. injection Hrun as <-. eauto.
Qed.

Lemma configs_groupLoop_spec (e : MatchProcessing) (rest : list CompareResult) :
  ∀ currentId group mm mm',
  Forall (λ c, LeftId c = currentId) group →
  Forall (λ c, currentId ≤ LeftId c) rest →
  StronglySorted leLeft rest →
  Configs.groupLoop ConfigIdKey e currentId group rest mm = Some mm' →
  (∀ k, is_Some (mm !! k) → is_Some (mm' !! k))
  ∧ (∀ z, z = currentId ∨ z ∈ map LeftId rest →
          ∃ sid, Configs.configId ConfigIdKey (RawMatchList (Source e)) z = Some sid ∧ is_Some (mm' !! sid))
  ∧ ∀ sid l, mm' !! sid = Some l →
      mm !! sid = Some l
      ∨ ∃ z, (z = currentId ∨ z ∈ map LeftId rest)
             ∧ Configs.configId ConfigIdKey (RawMatchList (Source e)) z = Some sid
             ∧ configTargetIds ConfigIdKey e (candidatesOf z (group ++ rest)) = Some l.
Proof.
  induction rest as [|r rest IH];
    intros currentId group mm mm' Hgroup Hge Hsorted Hrun;
    cbn [Configs.groupLoop] in Hrun.
  - destruct (configs_addMatchingMultiMatched_spec _ _ _ _ _ Hrun)
      as (sid & l & Hsid & Hl & ->).
    split; [|split].
    + intros k Hk. destruct (decide (sid = k)) as [<- | Hne].
      * rewrite lookup_insert_eq. eauto.
      * by rewrite lookup_insert_ne.
    + intros z [-> | Hz]; [|inversion Hz]. exists sid.
      split; [exact Hsid|]. rewrite lookup_insert_eq. eauto.
    + intros sid' l' Hlook. destruct (decide (sid = sid')) as [<- | Hne].
      * rewrite lookup_insert_eq in Hlook. injection Hlook as <-.
        right. exists currentId. split; [by left|]. split; [exact Hsid|].
        rewrite app_nil_r, candidatesOf_all by exact Hgroup. exact Hl.
      * rewrite lookup_insert_ne in Hlook by exact Hne. by left.
  - apply Forall_cons in Hge as [Hr Hge].
    apply StronglySorted_inv in Hsorted as [Hsorted Hall].
    destruct (LeftId r =? currentId) eqn:Eid.
    + apply Z.eqb_eq in Eid.
      destruct (IH currentId (group ++ [r]) mm mm') as (Hmono & Hkeys & Hvals); auto.
      { apply Forall_app. split; [exact Hgroup|]. constructor; [exact Eid | constructor]. }
      split; [exact Hmono|]. split.
      * intros z [-> | Hz]; [apply Hkeys; by left|].
        cbn [map] in Hz. apply elem_of_cons in Hz as [-> | Hz];
          [rewrite Eid; apply Hkeys; by left | apply Hkeys; by right].
      * intros sid l Hlook.
        destruct (Hvals sid l Hlook) as [Hold | (z & Hz & Hsid & Hl)]; [by left|].
        right. exists z. split.
        -- destruct Hz as [-> | Hz]; [by left|]. right. cbn [map]. by right.
        -- split; [exact Hsid|]. rewrite <- app_assoc in Hl. exact Hl.
    + apply Z.eqb_neq in Eid.
      destruct (Configs.addMatchingMultiMatched ConfigIdKey e currentId group mm)
        as [mm1|] eqn:Eadd; [|discriminate].
      cbn [mbind option_bind] in Hrun.
      destruct (configs_addMatchingMultiMatched_spec _ _ _ _ _ Eadd)
        as (sid0 & l0 & Hsid0 & Hl0 & ->).
      assert (Hlater : Forall (λ c, LeftId r ≤ LeftId c) rest).
      { eapply Forall_impl; [exact Hall|]. simpl. auto. }
      destruct (IH (LeftId r) [r] (<[sid0 := l0]> mm) mm') as (Hmono & Hkeys & Hvals);
        auto.
      split; [|split].
      * intros k Hk. apply Hmono. destruct (decide (sid0 = k)) as [<- | Hne].
        -- rewrite lookup_insert_eq. eauto.
        -- by rewrite lookup_insert_ne.
      * intros z [-> | Hz].
        -- exists sid0. split; [exact Hsid0|]. apply Hmono.
           rewrite lookup_insert_eq. eauto.
        -- cbn [map] in Hz. apply elem_of_cons in Hz as [-> | Hz];
             [apply Hkeys; by left | apply Hkeys; by right].
      * intros sid l Hlook.
        destruct (Hvals sid l Hlook) as [Hold | (z & Hz & Hsid & Hl)].
        -- destruct (decide (sid0 = sid)) as [<- | Hne].
           ++ rewrite lookup_insert_eq in Hold. injection Hold as <-.
              right. exists currentId. split; [by left|]. split; [exact Hsid0|].
              rewrite candidatesOf_app, (candidatesOf_all _ group Hgroup).
              rewrite (candidatesOf_none currentId (r :: rest)), app_nil_r; [exact Hl0|].
              constructor; [exact Eid|].
              eapply Forall_impl; [exact Hlater|]. simpl. intros. lia.
           ++ rewrite lookup_insert_ne in Hold by exact Hne. by left.
        -- right. exists z. split.
           ++ right. cbn [map]. destruct Hz as [-> | Hz]; [left | by right].
           ++ split; [exact Hsid|].
              rewrite candidatesOf_app, (candidatesOf_none z group); [exact Hl|].
              assert (Hzr : LeftId r ≤ z).
              { destruct Hz as [-> | Hz]; [lia|].
                apply list_elem_of_fmap in Hz as (c & -> & Hc).
                rewrite Forall_forall in Hlater. auto. }
              eapply Forall_impl; [exact Hgroup|]. simpl. intros. lia.
Qed.

(** X16 ([genMultiMatchedMap] of package [configs]).  For a result list in
    which the entries of a source index are adjacent (it is ordered by
    source index), the map has a key for the config id of every source of
    the list, every key is the config id of such a source, and the list
    under a key holds the config ids of all the targets paired with that
    source, in the order of the result list.  There is no filter by
    previous matches and no pick by first seen here. *)
Theorem configs_genMultiMatchedMap_groups (results : list CompareResult)
  (e : MatchProcessing) (mm : gmap string (list string)) :
  StronglySorted leLeft results →
  Configs.genMultiMatchedMap ConfigIdKey results e = Some mm →
  (∀ r, r ∈ results →
        ∃ sid, Configs.configId ConfigIdKey (RawMatchList (Source e)) (LeftId r) = Some sid
               ∧ is_Some (mm !! sid))
  ∧ ∀ sid l, mm !! sid = Some l →
      ∃ z, z ∈ map LeftId results
           ∧ Configs.configId ConfigIdKey (RawMatchList (Source e)) z = Some sid
           ∧ configTargetIds ConfigIdKey e (candidatesOf z results) = Some l.
Proof.
  intros Hsorted Hrun. unfold Configs.genMultiMatchedMap in Hrun.
  destruct results as [|first rest].
  { injection Hrun as <-. split.
    - intros r Hr. inversion Hr.
    - intros sid l Hl. rewrite lookup_empty in Hl. discriminate. }
  apply StronglySorted_inv in Hsorted as [Hsorted Hall].
  destruct (configs_groupLoop_spec e rest (LeftId first) [first] ∅ mm)
    as (_ & Hkeys & Hvals);
    [repeat constructor | exact Hall | exact Hsorted | exact Hrun |].
  split.
  - intros r Hr. apply Hkeys. apply elem_of_cons in Hr as [-> | Hr]; [by left|].
    right. apply list_elem_of_fmap. eauto.
  - intros sid l Hl. destruct (Hvals sid l Hl) as [Hold | (z & Hz & Hsid & Hlist)].
    + rewrite lookup_empty in Hold. discriminate.
    + exists z. split; [|auto]. cbn [map].
      destruct Hz as [-> | Hz]; [left | by right].
Qed.

Lemma configs_matchesLoop_spec (e : MatchProcessing) (entries : list (Z * Z)) :
  ∀ m m', Configs.matchesLoop ConfigIdKey e entries m = Some m' →
  (∀ s t, (s, t) ∈ entries →
          ∃ a b, Configs.configId ConfigIdKey (RawMatchList (Source e)) s = Some a
                 ∧ Configs.configId ConfigIdKey (RawMatchList (Target e)) t = Some b
                 ∧ is_Some (m' !! a))
  ∧ (∀ a, is_Some (m !! a) → is_Some (m' !! a))
  ∧ (∀ a b, m' !! a = Some b →
            m !! a = Some b
            ∨ ∃ s t, (s, t) ∈ entries
                     ∧ Configs.configId ConfigIdKey (RawMatchList (Source e)) s = Some a
                     ∧ Configs.configId ConfigIdKey (RawMatchList (Target e)) t = Some b).
Proof.
  induction entries as [|[s0 t0] l IH]; intros m m' Hrun; cbn [Configs.matchesLoop] in Hrun.
  - injection Hrun as <-. split; [|split].
    + intros s t Hin. inversion Hin.
    + auto.
    + intros a b Hab. by left.
  - destruct (Configs.configId ConfigIdKey (RawMatchList (Source e)) s0) as [a0|] eqn:Ea;
      cbn [mbind option_bind] in Hrun; [|discriminate].
    destruct (Configs.configId ConfigIdKey (RawMatchList (Target e)) t0) as [b0|] eqn:Eb;
      cbn [mbind option_bind] in Hrun; [|discriminate].
    destruct (IH _ _ Hrun) as (Hall & Hmono & Hfrom).
    assert (Hmono' : ∀ a, is_Some (m !! a) → is_Some (m' !! a)).
    { intros a Ha. apply Hmono. destruct (decide (a0 = a)) as [<- | Hne].
      - rewrite lookup_insert_eq. eauto.
      - by rewrite lookup_insert_ne. }
    split; [|split; [exact Hmono'|]].
    + intros s t Hin. apply elem_of_cons in Hin as [[= -> ->] | Hin]; [|by apply Hall].
      exists a0, b0. split; [exact Ea|]. split; [exact Eb|].
      apply Hmono. rewrite lookup_insert_eq. eauto.
    + intros a b Hab. destruct (Hfrom a b Hab) as [Hold | (s & t & Hin & Ha & Hb)].
      * destruct (decide (a0 = a)) as [<- | Hne].
        -- rewrite lookup_insert_eq in Hold. injection Hold as <-.
           right. exists s0, t0. split; [left | auto].
        -- rewrite lookup_insert_ne in Hold by exact Hne. by left.
      * right. exists s, t. split; [by right | auto].
Qed.

Section ConfigsOutput.
Context `{GoSort} `{MapRange}.

(** X17 ([genOutputPayload] of package [configs]).  [UnMatched] lists the
    config id of every source index that [PrepareRemainingMatch] leaves in
    [CurrentRemainingMatch], in that order and without any filter.  Every
    entry of [Matches] carries the config ids of a matched pair, and the
    config id of every matched source is a key of [Matches]; when no two
    matched sources share a config id, [Matches] is read off the matched
    map alone, whatever the order in which the map is ranged over. *)
Theorem configs_genOutputPayload_sets (e : MatchProcessing)
  (remaining : IndexCompareResultList) (matchedConfigs : gmap Z Z)
  (out : Configs.MatchOutputType) :
  Configs.genOutputPayload ConfigIdKey e remaining matchedConfigs = Some out →
  (∃ current,
     currentRemaining (Source (fst (PrepareRemainingMatch false true e remaining)))
       = Some current
     ∧ mapM (Configs.configId ConfigIdKey (RawMatchList (Source e))) current = Some (Configs.UnMatched out))
  ∧ (∀ a b, Configs.Matches out !! a = Some b →
            ∃ s t, matchedConfigs !! s = Some t
                   ∧ Configs.configId ConfigIdKey (RawMatchList (Source e)) s = Some a
                   ∧ Configs.configId ConfigIdKey (RawMatchList (Target e)) t = Some b)
  ∧ (∀ s t, matchedConfigs !! s = Some t →
            ∃ a b, Configs.configId ConfigIdKey (RawMatchList (Source e)) s = Some a
                   ∧ Configs.configId ConfigIdKey (RawMatchList (Target e)) t = Some b
                   ∧ is_Some (Configs.Matches out !! a)
                   ∧ ((∀ s' t', matchedConfigs !! s' = Some t' →
                               Configs.configId ConfigIdKey (RawMatchList (Source e)) s' = Some a → s' = s) →
                      Configs.Matches out !! a = Some b)).
Proof.
  unfold Configs.genOutputPayload. intros Hrun.
  destruct (Configs.getMultiMatched ConfigIdKey (CompareResults remaining) e)
    as [multi|]; [|discriminate].
  cbn [mbind option_bind] in Hrun.
  destruct (PrepareRemainingMatch_raw false true e remaining) as [HrawS HrawT].
  destruct (PrepareRemainingMatch false true e remaining) as [e' rem'] eqn:Eprep.
  cbn [fst] in *.
  destruct (currentRemaining (Source e')) as [current|]; [|discriminate].
  cbn [mbind option_bind] in Hrun.
  destruct (Configs.matchesLoop ConfigIdKey e' (range_of 5%nat matchedConfigs) ∅)
    as [matches|] eqn:Eloop; [|discriminate].
  cbn [mbind option_bind] in Hrun.
  destruct (mapM (Configs.configId ConfigIdKey (RawMatchList (Source e'))) current) as [unMatched|] eqn:Eun;
    [|discriminate].
  cbn [mbind option_bind] in Hrun. injection Hrun as <-.
  cbn [Configs.UnMatched Configs.Matches].
  rewrite HrawS in Eun.
  destruct (configs_matchesLoop_spec e' _ _ _ Eloop) as (Hall & _ & Hfrom).
  rewrite HrawS, HrawT in Hall, Hfrom.
  split; [exists current; auto|]. split.
  - intros a b Hab. destruct (Hfrom a b Hab) as [Hold | (s & t & Hin & Ha & Hb)].
    + rewrite lookup_empty in Hold. discriminate.
    + exists s, t. split; [by apply (range_of_lookup 5)|auto].
  - intros s t Hst.
    destruct (Hall s t) as (a & b & Ha & Hb & Hsome); [by apply range_of_lookup|].
    exists a, b. split; [exact Ha|]. split; [exact Hb|]. split; [exact Hsome|].
    intros Hinj. destruct Hsome as [b' Hb'].
    destruct (Hfrom a b' Hb') as [Hold | (s' & t' & Hin & Ha' & Hb'')].
    + rewrite lookup_empty in Hold. discriminate.
    + apply range_of_lookup in Hin.
      assert (s' = s) as -> by (by apply (Hinj s' t')).
      assert (t' = t) as -> by congruence.
      congruence.
Qed.

End ConfigsOutput.

End ConfigsWriter.

Lemma configs_genMultiMatchedMap_groups_witness :
  StronglySorted leLeft conflictResults
  ∧ Configs.genMultiMatchedMap "entityId" conflictResults conflictContext
    = Some conflictMulti
  ∧ ∃ z, z ∈ map LeftId conflictResults
         ∧ Configs.configId "entityId" (RawMatchList (Source conflictContext)) z
           = Some "S3"
         ∧ configTargetIds "entityId" conflictContext (candidatesOf z conflictResults)
           = Some ["T3"; "T4"].
Proof.
  assert (Hs : StronglySorted leLeft conflictResults) by sorted_by_left.
  assert (Hrun : Configs.genMultiMatchedMap "entityId" conflictResults conflictContext
                 = Some conflictMulti) by (vm_compute; reflexivity).
  split; [exact Hs|]. split; [exact Hrun|].
  apply (proj2 (configs_genMultiMatchedMap_groups "entityId" _ _ _ Hs Hrun)
           "S3" ["T3"; "T4"]).
  vm_compute. reflexivity.
Defined.

Lemma configs_genOutputPayload_sets_witness :
  ∃ out,
    Configs.genOutputPayload (H := mergeSort) (H0 := listRange) "entityId"
      conflictContext emptyResultList {[ 0 := 0; 2 := 2 ]} = Some out
    ∧ ∀ a b, Configs.Matches out !! a = Some b →
             ∃ s t, ({[ 0 := 0; 2 := 2 ]} : gmap Z Z) !! s = Some t
                    ∧ Configs.configId "entityId"
                        (RawMatchList (Source conflictContext)) s = Some a
                    ∧ Configs.configId "entityId"
                        (RawMatchList (Target conflictContext)) t = Some b.
Proof.
  destruct (Configs.genOutputPayload (H := mergeSort) (H0 := listRange) "entityId"
              conflictContext emptyResultList {[ 0 := 0; 2 := 2 ]})
    as [out|] eqn:Hrun; [|vm_compute in Hrun; discriminate].
  exists out. split; [reflexivity|].
  exact (proj1 (proj2 (configs_genOutputPayload_sets (H := mergeSort) (H0 := listRange)
                         "entityId" _ _ _ _ Hrun))).
Defined.

(** ** Files of match results ([LoadMatches], [writeMatches]) *)

Section FilesFacts.
Context `{Persist.FileWriteEnv}.

Lemma loadLoop_spec (fs : Fs) (dir : string) (files : list (string * bool)) :
  ∀ acc : gmap string MatchOutputType,
  match Persist.loadLoop fs dir files acc with
  | inr err =>
      ∃ name, (name, false) ∈ files
        ∧ (snd (ReadFile fs (Join dir name)) = Some err
           ∨ (snd (ReadFile fs (Join dir name)) = None
              ∧ Unmarshal (fst (ReadFile fs (Join dir name))) = inr err))
  | inl m =>
      (∀ k, is_Some (acc !! k) → is_Some (m !! k))
      ∧ (∀ name, (name, false) ∈ files →
           snd (ReadFile fs (Join dir name)) = None
           ∧ ∃ out, Unmarshal (fst (ReadFile fs (Join dir name))) = inl out
                    ∧ is_Some (m !! Type_ out))
      ∧ (∀ k out, m !! k = Some out →
           acc !! k = Some out
           ∨ (Type_ out = k
              ∧ ∃ name, (name, false) ∈ files
                        ∧ Unmarshal (fst (ReadFile fs (Join dir name))) = inl out))
  end.
Proof.
  induction files as [|[filename isDir] files IH]; intros acc; cbn [Persist.loadLoop].
  - split; [auto|]. split; [intros name Hin; inversion Hin | auto].
  - destruct isDir.
    + specialize (IH acc). destruct (Persist.loadLoop fs dir files acc) as [m|err].
      * destruct IH as (Hmono & Hall & Hfrom). split; [exact Hmono|]. split.
        -- intros name Hin. apply elem_of_cons in Hin as [[=] | Hin]. by apply Hall.
        -- intros k out Hk. destruct (Hfrom k out Hk) as [Hold | (HT & name & Hin & Hu)];
             [by left|]. right. split; [exact HT|]. exists name. split; [by right | exact Hu].
      * destruct IH as (name & Hin & Herr). exists name. split; [by right | exact Herr].
    + destruct (ReadFile fs (Join dir filename)) as [data [err|]] eqn:Eread.
      { exists filename. split; [left|]. left. by rewrite Eread. }
      destruct (Unmarshal data) as [out0|err] eqn:Edec.
      2:{ exists filename. split; [left|]. right. rewrite Eread. auto. }
      specialize (IH (<[Type_ out0 := out0]> acc)).
      destruct (Persist.loadLoop fs dir files (<[Type_ out0 := out0]> acc)) as [m|err].
      * destruct IH as (Hmono & Hall & Hfrom).
        assert (Hmono' : ∀ k, is_Some (acc !! k) → is_Some (m !! k)).
        { intros k Hk. apply Hmono. destruct (decide (Type_ out0 = k)) as [<- | Hne].
          - rewrite lookup_insert_eq. eauto.
          - by rewrite lookup_insert_ne. }
        split; [exact Hmono'|]. split.
        -- intros name Hin. apply elem_of_cons in Hin as [[= ->] | Hin]; [|by apply Hall].
           rewrite Eread. split; [reflexivity|]. exists out0. split; [exact Edec|].
           apply Hmono. rewrite lookup_insert_eq. eauto.
        -- intros k out Hk. destruct (Hfrom k out Hk) as [Hold | (HT & name & Hin & Hu)].
           ++ destruct (decide (Type_ out0 = k)) as [<- | Hne].
              ** rewrite lookup_insert_eq in Hold. injection Hold as <-.
                 right. split; [reflexivity|]. exists filename.
                 split; [left | by rewrite Eread].
              ** rewrite lookup_insert_ne in Hold by exact Hne. by left.
           ++ right. split; [exact HT|]. exists name. split; [by right | exact Hu].
      * destruct IH as (name & Hin & Herr). exists name. split; [by right | exact Herr].
Qed.

(** X18 ([LoadMatches]).  The call fails exactly with the error of listing
    the directory, or of reading or decoding one of its regular files;
    sub-directories are never read.  When it succeeds, every regular file
    of the directory, whatever its name, was read and decoded, the type it
    holds is a key of the result, and every entry of the result is the
    content of such a file, filed under the type it holds. *)
Theorem LoadMatches_outcome (fs : Fs) (EntitiesMatchDir : string) :
  match Persist.LoadMatches fs EntitiesMatchDir with
  | inr err =>
      Persist.ReadDir fs EntitiesMatchDir = inr err
      ∨ ∃ files name, Persist.ReadDir fs EntitiesMatchDir = inl files
          ∧ (name, false) ∈ files
          ∧ (snd (ReadFile fs (Join EntitiesMatchDir name)) = Some err
             ∨ (snd (ReadFile fs (Join EntitiesMatchDir name)) = None
                ∧ Unmarshal (fst (ReadFile fs (Join EntitiesMatchDir name))) = inr err))
  | inl m =>
      ∃ files, Persist.ReadDir fs EntitiesMatchDir = inl files
        ∧ (∀ name, (name, false) ∈ files →
             snd (ReadFile fs (Join EntitiesMatchDir name)) = None
             ∧ ∃ out, Unmarshal (fst (ReadFile fs (Join EntitiesMatchDir name))) = inl out
                      ∧ is_Some (m !! Type_ out))
        ∧ (∀ k out, m !! k = Some out →
             Type_ out = k
             ∧ ∃ name, (name, false) ∈ files
                 ∧ Unmarshal (fst (ReadFile fs (Join EntitiesMatchDir name))) = inl out)
  end.
Proof.
  unfold Persist.LoadMatches.
  destruct (Persist.ReadDir fs EntitiesMatchDir) as [files|err]; [|by left].
  pose proof (loadLoop_spec fs EntitiesMatchDir files ∅) as Hloop.
  destruct (Persist.loadLoop fs EntitiesMatchDir files ∅) as [m|err].
  - destruct Hloop as (_ & Hall & Hfrom). exists files. split; [reflexivity|].
    split; [exact Hall|]. intros k out Hk.
    destruct (Hfrom k out Hk) as [Hold | Hnew]; [|exact Hnew].
    rewrite lookup_empty in Hold. discriminate.
  - destruct Hloop as (name & Hin & Herr). right. exists files, name. auto.
Qed.

(** X19 ([writeMatches], [readMatchesPrev]).  The file that [writeMatches]
    writes for an entities type is the file that [readMatchesPrev] reads
    for that type when the previous-result directory is the output
    directory of the writing run: on a file system that gives back what
    was written and reports no error for the directory, and with a JSON
    encoding that is not empty and decodes to what was encoded, reading
    after a successful write yields the written output and no error. *)
Theorem writeMatches_then_readMatchesPrev (fs fs' : Fs)
  (written read : MatchParameters) (entitiesType : string) (output : MatchOutputType) :
  (∀ f path data f', Persist.WriteFile f path data = (f', None) →
                     ReadFile f' path = (data, None)) →
  (∀ data, Persist.Marshal output = inl data →
           data ≠ [] ∧ Unmarshal data = inl output) →
  snd (Exists fs' (Clean (OutputDir written))) = None →
  PrevResultDir read = OutputDir written →
  OutputDir written ≠ "" →
  Persist.writeMatches fs written entitiesType output = (fs', None) →
  readMatchesPrev fs' read entitiesType = (output, None).
Proof.
  intros Hfs Hjson Hexists Hdir Hne Hwrite.
  unfold Persist.writeMatches in Hwrite. unfold readMatchesPrev.
  rewrite Hdir.
  rewrite (proj2 (String.eqb_neq _ _) Hne), Hexists.
  destruct (if String.eqb (Clean (OutputDir written)) "." then (fs, None)
            else Persist.MkdirAll fs (Clean (OutputDir written)))
    as [fs1 [err|]]; [discriminate|].
  destruct (Persist.Marshal output) as [data|err] eqn:Eenc; [|discriminate].
  destruct (Hjson data eq_refl) as [Hdata Hdec].
  rewrite (Hfs _ _ _ _ Hwrite).
  destruct data as [|b data]; [contradiction|].
  cbn [length Nat.eqb]. by rewrite Hdec.
Qed.

End FilesFacts.

Lemma writeMatches_then_readMatchesPrev_witness :
  Persist.writeMatches (H0 := memoryWriteEnv) ∅ outParameters "HOST" emptyOutput
    = ({[ "out/HOST.json" := bytesOf "{}" ]}, None)
  ∧ PrevResultDir nextParameters = OutputDir outParameters
  ∧ readMatchesPrev (H := memoryEnv) {[ "out/HOST.json" := bytesOf "{}" ]}
      nextParameters "HOST" = (emptyOutput, None).
Proof.
  assert (Hwrite : Persist.writeMatches (H0 := memoryWriteEnv) ∅ outParameters "HOST"
                     emptyOutput = ({[ "out/HOST.json" := bytesOf "{}" ]}, None))
    by (vm_compute; reflexivity).
  split; [exact Hwrite|]. split; [reflexivity|].
  apply (writeMatches_then_readMatchesPrev (H0 := memoryWriteEnv)
           ∅ _ outParameters nextParameters "HOST" emptyOutput).
  - intros f path data f' [= <-]. cbn. by rewrite lookup_insert_eq.
  - intros data [= <-]. split; [discriminate | reflexivity].
  - reflexivity.
  - reflexivity.
  - discriminate.
  - exact Hwrite.
Defined.

(** ** The lists of multi-matched candidates ([genMultiMatchedMap] of package [entities]) *)

Lemma firstSeenLoop_ids (e : MatchProcessing) (src : string) (group : list CompareResult) :
  ∀ st st', firstSeenLoop e src group st = Some st' →
  ∃ l, entityTargetIds e group = Some l ∧ st'.2 = st.2 ++ l.
Proof.
  unfold entityTargetIds.
  induction group as [|c group IH]; intros [[best mfs] acc] st' Hrun;
    cbn [firstSeenLoop] in Hrun.
  - injection Hrun as <-. exists []. split; [reflexivity|]. cbn. by rewrite app_nil_r.
  - destruct (entityId (RawMatchList (Target e)) (RightId c)) as [t|] eqn:Et;
      cbn [mbind option_bind] in Hrun; [|discriminate].
    destruct (firstSeenTms (RawMatchList (Target e)) (RightId c)) as [q|];
      cbn [mbind option_bind] in Hrun; [|discriminate].
    destruct (Qlt_le_dec best q);
      destruct (IH _ _ Hrun) as (l & Hl & Hacc); cbn [snd] in Hacc;
      exists (t :: l); (split; [|by rewrite Hacc, <- app_assoc]);
      cbn [mapM]; rewrite Et, Hl; reflexivity.
Qed.

Lemma addMatchingMultiMatched_lists (e : MatchProcessing) (prev : MatchOutputType)
  (currentId : Z) (group : list CompareResult)
  (mm mm' : gmap string (list string)) (mfs mfs' : gmap string string) :
  addMatchingMultiMatched e prev currentId group (mm, mfs) = Some (mm', mfs') →
  ∃ src, entityId (RawMatchList (Source e)) currentId = Some src
    ∧ ((is_Some (Matches prev !! src) ∧ mm' = mm)
       ∨ (Matches prev !! src = None
          ∧ ∃ l, entityTargetIds e group = Some l ∧ mm' = <[src := l]> mm)).
Proof.
  unfold addMatchingMultiMatched. intros Hrun.
  destruct (entityId (RawMatchList (Source e)) currentId) as [src|]; [|discriminate].
  cbn [mbind option_bind] in Hrun. exists src. split; [reflexivity|].
  destruct (Matches prev !! src) as [t|] eqn:Eprev.
  - injection Hrun as <- <-. left. eauto.
  - destruct (firstSeenLoop e src group (0%Q, mfs, [])) as [[[best mfs1] ids1]|] eqn:Eloop;
      [|discriminate].
    cbn [mbind option_bind] in Hrun. injection Hrun as <- <-.
    destruct (firstSeenLoop_ids _ _ _ _ _ Eloop) as (l & Hl & Hacc).
    cbn in Hacc. subst ids1. right. split; [reflexivity|]. eauto.
Qed.

Lemma groupLoop_lists (e : MatchProcessing) (prev : MatchOutputType)
  (rest : list CompareResult) :
  ∀ currentId group mm mfs mm' mfs',
  Forall (λ c, LeftId c = currentId) group →
  Forall (λ c, currentId ≤ LeftId c) rest →
  StronglySorted leLeft rest →
  groupLoop e prev currentId group rest (mm, mfs) = Some (mm', mfs') →
  ∀ sid l, mm' !! sid = Some l →
    mm !! sid = Some l
    ∨ ∃ z, (z = currentId ∨ z ∈ map LeftId rest)
           ∧ entityId (RawMatchList (Source e)) z = Some sid
           ∧ Matches prev !! sid = None
           ∧ entityTargetIds e (candidatesOf z (group ++ rest)) = Some l.
Proof.
  induction rest as [|r rest IH];
    intros currentId group mm mfs mm' mfs' Hgroup Hge Hsorted Hrun sid l Hlook;
    cbn [groupLoop] in Hrun.
  - destruct (addMatchingMultiMatched_lists _ _ _ _ _ _ _ _ Hrun)
      as (src & Hsrc & [[_ ->] | (Hprev & l0 & Hl0 & ->)]); [by left|].
    destruct (decide (src = sid)) as [<- | Hne].
    + rewrite lookup_insert_eq in Hlook. injection Hlook as <-.
      right. exists currentId. split; [by left|]. split; [exact Hsrc|].
      split; [exact Hprev|].
      rewrite app_nil_r, candidatesOf_all by exact Hgroup. exact Hl0.
    + rewrite lookup_insert_ne in Hlook by exact Hne. by left.
  - apply Forall_cons in Hge as [Hr Hge].
    apply StronglySorted_inv in Hsorted as [Hsorted Hall].
    destruct (LeftId r =? currentId) eqn:Eid.
    + apply Z.eqb_eq in Eid.
      destruct (IH currentId (group ++ [r]) mm mfs mm' mfs') with (sid := sid) (l := l)
        as [Hold | (z & Hz & Hsid & Hprev & Hl)]; auto.
      { apply Forall_app. split; [exact Hgroup|]. constructor; [exact Eid | constructor]. }
      right. exists z. split.
      * destruct Hz as [-> | Hz]; [by left|]. right. cbn [map]. by right.
      * split; [exact Hsid|]. split; [exact Hprev|]. rewrite <- app_assoc in Hl. exact Hl.
    + apply Z.eqb_neq in Eid.
      destruct (addMatchingMultiMatched e prev currentId group (mm, mfs))
        as [[mm1 mfs1]|] eqn:Eadd; [|discriminate].
      cbn [mbind option_bind] in Hrun.
      assert (Hlater : Forall (λ c, LeftId r ≤ LeftId c) rest).
      { eapply Forall_impl; [exact Hall|]. simpl. auto. }
      destruct (IH (LeftId r) [r] mm1 mfs1 mm' mfs') with (sid := sid) (l := l)
        as [Hold | (z & Hz & Hsid & Hprev & Hl)]; auto.
      * destruct (addMatchingMultiMatched_lists _ _ _ _ _ _ _ _ Eadd)
          as (src & Hsrc & [[_ ->] | (Hprev & l0 & Hl0 & ->)]); [by left|].
        destruct (decide (src = sid)) as [<- | Hne].
        -- rewrite lookup_insert_eq in Hold. injection Hold as <-.
           right. exists currentId. split; [by left|]. split; [exact Hsrc|].
           split; [exact Hprev|].
           rewrite candidatesOf_app, (candidatesOf_all _ group Hgroup).
           rewrite (candidatesOf_none currentId (r :: rest)), app_nil_r; [exact Hl0|].
           constructor; [exact Eid|].
           eapply Forall_impl; [exact Hlater|]. simpl. intros. lia.
        -- rewrite lookup_insert_ne in Hold by exact Hne. by left.
      * right. exists z. split.
        -- right. cbn [map]. destruct Hz as [-> | Hz]; [left | by right].
        -- split; [exact Hsid|]. split; [exact Hprev|].
           rewrite candidatesOf_app, (candidatesOf_none z group); [exact Hl|].
           assert (Hzr : LeftId r ≤ z).
           { destruct Hz as [-> | Hz]; [lia|].
             apply list_elem_of_fmap in Hz as (c & -> & Hc).
             rewrite Forall_forall in Hlater. auto. }
           eapply Forall_impl; [exact Hgroup|]. simpl. intros. lia.
Qed.

Section MultiMatchedLists.
Context `{MapRange}.

(** X20 ([genMultiMatchedMap] of package [entities]).  For a result list
    ordered by source index, every key of the multi-matched map is the
    entity id of a source of the list that is not a key of the previous
    run's matches, and the list under it holds the entity ids of all the
    targets paired with that source, in the order of the result list;
    the blocking of conflicting picks leaves these lists as they are. *)
Theorem genMultiMatchedMap_lists (results : list CompareResult) (e : MatchProcessing)
  (prevMatches : MatchOutputType) (multiMatched : gmap string (list string))
  (matchedByFirstSeenFinal : gmap string string) :
  StronglySorted leLeft results →
  genMultiMatchedMap results e prevMatches = Some (multiMatched, matchedByFirstSeenFinal) →
  ∀ sid l, multiMatched !! sid = Some l →
    Matches prevMatches !! sid = None
    ∧ ∃ z, z ∈ map LeftId results
           ∧ entityId (RawMatchList (Source e)) z = Some sid
           ∧ entityTargetIds e (candidatesOf z results) = Some l.
Proof.
  intros Hsorted Hrun sid l Hlook.
  unfold genMultiMatchedMap, genMatchedByFirstSeen in Hrun.
  destruct (printMultiMatchedSample results e); [|discriminate].
  cbn [mbind option_bind] in Hrun.
  destruct results as [|first rest].
  { injection Hrun as <- <-. rewrite lookup_empty in Hlook. discriminate. }
  destruct (groupLoop e prevMatches (LeftId first) [first] rest (∅, ∅))
    as [[mm mfs]|] eqn:Eloop; [|discriminate].
  cbn [mbind option_bind] in Hrun. injection Hrun as <- <-.
  apply StronglySorted_inv in Hsorted as [Hsorted Hall].
  destruct (groupLoop_lists e prevMatches rest (LeftId first) [first] ∅ ∅ mm mfs)
    with (sid := sid) (l := l) as [Hold | (z & Hz & Hsid & Hprev & Hl)];
    [repeat constructor | exact Hall | exact Hsorted | exact Eloop | exact Hlook | |].
  - rewrite lookup_empty in Hold. discriminate.
  - split; [exact Hprev|]. exists z. split; [|auto]. cbn [map].
    destruct Hz as [-> | Hz]; [left | by right].
Qed.

End MultiMatchedLists.

Lemma genMultiMatchedMap_lists_witness :
  StronglySorted leLeft conflictResults
  ∧ fst <$> genMultiMatchedMap (H0 := listRange) conflictResults conflictContext emptyOutput
    = Some conflictMulti
  ∧ ∃ z, z ∈ map LeftId conflictResults
         ∧ entityId (RawMatchList (Source conflictContext)) z = Some "S3"
         ∧ entityTargetIds conflictContext (candidatesOf z conflictResults)
           = Some ["T3"; "T4"].
Proof.
  assert (Hs : StronglySorted leLeft conflictResults) by sorted_by_left.
  destruct (genMultiMatchedMap (H0 := listRange) conflictResults conflictContext emptyOutput)
    as [[mm final]|] eqn:Hrun; [|vm_compute in Hrun; discriminate].
  assert (Hmm : mm = conflictMulti).
  { vm_compute in Hrun. injection Hrun as <- _. vm_compute. reflexivity. }
  split; [exact Hs|]. split; [cbn; by rewrite Hmm|].
  refine (proj2 (genMultiMatchedMap_lists (H := listRange) _ _ _ _ _ Hs Hrun
                   "S3" ["T3"; "T4"] _)).
  rewrite Hmm. vm_compute. reflexivity.
Defined.

(** ** The entity map of a deployment ([pkg/deploy/entitymap.go]) *)

Section EntityMapFacts.
Context {Coordinate : Type} `{Countable Coordinate}.
Context {ResolvedEntity : Type}.
Variable CoordinateType : Coordinate → string.
Variable Skip : ResolvedEntity → bool.
Variable EntityName : ResolvedEntity → string.

Lemma newEntityMap_known (apis : list string) :
  ∀ (known : gmap string (gset string)) (k : string) (names : gset string),
  fold_left (λ known id, <[id := ∅]> known) apis known !! k = Some names →
  names = ∅ ∨ known !! k = Some names.
Proof.
  induction apis as [|a apis IH]; intros known k names Hk; cbn [fold_left] in Hk;
    [by right|].
  destruct (IH _ _ _ Hk) as [-> | Hin]; [by left|].
  destruct (decide (a = k)) as [<- | Hne].
  - rewrite lookup_insert_eq in Hin. injection Hin as <-. by left.
  - rewrite lookup_insert_ne in Hin by exact Hne. by right.
Qed.

Lemma contains_put (r : Deploy.entityMap) (c : Coordinate) (e : ResolvedEntity)
  (entityType entityName : string) :
  Deploy.contains (Deploy.put CoordinateType Skip EntityName r c e) entityType entityName
    = true ↔
  Deploy.contains r entityType entityName = true
  ∨ (Skip e = false ∧ EntityName e ≠ "" ∧ CoordinateType c = entityType
     ∧ EntityName e = entityName).
Proof.
  unfold Deploy.contains, Deploy.put. rewrite !bool_decide_eq_true.
  destruct (Skip e) eqn:Eskip; cbn [orb Deploy.knownEntityNames].
  { split; [auto | intros [Hin | (Habs & _)]; [exact Hin | discriminate]]. }
  destruct (String.eqb (EntityName e) "") eqn:Ename; cbn [Deploy.knownEntityNames].
  { apply String.eqb_eq in Ename.
    split; [auto | intros [Hin | (_ & Hne & _)]; [exact Hin | contradiction]]. }
  apply String.eqb_neq in Ename.
  destruct (decide (CoordinateType c = entityType)) as [<- | Hty].
  - rewrite lookup_insert_eq. cbn [from_option id]. rewrite elem_of_union, elem_of_singleton.
    destruct (Deploy.knownEntityNames r !! CoordinateType c) as [names|] eqn:Ek.
    + rewrite Ek. cbn [from_option id]. split.
      * intros [-> | Hin]; [right; auto | by left].
      * intros [Hin | (_ & _ & _ & <-)]; [by right | by left].
    + rewrite lookup_insert_eq. cbn [from_option id]. split.
      * intros [-> | Hin]; [right; auto | set_solver].
      * intros [Hin | (_ & _ & _ & <-)]; [set_solver | by left].
  - rewrite lookup_insert_ne by exact Hty.
    destruct (Deploy.knownEntityNames r !! CoordinateType c) as [names|] eqn:Ek.
    + split; [auto | intros [Hin | (_ & _ & Habs & _)]; [exact Hin | contradiction]].
    + rewrite lookup_insert_ne by exact Hty.
      split; [auto | intros [Hin | (_ & _ & Habs & _)]; [exact Hin | contradiction]].
Qed.

Lemma get_put (r : Deploy.entityMap) (c c' : Coordinate) (e : ResolvedEntity) :
  Deploy.get (Deploy.put CoordinateType Skip EntityName r c e) !! c'
    = if decide (c = c') then Some e else Deploy.get r !! c'.
Proof.
  unfold Deploy.get, Deploy.put.
  destruct (Skip e || String.eqb (EntityName e) ""); cbn [Deploy.resolvedEntities];
    (destruct (decide (c = c')) as [<- | Hne];
       [apply lookup_insert_eq | by rewrite lookup_insert_ne]).
Qed.

(** X21 ([newEntityMap], [put], [get], [contains]).  After any sequence of
    [put]s on a new entity map, [contains] answers true for a type and a
    name exactly when an entity that is not marked to be skipped and has
    that, non-empty, name was put under a coordinate of that type; [get]
    holds for every coordinate the entity of its last [put], skipped or
    not.  The APIs the map was created for make no name known. *)
Theorem entityMap_after_puts (apis : list string)
  (puts : list (Coordinate * ResolvedEntity)) :
  let r := fold_left (λ r p, Deploy.put CoordinateType Skip EntityName r p.1 p.2) puts
             (Deploy.newEntityMap apis) in
  (∀ entityType entityName,
     Deploy.contains r entityType entityName = true ↔
     ∃ c e, (c, e) ∈ puts ∧ Skip e = false ∧ EntityName e ≠ ""
            ∧ CoordinateType c = entityType ∧ EntityName e = entityName)
  ∧ ∀ c, Deploy.get r !! c
         = snd <$> last (List.filter (λ p, bool_decide (p.1 = c)) puts).
Proof.
  cbn zeta.
  assert (Hgen : ∀ puts r0,
    let r := fold_left (λ r p, Deploy.put CoordinateType Skip EntityName r p.1 p.2)
               puts r0 in
    (∀ entityType entityName,
       Deploy.contains r entityType entityName = true ↔
       Deploy.contains r0 entityType entityName = true
       ∨ ∃ c e, (c, e) ∈ puts ∧ Skip e = false ∧ EntityName e ≠ ""
                ∧ CoordinateType c = entityType ∧ EntityName e = entityName)
    ∧ ∀ c, Deploy.get r !! c
           = match last (List.filter (λ p, bool_decide (p.1 = c)) puts) with
             | Some p => Some p.2
             | None => Deploy.get r0 !! c
             end).
  { clear puts. induction puts as [|[c0 e0] puts IH]; intros r0; cbn zeta; cbn [fold_left].
    - split; [|reflexivity]. intros ty n. split; [auto|].
      intros [Hin | (c & e & Hin & _)]; [exact Hin | inversion Hin].
    - destruct (IH (Deploy.put CoordinateType Skip EntityName r0 c0 e0)) as [Hc Hg].
      cbn zeta in Hc, Hg. cbn [fst snd]. split.
      + intros ty n. rewrite Hc, contains_put. split.
        * intros [[Hin | Hnew] | (c & e & Hin & Hrest)].
          -- by left.
          -- right. exists c0, e0. split; [left | exact Hnew].
          -- right. exists c, e. split; [by right | exact Hrest].
        * intros [Hin | (c & e & Hin & Hrest)]; [left; by left|].
          apply elem_of_cons in Hin as [[= -> ->] | Hin].
          -- left. by right.
          -- right. exists c, e. auto.
      + intros c. rewrite Hg, get_put. cbn [List.filter fst].
        destruct (decide (c0 = c)) as [-> | Hne].
        * rewrite bool_decide_eq_true_2 by reflexivity.
          destruct (List.filter (λ p, bool_decide (p.1 = c)) puts) as [|p ps] eqn:Ef;
            [reflexivity|].
          change (last ((c, e0) :: p :: ps)) with (last (p :: ps)).
          destruct (last (p :: ps)) eqn:El; [reflexivity|].
          apply last_None in El. discriminate.
        * rewrite bool_decide_eq_false_2 by exact Hne. reflexivity. }
  destruct (Hgen puts (Deploy.newEntityMap apis)) as [Hc Hg]. cbn zeta in Hc, Hg.
  split.
  - intros ty n. rewrite Hc. split; [|auto].
    intros [Hin | Hnew]; [|exact Hnew]. exfalso.
    unfold Deploy.contains, Deploy.newEntityMap in Hin.
    cbn [Deploy.knownEntityNames] in Hin. apply bool_decide_eq_true in Hin.
    destruct (fold_left (λ known id, <[id := ∅]> known) apis ∅ !! ty) as [names|] eqn:Ek;
      cbn [from_option id] in Hin; [|set_solver].
    destruct (newEntityMap_known apis ∅ ty names Ek) as [-> | Habs]; [set_solver|].
    rewrite lookup_empty in Habs. discriminate.
  - intros c. rewrite Hg.
    destruct (last (List.filter (λ p, bool_decide (p.1 = c)) puts)); [reflexivity|].
    unfold Deploy.get, Deploy.newEntityMap. cbn. apply lookup_empty.
Qed.

End EntityMapFacts.

(** ** The pick by first seen among equally recent candidates *)

(** X22 (the closure [addMatchingMultiMatched] of [genMultiMatchedMap],
    package [entities]).  For a source that is not a key of the previous
    run's matches, the pick by first seen is the first candidate, in the
    order of the result list, whose [firstSeenTms] is the highest of the
    group: every candidate before it is strictly older, none after it is
    more recent.  When no candidate has a positive [firstSeenTms] the map
    of picks is left as it was. *)
Theorem first_seen_pick_is_first_of_most_recent (e : MatchProcessing)
  (prevMatches : MatchOutputType) (currentId : Z) (group : list CompareResult)
  (mm mm' : gmap string (list string)) (mfs mfs' : gmap string string) (src : string) :
  addMatchingMultiMatched e prevMatches currentId group (mm, mfs) = Some (mm', mfs') →
  entityId (RawMatchList (Source e)) currentId = Some src →
  Matches prevMatches !! src = None →
  (mfs' = mfs
   ∧ ∀ c' q', c' ∈ group →
              firstSeenTms (RawMatchList (Target e)) (RightId c') = Some q' →
              (q' <= 0)%Q)
  ∨ ∃ pre c post t q,
      group = pre ++ c :: post
      ∧ entityId (RawMatchList (Target e)) (RightId c) = Some t
      ∧ firstSeenTms (RawMatchList (Target e)) (RightId c) = Some q
      ∧ (0 < q)%Q
      ∧ mfs' = <[src := t]> mfs
      ∧ (∀ c' q', c' ∈ pre →
                  firstSeenTms (RawMatchList (Target e)) (RightId c') = Some q' →
                  (q' < q)%Q)
      ∧ (∀ c' q', c' ∈ post →
                  firstSeenTms (RawMatchList (Target e)) (RightId c') = Some q' →
                  (q' <= q)%Q).
Proof.
  unfold addMatchingMultiMatched. intros Hrun Hsrc Hprev.
  rewrite Hsrc in Hrun. cbn [mbind option_bind] in Hrun. rewrite Hprev in Hrun.
  destruct (firstSeenLoop e src group (0%Q, mfs, [])) as [[[best mfs1] ids1]|] eqn:Eloop;
    [|discriminate].
  cbn [mbind option_bind] in Hrun. injection Hrun as <- <-.
  destruct (firstSeenLoop_first_of_most_recent _ _ _ _ _ _ _ _ _ Eloop)
    as [(-> & -> & Hall) | (pre & c & post & t & Hg & Ht & Hf & Hlt & Hm & Hpre & Hpost)].
  - left. auto.
  - right. exists pre, c, post, t, best. auto 10.
Qed.

Lemma first_seen_pick_is_first_of_most_recent_witness :
  addMatchingMultiMatched conflictContext emptyOutput 2
    [mkResult 2 2 10; mkResult 2 3 10] (∅, ∅)
    = Some ({[ "S3" := ["T3"; "T4"] ]}, {[ "S3" := "T3" ]})
  ∧ entityId (RawMatchList (Source conflictContext)) 2 = Some "S3"
  ∧ ∃ pre c post t q,
      [mkResult 2 2 10; mkResult 2 3 10] = pre ++ c :: post
      ∧ entityId (RawMatchList (Target conflictContext)) (RightId c) = Some t
      ∧ firstSeenTms (RawMatchList (Target conflictContext)) (RightId c) = Some q
      ∧ (0 < q)%Q
      ∧ ({[ "S3" := "T3" ]} : gmap string string) = <["S3" := t]> ∅.
Proof.
  assert (Hrun : addMatchingMultiMatched conflictContext emptyOutput 2
                   [mkResult 2 2 10; mkResult 2 3 10] (∅, ∅)
                 = Some ({[ "S3" := ["T3"; "T4"] ]}, {[ "S3" := "T3" ]}))
    by (vm_compute; reflexivity).
  assert (Hsrc : entityId (RawMatchList (Source conflictContext)) 2 = Some "S3")
    by reflexivity.
  split; [exact Hrun|]. split; [exact Hsrc|].
  destruct (first_seen_pick_is_first_of_most_recent _ _ _ _ _ _ _ _ _ Hrun Hsrc)
    as [[Heq _] | (pre & c & post & t & q & Hg & Ht & Hq & Hpos & Heq & _)];
    [reflexivity | |].
  - exfalso. apply (f_equal (λ m : gmap string string, m !! "S3")) in Heq.
    vm_compute in Heq. discriminate Heq.
  - exists pre, c, post, t, q. auto.
Defined.

(** * The output sets, source by source *)

Lemma assign_origin (st : gmap string string * gmap string string) (s t a b : string) :
  (assign st (s, t)).1 !! a = Some b → st.1 !! a = Some b ∨ (a = s ∧ b = t).
Proof.
  destruct st as [m rev]. unfold assign, isAlreadyMatched. cbn [fst].
  destruct (m !! s) as [t0|] eqn:Em; [by left|].
  destruct (rev !! t) as [s0|] eqn:Er; [by left|]. cbn [fst].
  destruct (decide (s = a)) as [<- | Hne].
  - rewrite lookup_insert_eq. intros [= <-]. by right.
  - rewrite lookup_insert_ne by exact Hne. by left.
Qed.

Lemma fold_assign_origin (l : list (string * string)) :
  ∀ st a b, (fold_left assign l st).1 !! a = Some b →
            st.1 !! a = Some b ∨ (a, b) ∈ l.
Proof.
  induction l as [|[s t] l IH]; intros st a b Hab; cbn [fold_left] in Hab; [by left|].
  destruct (IH _ _ _ Hab) as [Hold | Hin]; [|right; by right].
  destruct (assign_origin _ _ _ _ _ Hold) as [Hst | [-> ->]]; [by left|].
  right. left.
Qed.

Lemma assignCurrent_origin (e : MatchProcessing) (l : list (Z * Z)) :
  ∀ st st' a b, assignCurrent e l st = Some st' → st'.1 !! a = Some b →
  st.1 !! a = Some b
  ∨ ∃ s t, (s, t) ∈ l ∧ entityId (RawMatchList (Source e)) s = Some a
           ∧ entityId (RawMatchList (Target e)) t = Some b.
Proof.
  induction l as [|[s0 t0] l IH]; intros st st' a b Hrun Hab; cbn [assignCurrent] in Hrun.
  - injection Hrun as <-. by left.
  - destruct (entityId (RawMatchList (Source e)) s0) as [a0|] eqn:Ea;
      cbn [mbind option_bind] in Hrun; [|discriminate].
    destruct (entityId (RawMatchList (Target e)) t0) as [b0|] eqn:Eb;
      cbn [mbind option_bind] in Hrun; [|discriminate].
    destruct (IH _ _ _ _ Hrun Hab) as [Hold | (s & t & Hin & Hs & Ht)].
    + destruct (assign_origin _ _ _ _ _ Hold) as [Hst | [-> ->]]; [by left|].
      right. exists s0, t0. split; [left | auto].
    + right. exists s, t. split; [by right | auto].
Qed.

Lemma assignCurrent_defined (e : MatchProcessing) (l : list (Z * Z)) :
  ∀ st st', assignCurrent e l st = Some st' →
  ∀ s t, (s, t) ∈ l →
         is_Some (entityId (RawMatchList (Source e)) s)
         ∧ is_Some (entityId (RawMatchList (Target e)) t).
Proof.
  induction l as [|[s0 t0] l IH]; intros st st' Hrun s t Hin; [inversion Hin|].
  cbn [assignCurrent] in Hrun.
  destruct (entityId (RawMatchList (Source e)) s0) as [a0|] eqn:Ea;
    cbn [mbind option_bind] in Hrun; [|discriminate].
  destruct (entityId (RawMatchList (Target e)) t0) as [b0|] eqn:Eb;
    cbn [mbind option_bind] in Hrun; [|discriminate].
  apply elem_of_cons in Hin as [[= -> ->] | Hin]; [|eauto].
  rewrite Ea, Eb. eauto.
Qed.

(** After the entries of [l] were offered, each of them has its source
    assigned or its target claimed. *)
Lemma fold_assign_covers (l : list (string * string)) :
  ∀ st s t, (s, t) ∈ l →
  is_Some ((fold_left assign l st).1 !! s) ∨ is_Some ((fold_left assign l st).2 !! t).
Proof.
  induction l as [|[s0 t0] l IH]; intros st s t Hin; [inversion Hin|].
  cbn [fold_left]. apply elem_of_cons in Hin as [[= -> ->] | Hin]; [|by apply IH].
  destruct (fold_assign_mono l (assign st (s0, t0))) as [Hm Hr].
  assert (Hnow : is_Some ((assign st (s0, t0)).1 !! s0)
                 ∨ is_Some ((assign st (s0, t0)).2 !! t0)).
  { destruct st as [m rev]. unfold assign, isAlreadyMatched. cbn [fst snd].
    destruct (m !! s0) as [t1|] eqn:Em; [left; cbn; rewrite Em; eauto|].
    destruct (rev !! t0) as [s1|] eqn:Er; [right; cbn; rewrite Er; eauto|].
    left. cbn. rewrite lookup_insert_eq. eauto. }
  destruct Hnow as [[x Hx] | [x Hx]]; [left | right];
    exists x; eapply lookup_weaken; eauto.
Qed.

(** A source that is given a pick is given a list of candidates too. *)
Lemma addMatchingMultiMatched_pick_keys (e : MatchProcessing) (prev : MatchOutputType)
  (currentId : Z) (group : list CompareResult)
  (mm mm' : gmap string (list string)) (mfs mfs' : gmap string string) :
  addMatchingMultiMatched e prev currentId group (mm, mfs) = Some (mm', mfs') →
  (∀ s, is_Some (mfs !! s) → is_Some (mm !! s)) →
  ∀ s, is_Some (mfs' !! s) → is_Some (mm' !! s).
Proof.
  unfold addMatchingMultiMatched. intros Hrun Hsub s Hs.
  destruct (entityId (RawMatchList (Source e)) currentId) as [src|]; [|discriminate].
  cbn [mbind option_bind] in Hrun.
  destruct (Matches prev !! src); [injection Hrun as <- <-; auto|].
  destruct (firstSeenLoop e src group (0%Q, mfs, [])) as [[[best mfs1] ids1]|] eqn:Eloop;
    [|discriminate].
  cbn [mbind option_bind] in Hrun. injection Hrun as <- <-.
  destruct (decide (src = s)) as [<- | Hne]; [rewrite lookup_insert_eq; eauto|].
  rewrite lookup_insert_ne by exact Hne. apply Hsub.
  destruct (firstSeenLoop_spec _ _ _ _ _ _ _ _ _ Eloop)
    as (_ & _ & [[-> _] | (c & t' & _ & _ & _ & _ & ->)]); [exact Hs|].
  by rewrite lookup_insert_ne in Hs.
Qed.

Lemma groupLoop_pick_keys (e : MatchProcessing) (prev : MatchOutputType)
  (rest : list CompareResult) :
  ∀ currentId group mm mfs mm' mfs',
  groupLoop e prev currentId group rest (mm, mfs) = Some (mm', mfs') →
  (∀ s, is_Some (mfs !! s) → is_Some (mm !! s)) →
  ∀ s, is_Some (mfs' !! s) → is_Some (mm' !! s).
Proof.
  induction rest as [|r rest IH]; intros currentId group mm mfs mm' mfs' Hrun Hsub;
    cbn [groupLoop] in Hrun.
  - eapply addMatchingMultiMatched_pick_keys; eauto.
  - destruct (LeftId r =? currentId); [eapply IH; eauto|].
    destruct (addMatchingMultiMatched e prev currentId group (mm, mfs))
      as [[mm1 mfs1]|] eqn:Eadd; [|discriminate].
    cbn [mbind option_bind] in Hrun.
    eapply IH; [exact Hrun|]. eapply addMatchingMultiMatched_pick_keys; eauto.
Qed.

Section OutputSets.
Context `{GoSort} `{MapRange}.

Lemma genMultiMatchedMap_pick_keys (results : list CompareResult) (e : MatchProcessing)
  (prev : MatchOutputType) (mm : gmap string (list string)) (final : gmap string string) :
  genMultiMatchedMap results e prev = Some (mm, final) →
  ∀ s, is_Some (final !! s) → is_Some (mm !! s).
Proof.
  unfold genMultiMatchedMap, genMatchedByFirstSeen. intros Hrun s [t Hs].
  destruct (printMultiMatchedSample results e); [|discriminate].
  cbn [mbind option_bind] in Hrun.
  destruct results as [|first rest].
  { injection Hrun as <- <-. rewrite lookup_empty in Hs. discriminate. }
  destruct (groupLoop e prev (LeftId first) [first] rest (∅, ∅))
    as [[mm1 picks]|] eqn:Eloop; [|discriminate].
  cbn [mbind option_bind] in Hrun. injection Hrun as <- <-.
  apply blockConflicts_spec in Hs as [Hpick _].
  eapply groupLoop_pick_keys; [exact Eloop | | eauto].
  intros s' [x Hx]. rewrite lookup_empty in Hx. discriminate.
Qed.

(** Where the entries of [Matches] come from, and what becomes of the
    matches of the current and of the previous run. *)
Lemma genOutputPayload_matches (e : MatchProcessing) (remaining : IndexCompareResultList)
  (matched : gmap Z Z) (prev out : MatchOutputType) :
  genOutputPayload e remaining matched prev = Some out →
  (∀ a b, Matches out !! a = Some b →
     (∃ s t, matched !! s = Some t
             ∧ entityId (RawMatchList (Source e)) s = Some a
             ∧ entityId (RawMatchList (Target e)) t = Some b)
     ∨ Matches prev !! a = Some b
     ∨ (Matches prev !! a = None ∧ is_Some (MultiMatched out !! a)))
  ∧ (∀ a t, Matches prev !! a = Some t →
       is_Some (Matches out !! a) ∨ ∃ s', s' ≠ a ∧ Matches out !! s' = Some t)
  ∧ (distinctIds (entityId (RawMatchList (Source e))) →
     distinctIds (entityId (RawMatchList (Target e))) →
     oneToOne matched →
     ∀ s t, matched !! s = Some t →
       ∃ a b, entityId (RawMatchList (Source e)) s = Some a
              ∧ entityId (RawMatchList (Target e)) t = Some b
              ∧ Matches out !! a = Some b).
Proof.
  intros Hrun.
  destruct (genOutputPayload_sets _ _ _ _ _ Hrun) as [Hmulti _].
  unfold genOutputPayload in Hrun.
  destruct (genMultiMatchedMap (CompareResults remaining) e prev)
    as [[multi mfs]|] eqn:Emulti; [|discriminate].
  cbn [mbind option_bind] in Hrun.
  destruct (PrepareRemainingMatch_raw false true e remaining) as [HrawS HrawT].
  destruct (PrepareRemainingMatch false true e remaining) as [e' rem'] eqn:Eprep.
  cbn [fst] in HrawS, HrawT.
  unfold genMatches in Hrun.
  destruct (assignCurrent e' (range_of 2%nat matched) (∅, ∅)) as [st1|] eqn:E1;
    [|discriminate].
  cbn [mbind option_bind fst] in Hrun.
  set (st2 := fold_left assign (range_of 3%nat (Matches prev)) st1) in *.
  set (st3 := fold_left assign (range_of 4%nat mfs) st2) in *.
  destruct st3 as [m rev] eqn:E3.
  destruct (currentRemaining (Source e')) as [current|]; [|discriminate].
  cbn [mbind option_bind] in Hrun.
  destruct (unmatchedLoop e' prev current []) as [unMatched|]; [|discriminate].
  cbn [mbind option_bind] in Hrun.
  injection Hrun as <-. cbn [Matches MultiMatched] in *.
  assert (Hm : m = (fold_left assign (range_of 4%nat mfs) st2).1)
    by (fold st3; rewrite E3; reflexivity).
  destruct (fold_assign_mono (range_of 4%nat mfs) st2) as [H23 _].
  fold st3 in H23. rewrite E3 in H23. cbn [fst] in H23.
  destruct (fold_assign_mono (range_of 3%nat (Matches prev)) st1) as [H12 _].
  fold st2 in H12.
  assert (Hinv2 : inverseOf st2).
  { apply fold_assign_inverse.
    eapply assignCurrent_inverse; [apply inverseOf_empty | exact E1]. }
  split; [|split].
  - intros a b Hab. rewrite Hm in Hab.
    destruct (fold_assign_origin _ _ _ _ Hab) as [H2 | Hin].
    + destruct (fold_assign_origin _ _ _ _ H2) as [H1 | Hin].
      * destruct (assignCurrent_origin _ _ _ _ _ _ E1 H1)
          as [Habs | (s & t & Hin & Hs & Ht)].
        { cbn in Habs. rewrite lookup_empty in Habs. discriminate. }
        left. exists s, t. rewrite HrawS in Hs. rewrite HrawT in Ht.
        split; [by apply (range_of_lookup 2)|auto].
      * right. left. by apply (range_of_lookup 3).
    + right. right. apply (range_of_lookup 4) in Hin.
      assert (Hkey : is_Some (multi !! a)).
      { eapply genMultiMatchedMap_pick_keys; [exact Emulti | eauto]. }
      split; [|exact Hkey]. apply Hmulti in Hkey as [Hp _]. exact Hp.
  - intros a t Hat.
    destruct (fold_assign_covers (range_of 3%nat (Matches prev)) st1 a t)
      as [[x Hx] | [s' Hs']]; [by apply (range_of_lookup 3) | |].
    + left. exists x. eapply lookup_weaken; [exact Hx | exact H23].
    + fold st2 in Hs'. apply Hinv2 in Hs'.
      destruct (decide (s' = a)) as [-> | Hne].
      * left. exists t. eapply lookup_weaken; [exact Hs' | exact H23].
      * right. exists s'. split; [exact Hne|].
        eapply lookup_weaken; [exact Hs' | exact H23].
  - intros HdS HdT Hone s t Hst.
    destruct (assignCurrent_takes_all e' (range_of 2%nat matched) (∅, ∅) st1 E1)
      with (s := s) (t := t) as (a & b & Ha & Hb & Hab).
    + apply range_of_keys_NoDup.
    + intros s1 t1 s2 t2 H1 H2 Hne.
      destruct (assignCurrent_defined _ _ _ _ E1 _ _ H1) as [[a1 Ha1] [b1 Hb1]].
      apply (range_of_lookup 2) in H1, H2.
      rewrite HrawS, HrawT in *. split.
      * intros Heq. apply Hne. apply (HdS s1 s2 a1); congruence.
      * intros Heq. apply Hne. assert (t1 = t2) by (apply (HdT t1 t2 b1); congruence).
        subst t2. by apply (Hone s1 s2 t1).
    + intros. cbn. rewrite !lookup_empty. auto.
    + by apply range_of_lookup.
    + rewrite HrawS in Ha. rewrite HrawT in Hb.
      exists a, b. split; [exact Ha|]. split; [exact Hb|].
      eapply lookup_weaken; [|exact H23]. eapply lookup_weaken; [|exact H12]. exact Hab.
Qed.

Lemma entityId_index (items : list RawItem) (i : Z) (id : string) :
  entityId items i = Some id → is_Some (index items i).
Proof.
  unfold entityId. destruct (index items i); [eauto | discriminate].
Qed.

(** The output sets of package [entities], source by source. *)
Lemma entities_source_ids (e : MatchProcessing) (remaining : IndexCompareResultList)
  (matched : gmap Z Z) (prev out : MatchOutputType) :
  sourcesAccounted e matched →
  genOutputPayload e remaining matched prev = Some out →
  distinctIds (entityId (RawMatchList (Source e))) →
  distinctIds (entityId (RawMatchList (Target e))) →
  ∀ i id, entityId (RawMatchList (Source e)) i = Some id →
    (id ∈ UnMatched out → Matches out !! id = None ∧ MultiMatched out !! id = None)
    ∧ (is_Some (Matches out !! id) ∨ is_Some (MultiMatched out !! id)
       ∨ id ∈ UnMatched out
       ∨ ∃ t s', Matches prev !! id = Some t ∧ s' ≠ id ∧ Matches out !! s' = Some t)
    ∧ (is_Some (matched !! i) → is_Some (Matches out !! id))
    ∧ (matched !! i = None → Matches prev !! id = None →
       is_Some (Matches out !! id) → is_Some (MultiMatched out !! id))
    ∧ (is_Some (Matches prev !! id) →
       MultiMatched out !! id = None ∧ ¬ id ∈ UnMatched out).
Proof.
  intros (Hone & Hcov & Hdisj) Hrun HdS HdT i id Hid.
  destruct (genOutputPayload_sets _ _ _ _ _ Hrun) as [Hmulti Hun].
  destruct (genOutputPayload_matches _ _ _ _ _ Hrun) as (Horigin & Hprev & Hkept).
  specialize (Hkept HdS HdT Hone).
  assert (Hcommitted : is_Some (matched !! i) → is_Some (Matches out !! id)).
  { intros [t Ht]. destruct (Hkept i t Ht) as (a & b & Ha & _ & Hab).
    assert (a = id) by congruence. subst a. eauto. }
  assert (Hnone : ∀ x : option (list string), ¬ is_Some x → x = None).
  { intros [l|] Hx; [exfalso; apply Hx; eauto | reflexivity]. }
  split; [|split; [|split; [exact Hcommitted|split]]].
  - intros Hin. apply Hun in Hin as (Hp & j & Hj & Hno & Hjid).
    assert (j = i) by (by apply (HdS j i id)). subst j.
    assert (Hmm : MultiMatched out !! id = None).
    { apply Hnone. intros Hs. apply Hmulti in Hs as (_ & z & Hz & Hzid).
      assert (z = i) by (by apply (HdS z i id)). subst z. contradiction. }
    split; [|exact Hmm].
    destruct (Matches out !! id) as [b|] eqn:Eb; [|reflexivity]. exfalso.
    destruct (Horigin id b Eb) as [(s & t & Hst & Hs & _) | [Hpb | [_ Hs]]].
    + assert (s = i) by (by apply (HdS s i id)). subst s.
      apply (Hdisj i); eauto.
    + congruence.
    + rewrite Hmm in Hs. destruct Hs as [? ?]. discriminate.
  - destruct (Hcov i (entityId_index _ _ _ Hid)) as [Hc | Hr]; [left; auto|].
    destruct (Matches prev !! id) as [t|] eqn:Ep.
    + destruct (Hprev id t Ep) as [Hs | (s' & Hne & Hs')]; [by left|].
      right. right. right. exists t, s'. auto.
    + destruct (decide (i ∈ map LeftId (CompareResults remaining))) as [Hin | Hout].
      * right. left. apply Hmulti. eauto.
      * right. right. left. apply Hun. eauto 6.
  - intros Hnot Hp [b Hb].
    destruct (Horigin id b Hb) as [(s & t & Hst & Hs & _) | [Hpb | [_ Hs]]].
    + assert (s = i) by (by apply (HdS s i id)). subst s. congruence.
    + congruence.
    + exact Hs.
  - intros [t Ht]. split.
    + apply Hnone. intros Hs. apply Hmulti in Hs as [Hp _]. congruence.
    + rewrite Hun. intros [Hp _]. congruence.
Qed.

End OutputSets.

Lemma mapM_elem_of {A B} (f : A → option B) (l : list A) :
  ∀ k, mapM f l = Some k → ∀ y, y ∈ k ↔ ∃ x, x ∈ l ∧ f x = Some y.
Proof.
  induction l as [|x l IH]; intros k Hk y; cbn [mapM] in Hk.
  - injection Hk as <-. split; [intros Hy; inversion Hy | intros (x & Hx & _); inversion Hx].
  - destruct (f x) as [y0|] eqn:Ex; cbn [mbind option_bind] in Hk; [|discriminate].
    destruct (mapM f l) as [k0|]; cbn [mbind option_bind mret option_ret] in Hk;
      [|discriminate].
    injection Hk as <-. rewrite elem_of_cons, (IH k0 eq_refl y). split.
    + intros [-> | (x' & Hx' & Hf)]; [exists x; split; [left | exact Ex]|].
      exists x'. split; [by right | exact Hf].
    + intros (x' & Hx' & Hf). apply elem_of_cons in Hx' as [-> | Hx'].
      * left. congruence.
      * right. eauto.
Qed.

Section ConfigsSets.
Variable ConfigIdKey : string.

Lemma configs_groupLoop_keys (e : MatchProcessing) (rest : list CompareResult) :
  ∀ currentId group mm mm',
  Configs.groupLoop ConfigIdKey e currentId group rest mm = Some mm' →
  ∀ k, is_Some (mm' !! k) ↔
       is_Some (mm !! k)
       ∨ ∃ z, (z = currentId ∨ z ∈ map LeftId rest)
              ∧ Configs.configId ConfigIdKey (RawMatchList (Source e)) z = Some k.
Proof.
  induction rest as [|r rest IH]; intros currentId group mm mm' Hrun k;
    cbn [Configs.groupLoop] in Hrun.
  - destruct (configs_addMatchingMultiMatched_spec _ _ _ _ _ _ Hrun)
      as (sid & l & Hsid & _ & ->).
    destruct (decide (sid = k)) as [<- | Hne].
    + rewrite lookup_insert_eq. split; [|eauto].
      intros _. right. exists currentId. auto.
    + rewrite lookup_insert_ne by exact Hne. split; [auto|].
      intros [Hk | (z & [-> | Hz] & Hzk)]; [exact Hk | congruence | inversion Hz].
  - destruct (LeftId r =? currentId) eqn:Eid.
    + apply Z.eqb_eq in Eid. rewrite (IH _ _ _ _ Hrun k). split.
      * intros [Hk | (z & Hz & Hzk)]; [by left|]. right. exists z. split; [|exact Hzk].
        destruct Hz as [-> | Hz]; [by left|]. right. cbn [map]. by right.
      * intros [Hk | (z & Hz & Hzk)]; [by left|]. right. exists z. split; [|exact Hzk].
        destruct Hz as [-> | Hz]; [by left|].
        cbn [map] in Hz. apply elem_of_cons in Hz as [-> | Hz]; [left; exact Eid | by right].
    + destruct (Configs.addMatchingMultiMatched ConfigIdKey e currentId group mm)
        as [mm1|] eqn:Eadd; [|discriminate].
      cbn [mbind option_bind] in Hrun.
      destruct (configs_addMatchingMultiMatched_spec _ _ _ _ _ _ Eadd)
        as (sid & l & Hsid & _ & ->).
      rewrite (IH _ _ _ _ Hrun k). split.
      * intros [Hk | (z & Hz & Hzk)].
        -- destruct (decide (sid = k)) as [<- | Hne].
           ++ right. exists currentId. auto.
           ++ rewrite lookup_insert_ne in Hk by exact Hne. by left.
        -- right. exists z. split; [|exact Hzk]. right. cbn [map].
           destruct Hz as [-> | Hz]; [left | by right].
      * intros [Hk | (z & [-> | Hz] & Hzk)].
        -- left. destruct (decide (sid = k)) as [<- | Hne].
           ++ rewrite lookup_insert_eq. eauto.
           ++ by rewrite lookup_insert_ne.
        -- left. assert (sid = k) by congruence. subst k.
           rewrite lookup_insert_eq. eauto.
        -- right. exists z. split; [|exact Hzk].
           cbn [map] in Hz. apply elem_of_cons in Hz as [-> | Hz]; [by left | by right].
Qed.

Context `{GoSort} `{MapRange}.

(** The keys of the three output sets of package [configs]. *)
Lemma configs_output_keys (e : MatchProcessing) (remaining : IndexCompareResultList)
  (matched : gmap Z Z) (out : Configs.MatchOutputType) :
  Configs.genOutputPayload ConfigIdKey e remaining matched = Some out →
  (∀ id, is_Some (Configs.MultiMatched out !! id) ↔
         ∃ z, z ∈ map LeftId (CompareResults remaining)
              ∧ Configs.configId ConfigIdKey (RawMatchList (Source e)) z = Some id)
  ∧ (∀ id, id ∈ Configs.UnMatched out ↔
           ∃ i, i ∈ RemainingMatch (Source e)
                ∧ ¬ i ∈ map LeftId (CompareResults remaining)
                ∧ Configs.configId ConfigIdKey (RawMatchList (Source e)) i = Some id)
  ∧ (∀ id, is_Some (Configs.Matches out !! id) ↔
           ∃ s, is_Some (matched !! s)
                ∧ Configs.configId ConfigIdKey (RawMatchList (Source e)) s = Some id).
Proof.
  unfold Configs.genOutputPayload. intros Hrun.
  destruct (Configs.getMultiMatched ConfigIdKey (CompareResults remaining) e)
    as [multi|] eqn:Emulti; [|discriminate].
  cbn [mbind option_bind] in Hrun.
  unfold PrepareRemainingMatch in Hrun. cbn [andb] in Hrun.
  set (e' := setTarget _ _) in Hrun. cbv zeta in Hrun.
  assert (Hcur : currentRemaining (Source e') =
    Some (List.filter
            (λ x, negb (bool_decide
                          (x ∈ map getLeftId (sort_by ByLeft (CompareResults remaining)))))
            (RemainingMatch (Source e)))) by reflexivity.
  rewrite Hcur in Hrun. cbn [mbind option_bind] in Hrun.
  assert (HrawS : RawMatchList (Source e') = RawMatchList (Source e)) by reflexivity.
  assert (HrawT : RawMatchList (Target e') = RawMatchList (Target e)) by reflexivity.
  destruct (Configs.matchesLoop ConfigIdKey e' (range_of 5%nat matched) ∅)
    as [matches|] eqn:Eloop; [|discriminate].
  cbn [mbind option_bind] in Hrun.
  destruct (mapM (Configs.configId ConfigIdKey (RawMatchList (Source e'))) _)
    as [unMatched|] eqn:Eun; [|discriminate].
  cbn [mbind option_bind] in Hrun. injection Hrun as <-.
  cbn [Configs.UnMatched Configs.Matches Configs.MultiMatched].
  rewrite HrawS in Eun.
  split; [|split].
  - intros id. unfold Configs.getMultiMatched in Emulti.
    destruct (Configs.printMultiMatchedSample (CompareResults remaining) e);
      [|discriminate].
    cbn [mbind option_bind] in Emulti. unfold Configs.genMultiMatchedMap in Emulti.
    destruct (CompareResults remaining) as [|first rest].
    + injection Emulti as <-. rewrite lookup_empty. split.
      * intros [? ?]; discriminate.
      * intros (z & Hz & _). inversion Hz.
    + rewrite (configs_groupLoop_keys _ _ _ _ _ _ Emulti id), lookup_empty. cbn [map].
      split.
      * intros [[? ?] | (z & Hz & Hzid)]; [discriminate|]. exists z.
        split; [|exact Hzid]. destruct Hz as [-> | Hz]; [left | by right].
      * intros (z & Hz & Hzid). right. exists z. split; [|exact Hzid].
        apply elem_of_cons in Hz as [-> | Hz]; auto.
  - intros id. rewrite (mapM_elem_of _ _ _ Eun id). split.
    + intros (i & Hi & Hid). exists i.
      apply list_elem_of_In, filter_In in Hi as [Hi Hf].
      apply negb_true_iff, bool_decide_eq_false in Hf.
      split; [apply list_elem_of_In, Hi|]. split; [|exact Hid].
      intros Hin. apply Hf. unfold getLeftId.
      rewrite (fmap_Permutation LeftId _ _ (sort_by_perm _ ByLeft _)). exact Hin.
    + intros (i & Hi & Hno & Hid). exists i. split; [|exact Hid].
      apply list_elem_of_In, filter_In. split; [apply list_elem_of_In, Hi|].
      apply negb_true_iff, bool_decide_eq_false. intros Hin. apply Hno.
      unfold getLeftId in Hin.
      rewrite (fmap_Permutation LeftId _ _ (sort_by_perm _ ByLeft _)) in Hin. exact Hin.
  - intros id. destruct (configs_matchesLoop_spec _ e' _ _ _ Eloop) as (Hall & _ & Hfrom).
    rewrite HrawS, HrawT in Hall, Hfrom. split.
    + intros [b Hb]. destruct (Hfrom id b Hb) as [Hold | (s & t & Hin & Hs & _)].
      * rewrite lookup_empty in Hold. discriminate.
      * exists s. apply (range_of_lookup 5) in Hin. split; [eauto | exact Hs].
    + intros (s & [t Ht] & Hs).
      destruct (Hall s t) as (a & b & Ha & _ & Hsome); [by apply range_of_lookup|].
      assert (a = id) by congruence. subst a. exact Hsome.
Qed.

Lemma configId_index (items : list RawItem) (i : Z) (id : string) :
  Configs.configId ConfigIdKey items i = Some id → is_Some (index items i).
Proof.
  unfold Configs.configId. destruct (index items i); [eauto | discriminate].
Qed.

(** The output sets of package [configs], source by source. *)
Lemma configs_source_ids (e : MatchProcessing) (remaining : IndexCompareResultList)
  (matched : gmap Z Z) (out : Configs.MatchOutputType) :
  sourcesAccounted e matched →
  Configs.genOutputPayload ConfigIdKey e remaining matched = Some out →
  distinctIds (Configs.configId ConfigIdKey (RawMatchList (Source e))) →
  ∀ i id, Configs.configId ConfigIdKey (RawMatchList (Source e)) i = Some id →
    (id ∈ Configs.UnMatched out →
       Configs.Matches out !! id = None ∧ Configs.MultiMatched out !! id = None)
    ∧ (is_Some (Configs.Matches out !! id) ∨ is_Some (Configs.MultiMatched out !! id)
       ∨ id ∈ Configs.UnMatched out)
    ∧ (is_Some (matched !! i) ↔ is_Some (Configs.Matches out !! id)).
Proof.
  intros (Hone & Hcov & Hdisj) Hrun Hd i id Hid.
  destruct (configs_output_keys _ _ _ _ Hrun) as (Hmulti & Hun & Hmatches).
  assert (Hcommitted : is_Some (matched !! i) ↔ is_Some (Configs.Matches out !! id)).
  { rewrite Hmatches. split; [eauto|].
    intros (s & Hs & Hsid). assert (s = i) by (by apply (Hd s i id)). by subst s. }
  split; [|split; [|exact Hcommitted]].
  - intros Hin. apply Hun in Hin as (j & Hj & Hno & Hjid).
    assert (j = i) by (by apply (Hd j i id)). subst j. split.
    + destruct (Configs.Matches out !! id) as [b|] eqn:Eb; [|reflexivity]. exfalso.
      apply (Hdisj i); [|exact Hj]. apply Hcommitted. eauto.
    + destruct (Configs.MultiMatched out !! id) as [l|] eqn:El; [|reflexivity]. exfalso.
      assert (Hs : is_Some (Configs.MultiMatched out !! id)) by (rewrite El; eauto).
      apply Hmulti in Hs as (z & Hz & Hzid).
      assert (z = i) by (by apply (Hd z i id)). subst z. contradiction.
  - destruct (Hcov i (configId_index _ _ _ Hid)) as [Hc | Hr].
    + left. by apply Hcommitted.
    + destruct (decide (i ∈ map LeftId (CompareResults remaining))) as [Hin | Hout].
      * right. left. apply Hmulti. eauto.
      * right. right. apply Hun. eauto.
Qed.

End ConfigsSets.

Lemma candidatesOf_last (z : Z) (l : list CompareResult) :
  z ∈ map LeftId l → is_Some (last (candidatesOf z l)).
Proof.
  intros Hz. apply list_elem_of_fmap in Hz as (c & -> & Hc).
  destruct (last (candidatesOf (LeftId c) l)) eqn:El; [eauto|].
  apply last_None in El. exfalso.
  assert (Hin : c ∈ candidatesOf (LeftId c) l).
  { unfold candidatesOf. apply list_elem_of_In, filter_In.
    split; [by apply list_elem_of_In | apply Z.eqb_refl]. }
  rewrite El in Hin. inversion Hin.
Qed.

Section RunAccounts.
Context `{GoSort} `{IndexCompare}.

(** A tier leaves the record lists as they are, and every source record
    that was committed or remaining before it is committed or remaining
    after it. *)
Lemma runTier_accounts (indexRuleType : IndexRuleType) (st st' : RunState) :
  runInvariant st → runTier indexRuleType st = Some st' →
  RawMatchList (Source (processing st')) = RawMatchList (Source (processing st))
  ∧ ∀ i, is_Some (fst (matchedEntities st) !! i)
         ∨ i ∈ RemainingMatch (Source (processing st)) →
         is_Some (fst (matchedEntities st') !! i)
         ∨ i ∈ RemainingMatch (Source (processing st')).
Proof.
  intros (HsS & HsT & _) Hrun. unfold runTier in Hrun.
  pose proof (PrepareRemainingMatch_remaining true (IsSeed indexRuleType)
                (processing st) (remainingResults st)) as [HpS HpT].
  pose proof (PrepareRemainingMatch_raw true (IsSeed indexRuleType)
                (processing st) (remainingResults st)) as [HrS _].
  destruct (PrepareRemainingMatch true (IsSeed indexRuleType)
              (processing st) (remainingResults st)) as [e1 remaining1].
  cbn [fst] in HpS, HpT, HrS.
  destruct (runRules (IndexRules indexRuleType) indexRuleType e1
              (newIndexCompareResultList indexRuleType) 0) as [resultList1 maxMatchValue].
  destruct (MergeRemainingWeightType resultList1 remaining1) as [resultList2 rem2].
  destruct (ProcessMatches (SplitMatch indexRuleType) maxMatchValue resultList2)
    as [[resultList3 unique]|]; cbn [mbind option_bind] in Hrun; [|discriminate].
  destruct (adjustremainingMatch e1 unique) as [[e2 unique']|] eqn:Eadj;
    cbn [mbind option_bind] in Hrun; [|discriminate].
  injection Hrun as <-. cbn [processing matchedEntities].
  destruct (adjustremainingMatch_spec _ _ _ _ Eadj) as (Hperm & (idsL & HpL & HsubS) & _).
  rewrite HpS in HsubS.
  destruct (subtractSorted_spec _ _ _ HsS HsubS) as (_ & _ & _ & HiffL).
  split.
  - rewrite <- HrS. unfold adjustremainingMatch, reduceRemainingMatchList in Eadj.
    destruct (subtractSorted (RemainingMatch (Source e1)) _) as [rs|];
      cbn in Eadj; [|discriminate].
    destruct (subtractSorted (RemainingMatch (Target e1)) _) as [rt|];
      cbn in Eadj; [|discriminate].
    injection Eadj as <- _. reflexivity.
  - intros i Hi. destruct (matchedEntities st) as [m flag]. cbn [fst] in *.
    rewrite keepMatches_lookup.
    destruct (decide (i ∈ map LeftId unique')) as [Hin | Hout].
    + left. destruct (candidatesOf_last i unique' Hin) as [r ->]. eauto.
    + destruct Hi as [Hm | Hr].
      * left. destruct (last (candidatesOf i unique')); [eauto | exact Hm].
      * right. apply HiffL. split; [exact Hr|].
        rewrite HpL, <- (fmap_Permutation LeftId _ _ Hperm). exact Hout.
Qed.

Lemma runTiers_accounts (ruleTypes : list IndexRuleType) :
  ∀ st st', runInvariant st → runTiers ruleTypes st = Some st' →
  RawMatchList (Source (processing st')) = RawMatchList (Source (processing st))
  ∧ ∀ i, is_Some (fst (matchedEntities st) !! i)
         ∨ i ∈ RemainingMatch (Source (processing st)) →
         is_Some (fst (matchedEntities st') !! i)
         ∨ i ∈ RemainingMatch (Source (processing st')).
Proof.
  induction ruleTypes as [|rt l IH]; intros st st' Hinv Hrun; cbn [runTiers] in Hrun.
  - injection Hrun as <-. auto.
  - destruct (runTier rt st) as [st1|] eqn:E1; cbn [mbind option_bind] in Hrun;
      [|discriminate].
    destruct (runTier_accounts _ _ _ Hinv E1) as [Hraw1 Hacc1].
    destruct (IH _ _ (runTier_invariant _ _ _ Hinv E1) Hrun) as [Hraw2 Hacc2].
    split; [congruence | auto].
Qed.

Context `{RawMatchListSort}.

(** Every run that completes accounts for its sources. *)
Lemma RunIndexRuleAll_accounts (i : IndexRuleMapGenerator)
  (source : list RawItem) (sourceType : EntityType)
  (target : list RawItem) (targetType : EntityType)
  (e : MatchProcessing) (st : RunState) :
  NewMatchProcessing source sourceType target targetType = Some e →
  RunIndexRuleAll i e = Some st →
  sourcesAccounted (processing st) (fst (matchedEntities st)).
Proof.
  unfold RunIndexRuleAll. intros Hnew Hrun.
  destruct (NewMatchProcessing_sorted _ _ _ _ _ Hnew) as [HS HT].
  pose proof (initial_invariant e HS HT) as Hinit.
  destruct (runTiers_invariant _ _ _ Hinit Hrun) as (_ & _ & _ & Hout & Hinj).
  destruct (runTiers_accounts _ _ _ Hinit Hrun) as [Hraw Hacc].
  split; [exact Hinj|]. split.
  - intros k Hk. apply Hacc. right. rewrite Hraw in Hk. cbn [processing initialRunState] in *.
    unfold NewMatchProcessing in Hnew.
    destruct (rawSort source) as [ss|]; cbn in Hnew; [|discriminate].
    destruct (rawSort target) as [ts|]; cbn in Hnew; [|discriminate].
    injection Hnew as <-. cbn in *. by apply genRemainingMatchList_elem_of.
  - intros k [t Hk]. destruct (Hout _ _ Hk) as [Hno _]. exact Hno.
Qed.

End RunAccounts.

Section ThreeSets.
Context `{GoSort} `{MapRange}.

(** C3, as the code has it.  For the state that a run leaves (every source
    record committed or remaining, never both) and records with pairwise
    different ids: the id of every source record is a key of [Matches], a
    key of [MultiMatched] or a member of [UnMatched], unless it is a key of
    the previous run's [Matches] whose previous target another source
    holds in [Matches]; a member of [UnMatched] is in neither of the other
    two sets; the id of a committed source is a key of [Matches]; a
    remaining source is a key of [Matches] only through the previous run
    or, promoted by first seen, as a key of [MultiMatched]; a key of the
    previous run's [Matches] is neither in [MultiMatched] nor in
    [UnMatched].  For configs, which know no previous run and no
    promotion, every source id is in one of the three sets, a member of
    [UnMatched] in no other, and the keys of [Matches] are the ids of the
    committed sources.  In both packages a committed source that still has
    candidates is a key of [Matches] and of [MultiMatched]. *)
Theorem source_ids_in_output_sets (e : MatchProcessing)
  (remaining : IndexCompareResultList) (matched : gmap Z Z)
  (prev out : MatchOutputType) (ConfigIdKey : string)
  (configsOut : Configs.MatchOutputType) :
  sourcesAccounted e matched →
  (genOutputPayload e remaining matched prev = Some out →
   distinctIds (entityId (RawMatchList (Source e))) →
   distinctIds (entityId (RawMatchList (Target e))) →
   ∀ i id, entityId (RawMatchList (Source e)) i = Some id →
     (id ∈ UnMatched out → Matches out !! id = None ∧ MultiMatched out !! id = None)
     ∧ (is_Some (Matches out !! id) ∨ is_Some (MultiMatched out !! id)
        ∨ id ∈ UnMatched out
        ∨ ∃ t s', Matches prev !! id = Some t ∧ s' ≠ id ∧ Matches out !! s' = Some t)
     ∧ (is_Some (matched !! i) → is_Some (Matches out !! id))
     ∧ (matched !! i = None → Matches prev !! id = None →
        is_Some (Matches out !! id) → is_Some (MultiMatched out !! id))
     ∧ (is_Some (Matches prev !! id) →
        MultiMatched out !! id = None ∧ ¬ id ∈ UnMatched out))
  ∧ (Configs.genOutputPayload ConfigIdKey e remaining matched = Some configsOut →
     distinctIds (Configs.configId ConfigIdKey (RawMatchList (Source e))) →
     ∀ i id, Configs.configId ConfigIdKey (RawMatchList (Source e)) i = Some id →
       (id ∈ Configs.UnMatched configsOut →
          Configs.Matches configsOut !! id = None
          ∧ Configs.MultiMatched configsOut !! id = None)
       ∧ (is_Some (Configs.Matches configsOut !! id)
          ∨ is_Some (Configs.MultiMatched configsOut !! id)
          ∨ id ∈ Configs.UnMatched configsOut)
       ∧ (is_Some (matched !! i) ↔ is_Some (Configs.Matches configsOut !! id))).
Proof.
  intros Hacc. split.
  - intros Hrun HdS HdT. exact (entities_source_ids _ _ _ _ _ Hacc Hrun HdS HdT).
  - intros Hrun Hd. exact (configs_source_ids _ _ _ _ _ Hacc Hrun Hd).
Qed.

End ThreeSets.

Lemma leftover_run :
  NewMatchProcessing (H := sortById (H := goSort) "entityId")
    leftoverSource sampleType leftoverTarget sampleType = Some leftoverContext
  ∧ RunIndexRuleAll (H := goSort) (H0 := specIndexCompare (H := goSort))
      leftoverGenerator leftoverContext = Some leftoverFinal
  ∧ fst (matchedEntities leftoverFinal) = {[ 0 := 0 ]}
  ∧ CompareResults (remainingResults leftoverFinal) = [mkResult 0 1 5]
  ∧ RemainingMatch (Source (processing leftoverFinal)) = [1]
  ∧ RawMatchList (Source (processing leftoverFinal)) = leftoverSource
  ∧ RawMatchList (Target (processing leftoverFinal)) = leftoverTarget.
Proof. repeat split; vm_compute; reflexivity. Qed.

Ltac index_cases H :=
  match type of H with
  | entityId ?l _ = Some _ =>
      let Hi := fresh "Hi" in
      pose proof (proj2 (genRemainingMatchList_elem_of l _) (entityId_index _ _ _ H)) as Hi;
      change (genRemainingMatchList l) with [0; 1] in Hi;
      apply elem_of_cons in Hi as [-> | Hi];
      [|apply list_elem_of_singleton in Hi as ->]
  | Configs.configId ?k ?l _ = Some _ =>
      let Hi := fresh "Hi" in
      pose proof (proj2 (genRemainingMatchList_elem_of l _) (configId_index k _ _ _ H)) as Hi;
      change (genRemainingMatchList l) with [0; 1] in Hi;
      apply elem_of_cons in Hi as [-> | Hi];
      [|apply list_elem_of_singleton in Hi as ->]
  end.

Lemma source_ids_in_output_sets_witness :
  sourcesAccounted (processing leftoverFinal) (fst (matchedEntities leftoverFinal))
  ∧ genOutputPayload (H := goSort) (H0 := listRange)
      (processing leftoverFinal) (remainingResults leftoverFinal)
      (fst (matchedEntities leftoverFinal)) emptyOutput = Some leftoverOutput
  ∧ Configs.genOutputPayload (H := goSort) (H0 := listRange) "entityId"
      (processing leftoverFinal) (remainingResults leftoverFinal)
      (fst (matchedEntities leftoverFinal)) = Some leftoverConfigs
  ∧ (is_Some (Matches leftoverOutput !! "S0")
     ∧ is_Some (MultiMatched leftoverOutput !! "S0")
     ∧ (is_Some (fst (matchedEntities leftoverFinal) !! 0) →
        is_Some (Matches leftoverOutput !! "S0")))
  ∧ ("S1" ∈ UnMatched leftoverOutput →
     Matches leftoverOutput !! "S1" = None ∧ MultiMatched leftoverOutput !! "S1" = None)
  ∧ (is_Some (fst (matchedEntities leftoverFinal) !! 0)
     ↔ is_Some (Configs.Matches leftoverConfigs !! "S0")).
Proof.
  destruct leftover_run as (_ & _ & Hm & _ & Hrem & HrawS & HrawT).
  assert (Hacc : sourcesAccounted (processing leftoverFinal)
                   (fst (matchedEntities leftoverFinal))).
  { unfold sourcesAccounted. rewrite Hm, Hrem, HrawS. split; [|split].
    - intros s1 s2 t H1 H2.
      apply lookup_singleton_Some in H1 as [<- _].
      apply lookup_singleton_Some in H2 as [<- _]. reflexivity.
    - intros i Hi. apply genRemainingMatchList_elem_of in Hi.
      change (genRemainingMatchList leftoverSource) with [0; 1] in Hi.
      apply elem_of_cons in Hi as [-> | Hi]; [left; by eexists | right; exact Hi].
    - intros i [t Hi]. apply lookup_singleton_Some in Hi as [<- _].
      intros Hin. apply list_elem_of_singleton in Hin. discriminate Hin. }
  assert (Hrun : genOutputPayload (H := goSort) (H0 := listRange)
      (processing leftoverFinal) (remainingResults leftoverFinal)
      (fst (matchedEntities leftoverFinal)) emptyOutput = Some leftoverOutput)
    by (vm_compute; reflexivity).
  assert (Hcfg : Configs.genOutputPayload (H := goSort) (H0 := listRange) "entityId"
      (processing leftoverFinal) (remainingResults leftoverFinal)
      (fst (matchedEntities leftoverFinal)) = Some leftoverConfigs)
    by (vm_compute; reflexivity).
  assert (HdS : distinctIds (entityId (RawMatchList (Source (processing leftoverFinal))))).
  { rewrite HrawS. intros i j id Hi Hj.
    index_cases Hi; index_cases Hj; try reflexivity;
      vm_compute in Hi, Hj; congruence. }
  assert (HdT : distinctIds (entityId (RawMatchList (Target (processing leftoverFinal))))).
  { rewrite HrawT. intros i j id Hi Hj.
    index_cases Hi; index_cases Hj; try reflexivity;
      vm_compute in Hi, Hj; congruence. }
  assert (HdC : distinctIds (Configs.configId "entityId"
                               (RawMatchList (Source (processing leftoverFinal))))).
  { rewrite HrawS. intros i j id Hi Hj.
    index_cases Hi; index_cases Hj; try reflexivity;
      vm_compute in Hi, Hj; congruence. }
  destruct (source_ids_in_output_sets (H := goSort) (H0 := listRange)
              (processing leftoverFinal) (remainingResults leftoverFinal)
              (fst (matchedEntities leftoverFinal)) emptyOutput leftoverOutput
              "entityId" leftoverConfigs Hacc) as [Hent Hcon].
  specialize (Hent Hrun HdS HdT). specialize (Hcon Hcfg HdC).
  split; [exact Hacc|]. split; [exact Hrun|]. split; [exact Hcfg|].
  assert (H0id : entityId (RawMatchList (Source (processing leftoverFinal))) 0 = Some "S0")
    by (vm_compute; reflexivity).
  assert (H1id : entityId (RawMatchList (Source (processing leftoverFinal))) 1 = Some "S1")
    by (vm_compute; reflexivity).
  assert (H0cfg : Configs.configId "entityId"
                    (RawMatchList (Source (processing leftoverFinal))) 0 = Some "S0")
    by (vm_compute; reflexivity).
  destruct (Hent 0 "S0" H0id) as (_ & _ & Hkept & _).
  destruct (Hent 1 "S1" H1id) as (Hun & _).
  destruct (Hcon 0 "S0" H0cfg) as (_ & _ & Hiff).
  split; [|split; [exact Hun | exact Hiff]].
  split; [apply Hkept; rewrite Hm; by eexists|].
  split; [vm_compute; by eexists | exact Hkept].
Defined.
